(** * tsdav: the request/response marshalling core of [src/request.ts]
      and the CardDAV entry points of [src/addressBook.ts]

    A shallow embedding.  JavaScript strings are sequences of code units,
    kept here as [string] (code units below 256); objects are association
    lists in property order; the objects that xml-js builds and that the
    [textFn] callback reaches through parent pointers live in an explicit
    store; asynchronous functions run in a small monad that threads the
    log of external events and a rejection. *)

From Stdlib Require Import String Ascii List ZArith Bool Lia DecimalString DecimalNat QArith Lqa.
From stdpp Require Import base list strings option.

Set Warnings "-register-all".

Local Open Scope string_scope.
Local Open Scope Z_scope.

(** ** Strings and the regular expressions of the source *)

Module JsString.

Definition code (c : ascii) : N := N_of_ascii c.

(** LineTerminator code units in the modelled range: LF and CR. *)
Definition is_line_terminator (c : ascii) : bool :=
  N.eqb (code c) 10 || N.eqb (code c) 13.

(** [\s]: TAB, LF, VT, FF, CR, SPACE and NO-BREAK SPACE. *)
Definition is_space (c : ascii) : bool :=
  (N.leb 9 (code c) && N.leb (code c) 13) || N.eqb (code c) 32 || N.eqb (code c) 160.

(** [\d] *)
Definition is_digit (c : ascii) : bool :=
  N.leb 48 (code c) && N.leb (code c) 57.

Definition digit_value (c : ascii) : Z := Z.of_N (code c) - 48.

Definition colon : ascii := ":"%char.

(** The double quote, as a character and as a text. *)
Definition dquote : ascii := ascii_of_N 34.
Definition quote : string := String dquote EmptyString.

Fixpoint chars (s : string) : list ascii :=
  match s with
  | EmptyString => []
  | String c s' => c :: chars s'
  end.

Fixpoint is_prefix (p s : string) : bool :=
  match p, s with
  | EmptyString, _ => true
  | String a p', String b s' => Ascii.eqb a b && is_prefix p' s'
  | String _ _, EmptyString => false
  end.

(** [String.prototype.includes] *)
Fixpoint includes (s sub : string) : bool :=
  is_prefix sub s ||
  match s with
  | EmptyString => false
  | String _ s' => includes s' sub
  end.

Fixpoint drop_spaces (s : string) : string :=
  match s with
  | String c s' => if is_space c then drop_spaces s' else s
  | EmptyString => EmptyString
  end.

Fixpoint rev_onto (s acc : string) : string :=
  match s with
  | EmptyString => acc
  | String c s' => rev_onto s' (String c acc)
  end.

Definition rev (s : string) : string := rev_onto s EmptyString.

(** [String.prototype.trim] *)
Definition trim (s : string) : string :=
  rev (drop_spaces (rev (drop_spaces s))).

(** The integer that a run of decimal digits denotes. *)
Definition parseInt_digits (ds : string) : Z :=
  fold_left (fun acc c => 10 * acc + digit_value c) (chars ds) 0.

(** The Number nearest to a natural number: below 2^53 the number
    itself, and above it the multiple of the power of two that leaves 53
    significant bits, to nearest and on a tie to the even one. *)
Definition nearest_double (n : Z) : Z :=
  if n <? 2 ^ 53 then n
  else
    let e := Z.log2 n - 52 in
    let q := Z.shiftr n e in
    let r := n - Z.shiftl q e in
    let half := Z.shiftl 1 (e - 1) in
    Z.shiftl (if (half <? r) || ((r =? half) && Z.odd q) then q + 1 else q) e.

(** [Number.parseInt(ds, 10)] on a run of decimal digits: a Number, so
    the integer of the digits only while that is below 2^53.  (From
    2^1024 on JavaScript gives [Infinity], and past the 20th digit
    ECMAScript leaves the digits to the implementation: a code of that
    size is outside this definition, and no statement below is about
    one.) *)
Definition parseInt10 (ds : string) : Z := nearest_double (parseInt_digits ds).

(** Decimal text of a natural number, as [ToString] prints an array
    index or a length. *)
Definition of_nat (n : nat) : string :=
  NilEmpty.string_of_uint (Nat.to_uint n).

Definition of_Z (z : Z) : string :=
  match z with
  | Z0 => "0"
  | Zpos p => of_nat (Pos.to_nat p)
  | Zneg p => "-" +:+ of_nat (Pos.to_nat p)
  end.

End JsString.

(** The three regular expressions of [request.ts] are all anchored at the
    start and are sequences of single-character classes, some under a
    greedy [+].  [exec] is the backtracking matcher for that fragment: it
    returns the text each atom consumed and what is left of the input. *)
Module Regex.
Import JsString.

Inductive cls := Dot | Space | NonSpace | Digit | Lit (c : ascii).
Inductive quant := One | Plus.
Definition atom : Type := cls * quant.

Definition accepts (k : cls) (c : ascii) : bool :=
  match k with
  | Dot => negb (is_line_terminator c)
  | Space => is_space c
  | NonSpace => negb (is_space c)
  | Digit => is_digit c
  | Lit a => Ascii.eqb a c
  end.

(** [to_end] is the trailing [$].  A [+] first tries to take one more
    character and gives it back only when the rest of the pattern fails. *)
Fixpoint exec (to_end : bool) (s : string) (p : list atom) {struct s}
  : option (list string * string) :=
  match p with
  | [] =>
      match s with
      | EmptyString => Some ([], s)
      | String _ _ => if to_end then None else Some ([], s)
      end
  | (k, q) :: rest =>
      match s with
      | EmptyString => None
      | String c s' =>
          if accepts k c then
            let stop :=
              match exec to_end s' rest with
              | Some (caps, tl) => Some (String c EmptyString :: caps, tl)
              | None => None
              end in
            match q with
            | One => stop
            | Plus =>
                match exec to_end s' p with
                | Some (cap :: caps, tl) => Some (String c cap :: caps, tl)
                | _ => stop
                end
            end
          else None
      end
  end.

(** [/^.+:.+/] (request.ts line 47) *)
Definition qualified_name : list atom := [(Dot, Plus); (Lit colon, One); (Dot, Plus)].

(** [/^.+:/] (request.ts line 109) *)
Definition namespace_prefix : list atom := [(Dot, Plus); (Lit colon, One)].

(** [/^\S+\s(?<status>\d+)\s(?<statusText>.+)$/] (request.ts line 123) *)
Definition status_line : list atom :=
  [(NonSpace, Plus); (Space, One); (Digit, Plus); (Space, One); (Dot, Plus)].

(** [re.test(s)] *)
Definition test (p : list atom) (s : string) : bool :=
  match exec false s p with Some _ => true | None => false end.

(** [s.replace(re, '')] for a start-anchored, non-global [re] *)
Definition strip (p : list atom) (s : string) : string :=
  match exec false s p with Some (_, tl) => tl | None => s end.

(** [statusRegex.exec(s)?.groups], as the pair (status, statusText) *)
Definition statusRegex (s : string) : option (string * string) :=
  match exec true s status_line with
  | Some ([_; _; code; _; reason], _) => Some (code, reason)
  | _ => None
  end.

(** The last alternative of [exec] at a character: the atom stops here. *)
Definition stop_here (to_end : bool) (c : ascii) (s : string) (rest : list atom) :=
  match exec to_end s rest with
  | Some (caps, tl) => Some (String c "" :: caps, tl)
  | None => None
  end.

(** The matches of a pattern, without an order of preference. *)
Inductive matches (to_end : bool) : list atom -> string -> list string -> string -> Prop :=
| matches_nil s :
    (to_end = true -> s = "") -> matches to_end [] s [] s
| matches_one k rest c s caps tl :
    accepts k c = true ->
    matches to_end rest s caps tl ->
    matches to_end ((k, One) :: rest) (String c s) (String c "" :: caps) tl
| matches_plus k rest w s caps tl :
    w <> "" -> forallb (accepts k) (chars w) = true ->
    matches to_end rest s caps tl ->
    matches to_end ((k, Plus) :: rest) (w +:+ s) (w :: caps) tl.

(** No line terminator in the text. *)
Definition one_line (s : string) : bool :=
  forallb (fun c => negb (is_line_terminator c)) (chars s).

End Regex.


(** ** JavaScript values *)

Module Js.
Import JsString.

(** A Number that the code only stores, tests and prints (it computes
    with none coming from the document) is kept as the text
    [Number.prototype.toString] gives it: "207", "3.14", "NaN". *)
Definition number : Type := string.

Inductive prim :=
| PUndefined
| PNull
| PBool (b : bool)
| PNum (n : number)
| PStr (s : string).

(** Values without identity: request bodies, and the parsed tree once
    xml-js has returned it. *)
Inductive JsVal :=
| Prim (p : prim)
| Arr (l : list JsVal)
| Obj (o : list (string * JsVal)).

Definition undefined : JsVal := Prim PUndefined.

Inductive error :=
| TypeError (msg : string)
| MalformedXml (msg : string)
| TransportFailure (msg : string)
| OutsideModel (what : string).

Definition result (A : Type) : Type := error + A.
Definition Ok {A} (a : A) : result A := inr a.
Definition Err {A} (e : error) : result A := inl e.

Definition rbind {A B} (r : result A) (k : A -> result B) : result B :=
  match r with
  | inl e => inl e
  | inr a => k a
  end.

(** ToBoolean *)
Definition prim_truthy (p : prim) : bool :=
  match p with
  | PUndefined | PNull => false
  | PBool b => b
  | PNum n => negb (String.eqb n "0" || String.eqb n "-0" || String.eqb n "NaN")
  | PStr s => negb (String.eqb s "")
  end.

Definition truthy (v : JsVal) : bool :=
  match v with
  | Prim p => prim_truthy p
  | Arr _ | Obj _ => true
  end.

Definition prim_toString (p : prim) : string :=
  match p with
  | PUndefined => "undefined"
  | PNull => "null"
  | PBool true => "true"
  | PBool false => "false"
  | PNum n => n
  | PStr s => s
  end.

Definition join (sep : string) (parts : list string) : string :=
  match parts with
  | [] => ""
  | p :: ps => fold_left (fun acc q => acc +:+ sep +:+ q) ps p
  end.

(** ToString; [Array.prototype.join] prints undefined and null as the
    empty string. *)
Fixpoint toString (v : JsVal) : string :=
  match v with
  | Prim p => prim_toString p
  | Obj _ => "[object Object]"
  | Arr l =>
      join "," (map (fun x => match x with
                              | Prim PUndefined | Prim PNull => ""
                              | _ => toString x
                              end) l)
  end.

Definition isArray (v : JsVal) : bool :=
  match v with Arr _ => true | _ => false end.

(** *** Objects: own properties in [Object.keys] order *)

(** An array index is the canonical decimal text of an integer below
    2^32 - 1; such keys come first, in ascending order, before the other
    keys in insertion order. *)
Definition array_index (k : string) : option Z :=
  match k with
  | EmptyString => None
  | String c k' =>
      if forallb is_digit (chars k)
         && (negb (Ascii.eqb c "0"%char) || String.eqb k' "")
         && Nat.leb (String.length k) 10
         && (parseInt_digits k <? 4294967295)
      then Some (parseInt_digits k) else None
  end.

Section Objects.
Context {V : Type}.

Fixpoint obj_get (o : list (string * V)) (k : string) : option V :=
  match o with
  | [] => None
  | (k', v) :: o' => if String.eqb k' k then Some v else obj_get o' k
  end.

Definition obj_has (o : list (string * V)) (k : string) : bool :=
  match obj_get o k with Some _ => true | None => false end.

Fixpoint obj_replace (o : list (string * V)) (k : string) (v : V) : list (string * V) :=
  match o with
  | [] => []
  | (k', v') :: o' =>
      if String.eqb k' k then (k', v) :: o' else (k', v') :: obj_replace o' k v
  end.

Fixpoint obj_add_index (o : list (string * V)) (i : Z) (k : string) (v : V)
  : list (string * V) :=
  match o with
  | [] => [(k, v)]
  | (k', v') :: o' =>
      match array_index k' with
      | Some j => if j <? i then (k', v') :: obj_add_index o' i k v else (k, v) :: o
      | None => (k, v) :: o
      end
  end.

(** [o[k] = v] *)
Definition obj_set (o : list (string * V)) (k : string) (v : V) : list (string * V) :=
  if obj_has o k then obj_replace o k v
  else match array_index k with
       | Some i => obj_add_index o i k v
       | None => o ++ [(k, v)]
       end.

(** [delete o[k]] *)
Fixpoint obj_delete (o : list (string * V)) (k : string) : list (string * V) :=
  match o with
  | [] => []
  | (k', v') :: o' =>
      if String.eqb k' k then o' else (k', v') :: obj_delete o' k
  end.

Definition keys (o : list (string * V)) : list string := map fst o.

Fixpoint indexed_from (i : nat) (l : list V) : list (string * V) :=
  match l with
  | [] => []
  | x :: l' => (of_nat i, x) :: indexed_from (S i) l'
  end.

(** the own properties of an array: its elements under their indices *)
Definition indexed (l : list V) : list (string * V) := indexed_from 0 l.

(** [acc[k] = v] for every entry in turn *)
Definition set_all (acc entries : list (string * V)) : list (string * V) :=
  fold_left (fun a kv => obj_set a (fst kv) (snd kv)) entries acc.

End Objects.

Definition char_entries (s : string) : list (string * JsVal) :=
  indexed (map (fun c => Prim (PStr (String c EmptyString))) (chars s)).

(** The own enumerable properties that [{...v}] and [for (k in v)] see. *)
Definition own_entries (v : JsVal) : list (string * JsVal) :=
  match v with
  | Obj o => o
  | Arr l => indexed l
  | Prim (PStr s) => char_entries s
  | Prim _ => []
  end.

(** [{...acc, ...v}] *)
Definition spread (acc : list (string * JsVal)) (v : JsVal) : list (string * JsVal) :=
  fold_left (fun a kv => obj_set a (fst kv) (snd kv)) (own_entries v) acc.

(** [v[k]] for the property names the source reads from parsed values
    (none of them a member of [Object.prototype]). *)
Definition get (v : JsVal) (k : string) : result JsVal :=
  match v with
  | Prim PUndefined | Prim PNull =>
      Err (TypeError ("Cannot read properties of " +:+ toString v +:+ " (reading '" +:+ k +:+ "')"))
  | Obj o => Ok (default undefined (obj_get o k))
  | Arr l =>
      if String.eqb k "length" then Ok (Prim (PNum (of_nat (List.length l))))
      else Ok (default undefined (obj_get (indexed l) k))
  | Prim (PStr s) =>
      if String.eqb k "length" then Ok (Prim (PNum (of_nat (String.length s))))
      else Ok (default undefined (obj_get (char_entries s) k))
  | Prim _ => Ok undefined
  end.

(** [v?.[k]] *)
Definition get_opt (v : JsVal) (k : string) : JsVal :=
  match get v k with
  | inr x => x
  | inl _ => undefined
  end.

End Js.


(** ** The store of objects that xml-js builds while it parses

    [xml2js] keeps a pointer to the element under construction and gives
    every element a [_parent] property; [textFn] (request.ts lines 87-107)
    follows that pointer and assigns into the parent.  Objects and arrays
    therefore have identity here: a value is a primitive or a location. *)

Module Store.
Import JsString Js.

Abbreviation loc := nat.

Inductive val :=
| VPrim (p : prim)
| VRef (l : loc).

Inductive cell :=
| CObj (ps : list (string * val))
| CArr (es : list val).

Abbreviation heap := (list cell).

Definition vundefined : val := VPrim PUndefined.

Definition alloc (h : heap) (c : cell) : heap * loc := ((h ++ [c])%list, List.length h).

Definition val_truthy (v : val) : bool :=
  match v with
  | VPrim p => prim_truthy p
  | VRef _ => true
  end.

Definition val_isArray (h : heap) (v : val) : bool :=
  match v with
  | VRef l => match h !! l with Some (CArr _) => true | _ => false end
  | VPrim _ => false
  end.

(** Names every object inherits from [Object.prototype]; an element of
    such a name is outside the modelled documents. *)
Definition Object_prototype_members : list string :=
  [ "constructor"; "hasOwnProperty"; "isPrototypeOf"; "propertyIsEnumerable";
    "toLocaleString"; "toString"; "valueOf"; "__proto__";
    "__defineGetter__"; "__defineSetter__"; "__lookupGetter__"; "__lookupSetter__" ].

Definition inherited (k : string) : bool :=
  existsb (String.eqb k) Object_prototype_members.

Definition type_error {A} (msg : string) : result A := Err (TypeError msg).
Definition outside {A} (what : string) : result A := Err (OutsideModel what).

(** [o[k]] where [o] is the object at [l] and [k] may be any element name *)
Definition obj_prop (h : heap) (l : loc) (k : string) : result val :=
  match h !! l with
  | Some (CObj ps) =>
      match obj_get ps k with
      | Some v => Ok v
      | None => if inherited k then outside "a property of Object.prototype"
                else Ok vundefined
      end
  | _ => outside "the current element is not a plain object"
  end.

(** [o[k] = v] on the object at [l] *)
Definition obj_assign (h : heap) (l : loc) (k : string) (v : val) : result heap :=
  match h !! l with
  | Some (CObj ps) => Ok (<[l := CObj (obj_set ps k v)]> h)
  | _ => outside "the current element is not a plain object"
  end.

(** [v[k]] for an own key [k] of [v], or a key no prototype has *)
Definition get_prop (h : heap) (v : val) (k : string) : result val :=
  match v with
  | VPrim PUndefined | VPrim PNull => type_error "Cannot read properties of undefined"
  | VPrim (PStr s) =>
      Ok (default vundefined
            (obj_get (indexed (map (fun c => VPrim (PStr (String c EmptyString))) (chars s))) k))
  | VPrim _ => Ok vundefined
  | VRef l =>
      match h !! l with
      | Some (CObj ps) => Ok (default vundefined (obj_get ps k))
      | Some (CArr es) => Ok (default vundefined (obj_get (indexed es) k))
      | None => outside "a dangling reference"
      end
  end.

(** [Object.keys(v)] *)
Definition object_keys (h : heap) (v : val) : result (list string) :=
  match v with
  | VPrim PUndefined | VPrim PNull =>
      type_error "Cannot convert undefined or null to object"
  | VPrim (PStr s) => Ok (keys (indexed (chars s)))
  | VPrim _ => Ok []
  | VRef l =>
      match h !! l with
      | Some (CObj ps) => Ok (keys ps)
      | Some (CArr es) => Ok (keys (indexed es))
      | None => outside "a dangling reference"
      end
  end.

(** [v.length], when it is the length of an array or of a string;
    [None] stands for [undefined]. *)
Definition length_prop (h : heap) (v : val) : result (option nat) :=
  match v with
  | VPrim PUndefined | VPrim PNull => type_error "Cannot read properties of undefined (reading 'length')"
  | VPrim (PStr s) => Ok (Some (String.length s))
  | VPrim _ => Ok None
  | VRef l =>
      match h !! l with
      | Some (CArr es) => Ok (Some (List.length es))
      | Some (CObj ps) =>
          if obj_has ps "length" then outside "an element that has a child named length"
          else Ok None
      | None => outside "a dangling reference"
      end
  end.

(** [arr[i] = x], [i] inside the array; assigning to an index of a
    primitive string throws in a module (strict code). *)
Definition set_index (h : heap) (arr : val) (i : nat) (x : val) : result heap :=
  match arr with
  | VRef l =>
      match h !! l with
      | Some (CArr es) => Ok (<[l := CArr (<[i := x]> es)]> h)
      | _ => outside "an index assignment to an object"
      end
  | VPrim _ => type_error "Cannot assign to read only property of string"
  end.

(** [v[k] = x] for an own key [k] of [v] *)
Definition set_prop (h : heap) (v : val) (k : string) (x : val) : result heap :=
  match v with
  | VRef l =>
      match h !! l with
      | Some (CObj ps) => Ok (<[l := CObj (obj_set ps k x)]> h)
      | Some (CArr es) =>
          match array_index k with
          | Some i => if Nat.ltb (Z.to_nat i) (List.length es) then Ok (<[l := CArr (<[Z.to_nat i := x]> es)]> h)
                      else outside "an assignment past the end of an array"
          | None => outside "a named property on an array"
          end
      | None => outside "a dangling reference"
      end
  | VPrim _ => type_error "Cannot create property on a primitive"
  end.

(** The value at [v] as a tree, once no cycle is left.  [fuel] bounds the
    depth; a store of [n] cells has no acyclic path longer than [n]. *)
Fixpoint reify (fuel : nat) (h : heap) (v : val) : option JsVal :=
  match v with
  | VPrim p => Some (Prim p)
  | VRef l =>
      match fuel with
      | O => None
      | S fuel' =>
          match h !! l with
          | Some (CObj ps) =>
              Obj <$> mapM (fun kv => pair (fst kv) <$> reify fuel' h (snd kv)) ps
          | Some (CArr es) => Arr <$> mapM (reify fuel' h) es
          | None => None
          end
      end
  end.

End Store.

(** ** [convert.xml2js] with the options of [davRequest] (lines 84-116)

    xml-js is an external package.  What follows is its compact converter
    for [{compact: true, trim: true, ignoreDeclaration: true}] over the
    events of a document made of elements and character data (comments,
    CDATA sections and processing instructions are left out), calling the
    three callbacks that [davRequest] passes. *)

Module Xml2js.
Import JsString Js Store.

Inductive xml :=
| Element (name : string) (attributes : list (string * string)) (children : list xml)
| Text (text : string).

(** What the SAX tokenizer reports, in document order. *)
Inductive sax_event :=
| OpenTag (name : string) (attributes : list (string * string))
| TextNode (text : string)
| CloseTag (name : string).

Fixpoint events (x : xml) : list sax_event :=
  match x with
  | Text t => [TextNode t]
  | Element n a cs => (OpenTag n a :: flat_map events cs ++ [CloseTag n])%list
  end.

Record state := { store : heap; currentElement : val }.

Section Callbacks.
(** [util/camelCase] and [util/nativeType] are not among the sources;
    the callbacks are parametric in them. *)
Variable camelCase : string -> string.
Variable nativeType : string -> prim.

(** line 109: [(attributeName) => camelCase(attributeName.replace(/^.+:/, ''))] *)
Definition elementNameFn (attributeName : string) : string :=
  camelCase (Regex.strip Regex.namespace_prefix attributeName).

(** lines 110-114: [{ ...value }], then [delete newVal.xmlns] *)
Definition attributesFn (value : list (string * string)) : list (string * string) :=
  let newVal := fold_left (fun o kv => obj_set o (fst kv) (snd kv)) value [] in
  obj_delete newVal "xmlns".

(** lines 91-103, the body of the [try] *)
Definition textFn_body (value : string) (parentElement : val) (h : heap) : result heap :=
  rbind (get_prop h parentElement "_parent") (fun parentOfParent =>
  rbind (object_keys h parentOfParent) (fun pOpKeys =>
  let keyNo := List.length pOpKeys in
  let keyName :=
    match keyNo with
    | O => "undefined"
    | S i => default "undefined" (pOpKeys !! i)
    end in
  rbind (get_prop h parentOfParent keyName) (fun arrOfKey =>
  rbind (length_prop h arrOfKey) (fun arrOfKeyLen =>
  match arrOfKeyLen with
  | Some (S arrIndex) => set_index h arrOfKey arrIndex (VPrim (nativeType value))
  | _ => set_prop h parentOfParent keyName (VPrim (nativeType value))
  end)))).

(** lines 87-107: a thrown error is caught and logged; the callback
    returns nothing. *)
Definition textFn (value : string) (parentElement : val) (h : heap) : result (heap * val) :=
  match textFn_body value parentElement h with
  | inr h' => Ok (h', vundefined)
  | inl (OutsideModel w) => Err (OutsideModel w)
  | inl _ => Ok (h, vundefined)
  end.

(** xml-js [manipulateAttributes]: [attributesFn], then [trim] on every
    value. *)
Definition manipulateAttributes (attributes : list (string * string))
  : list (string * string) :=
  map (fun kv => (fst kv, trim (snd kv))) (attributesFn attributes).

(** xml-js [onStartElement], compact branch, from the point where
    [element] exists: the new element is put under [name] in the current
    element, beside the elements already there, and becomes the current
    element. *)
Definition attachElement (name : string) (cur element : loc) (h : heap) : result state :=
  (* if (currentElement[name] && !isArray(currentElement[name])) currentElement[name] = [currentElement[name]] *)
  rbind (obj_prop h cur name) (fun existing =>
  rbind (if val_truthy existing && negb (val_isArray h existing)
         then let '(h, arr) := alloc h (CArr [existing]) in
              obj_assign h cur name (VRef arr)
         else Ok h) (fun h =>
  (* isArray(currentElement[name]) ? push(element) : currentElement[name] = element *)
  rbind (obj_prop h cur name) (fun slot =>
  rbind (match slot with
         | VRef l =>
             match h !! l with
             | Some (CArr es) => Ok (<[l := CArr (es ++ [VRef element])%list]> h)
             | _ => obj_assign h cur name (VRef element)
             end
         | VPrim _ => obj_assign h cur name (VRef element)
         end) (fun h =>
  (* element._parent = currentElement; currentElement = element *)
  rbind (obj_assign h element "_parent" (VRef cur)) (fun h =>
  Ok {| store := h; currentElement := VRef element |}))))).

(** xml-js [onStartElement], compact branch *)
Definition onStartElement (name : string) (attributes : list (string * string))
  (st : state) : result state :=
  match currentElement st with
  | VPrim _ => outside "no current element"
  | VRef cur =>
      let attributes := manipulateAttributes attributes in
      let name := elementNameFn name in
      let h := store st in
      (* element = {}; element._attributes = {...} *)
      let '(h, element_props) :=
        match attributes with
        | [] => (h, [])
        | _ :: _ =>
            let '(h, a) := alloc h (CObj (map (fun kv => (fst kv, VPrim (PStr (snd kv)))) attributes)) in
            (h, [("_attributes", VRef a)])
        end in
      let '(h, element) := alloc h (CObj element_props) in
      attachElement name cur element h
  end.

(** xml-js [addField('text', value)], compact branch *)
Definition addField_text (value : string) (st : state) : result state :=
  match currentElement st with
  | VPrim _ => outside "no current element"
  | VRef cur =>
      let h := store st in
      rbind (obj_prop h cur "_text") (fun existing =>
      rbind (if val_truthy existing && negb (val_isArray h existing)
             then let '(h, arr) := alloc h (CArr [existing]) in
                  obj_assign h cur "_text" (VRef arr)
             else Ok h) (fun h =>
      rbind (textFn value (VRef cur) h) (fun hv =>
      let '(h, value) := hv in
      rbind (obj_prop h cur "_text") (fun slot =>
      rbind (match slot with
             | VRef l =>
                 match h !! l with
                 | Some (CArr es) => Ok (<[l := CArr (es ++ [value])%list]> h)
                 | _ => obj_assign h cur "_text" value
                 end
             | VPrim _ => obj_assign h cur "_text" value
             end) (fun h =>
      Ok {| store := h; currentElement := VRef cur |})))))
  end.

(** xml-js [onText]: white space between elements is dropped, the rest
    is trimmed. *)
Definition onText (text : string) (st : state) : result state :=
  if String.eqb (trim text) "" then Ok st
  else addField_text (trim text) st.

(** xml-js [onEndElement] *)
Definition onEndElement (st : state) : result state :=
  match currentElement st with
  | VPrim _ => outside "no current element"
  | VRef cur =>
      match store st !! cur with
      | Some (CObj ps) =>
          match obj_get ps "_parent" with
          | Some (VRef parentElement) =>
              Ok {| store := <[cur := CObj (obj_delete ps "_parent")]> (store st);
                    currentElement := VRef parentElement |}
          | _ => outside "an element without its parent pointer"
          end
      | _ => outside "the current element is not a plain object"
      end
  end.

Definition handle (ev : sax_event) (st : state) : result state :=
  match ev with
  | OpenTag name attributes => onStartElement name attributes st
  | TextNode text => onText text st
  | CloseTag _ => onEndElement st
  end.

Fixpoint run (evs : list sax_event) (st : state) : result state :=
  match evs with
  | [] => Ok st
  | ev :: evs' => rbind (handle ev st) (run evs')
  end.

(** [result = {}; currentElement = result] *)
Definition initial : state := {| store := [CObj []]; currentElement := VRef 0%nat |}.

(** The object [convert.xml2js] returns for a document. *)
Definition xml2js_document (doc : xml) : result JsVal :=
  rbind (run (events doc) initial) (fun st =>
  match reify (S (List.length (store st))) (store st) (VRef 0%nat) with
  | Some v => Ok v
  | None => outside "a cycle in the parsed tree"
  end).

End Callbacks.
End Xml2js.


(** ** [convert.js2xml] with the options of [davRequest] (lines 36-53)

    The compact writer of xml-js for [{compact: true, spaces: 2}] and an
    [elementNameFn], over trees made of elements, attributes, text and the
    XML declaration.  A tree that carries an instruction, CDATA, doctype or
    comment key is outside the model. *)

Module Js2xml.
Import JsString Js.

Definition newline : string := String (ascii_of_N 10) EmptyString.

Fixpoint spaces_for (depth : nat) : string :=
  match depth with
  | O => ""
  | S d => "  " +:+ spaces_for d
  end.

(** [writeIndentation(options, depth, firstLine)] *)
Definition writeIndentation (depth : nat) (firstLine : bool) : string :=
  (if firstLine then "" else newline) +:+ spaces_for depth.

(** [text.replace(/&amp;/g, '&')] *)
Fixpoint desanitize_from (skip : nat) (s : string) : string :=
  match s with
  | EmptyString => EmptyString
  | String c s' =>
      match skip with
      | S k => desanitize_from k s'
      | O => if is_prefix "&amp;" s then String c (desanitize_from 4 s')
             else String c (desanitize_from 0 s')
      end
  end.

Fixpoint replace_chars (f : ascii -> option string) (s : string) : string :=
  match s with
  | EmptyString => EmptyString
  | String c s' =>
      match f c with
      | Some r => r +:+ replace_chars f s'
      | None => String c (replace_chars f s')
      end
  end.

Definition sanitize_char (c : ascii) : option string :=
  if Ascii.eqb c "&"%char then Some "&amp;"
  else if Ascii.eqb c "<"%char then Some "&lt;"
  else if Ascii.eqb c ">"%char then Some "&gt;"
  else None.

Definition quote_char (c : ascii) : option string :=
  if Ascii.eqb c dquote then Some "&quot;" else None.

(** [writeText] *)
Definition writeText (text : JsVal) : string :=
  replace_chars sanitize_char (desanitize_from 0 (toString text)).

Definition calls_hasOwnProperty (v : JsVal) : result unit :=
  match v with
  | Obj o => if obj_has o "hasOwnProperty"
             then Err (OutsideModel "an own property named hasOwnProperty")
             else Ok tt
  | _ => Ok tt
  end.

(** [writeAttributes] *)
Definition writeAttributes (attributes : JsVal) : result string :=
  rbind (calls_hasOwnProperty attributes) (fun _ =>
  Ok (fold_left
        (fun acc kv =>
           match snd kv with
           | Prim PUndefined | Prim PNull => acc
           | v => acc +:+ " " +:+ fst kv +:+ "=" +:+ quote
                      +:+ replace_chars quote_char (toString v) +:+ quote
           end)
        (own_entries attributes) "")).

(** [hasContentCompact(element, options, anyContent)] *)
Definition key_has_content (anyContent : bool) (key : string) : bool :=
  if String.eqb key "_parent" || String.eqb key "_attributes" then false
  else if String.eqb key "_text" || String.eqb key "_cdata" || String.eqb key "_instruction"
       then anyContent
       else true.

Definition hasContentCompact (element : JsVal) (anyContent : bool) : bool :=
  existsb (key_has_content anyContent) (keys (own_entries element)).

Inductive key_kind := KDeclaration | KSkipped | KText | KUnsupported | KElement.

Definition kind_of (key : string) : key_kind :=
  if String.eqb key "_declaration" then KDeclaration
  else if String.eqb key "_attributes" || String.eqb key "_parent" then KSkipped
  else if String.eqb key "_text" then KText
  else if String.eqb key "_instruction" || String.eqb key "_cdata"
          || String.eqb key "_doctype" || String.eqb key "_comment" then KUnsupported
  else KElement.

Section Writer.
Variable elementNameFn : string -> string.

(** [writeDeclaration] *)
Definition writeDeclaration (declaration : JsVal) : result string :=
  rbind (get declaration "_attributes") (fun a =>
  rbind (writeAttributes a) (fun attrs =>
  Ok ("<?xml" +:+ attrs +:+ "?>"))).

(** [writeElementCompact], with the recursive call to
    [writeElementsCompact] as [children] *)
Definition writeElementCompact_with
  (children : JsVal -> nat -> bool -> result string)
  (element : JsVal) (name : string) (depth : nat) (indent : bool) : result string :=
  let elementName := elementNameFn name in
  match element with
  | Prim PUndefined | Prim PNull | Prim (PStr EmptyString) =>
      Ok ("<" +:+ elementName +:+ "/>")
  | _ =>
      (* [if (name)]: an empty name writes no tag of its own *)
      if String.eqb name "" then children element (S depth) false
      else
        match element with
        | Prim _ =>
            Ok ("<" +:+ elementName +:+ ">" +:+ writeText element
                    +:+ "</" +:+ elementName +:+ ">")
        | Arr _ | Obj _ =>
            let attributes := get_opt element "_attributes" in
            rbind (if truthy attributes then writeAttributes attributes else Ok "")
                  (fun attrs =>
            let withClosingTag :=
              hasContentCompact element true
              || (truthy attributes
                  && match get_opt attributes "xml:space" with
                     | Prim (PStr v) => String.eqb v "preserve"
                     | _ => false
                     end) in
            if withClosingTag then
              rbind (children element (S depth) false) (fun body =>
              Ok ("<" +:+ elementName +:+ attrs +:+ ">" +:+ body
                      +:+ (if indent then writeIndentation depth false else "")
                      +:+ "</" +:+ elementName +:+ ">"))
            else Ok ("<" +:+ elementName +:+ attrs +:+ "/>"))
        end
  end.

(** One pass of the inner loop of [writeElementsCompact]: the text pushed
    for one node under [key], if any. *)
Definition writeNode_with
  (children : JsVal -> nat -> bool -> result string)
  (key : string) (node : JsVal) (depth : nat) (firstLine : bool)
  : result (option string) :=
  match kind_of key with
  | KDeclaration => rbind (writeDeclaration node) (fun x => Ok (Some x))
  | KSkipped => Ok None
  | KText => Ok (Some (writeText node))
  | KUnsupported => Err (OutsideModel "an instruction, CDATA, doctype or comment key")
  | KElement =>
      rbind (writeElementCompact_with children node key depth (hasContentCompact node false))
            (fun x => Ok (Some (writeIndentation depth firstLine +:+ x)))
  end.

(** The accumulator of [writeElementsCompact]: the text so far and
    [firstLine]. *)
Definition push (acc : string * bool) (piece : option string) : string * bool :=
  match piece with
  | Some x => (fst acc +:+ x, false)
  | None => acc
  end.

(** [writeElementsCompact(element, options, depth, firstLine)].  The
    loops run over the own keys of [element] and, under each key, over
    its nodes (the value itself, or its elements when it is an array). *)
Fixpoint writeElementsCompact (element : JsVal) (depth : nat) (firstLine : bool)
  {struct element} : result string :=
  let node_step (key : string) (acc : result (string * bool)) (node : JsVal) :=
    rbind acc (fun a =>
    rbind (writeNode_with writeElementsCompact key node depth (snd a)) (fun piece =>
    Ok (push a piece))) in
  let node_step_leaf (key : string) (acc : result (string * bool)) (node : JsVal) :=
    rbind acc (fun a =>
    rbind (writeNode_with (fun _ _ _ => Ok "") key node depth (snd a)) (fun piece =>
    Ok (push a piece))) in
  let value_step (key : string) (acc : result (string * bool)) (value : JsVal) :=
    match value with
    | Arr nodes =>
        (fix over_nodes (ns : list JsVal) (acc : result (string * bool)) :=
           match ns with
           | [] => acc
           | n :: ns' => over_nodes ns' (node_step key acc n)
           end) nodes acc
    | _ => node_step key acc value
    end in
  match element with
  | Prim (PStr text) =>
      (* the own keys of a string are its indices, each a one-character
         node that is written without a recursive call *)
      rbind (fold_left (fun acc kv => node_step_leaf (fst kv) acc (snd kv))
                       (char_entries text) (Ok ("", firstLine)))
            (fun a => Ok (fst a))
  | Prim _ => Ok ""
  | Obj o =>
      rbind (calls_hasOwnProperty element) (fun _ =>
      rbind ((fix over_keys (o : list (string * JsVal)) (acc : result (string * bool)) :=
                match o with
                | [] => acc
                | (key, value) :: o' => over_keys o' (value_step key acc value)
                end) o (Ok ("", firstLine)))
            (fun a => Ok (fst a)))
  | Arr l =>
      rbind ((fix over_items (i : nat) (l : list JsVal) (acc : result (string * bool)) :=
                match l with
                | [] => acc
                | value :: l' => over_items (S i) l' (value_step (of_nat i) acc value)
                end) O l (Ok ("", firstLine)))
            (fun a => Ok (fst a))
  end.

Definition writeElementCompact := writeElementCompact_with writeElementsCompact.

(** The two loop bodies of [writeElementsCompact], by name. *)
Definition nodeStep (key : string) (depth : nat) (acc : result (string * bool)) (node : JsVal)
  : result (string * bool) :=
  rbind acc (fun a =>
  rbind (writeNode_with writeElementsCompact key node depth (snd a)) (fun piece =>
  Ok (push a piece))).

Definition valueStep (key : string) (depth : nat) (acc : result (string * bool)) (value : JsVal)
  : result (string * bool) :=
  match value with
  | Arr nodes => fold_left (nodeStep key depth) nodes acc
  | _ => nodeStep key depth acc value
  end.

(** [convert.js2xml(js, options)] *)
Definition js2xml (js : JsVal) : result string :=
  writeElementsCompact js 0 true.

End Writer.
End Js2xml.


(** ** Asynchronous code: the log of external events and a rejection *)

Module Async.
Import Js.

(** What the transport is handed by [client.fetch(url, init)] of a
    [DigestFetch] client built from a user name and a password. *)
Record FetchRequest := {
  fetch_username : option string;
  fetch_password : option string;
  fetch_url : option string;
  fetch_method : option string;
  fetch_headers : JsVal;
  fetch_body : JsVal
}.

(** The part of a fetch [Response] the source reads. *)
Record Response := {
  res_ok : bool;
  res_status : Z;
  res_statusText : string;
  res_url : string;
  res_contentType : option string;   (* headers.get('content-type') *)
  res_text : string                  (* await davResponse.text() *)
}.

Inductive event :=
| Fetched (request : FetchRequest)
| ParsedXml (xmlText : string).

(** An [async] computation: it extends the log and either fulfils with a
    value or rejects with an error. *)
Definition M (A : Type) : Type := list event -> result A * list event.

Definition ret {A} (a : A) : M A := fun log => (Ok a, log).
Definition throw {A} (e : error) : M A := fun log => (Err e, log).
Definition bind {A B} (m : M A) (k : A -> M B) : M B :=
  fun log =>
    match m log with
    | (inr a, log') => k a log'
    | (inl e, log') => (inl e, log')
    end.
Definition lift {A} (r : result A) : M A := fun log => (r, log).
Definition emit (ev : event) : M unit := fun log => (Ok tt, (log ++ [ev])%list).

Fixpoint mapM {A B} (f : A -> M B) (l : list A) : M (list B) :=
  match l with
  | [] => ret []
  | a :: l' => bind (f a) (fun b => bind (mapM f l') (fun bs => ret (b :: bs)))
  end.

End Async.

Notation "x <- m ;; k" := (Async.bind m (fun x => k))
  (at level 100, m at next level, right associativity).

(** ** [src/request.ts] *)

Module Request.
Import JsString Js Async.

Record DAVCredentials := {
  username : option string;
  password : option string
}.

(** The records [davRequest] returns; [None] is a key the object literal
    does not have. *)
Record DAVResponse := {
  raw : option JsVal;
  href : option JsVal;
  status : Z;
  statusText : string;
  ok : bool;
  error : option JsVal;
  responsedescription : option JsVal;
  props : option JsVal
}.

Record DAVRequest := {
  headers : JsVal;
  body : JsVal;
  namespace : option string;
  method : string;
  attributes : JsVal
}.

(** The parameters of [davRequest].  [account] is declared optional and
    the two flags default to [true]; [url] is declared a string, and is
    [None] when a caller passes [undefined] all the same. *)
Record DavRequestParams (Account : Type) := {
  url : option string;
  init : DAVRequest;
  account : option Account;
  convertIncoming : option bool;
  parseOutgoing : option bool
}.
Arguments url {Account}. Arguments init {Account}. Arguments account {Account}.
Arguments convertIncoming {Account}. Arguments parseOutgoing {Account}.

(** lines 45-51: the [elementNameFn] handed to [js2xml] *)
Definition elementNameFn (namespace : option string) (name : string) : string :=
  match namespace with
  | Some ns =>
      if negb (String.eqb ns "") && negb (Regex.test Regex.qualified_name name)
      then ns +:+ ":" +:+ name
      else name
  | None => name
  end.

(** lines 36-53: the argument of [js2xml] and the call *)
Definition requestDocument (init : DAVRequest) : JsVal :=
  let declaration :=
    Obj [("_attributes", Obj [("version", Prim (PStr "1.0"));
                              ("encoding", Prim (PStr "utf-8"))])] in
  Obj (obj_set (spread [("_declaration", declaration)] (body init))
               "_attributes" (attributes init)).

Definition serialize (init : DAVRequest) : result string :=
  Js2xml.js2xml (elementNameFn (namespace init)) (requestDocument init).

(** lines 35-54 *)
Definition xmlBody (init : DAVRequest) (convertIncoming : bool) : result JsVal :=
  if convertIncoming
  then rbind (serialize init) (fun text => Ok (Prim (PStr text)))
  else Ok (body init).

(** lines 68-72 *)
Definition rawFallback (davResponse : Response) (parseOutgoing : bool) : bool :=
  negb (res_ok davResponse)
  || negb (match res_contentType davResponse with
           | Some contentType => includes contentType "xml"
           | None => false
           end)
  || negb parseOutgoing.

(** lines 73-81 *)
Definition rawResult (davResponse : Response) : DAVResponse :=
  {| raw := Some (Prim (PStr (res_text davResponse)));
     href := Some (Prim (PStr (res_url davResponse)));
     status := res_status davResponse;
     statusText := res_statusText davResponse;
     ok := res_ok davResponse;
     error := None; responsedescription := None; props := None |}.

(** lines 118-120 *)
Definition responseBodies (response : JsVal) : list JsVal :=
  match response with
  | Arr l => l
  | _ => [response]
  end.

(** lines 142-150 *)
Definition propstats (propstat : JsVal) : list JsVal :=
  match propstat with
  | Arr l => l
  | _ => [propstat]
  end.

Definition mergeProps (propstat : JsVal) : list (string * JsVal) :=
  fold_left (fun prev curr => spread (spread [] (Obj prev)) (get_opt curr "prop"))
            (propstats propstat) [].

(** lines 122-152: the function mapped over [responseBodies] *)
Definition toResult (davResponse : Response) (result : JsVal) (responseBody : JsVal)
  : DAVResponse :=
  if negb (truthy responseBody) then
    {| raw := None; href := None;
       status := res_status davResponse;
       statusText := res_statusText davResponse;
       ok := res_ok davResponse;
       error := None; responsedescription := None; props := None |}
  else
    let matchArr := Regex.statusRegex (toString (get_opt responseBody "status")) in
    {| raw := Some result;
       href := Some (get_opt responseBody "href");
       status := match matchArr with
                 | Some groups => parseInt10 (fst groups)
                 | None => res_status davResponse
                 end;
       statusText := match matchArr with
                     | Some groups => snd groups
                     | None => res_statusText davResponse
                     end;
       ok := negb (truthy (get_opt responseBody "error"));
       error := Some (get_opt responseBody "error");
       responsedescription := Some (get_opt responseBody "responsedescription");
       props := Some (Obj (mergeProps (get_opt responseBody "propstat"))) |}.

(** lines 118-152, from the value of [result.multistatus.response] *)
Definition resultsOf (davResponse : Response) (result : JsVal) (response : JsVal)
  : list DAVResponse :=
  map (toResult davResponse result) (responseBodies response).

(** lines 118-152, from the object [xml2js] returned *)
Definition multistatusResults (davResponse : Response) (result : JsVal)
  : Js.result (list DAVResponse) :=
  rbind (get result "multistatus") (fun multistatus =>
  rbind (get multistatus "response") (fun response =>
  Ok (resultsOf davResponse result response))).

(** The [prop] sub-mapping of a [propstat] block, as [{...curr?.prop}]
    reads it. *)
Definition propEntries (block : JsVal) : list (string * JsVal) :=
  own_entries (get_opt block "prop").

(** The record of a response slot that holds no response (lines 125-129). *)
Definition transportRecord (davResponse : Response) : DAVResponse :=
  {| raw := None; href := None;
     status := res_status davResponse;
     statusText := res_statusText davResponse;
     ok := res_ok davResponse;
     error := None; responsedescription := None; props := None |}.

(** The [href] a response body gives its record. *)
Definition hrefOf (responseBody : JsVal) : option JsVal :=
  if truthy responseBody then Some (get_opt responseBody "href") else None.

(** The content-type header indicates XML (line 70). *)
Definition indicatesXml (davResponse : Response) : bool :=
  match res_contentType davResponse with
  | Some contentType => includes contentType "xml"
  | None => false
  end.

(** The keys of [DAVNamespace] that the sources name. *)
Inductive DAVNamespaceKey := CALDAV | CALDAV_APPLE | CALENDAR_SERVER | CARDDAV | DAV.

(** What a function receives for a parameter declared as an object: the
    object, or a primitive when a caller passes one. *)
Inductive Argument (P : Type) :=
| Passed (p : P)
| Primitive (v : prim).
Arguments Passed {P}. Arguments Primitive {P}.

Section Collaborators.
Context {Account : Type}.
(** [account.credentials] *)
Variable credentials : Account -> option DAVCredentials.
(** [util/camelCase], [util/nativeType] and [util/requestHelpers] are
    not among the sources. *)
Variable camelCase : string -> string.
Variable nativeType : string -> prim.
Variable cleanupFalsy : JsVal -> JsVal.
(** The tokenizer inside xml-js: the document of a text, or the error it
    raises on text that is not well-formed. *)
Variable sax : string -> result Xml2js.xml.
(** The exchange [client.fetch] performs: a response, or a rejection. *)
Variable transport : FetchRequest -> result Response.

(** [new DigestFetch(account!.credentials!.username,
    account!.credentials!.password, ...)]: reading [credentials] of an
    undefined account, or [username] of undefined credentials, throws. *)
Definition digestClient (account : option Account) : result DAVCredentials :=
  match account with
  | None => Err (TypeError "Cannot read properties of undefined (reading 'credentials')")
  | Some a =>
      match credentials a with
      | None => Err (TypeError "Cannot read properties of undefined (reading 'username')")
      | Some c => Ok c
      end
  end.

Definition fetch (client : DAVCredentials) (url : option string) (method : option string)
  (headers body : JsVal) : M Response :=
  let request := {| fetch_username := username client;
                    fetch_password := password client;
                    fetch_url := url; fetch_method := method;
                    fetch_headers := headers; fetch_body := body |} in
  _ <- emit (Fetched request) ;;
  lift (transport request).

(** The account or its credentials are undefined. *)
Definition withoutCredentials (account : option Account) : Prop :=
  account = None \/ exists a, account = Some a /\ credentials a = None.

(** [convert.xml2js(resText, options)], lines 84-116 *)
Definition xml2js (resText : string) : M JsVal :=
  _ <- emit (ParsedXml resText) ;;
  doc <- lift (sax resText) ;;
  lift (Xml2js.xml2js_document camelCase nativeType doc).

(** The exchange [davRequest] asks of the transport (lines 58-64). *)
Definition exchange (params : DavRequestParams Account) (client : DAVCredentials)
  (payload : JsVal) : FetchRequest :=
  {| fetch_username := username client;
     fetch_password := password client;
     fetch_url := url params;
     fetch_method := Some (method (init params));
     fetch_headers := Obj [("Content-Type", Prim (PStr "application/xml; charset=utf-8"))];
     fetch_body := payload |}.

(** lines 26-153 *)
Definition davRequest (params : DavRequestParams Account) : M (list DAVResponse) :=
  let convertIncoming := default true (convertIncoming params) in
  let parseOutgoing := default true (parseOutgoing params) in
  xmlBody <- lift (xmlBody (init params) convertIncoming) ;;
  client <- lift (digestClient (account params)) ;;
  davResponse <- fetch client (url params) (Some (method (init params)))
                   (Obj [("Content-Type", Prim (PStr "application/xml; charset=utf-8"))])
                   xmlBody ;;
  let resText := res_text davResponse in
  if rawFallback davResponse parseOutgoing then ret [rawResult davResponse]
  else
    result <- xml2js resText ;;
    lift (multistatusResults davResponse result).

(** What [const { url, data, etag, headers, account } = params] binds. *)
Record ObjectParams := {
  o_url : option string;
  o_data : JsVal;
  o_etag : JsVal;
  o_headers : JsVal;
  o_account : option Account
}.

(** lines 186-195 *)
Definition createObject (params : ObjectParams) : M Response :=
  client <- lift (digestClient (o_account params)) ;;
  fetch client (o_url params) (Some "PUT") (o_headers params) (o_data params).

(** lines 197-211 *)
Definition updateObject (params : ObjectParams) : M Response :=
  client <- lift (digestClient (o_account params)) ;;
  fetch client (o_url params) (Some "PUT")
        (cleanupFalsy (Obj (spread [("If-Match", o_etag params)] (o_headers params))))
        (o_data params).

(** lines 213-225 *)
Definition deleteObject (params : ObjectParams) : M Response :=
  client <- lift (digestClient (o_account params)) ;;
  fetch client (o_url params) (Some "DELETE")
        (cleanupFalsy (Obj (spread [("If-Match", o_etag params)] (o_headers params))))
        undefined.

(** [consts.ts] is not among the sources: the namespace table, the
    short alias of the DAV namespace, and [getDAVAttribute]. *)
Variable DAVNamespace : DAVNamespaceKey -> string.
Variable DAVNamespaceShort_DAV : string.
Variable getDAVAttribute : list string -> JsVal.

(** What [const { url, props, depth, headers, account } = params] binds. *)
Record PropfindParams := {
  p_url : option string;
  p_props : JsVal;
  p_depth : JsVal;
  p_headers : JsVal;
  p_account : option Account
}.

(** Destructuring a primitive other than undefined and null finds none
    of the five properties; destructuring undefined or null throws. *)
Definition destructurePropfind (params : Argument PropfindParams) : result PropfindParams :=
  match params with
  | Passed p => Ok p
  | Primitive PUndefined | Primitive PNull =>
      Err (TypeError "Cannot destructure property 'url' of 'params'")
  | Primitive _ =>
      Ok {| p_url := None; p_props := undefined; p_depth := undefined;
            p_headers := undefined; p_account := None |}
  end.

(** lines 155-184 *)
Definition propfind (params : Argument PropfindParams) : M (list DAVResponse) :=
  p <- lift (destructurePropfind params) ;;
  davRequest
    {| url := p_url p;
       init :=
         {| method := "PROPFIND";
            headers := cleanupFalsy (Obj (spread [("depth", p_depth p)] (p_headers p)));
            namespace := Some DAVNamespaceShort_DAV;
            body :=
              Obj [("propfind",
                    Obj [("_attributes",
                          getDAVAttribute
                            [DAVNamespace CALDAV; DAVNamespace CALDAV_APPLE;
                             DAVNamespace CALENDAR_SERVER; DAVNamespace CARDDAV;
                             DAVNamespace DAV]);
                         ("prop", p_props p)])];
            attributes := undefined |};
       account := p_account p;
       convertIncoming := None;
       parseOutgoing := None |}.

(** What [const { url, data, etag, headers, account } = params] binds
    (lines 192, 204, 219) when a caller may pass a primitive where the
    parameter object is expected: destructuring undefined or null throws,
    and any other primitive has none of the properties. *)
Definition destructureObject (params : Argument ObjectParams) : result ObjectParams :=
  match params with
  | Passed p => Ok p
  | Primitive PUndefined | Primitive PNull =>
      Err (TypeError "Cannot destructure property 'url' of 'params'")
  | Primitive _ =>
      Ok {| o_url := None; o_data := undefined; o_etag := undefined;
            o_headers := undefined; o_account := None |}
  end.

(** [createObject(params)], [updateObject(params)] and
    [deleteObject(params)] as a caller reaches them. *)
Definition createObject_call (params : Argument ObjectParams) : M Response :=
  p <- lift (destructureObject params) ;; createObject p.

Definition updateObject_call (params : Argument ObjectParams) : M Response :=
  p <- lift (destructureObject params) ;; updateObject p.

Definition deleteObject_call (params : Argument ObjectParams) : M Response :=
  p <- lift (destructureObject params) ;; deleteObject p.

End Collaborators.
End Request.

(** ** [src/addressBook.ts] *)

Module AddressBook.
Import JsString Js Async Request.

(** [options?: { headers?: ... }] *)
Record Options := { opt_headers : JsVal }.

(** [models.ts] is not among the sources; these are the fields the two
    files read and write. *)
Inductive DAVAccount := {
  accountType : string;
  credentials : option DAVCredentials;
  rootUrl : option string;
  homeUrl : option string;
  addressBooks : option (list DAVAddressBook)
}
with DAVAddressBook := {
  data : DAVResponse;
  account : DAVAccount;
  ab_url : string;
  ctag : JsVal;
  displayName : JsVal;
  resourcetype : JsVal;
  syncToken : JsVal;
  reports : JsVal
}.

Section Collaborators.
Variable camelCase : string -> string.
Variable nativeType : string -> prim.
Variable cleanupFalsy : JsVal -> JsVal.
Variable sax : string -> result Xml2js.xml.
Variable transport : FetchRequest -> result Response.
Variable DAVNamespace : DAVNamespaceKey -> string.
Variable DAVNamespaceShort_DAV : string.
Variable getDAVAttribute : list string -> JsVal.
(** Node's [URL.resolve], [supportedReportSet] of [collection.ts] and
    [urlEquals] of [util/requestHelpers]. *)
Variable URL_resolve : option string -> option JsVal -> result string.
Variable supportedReportSet : DAVAddressBook -> option Options -> M JsVal.
Variable urlEquals : string -> string -> bool.

Definition propfind :=
  Request.propfind credentials camelCase nativeType cleanupFalsy sax transport
                   DAVNamespace DAVNamespaceShort_DAV getDAVAttribute.

(** line 52: [r.props.displayname && r.props.displayname.length] *)
Definition hasDisplayName (r : DAVResponse) : result bool :=
  rbind (get (default undefined (props r)) "displayname") (fun displayname =>
  if truthy displayname
  then rbind (get displayname "length") (fun len => Ok (truthy len))
  else Ok false).

Fixpoint filterR {A} (f : A -> result bool) (l : list A) : result (list A) :=
  match l with
  | [] => Ok []
  | a :: l' =>
      rbind (f a) (fun keep =>
      rbind (filterR f l') (fun rest =>
      Ok (if keep then a :: rest else rest)))
  end.

Fixpoint mapR {A B} (f : A -> result B) (l : list A) : result (list B) :=
  match l with
  | [] => Ok []
  | a :: l' => rbind (f a) (fun b => rbind (mapR f l') (fun bs => Ok (b :: bs)))
  end.

(** lines 53-65 *)
Definition toAddressBook (account : DAVAccount) (rs : DAVResponse) : result DAVAddressBook :=
  let prop k := get (default undefined (props rs)) k in
  rbind (URL_resolve (rootUrl account) (href rs)) (fun url =>
  rbind (prop "getctag") (fun ctag =>
  rbind (prop "displayname") (fun displayname =>
  rbind (prop "resourcetype") (fun resourcetype =>
  rbind (prop "syncToken") (fun syncToken =>
  Ok {| data := rs; account := account; ab_url := url; ctag := ctag;
        displayName := displayname; resourcetype := resourcetype;
        syncToken := syncToken; reports := undefined |}))))).

(** line 66 *)
Definition withReports (options : option Options) (addr : DAVAddressBook) : M DAVAddressBook :=
  r <- supportedReportSet addr options ;;
  ret {| data := data addr; account := account addr; ab_url := ab_url addr;
         ctag := ctag addr; displayName := displayName addr;
         resourcetype := resourcetype addr; syncToken := syncToken addr;
         reports := r |}.

(** lines 36-68.  The call on lines 40-49 passes three arguments to
    [propfind], which takes one: [account.homeUrl] arrives as [params].
    The third argument reads [options.headers] before the call.
    [Promise.all] over the mapped calls is taken in list order. *)
Definition fetchAddressBooks (account : DAVAccount) (options : option Options)
  : M (list DAVAddressBook) :=
  let params :=
    match homeUrl account with
    | Some u => Primitive (PStr u)
    | None => Primitive PUndefined
    end in
  _ <- lift (match options with
             | Some o => Ok (opt_headers o)
             | None => Err (TypeError "Cannot read properties of undefined (reading 'headers')")
             end) ;;
  res <- propfind params ;;
  named <- lift (filterR hasDisplayName res) ;;
  books <- lift (mapR (toAddressBook account) named) ;;
  mapM (withReports options) books.

(** lines 128-138, over the function that fetches the address books *)
Definition syncCardDAVAccount_over
  (fetchBooks : DAVAccount -> option Options -> M (list DAVAddressBook))
  (account : DAVAccount) (options : option Options) : M DAVAccount :=
  fetched <- fetchBooks account options ;;
  let newAddressBooks :=
    List.filter (fun addr =>
                   match addressBooks account with
                   | Some existing =>
                       existsb (fun a => urlEquals (ab_url a) (ab_url addr)) existing
                   | None => false
                   end) fetched in
  ret {| accountType := "carddav"; credentials := None; rootUrl := None;
         homeUrl := None; addressBooks := None |}.

Definition syncCardDAVAccount : DAVAccount -> option Options -> M DAVAccount :=
  syncCardDAVAccount_over fetchAddressBooks.

(** [DAVProp] of [DAVTypes] and [DAVVCard] of [models.ts], which are not
    among the sources: the fields the file writes and reads. *)
Record DAVProp := { prop_name : string; prop_namespace : string }.

Record DAVVCard := {
  vc_data : DAVResponse;
  vc_addressBook : DAVAddressBook;
  vc_url : string;
  vc_etag : JsVal;
  vc_addressData : JsVal
}.

(** [options?: { depth?: DAVDepth; headers?: ... }] of [addressBookQuery] *)
Record QueryOptions := { q_depth : JsVal; q_headers : JsVal }.

(** [formatProps] of [util/requestHelpers] and [collectionQuery] of
    [collection.ts]. *)
Variable formatProps : list DAVProp -> JsVal.
Variable collectionQuery : string -> JsVal -> JsVal -> M (list DAVResponse).

(** [options.headers], where [options] is declared optional *)
Definition optionsHeaders (options : option Options) : result JsVal :=
  match options with
  | Some o => Ok (opt_headers o)
  | None => Err (TypeError "Cannot read properties of undefined (reading 'headers')")
  end.

(** lines 12-34.  The arguments are evaluated in order: the body first,
    then [options.depth] and [options.headers]. *)
Definition addressBookQuery (url : string) (props : list DAVProp)
  (options : option QueryOptions) : M (list DAVResponse) :=
  let body :=
    Obj [("addressbook-query",
          Obj [("_attributes", getDAVAttribute [DAVNamespace CARDDAV; DAVNamespace DAV]);
               ("prop", formatProps props);
               ("filter",
                Obj [("prop-filter",
                      Obj [("_attributes", Obj [("name", Prim (PStr "FN"))])])])])] in
  o <- lift (match options with
             | Some o => Ok o
             | None => Err (TypeError "Cannot read properties of undefined (reading 'depth')")
             end) ;;
  collectionQuery url body (Obj [("depth", q_depth o); ("headers", q_headers o)]).

(** lines 83-91 *)
Definition toVCard (addressBook : DAVAddressBook) (res : DAVResponse) : result DAVVCard :=
  let prop k := get (default undefined (props res)) k in
  rbind (URL_resolve (rootUrl (account addressBook)) (href res)) (fun url =>
  rbind (prop "getetag") (fun etag =>
  rbind (prop "addressData") (fun addressData =>
  Ok {| vc_data := res; vc_addressBook := addressBook; vc_url := url;
        vc_etag := etag; vc_addressData := addressData |}))).

(** lines 70-92 *)
Definition fetchVCards (addressBook : DAVAddressBook) (options : option Options)
  : M (list DAVVCard) :=
  headers <- lift (optionsHeaders options) ;;
  res <- addressBookQuery (ab_url addressBook)
           [ {| prop_name := "getetag"; prop_namespace := DAVNamespace DAV |};
             {| prop_name := "address-data"; prop_namespace := DAVNamespace CARDDAV |} ]
           (Some {| q_depth := Prim (PStr "1"); q_headers := headers |}) ;;
  lift (mapR (toVCard addressBook) res).

(** The [headers] that lines 101-104 and 113-116 build *)
Definition calendarHeaders (options : option Options) : result JsVal :=
  rbind (optionsHeaders options) (fun headers =>
  Ok (Obj (spread [("content-type", Prim (PStr "text/calendar; charset=utf-8"))] headers))).

(** lines 94-106.  [createObject] takes one parameter: the resolved URL
    arrives as [params], and the other two arguments are dropped. *)
Definition createVCard (addressBook : DAVAddressBook) (vCardString filename : string)
  (options : option Options) : M Response :=
  url <- lift (URL_resolve (Some (ab_url addressBook)) (Some (Prim (PStr filename)))) ;;
  _ <- lift (calendarHeaders options) ;;
  createObject_call credentials transport (Primitive (PStr url)).

(** lines 108-118.  [vCard.url] arrives as [params] of [updateObject]. *)
Definition updateVCard (vCard : DAVVCard) (options : option Options) : M Response :=
  _ <- lift (calendarHeaders options) ;;
  updateObject_call credentials cleanupFalsy transport (Primitive (PStr (vc_url vCard))).

(** lines 120-125.  [vCard.url] arrives as [params] of [deleteObject]. *)
Definition deleteVCard (vCard : DAVVCard) (options : option Options) : M Response :=
  deleteObject_call credentials cleanupFalsy transport (Primitive (PStr (vc_url vCard))).

End Collaborators.
End AddressBook.

(** ** Helpers that are not among the sources *)

Module Util.
Import JsString.

Definition is_delimiter (c : ascii) : bool :=
  Ascii.eqb c "-"%char || Ascii.eqb c "_"%char.

Definition to_upper (c : ascii) : ascii :=
  if N.leb 97 (code c) && N.leb (code c) 122 then ascii_of_N (code c - 32) else c.

Fixpoint camelCase_from (upper : bool) (s : string) : string :=
  match s with
  | EmptyString => EmptyString
  | String c s' =>
      if is_delimiter c then camelCase_from true s'
      else String (if upper then to_upper c else c) (camelCase_from false s')
  end.

(** Modelled from the spec: [util/camelCase] is not among the sources.
    Section 4.4: delimiter characters such as hyphen are removed and the
    following character upper-cased; already-camelCase or single-word
    input passes through unchanged.  Hyphen and underscore are taken as
    the delimiters. *)
Definition camelCase (s : string) : string := camelCase_from false s.

Definition all_digits (s : string) : bool :=
  negb (String.eqb s "") && forallb is_digit (chars s).

(** An optional sign and what follows it. *)
Definition signed (s : string) : bool * string :=
  match s with
  | String c s' =>
      if Ascii.eqb c "-"%char then (true, s')
      else if Ascii.eqb c "+"%char then (false, s')
      else (false, s)
  | EmptyString => (false, s)
  end.

Fixpoint split_at_dot (s : string) : option (string * string) :=
  match s with
  | EmptyString => None
  | String c s' =>
      if Ascii.eqb c "."%char then Some (EmptyString, s')
      else match split_at_dot s' with
           | Some (a, b) => Some (String c a, b)
           | None => None
           end
  end.

Fixpoint drop_zeros (s : string) : string :=
  match s with
  | String c s' => if Ascii.eqb c "0"%char then drop_zeros s' else s
  | EmptyString => EmptyString
  end.

(** The text of a decimal number as a Number prints it: no sign on
    zero, no leading zeros, no trailing zeros in the fraction. *)
Definition decimal_text (negative : bool) (whole fraction : string) : string :=
  let w := of_Z (parseInt_digits whole) in
  let f := rev (drop_zeros (rev fraction)) in
  let magnitude := if String.eqb f "" then w else w +:+ "." +:+ f in
  if negative && negb (String.eqb magnitude "0") then "-" +:+ magnitude else magnitude.

(** Modelled from the spec: [util/nativeType] is not among the sources.
    Section 4.3: boolean literals are checked first, then the integer
    pattern (optional sign, no decimal point), then the floating-point
    pattern, else the text is returned unchanged; the empty text stays
    empty.  Section 4.3 puts a date pattern after the floating-point one
    and says neither which texts it recognizes nor what a date value is;
    [prim] has no date, a date text is left as text here, and nothing
    below evaluates this function at one.  What is proved of the parser
    is proved for every function from texts to [prim] in its place. *)
Definition nativeType (text : string) : Js.prim :=
  if String.eqb text "true" then Js.PBool true
  else if String.eqb text "false" then Js.PBool false
  else
    let '(negative, digits) := signed text in
    if all_digits digits then Js.PNum (decimal_text negative digits "")
    else match split_at_dot digits with
         | Some (whole, fraction) =>
             if all_digits whole && all_digits fraction
             then Js.PNum (decimal_text negative whole fraction)
             else Js.PStr text
         | None => Js.PStr text
         end.

End Util.

(** ** What the specification says, in its own words *)

Module Spec.
Import JsString Js.

(** "the leading run of non-colon characters together with the first
    colon" removed; a name without a colon is left as it is. *)
Fixpoint after_first_colon (s : string) : option string :=
  match s with
  | EmptyString => None
  | String c s' => if Ascii.eqb c colon then Some s' else after_first_colon s'
  end.

Definition strip_first_segment (s : string) : string :=
  default s (after_first_colon s).

Definition contains_colon (s : string) : bool :=
  existsb (Ascii.eqb colon) (chars s).

(** The status line "<protocol> <code> <reason text>": a run without
    white space, one white-space character, a run of digits, one
    white-space character, and a rest on one line. *)
Definition status_line (text protocol code reason : string) : Prop :=
  exists sp1 sp2 : ascii,
    text = protocol +:+ String sp1 (code +:+ String sp2 reason)
    /\ protocol <> "" /\ forallb (fun c => negb (is_space c)) (chars protocol) = true
    /\ is_space sp1 = true
    /\ code <> "" /\ forallb is_digit (chars code) = true
    /\ is_space sp2 = true
    /\ reason <> "" /\ forallb (fun c => negb (is_line_terminator c)) (chars reason) = true.

(** The value a key has after a sequence of mappings is folded in order,
    later entries winning. *)
Definition last_value {V} (entries : list (string * V)) (k : string) : option V :=
  fold_left (fun acc kv => if String.eqb (fst kv) k then Some (snd kv) else acc) entries None.

(** The [response] children of the root of a document, in document
    order, names read through the Key Normalizer. *)
Definition responseElements (normalize : string -> string) (doc : Xml2js.xml) : list Xml2js.xml :=
  match doc with
  | Xml2js.Element _ _ children =>
      List.filter (fun child =>
                     match child with
                     | Xml2js.Element name _ _ => String.eqb (normalize name) "response"
                     | Xml2js.Text _ => false
                     end) children
  | Xml2js.Text _ => []
  end.

End Spec.

(** ** The request tree with its element names rewritten *)

Module SerializerSpec.
Import JsString Js Js2xml.

Definition isElementKey (key : string) : bool :=
  match kind_of key with KElement => true | _ => false end.

(** The tree in which every element name, at every depth, is replaced by
    [rename name].  Keys that xml-js reserves keep their name and their
    value; a sequence under a name is the sequence of that name's
    elements.  (A sequence met where one element is expected is not part
    of a Property Request Tree and is left as it is.) *)
Fixpoint renameElements (rename : string -> string) (element : JsVal) {struct element} : JsVal :=
  let under (key : string) (value : JsVal) : JsVal :=
    if isElementKey key then
      match value with
      | Arr nodes =>
          Arr ((fix each (ns : list JsVal) : list JsVal :=
                  match ns with
                  | [] => []
                  | n :: ns' => renameElements rename n :: each ns'
                  end) nodes)
      | _ => renameElements rename value
      end
    else value in
  match element with
  | Prim p => Prim p
  | Arr l => Arr l
  | Obj o =>
      Obj ((fix each (o : list (string * JsVal)) : list (string * JsVal) :=
              match o with
              | [] => []
              | (key, value) :: o' =>
                  ((if isElementKey key then rename key else key), under key value) :: each o'
              end) o)
  end.

(** A Property Request Tree: every element name is non-empty and is not
    [hasOwnProperty], and a sequence holds elements, not sequences. *)
Fixpoint wellFormed (element : JsVal) {struct element} : bool :=
  let under (key : string) (value : JsVal) : bool :=
    if isElementKey key then
      negb (String.eqb key "") && negb (String.eqb key "hasOwnProperty")
      && match value with
         | Arr nodes =>
             (fix each (ns : list JsVal) : bool :=
                match ns with
                | [] => true
                | n :: ns' => wellFormed n && each ns'
                end) nodes
         | _ => wellFormed value
         end
    else true in
  match element with
  | Prim _ => true
  | Arr _ => false
  | Obj o =>
      (fix each (o : list (string * JsVal)) : bool :=
         match o with
         | [] => true
         | (key, value) :: o' => under key value && each o'
         end) o
  end.

Definition renamedKey (f : string -> string) (key : string) : string :=
  if isElementKey key then f key else key.

Definition renamedUnder (f : string -> string) (key : string) (value : JsVal) : JsVal :=
  if isElementKey key then
    match value with
    | Arr nodes => Arr (map (renameElements f) nodes)
    | _ => renameElements f value
    end
  else value.

Definition wellFormedUnder (key : string) (value : JsVal) : bool :=
  if isElementKey key then
    negb (String.eqb key "") && negb (String.eqb key "hasOwnProperty")
    && match value with
       | Arr nodes => forallb wellFormed nodes
       | _ => wellFormed value
       end
  else true.

(** Writing an element with the callback [f] is writing the renamed
    element with no callback. *)
Definition Commutes (f : string -> string) (node : JsVal) : Prop :=
  match node with
  | Obj _ =>
      wellFormed node = true ->
      forall depth firstLine,
        writeElementsCompact f node depth firstLine
        = writeElementsCompact (fun name => name) (renameElements f node) depth firstLine
  | _ => True
  end.

Definition CommutesUnder (f : string -> string) (value : JsVal) : Prop :=
  match value with
  | Arr nodes => Forall (Commutes f) nodes
  | _ => Commutes f value
  end.

End SerializerSpec.

(** ** Sample collaborators and inputs for the closed examples *)

Module Samples.
Import JsString Js Async Request AddressBook Xml2js.

Definition namespaces (key : DAVNamespaceKey) : string :=
  match key with
  | CALDAV => "urn:ietf:params:xml:ns:caldav"
  | CALDAV_APPLE => "http://apple.com/ns/ical/"
  | CALENDAR_SERVER => "http://calendarserver.org/ns/"
  | CARDDAV => "urn:ietf:params:xml:ns:carddav"
  | DAV => "DAV:"
  end.

Definition davAttribute (uris : list string) : JsVal :=
  Obj (if existsb (String.eqb "DAV:") uris then [("xmlns:d", Prim (PStr "DAV:"))] else []).

Definition keepHeaders (headers : JsVal) : JsVal := headers.

Definition joinUrl (from : option string) (to : option JsVal) : result string :=
  match from, to with
  | Some base, Some (Prim (PStr path)) => Ok (base +:+ path)
  | _, _ => Err (TypeError "The url argument must be of type string")
  end.

Definition noReports (addr : DAVAddressBook) (options : option Options) : M JsVal :=
  ret undefined.

Definition account : DAVAccount :=
  {| accountType := "carddav";
     credentials := Some {| username := Some "user"; password := Some "secret" |};
     rootUrl := Some "https://dav.example";
     homeUrl := Some "https://dav.example/addressbooks/user/";
     addressBooks := None |}.

(** [{ propfind: { prop: { displayname: {} } } }] under the namespace [d] *)
Definition propfindInit : DAVRequest :=
  {| headers := Obj [("depth", Prim (PStr "1"))];
     body := Obj [("propfind", Obj [("prop", Obj [("displayname", Obj [])])])];
     namespace := Some "d";
     method := "PROPFIND";
     attributes := undefined |}.

Definition params : DavRequestParams DAVAccount :=
  {| url := Some "https://dav.example/addressbooks/user/";
     init := propfindInit;
     Request.account := Some account;
     convertIncoming := None;
     parseOutgoing := None |}.

(** A server that answers every request with plain text. *)
Definition plainText : Response :=
  {| res_ok := true; res_status := 200; res_statusText := "OK";
     res_url := "https://dav.example/addressbooks/user/";
     res_contentType := Some "text/plain";
     res_text := "not a multistatus" |}.

Definition plainTextServer (request : FetchRequest) : result Response := Ok plainText.

(** A server that answers with an empty multistatus, and the tokenizer
    on that one text. *)
Definition emptyMultistatusText : string :=
  "<d:multistatus xmlns:d=" +:+ quote +:+ "DAV:" +:+ quote +:+ "/>".

Definition emptyMultistatus : xml := Element "d:multistatus" [("xmlns:d", "DAV:")] [].

Definition multistatusAnswer : Response :=
  {| res_ok := true; res_status := 207; res_statusText := "Multi-Status";
     res_url := "https://dav.example/addressbooks/user/";
     res_contentType := Some "application/xml; charset=utf-8";
     res_text := emptyMultistatusText |}.

Definition multistatusServer (request : FetchRequest) : result Response := Ok multistatusAnswer.

Definition tokenizer (text : string) : result xml :=
  if String.eqb text emptyMultistatusText then Ok emptyMultistatus
  else Err (MalformedXml "not in the sample table").

Definition attributes : list (string * string) :=
  [("xmlns", "DAV:"); ("xmlns:cs", "http://calendarserver.org/ns/"); ("name", "FN")].

(** A response body with two [propstat] blocks, as [xml2js] returns it. *)
Definition responseBody : JsVal :=
  Obj [("href", Prim (PStr "/addressbooks/a/"));
       ("propstat",
        Arr [Obj [("prop", Obj [("displayname", Prim (PStr "A")); ("getctag", Prim (PNum "1"))]);
                  ("status", Prim (PStr "HTTP/1.1 200 OK"))];
             Obj [("prop", Obj [("getctag", Prim (PNum "2"))]);
                  ("status", Prim (PStr "HTTP/1.1 404 Not Found"))]]);
       ("status", Prim (PStr "HTTP/1.1 404 Not Found"))].

(** [<d:response><d:href>path</d:href><d:status>line</d:status></d:response>] *)
Definition response (path statusLine : string) : xml :=
  Element "d:response" []
    [Text " "; Element "d:href" [] [Text path]; Element "d:status" [] [Text statusLine]].

Definition twoResponses : xml :=
  Element "d:multistatus" [("xmlns:d", "DAV:")]
    [response "/a/" "HTTP/1.1 200 OK"; response "/b/" "HTTP/1.1 404 Not Found"].

Definition twoResponsesTree : JsVal :=
  Eval vm_compute in
    match xml2js_document Util.camelCase Util.nativeType twoResponses with
    | inr tree => tree
    | inl _ => undefined
    end.

Definition leaf (name text : string) : xml := Element name [] [Text text].

(** [<d:propstat><d:prop>...</d:prop><d:status>line</d:status></d:propstat>] *)
Definition propstatBlock (properties : list xml) (statusLine : string) : xml :=
  Element "d:propstat" [] [Element "d:prop" [] properties; leaf "d:status" statusLine].

(** A response with two [propstat] blocks, a status of its own and an
    error of element content. *)
Definition deniedContent : list xml :=
  [leaf "d:href" "/a/";
   propstatBlock [leaf "d:displayname" "A"; leaf "d:getctag" "1"] "HTTP/1.1 200 OK";
   propstatBlock [leaf "d:getctag" "2"] "HTTP/1.1 404 Not Found";
   leaf "d:status" "HTTP/1.1 404 Not Found";
   Element "d:error" [] [Element "d:need-privileges" [] []]].

Definition deniedResponse : xml := Element "d:response" [] deniedContent.


(** [<d:prop><a>1</a><b>2</b><a>3</a></d:prop>] *)
Definition separatedSiblings : xml :=
  Element "d:prop" [] [leaf "a" "1"; leaf "b" "2"; leaf "a" "3"].

(** [<d:prop><a>1</a><a>3</a><b>2</b></d:prop>] *)
Definition adjacentSiblings : xml :=
  Element "d:prop" [] [leaf "a" "1"; leaf "a" "3"; leaf "b" "2"].

(** [<d:prop><a>false</a><a>true</a></d:prop>] *)
Definition falsyFirstSibling : xml :=
  Element "d:prop" [] [leaf "a" "false"; leaf "a" "true"].

Definition client : DAVCredentials := {| username := Some "user"; password := Some "secret" |}.

(** The text [davRequest] sends for [propfindInit]. *)
Definition payload : JsVal :=
  Eval vm_compute in
    match xmlBody propfindInit true with
    | inr p => p
    | inl _ => undefined
    end.

(** The document [js2xml] writes for [propfindInit], line by line. *)
Definition propfindDocument : string :=
  "<?xml version=" +:+ quote +:+ "1.0" +:+ quote +:+ " encoding=" +:+ quote +:+ "utf-8" +:+ quote
  +:+ "?>" +:+ Js2xml.newline
  +:+ "<d:propfind>" +:+ Js2xml.newline
  +:+ "  <d:prop>" +:+ Js2xml.newline
  +:+ "    <d:displayname/>" +:+ Js2xml.newline
  +:+ "  </d:prop>" +:+ Js2xml.newline
  +:+ "</d:propfind>".

(** The text of [twoResponses], a server that answers with it, and a
    server that answers with a document whose root is no multistatus. *)
Definition responseText (path statusLine : string) : string :=
  "<d:response> <d:href>" +:+ path +:+ "</d:href><d:status>" +:+ statusLine
  +:+ "</d:status></d:response>".

Definition twoResponsesText : string :=
  "<d:multistatus xmlns:d=" +:+ quote +:+ "DAV:" +:+ quote +:+ ">"
  +:+ responseText "/a/" "HTTP/1.1 200 OK"
  +:+ responseText "/b/" "HTTP/1.1 404 Not Found"
  +:+ "</d:multistatus>".

Definition errorText : string :=
  "<d:error xmlns:d=" +:+ quote +:+ "DAV:" +:+ quote +:+ "><d:need-privileges/></d:error>".

Definition errorDocument : xml :=
  Element "d:error" [("xmlns:d", "DAV:")] [Element "d:need-privileges" [] []].

Definition xmlAnswer (text : string) : Response :=
  {| res_ok := true; res_status := 207; res_statusText := "Multi-Status";
     res_url := "https://dav.example/addressbooks/user/";
     res_contentType := Some "application/xml; charset=utf-8";
     res_text := text |}.

Definition twoResponsesServer (request : FetchRequest) : result Response :=
  Ok (xmlAnswer twoResponsesText).

Definition errorServer (request : FetchRequest) : result Response :=
  Ok (xmlAnswer errorText).

Definition documentTokenizer (text : string) : result xml :=
  if String.eqb text twoResponsesText then Ok twoResponses
  else if String.eqb text errorText then Ok errorDocument
  else tokenizer text.

(** An address book, and a query that answers with the records of two
    cards. *)
Definition contacts : DAVAddressBook :=
  {| data := transportRecord multistatusAnswer;
     AddressBook.account := account;
     ab_url := "https://dav.example/addressbooks/user/contacts/";
     ctag := Prim (PNum "3");
     displayName := Prim (PStr "Contacts");
     resourcetype := undefined;
     syncToken := undefined;
     reports := undefined |}.

Definition cardRecord (path etag card : string) : DAVResponse :=
  {| raw := None;
     href := Some (Prim (PStr path));
     status := 200; statusText := "OK"; ok := true;
     error := Some undefined; responsedescription := Some undefined;
     props := Some (Obj [("getetag", Prim (PStr etag)); ("addressData", Prim (PStr card))]) |}.

Definition cardRecords : list DAVResponse :=
  [ cardRecord "/addressbooks/user/contacts/1.vcf" "e1" "BEGIN:VCARD";
    cardRecord "/addressbooks/user/contacts/2.vcf" "e2" "BEGIN:VCARD" ].

(** The record of a collection whose display name reads 2024. *)
Definition yearRecord : DAVResponse :=
  {| raw := None;
     href := Some (Prim (PStr "/addressbooks/user/2024/"));
     status := 200; statusText := "OK"; ok := true;
     error := Some undefined; responsedescription := Some undefined;
     props := Some (Obj [("displayname", Prim (Util.nativeType "2024"))]) |}.

Definition cardQuery (url : string) (body options : JsVal) : M (list DAVResponse) :=
  ret cardRecords.

Definition propNames (props : list DAVProp) : JsVal :=
  Obj (map (fun p => (prop_name p, Obj [])) props).

Definition someOptions : Options := {| opt_headers := Obj [("x-client", Prim (PStr "tsdav"))] |}.

(** The cards [fetchVCards] makes of [cardRecords]. *)
Definition cards : list DAVVCard :=
  Eval vm_compute in
    match fetchVCards namespaces davAttribute joinUrl propNames cardQuery
            contacts (Some someOptions) [] with
    | (inr found, _) => found
    | (inl _, _) => []
    end.

(** The parameters of an object request with an etag and a header of
    its own. *)
Definition objectParams : ObjectParams :=
  {| o_url := Some "https://dav.example/addressbooks/user/contacts/1.vcf";
     o_data := Prim (PStr "BEGIN:VCARD");
     o_etag := Prim (PStr "e1");
     o_headers := Obj [("content-type", Prim (PStr "text/vcard"))];
     o_account := Some account |}.

End Samples.


(** ** Multistatus documents

    The documents a WebDAV server answers with (RFC 4918, section 14.16,
    and the sync report of RFC 6578): a [multistatus] root whose
    [response] elements come first, each starting with its [href]. *)

Module Documents.
Import JsString Js Store Xml2js.

(** The property names to which the compact form of xml-js gives a
    meaning of its own under the options of [davRequest]. *)
Definition reserved (k : string) : bool :=
  String.eqb k "_parent" || String.eqb k "_attributes" || String.eqb k "_text".

(** A name that is, as the key of a JavaScript object, an own data
    property like any other: none that xml-js uses itself, no member of
    [Object.prototype], not [length] (which the text callback reads), and
    no array index (which [Object.keys] lists before the other keys). *)
Definition ordinary (k : string) : bool :=
  negb (reserved k) && negb (inherited k) && negb (String.eqb k "length")
  && match array_index k with Some _ => false | None => true end.

(** Text of which the [trim] option leaves nothing; xml-js drops it. *)
Definition isWhite (x : xml) : bool :=
  match x with
  | Text t => String.eqb (trim t) ""
  | Element _ _ _ => false
  end.

Section Names.
Variable normalize : string -> string.

(** Every element name of a document is ordinary once [normalize], the
    Key Normalizer, has been applied to it. *)
Fixpoint wellNamed (x : xml) : bool :=
  match x with
  | Text _ => true
  | Element name _ children =>
      ordinary (normalize name)
      && (fix all (cs : list xml) : bool :=
            match cs with
            | [] => true
            | c :: cs' => wellNamed c && all cs'
            end) children
  end.

(** An element whose normalized name is [k]. *)
Definition named (k : string) (x : xml) : bool :=
  match x with
  | Element name _ _ => String.eqb (normalize name) k
  | Text _ => false
  end.

(** A node of element content: an element, or white space. *)
Definition elementOrWhite (x : xml) : bool :=
  match x with
  | Element _ _ _ => true
  | Text _ => isWhite x
  end.

(** The trimmed text of a text leaf, an element whose content is one
    text that is not white space. *)
Definition leafText (x : xml) : option string :=
  match x with
  | Element _ _ [Text t] => if String.eqb (trim t) "" then None else Some (trim t)
  | _ => None
  end.

(** The children that are not white space. *)
Definition content (children : list xml) : list xml :=
  List.filter (fun c => negb (isWhite c)) children.

(** The text of the [href] of a response element: an element named
    [response] with element content, whose first element is its only
    [href], a text leaf. *)
Definition responseHref (x : xml) : option string :=
  match x with
  | Element name _ children =>
      if String.eqb (normalize name) "response" && forallb elementOrWhite children then
        match content children with
        | h :: rest =>
            if named "href" h && negb (existsb (named "href") rest) then leafText h else None
        | [] => None
        end
      else None
  | Text _ => None
  end.

Definition isResponse (x : xml) : bool :=
  match responseHref x with Some _ => true | None => false end.

(** An element that is not named response, or white space. *)
Definition isOther (x : xml) : bool :=
  match x with
  | Element name _ _ => negb (String.eqb (normalize name) "response")
  | Text _ => isWhite x
  end.

(** The response elements come first; what follows them (a response
    description, a sync token) is not named response. *)
Fixpoint responsesFirst (children : list xml) : bool :=
  match children with
  | [] => true
  | c :: rest =>
      if isWhite c || isResponse c then responsesFirst rest
      else forallb isOther children
  end.

(** A multistatus document: a well-named document whose root is named
    [multistatus] and has its response elements first. *)
Definition multistatusDocument (doc : xml) : bool :=
  wellNamed doc &&
  match doc with
  | Element name _ children =>
      String.eqb (normalize name) "multistatus" && responsesFirst children
  | Text _ => false
  end.

(** The [href] texts of the response elements of a document, in document
    order. *)
Definition responseHrefs (doc : xml) : list string :=
  match doc with
  | Element _ _ children => omap responseHref children
  | Text _ => []
  end.

(** A well-named document whose root has element content. *)
Definition elementDocument (doc : xml) : bool :=
  wellNamed doc &&
  match doc with
  | Element _ _ children => forallb elementOrWhite children
  | Text _ => false
  end.

(** The normalized name of the root. *)
Definition rootName (doc : xml) : string :=
  match doc with
  | Element name _ _ => normalize name
  | Text _ => ""
  end.

End Names.
End Documents.

(** ** The store while elements are open

    What holds of the store of xml-js between two events of a parse: the
    elements that are open, from the current one down to the root, what
    each of them was given when it was opened and what it has got since,
    and a rank on the cells that every reference but a parent pointer of
    an open element increases. *)

Module ParseState.
Import JsString Js Store Xml2js Documents.
Local Open Scope nat_scope.
Local Open Scope list_scope.

(** The keys an open element gets after its start tag: the names of its
    child elements, and [_text]. *)
Definition ok_key (k : string) : bool := ordinary k || String.eqb k "_text".

(** A location whose [length] the text callback can read: a sequence, or
    an object without a property [length]. *)
Definition elemish (h : heap) (l : loc) : Prop :=
  match h !! l with
  | Some (CArr _) => True
  | Some (CObj ps) => obj_has ps "length" = false
  | None => False
  end.

(** A property an element has got since it was opened, when the store
    had [b] cells: its key is none of the protected ones, [_text] holds
    [undefined], and a reference points to a cell allocated since. *)
Definition slot_ok (b : nat) (h : heap) (prot : list (string * val)) (kv : string * val) : Prop :=
  ok_key (fst kv) = true
  /\ obj_has prot (fst kv) = false
  /\ (fst kv = "_text" -> snd kv = vundefined)
  /\ match snd kv with
     | VRef l' => b <= l' /\ elemish h l'
     | VPrim _ => True
     end.

Definition extra_ok (b : nat) (h : heap) (prot extra : list (string * val)) : Prop :=
  Forall (slot_ok b h prot) extra.

(** An open element: its location, the properties it was given when it
    was opened, and the size of the store at that time. *)
Record frame := { at_ : loc; prot : list (string * val); birth : nat }.

(** The open elements, the current one first: each points to the next
    one as its parent, was allocated after the next one was opened, and
    holds its protected properties followed by the ones it has got
    since; every element below the current one has got at least the
    property of the child that is open. *)
Fixpoint frames_ok (h : heap) (top : bool) (fs : list frame) : Prop :=
  match fs with
  | [] => True
  | f :: rest =>
      at_ f < birth f /\ birth f <= length h
      /\ obj_has (prot f) "length" = false
      /\ List.NoDup (keys (prot f))
      /\ (exists p, obj_get (prot f) "_parent" = Some (VRef p)
                    /\ match rest with
                       | f' :: _ => p = at_ f' /\ birth f' <= at_ f
                       | [] => True
                       end)
      /\ (exists extra,
            h !! at_ f = Some (CObj (prot f ++ extra))
            /\ extra_ok (birth f) h (prot f) extra
            /\ (top = false -> extra <> []))
      /\ frames_ok h false rest
  end.

(** The values of a cell, with their keys. *)
Definition vals (c : cell) : list (string * val) :=
  match c with
  | CObj ps => ps
  | CArr es => map (pair "") es
  end.

(** The references of a cell stay inside the store and increase the rank
    [dep], the parent pointers of the open elements apart: the store has
    no cycle but through them. *)
Definition cell_ok (dep : loc -> Q) (opens : list loc) (n : nat) (l : loc) (c : cell) : Prop :=
  forall k l', In (k, VRef l') (vals c) ->
    l' < n /\ ((dep l < dep l')%Q \/ (k = "_parent" /\ In l opens)).

Definition heap_ok (dep : loc -> Q) (opens : list loc) (h : heap) : Prop :=
  forall l c, h !! l = Some c -> cell_ok dep opens (length h) l c.

(** The invariant of a parse, with the elements [fs] open. *)
Definition Inv (fs : list frame) (st : state) : Prop :=
  match fs with
  | [] => False
  | f :: _ => currentElement st = VRef (at_ f)
  end
  /\ frames_ok (store st) true fs
  /\ exists dep, heap_ok dep (map at_ fs) (store st).

(** What opening an element named [nm] under the element at [c] does to
    the cell at [c] and to the sequence under [nm], if there is one. *)
Definition start_effect (h h' : heap) (c e : loc) (prot extra : list (string * val))
  (nm : string) : Prop :=
  match obj_get extra nm with
  | None => h' !! c = Some (CObj (prot ++ extra ++ [(nm, VRef e)]))
  | Some (VRef l) =>
      match h !! l with
      | Some (CArr es) =>
          h' !! c = Some (CObj (prot ++ extra)) /\ h' !! l = Some (CArr (es ++ [VRef e]))
      | _ =>
          exists arr, length h <= arr
            /\ h' !! c = Some (CObj (prot ++ obj_replace extra nm (VRef arr)))
            /\ h' !! arr = Some (CArr [VRef l; VRef e])
      end
  | Some (VPrim _) => exists w, h' !! c = Some (CObj (prot ++ obj_replace extra nm w))
  end.

(** Whether the object at [l] has the own property [k]. *)
Definition has_key (h : heap) (l : loc) (k : string) : bool :=
  match h !! l with
  | Some (CObj ps) => obj_has ps k
  | _ => false
  end.

(** A response element that has been closed: its href is in place. *)
Definition closedResponse (h : heap) (r : loc) (v : prim) : Prop :=
  exists ps, h !! r = Some (CObj ps) /\ obj_get ps "href" = Some (VPrim v).

(** The store once the responses with the hrefs [vs] have been closed
    under the multistatus element at [m]: none, one as the value of
    [response], or two and more in the sequence under [response]. *)
Definition collected (h : heap) (m : loc) (protm : list (string * val)) (vs : list prim)
  : Prop :=
  h !! 0 = Some (CObj [("multistatus", VRef m)])
  /\ match vs with
     | [] => h !! m = Some (CObj (protm ++ []))
     | [v] =>
         exists r, h !! m = Some (CObj (protm ++ [("response", VRef r)]))
                   /\ m < r /\ closedResponse h r v
     | _ =>
         exists a rs,
           h !! m = Some (CObj (protm ++ [("response", VRef a)]))
           /\ h !! a = Some (CArr (map VRef rs))
           /\ Forall2 (fun r v => m < r /\ closedResponse h r v) rs vs
     end.

(** [elemish], of a cell. *)
Definition cell_elemish (c : cell) : Prop :=
  match c with
  | CArr _ => True
  | CObj ps => obj_has ps "length" = false
  end.

(** The store gets longer and keeps the cells of elements. *)
Definition grows (h h' : heap) : Prop :=
  length h <= length h' /\ forall l, elemish h l -> elemish h' l.

(** The three things the text callback can do to the store. *)
Inductive textFn_effect (f2 : frame) (x : prim) (h : heap) : heap -> Prop :=
| effect_none : textFn_effect f2 x h h
| effect_slot extra k w :
    h !! at_ f2 = Some (CObj (prot f2 ++ extra)) ->
    In (k, w) extra -> w <> vundefined ->
    textFn_effect f2 x h (<[at_ f2 := CObj (prot f2 ++ obj_replace extra k (VPrim x))]> h)
| effect_index extra k l es i :
    h !! at_ f2 = Some (CObj (prot f2 ++ extra)) ->
    In (k, VRef l) extra -> h !! l = Some (CArr es) ->
    textFn_effect f2 x h (<[l := CArr (<[i := VPrim x]> es)]> h).

(** A cell without a reference, as the cell of the attributes is. *)
Definition prims_only (c : cell) : Prop := forall k l', ~ In (k, VRef l') (vals c).

(** The ranks once an element [e] and a sequence [arr] have been
    allocated above the [n] cells there were. *)
Definition dep_with (dep : loc -> Q) (n e : nat) (d_e : Q) (arr : nat) (d_arr : Q) (x : loc) : Q :=
  if x <? n then dep x
  else if x =? e then d_e
  else if x =? arr then d_arr
  else (d_e + 1)%Q.

(** The frame of the element opened at [e] under the element at [c]. *)
Definition new_frame (c e : loc) (eprops : list (string * val)) (h' : heap) : frame :=
  {| at_ := e; prot := eprops ++ [("_parent", VRef c)]; birth := length h' |}.

Section Callbacks.
Variable camelCase : string -> string.
Variable nativeType : string -> prim.

(** What running the events of a node does, from a state in which the
    element at the top of [f :: rest] is the current one: the run succeeds
    and the invariant holds again; the store does not shrink; of the
    cells there were when the current element was opened none but its
    own is written (by a node of element content) and none but the one
    of its parent below that; the current element gets no key but the
    name of the node, or [_text] for a text; and its parent gets none. *)
Definition runs_well (x : xml) : Prop :=
  forall f rest st,
    Inv (f :: rest) st ->
    (forall n a cs, x = Element n a cs -> obj_has (prot f) (elementNameFn camelCase n) = false) ->
    (elementOrWhite x = false -> rest <> [] /\ obj_has (prot f) "_text" = false) ->
    exists st',
      run camelCase nativeType (events x) st = Ok st'
      /\ Inv (f :: rest) st'
      /\ length (store st) <= length (store st')
      /\ (elementOrWhite x = true ->
            forall l, l < birth f -> l <> at_ f -> store st' !! l = store st !! l)
      /\ (forall f2 rest', rest = f2 :: rest' ->
            forall l, l < birth f2 -> l <> at_ f2 -> store st' !! l = store st !! l)
      /\ (forall k, has_key (store st') (at_ f) k = true ->
            has_key (store st) (at_ f) k = true \/ named (elementNameFn camelCase) k x = true
            \/ (k = "_text" /\ elementOrWhite x = false))
      /\ (forall f2 rest', rest = f2 :: rest' ->
            forall k, has_key (store st') (at_ f2) k = has_key (store st) (at_ f2) k).

End Callbacks.

End ParseState.

(** ** The compact form of a document

    What [convert.xml2js] makes of a document under the options of
    [davRequest] (request.ts lines 84-116), as a function of the
    document. *)

Module Compact.
Import JsString Js Store Xml2js Documents.
Local Open Scope nat_scope.
Local Open Scope list_scope.

(** A text leaf: an element whose content is one text that is not white
    space. *)
Definition isLeaf (x : xml) : bool :=
  match leafText x with Some _ => true | None => false end.

(** What a sequence of children has put under a name, and what one more
    child named [k] with the value [v] makes of it: the first of a name
    is the value itself, the second makes a sequence of the two, and
    every further one is pushed. *)
Definition addChild (acc : list (string * JsVal)) (k : string) (v : JsVal)
  : list (string * JsVal) :=
  match obj_get acc k with
  | None => acc ++ [(k, v)]
  | Some (Arr l) => obj_replace acc k (Arr (l ++ [v]))
  | Some w => obj_replace acc k (Arr [w; v])
  end.

(** What a name holds once the values [vs] have been added under it one
    after the other. *)
Definition merged (o : option JsVal) (vs : list JsVal) : option JsVal :=
  fold_left (fun o v => Some (match o with
                              | None => v
                              | Some (Arr l) => Arr (l ++ [v])
                              | Some w => Arr [w; v]
                              end)) vs o.

Section Callbacks.
Variable camelCase : string -> string.
Variable nativeType : string -> prim.

Local Abbreviation normalize := (elementNameFn camelCase).

(** The [_attributes] of an element, when it has any left. *)
Definition attributeEntries (attributes : list (string * string)) : list (string * JsVal) :=
  match manipulateAttributes attributes with
  | [] => []
  | kept => [("_attributes", Obj (map (fun kv => (fst kv, Prim (PStr (snd kv)))) kept))]
  end.

(** The compact form of an element: the coerced text of a text leaf,
    and else an object of the attributes and the children by name. *)
Fixpoint compact (x : xml) : JsVal :=
  match x with
  | Text t => Prim (nativeType (trim t))
  | Element _ attributes children =>
      match leafText x with
      | Some t => Prim (nativeType t)
      | None =>
          Obj (attributeEntries attributes
               ++ fold_left (fun acc c =>
                               match c with
                               | Element name _ _ => addChild acc (normalize name) (compact c)
                               | Text _ => acc
                               end) children [])
      end
  end.

(** One more child, as [compact] folds them. *)
Definition addNode (acc : list (string * JsVal)) (c : xml) : list (string * JsVal) :=
  match c with
  | Element name _ _ => addChild acc (normalize name) (compact c)
  | Text _ => acc
  end.

(** No text leaf has the name of an earlier sibling, and no element has
    the name of an earlier text leaf. *)
Fixpoint siblingsOk (leaves others : list string) (children : list xml) : bool :=
  match children with
  | [] => true
  | Text _ :: rest => siblingsOk leaves others rest
  | (Element name _ _ as c) :: rest =>
      let k := normalize name in
      if isLeaf c
      then negb (existsb (String.eqb k) leaves) && negb (existsb (String.eqb k) others)
           && siblingsOk (k :: leaves) others rest
      else negb (existsb (String.eqb k) leaves) && siblingsOk leaves (k :: others) rest
  end.

(** A regular element: of an ordinary name, and a text leaf or of
    element content with regular children whose names are apart as
    [siblingsOk] says. *)
Fixpoint regular (x : xml) : bool :=
  match x with
  | Text _ => true
  | Element name _ children =>
      ordinary (normalize name)
      && (isLeaf x
          || (forallb elementOrWhite children && siblingsOk [] [] children
              && (fix all (cs : list xml) : bool :=
                    match cs with
                    | [] => true
                    | c :: cs' => regular c && all cs'
                    end) children))
  end.

(** A regular document: its root is regular and no text leaf. *)
Definition regularDocument (doc : xml) : bool :=
  match doc with
  | Element _ _ _ => regular doc && negb (isLeaf doc)
  | Text _ => false
  end.

(** The tree of a regular document. *)
Definition compactDocument (doc : xml) : JsVal :=
  Obj [(rootName normalize doc, compact doc)].

End Callbacks.
End Compact.

(** ** Trees in the store

    A value of the store as a tree, and the properties an open element
    has got from the children that have been closed. *)

Module Subtrees.
Import JsString Js Store Xml2js Documents ParseState Compact.
Local Open Scope nat_scope.
Local Open Scope list_scope.

(** The value [v] of the store is the tree [t], and every cell of it is
    in [F]. *)
Fixpoint repr (F : loc -> Prop) (h : heap) (v : val) (t : JsVal) {struct t} : Prop :=
  match t with
  | Prim p => v = VPrim p
  | Arr ts =>
      exists l es,
        v = VRef l /\ F l /\ h !! l = Some (CArr es)
        /\ (fix all (ts : list JsVal) (es : list val) {struct ts} : Prop :=
              match ts, es with
              | [], [] => True
              | t' :: ts', e :: es' => repr F h e t' /\ all ts' es'
              | _, _ => False
              end) ts es
  | Obj o =>
      exists l ps,
        v = VRef l /\ F l /\ h !! l = Some (CObj ps)
        /\ (fix all (o : list (string * JsVal)) (ps : list (string * val)) {struct o} : Prop :=
              match o, ps with
              | [], [] => True
              | kt :: o', kv :: ps' =>
                  fst kv = fst kt /\ repr F h (snd kv) (snd kt) /\ all o' ps'
              | _, _ => False
              end) o ps
  end.

(** What an open element holds under a name: one value, or the sequence
    at [a] of the closed elements at [rs]. *)
Inductive slot :=
| SVal (k : string) (v : val) (t : JsVal)
| SSeq (k : string) (a : loc) (rs : list loc) (ts : list JsVal).

Definition slot_key (s : slot) : string :=
  match s with SVal k _ _ | SSeq k _ _ _ => k end.

Definition slot_val (s : slot) : val :=
  match s with SVal _ v _ => v | SSeq _ a _ _ => VRef a end.

Definition slot_tree (s : slot) : JsVal :=
  match s with SVal _ _ t => t | SSeq _ _ _ ts => Arr ts end.

Definition slot_kv (s : slot) : string * val := (slot_key s, slot_val s).
Definition slot_kt (s : slot) : string * JsVal := (slot_key s, slot_tree s).

Definition arrays (S : list slot) : list loc :=
  flat_map (fun s => match s with SSeq _ a _ _ => [a] | SVal _ _ _ => [] end) S.

(** The cells of the closed children of the element at [m], which was
    opened when the store had [b] cells. *)
Definition child_cells (b : nat) (m : loc) (A : list loc) (l : loc) : Prop :=
  b <= l /\ l <> m /\ ~ In l A.

Definition slot_holds (F : loc -> Prop) (h : heap) (s : slot) : Prop :=
  match s with
  | SVal _ v t => isArray t = false /\ repr F h v t
  | SSeq _ a rs ts =>
      h !! a = Some (CArr (map VRef rs))
      /\ Forall2 (fun r t => repr F h (VRef r) t) rs ts
  end.

(** The open element at [m] holds its protected properties and then the
    slots [S]. *)
Definition Coll (b : nat) (h : heap) (m : loc) (protm : list (string * val))
  (S : list slot) : Prop :=
  h !! m = Some (CObj (protm ++ map slot_kv S))
  /\ List.NoDup (arrays S)
  /\ Forall (fun a => b <= a) (arrays S)
  /\ Forall (slot_holds (child_cells b m (arrays S)) h) S.

(** The first slot of a name. *)
Fixpoint find_slot (S : list slot) (k : string) : option slot :=
  match S with
  | [] => None
  | s :: S' => if String.eqb (slot_key s) k then Some s else find_slot S' k
  end.

(** The first slot of the name of [s'] replaced by [s']. *)
Fixpoint replace_slot (S : list slot) (s' : slot) : list slot :=
  match S with
  | [] => []
  | s :: S' =>
      if String.eqb (slot_key s) (slot_key s') then s' :: S' else s :: replace_slot S' s'
  end.

Section Callbacks.
Variable camelCase : string -> string.
Variable nativeType : string -> prim.

Local Abbreviation normalize := (elementNameFn camelCase).

(** What running the events of a regular element does to the open
    element above it. *)
Definition runs_regular (x : xml) : Prop :=
  forall n a cs, x = Element n a cs ->
  forall f rest st S,
    Inv (f :: rest) st ->
    Coll (birth f) (store st) (at_ f) (prot f) S ->
    obj_has (prot f) (normalize n) = false ->
    (if isLeaf x then find_slot S (normalize n) = None
     else forall s, find_slot S (normalize n) = Some s -> forall p, slot_tree s <> Prim p) ->
    exists st' S',
      run camelCase nativeType (events x) st = Ok st'
      /\ Inv (f :: rest) st'
      /\ Coll (birth f) (store st') (at_ f) (prot f) S'
      /\ map slot_kt S'
         = addChild (map slot_kt S) (normalize n) (compact camelCase nativeType x)
      /\ length (store st) <= length (store st')
      /\ (forall l, l < length (store st) -> l <> at_ f ->
            (forall rs ts, find_slot S (normalize n) <> Some (SSeq (normalize n) l rs ts)) ->
            store st' !! l = store st !! l)
      /\ (forall a', In a' (arrays S') -> In a' (arrays S) \/ length (store st) <= a').

End Callbacks.
End Subtrees.

(** * Properties *)

(** ** The regular expressions *)

Module RegexFacts.
Import JsString Regex.

Lemma exec_cons to_end c s k q rest :
  exec to_end (String c s) ((k, q) :: rest) =
  if accepts k c then
    match q with
    | One => stop_here to_end c s rest
    | Plus =>
        match exec to_end s ((k, Plus) :: rest) with
        | Some (cap :: caps, tl) => Some (String c cap :: caps, tl)
        | _ => stop_here to_end c s rest
        end
    end
  else None.
Proof. destruct q; reflexivity. Qed.

Lemma exec_sound to_end s : forall p caps tl,
  exec to_end s p = Some (caps, tl) -> matches to_end p s caps tl.
Proof.
  induction s as [|c s IH]; intros p caps tl H.
  - destruct p as [|[k q] rest]; simpl in H; [|discriminate].
    inversion H; subst. constructor; auto.
  - destruct p as [|[k q] rest].
    + simpl in H. destruct to_end; [discriminate|]. inversion H; subst.
      constructor. discriminate.
    + rewrite exec_cons in H.
      destruct (accepts k c) eqn:Hk; [|discriminate].
      assert (Hstop : stop_here to_end c s rest = Some (caps, tl) ->
                      matches to_end ((k, q) :: rest) (String c s) caps tl).
      { clear H. unfold stop_here. intros E.
        destruct (exec to_end s rest) as [[cs t]|] eqn:Er; [|discriminate].
        inversion E; subst. apply IH in Er.
        destruct q.
        - constructor; assumption.
        - apply (matches_plus to_end k rest (String c "") s cs tl).
          + discriminate.
          + simpl. rewrite Hk. reflexivity.
          + assumption. }
      destruct q; [apply Hstop; exact H|].
      destruct (exec to_end s ((k, Plus) :: rest)) as [[[|cap cs] t]|] eqn:Ec;
        try (apply Hstop; exact H).
      inversion H; subst. apply IH in Ec. inversion Ec; subst.
      apply (matches_plus to_end k rest (String c cap) _ cs tl).
      * discriminate.
      * simpl. rewrite Hk. assumption.
      * assumption.
Qed.

Lemma exec_complete to_end s : forall p caps tl,
  matches to_end p s caps tl -> exists caps' tl', exec to_end s p = Some (caps', tl').
Proof.
  induction s as [|c s IH]; intros p caps tl H.
  - inversion H; subst.
    + simpl. eauto.
    + destruct w; [congruence|discriminate].
  - inversion H as [s0 Hend | k rest c0 s0 caps0 tl0 Hk Hm | k rest w s0 caps0 tl0 Hw Hall Hm]; subst.
    + simpl. destruct to_end; [|eauto]. specialize (Hend eq_refl). discriminate.
    + rewrite exec_cons, Hk. unfold stop_here.
      apply IH in Hm. destruct Hm as (cs & t & ->). eauto.
    + destruct w as [|c' w']; [congruence|].
      match goal with Hs : (String c' w' +:+ _)%string = String c s |- _ =>
        simpl in Hs; inversion Hs; subst end.
      simpl in Hall. apply andb_true_iff in Hall. destruct Hall as [Hk Hall].
      change (String c w' +:+ s0) with (String c (w' +:+ s0)).
      rewrite exec_cons, Hk.
      destruct w' as [|c'' w''].
      * change ("" +:+ s0) with s0 in *. unfold stop_here.
        apply IH in Hm. destruct Hm as (cs & t & ->).
        destruct (exec to_end s0 ((k, Plus) :: rest)) as [[[|cap cs'] t']|]; eauto.
      * assert (Hm' : matches to_end ((k, Plus) :: rest) (String c'' w'' +:+ s0)
                              (String c'' w'' :: caps0) tl).
        { constructor; auto; discriminate. }
        destruct (IH _ _ _ Hm') as (cs & t & E).
        pose proof (exec_sound _ _ _ _ _ E) as Hs. rewrite E.
        inversion Hs; subst. eauto.
Qed.

Lemma chars_app a b : chars (a +:+ b) = (chars a ++ chars b)%list.
Proof. induction a as [|c a IH]; simpl; [reflexivity|]. now rewrite IH. Qed.


Lemma matches_plus_inv to_end k rest s caps tl :
  matches to_end ((k, Plus) :: rest) s caps tl ->
  exists w s' caps',
    s = w +:+ s' /\ caps = w :: caps' /\ w <> ""
    /\ forallb (accepts k) (chars w) = true /\ matches to_end rest s' caps' tl.
Proof. intros H. inversion H; subst. eauto 10. Qed.

Lemma matches_one_inv to_end k rest s caps tl :
  matches to_end ((k, One) :: rest) s caps tl ->
  exists c s' caps',
    s = String c s' /\ caps = String c "" :: caps'
    /\ accepts k c = true /\ matches to_end rest s' caps' tl.
Proof. intros H. inversion H; subst. eauto 10. Qed.


Lemma accepts_Lit a c : accepts (Lit a) c = true -> c = a.
Proof. intros H. symmetry. now apply Ascii.eqb_eq. Qed.





(** [/^.+:.+/] holds of the names that have a colon with at least one
    character on each side of it, on one line. *)
Lemma qualified_name_iff name :
  test qualified_name name = true <->
  exists prefix c rest,
    name = prefix +:+ String colon (String c rest)
    /\ prefix <> "" /\ one_line prefix = true /\ is_line_terminator c = false.
Proof.
  unfold test, qualified_name. split.
  - intros H.
    destruct (exec false name _) as [[caps tl]|] eqn:E; [|discriminate].
    apply exec_sound in E.
    apply matches_plus_inv in E. destruct E as (w1 & s1 & c1 & -> & -> & Hw1 & Ha1 & E).
    apply matches_one_inv in E. destruct E as (x2 & s2 & c2 & -> & -> & Hx2 & E).
    apply matches_plus_inv in E. destruct E as (w3 & s3 & c3 & -> & -> & Hw3 & Ha3 & E).
    destruct w3 as [|c w3]; [congruence|].
    apply accepts_Lit in Hx2. subst x2.
    exists w1, c, (w3 +:+ s3). simpl in Ha3. apply andb_true_iff in Ha3.
    destruct Ha3 as [Hc _]. apply negb_true_iff in Hc. auto.
  - intros (prefix & c & rest & -> & Hp & Hl & Hc).
    assert (Hm : matches false [(Dot, Plus); (Lit colon, One); (Dot, Plus)]
                   (prefix +:+ String colon (String c "" +:+ rest))
                   [prefix; String colon ""; String c ""] rest).
    { apply matches_plus; auto. apply matches_one; [apply Ascii.eqb_refl|].
      apply matches_plus; [discriminate| |].
      - simpl. now rewrite Hc.
      - constructor. discriminate. }
    destruct (exec_complete _ _ _ _ _ Hm) as (caps' & tl' & E).
    change (String c "" +:+ rest) with (String c rest) in E. now rewrite E.
Qed.

Lemma contains_colon_app a b :
  Spec.contains_colon (a +:+ String colon b) = true.
Proof.
  unfold Spec.contains_colon. rewrite chars_app, existsb_app.
  apply orb_true_iff. right. reflexivity.
Qed.

Lemma namespace_prefix_needs_colon s :
  Spec.contains_colon s = false -> exec false s namespace_prefix = None.
Proof.
  intros Hs. destruct (exec false s namespace_prefix) as [[caps tl]|] eqn:E; [|reflexivity].
  apply exec_sound in E. unfold namespace_prefix in E.
  apply matches_plus_inv in E. destruct E as (w1 & s1 & c1 & -> & -> & Hw1 & Ha1 & E).
  apply matches_one_inv in E. destruct E as (x2 & s2 & c2 & -> & -> & Hx2 & E).
  apply accepts_Lit in Hx2. subst x2.
  rewrite contains_colon_app in Hs. discriminate.
Qed.

(** The greedy [.+] of [/^.+:/] runs to the last colon. *)
Lemma exec_namespace_prefix pre : forall post,
  pre <> "" -> one_line pre = true -> Spec.contains_colon post = false ->
  exec false (pre +:+ String colon post) namespace_prefix
  = Some ([pre; String colon ""], post).
Proof.
  induction pre as [|c pre IH]; intros post Hne Hl Hpost; [congruence|].
  unfold one_line in Hl. simpl in Hl. apply andb_true_iff in Hl. destruct Hl as [Hc Hl].
  change (String c pre +:+ String colon post) with (String c (pre +:+ String colon post)).
  unfold namespace_prefix. rewrite exec_cons. simpl accepts. rewrite Hc.
  destruct pre as [|c' pre'].
  - change ("" +:+ String colon post) with (String colon post).
    assert (E : exec false (String colon post) [(Dot, Plus); (Lit colon, One)] = None).
    { destruct (exec false (String colon post) _) as [[caps tl]|] eqn:E; [|reflexivity].
      apply exec_sound in E.
      apply matches_plus_inv in E. destruct E as (w1 & s1 & c1 & Heq1 & -> & Hw1 & Ha1 & E).
      apply matches_one_inv in E. destruct E as (x2 & s2 & c2 & -> & -> & Hx2 & E).
      apply accepts_Lit in Hx2.
      destruct w1 as [|a1 w1]; [congruence|].
      change (String a1 w1 +:+ String x2 s2) with (String a1 (w1 +:+ String x2 s2)) in Heq1.
      inversion Heq1; subst.
      rewrite contains_colon_app in Hpost. discriminate. }
    rewrite E. unfold stop_here. rewrite exec_cons.
    change (accepts (Lit colon) colon) with true. unfold stop_here.
    destruct post; reflexivity.
  - fold namespace_prefix. rewrite (IH post); auto; discriminate.
Qed.

Lemma strip_namespace_prefix pre post :
  pre <> "" -> one_line pre = true -> Spec.contains_colon post = false ->
  strip namespace_prefix (pre +:+ String colon post) = post.
Proof. intros. unfold strip. now rewrite exec_namespace_prefix. Qed.

Lemma strip_without_colon s :
  Spec.contains_colon s = false -> strip namespace_prefix s = s.
Proof. intros. unfold strip. now rewrite namespace_prefix_needs_colon. Qed.

End RegexFacts.

(** ** Objects *)

Module JsFacts.
Import JsString Js.

Section Objects.
Context {V : Type}.
Implicit Types (o : list (string * V)) (k : string) (v : V).

Lemma obj_get_None o k : obj_get o k = None <-> ~ In k (keys o).
Proof.
  induction o as [|[k0 v0] o IH]; simpl; [tauto|].
  destruct (String.eqb_spec k0 k) as [->|Hne].
  - split; [discriminate|]. intros H. exfalso. apply H. now left.
  - rewrite IH. split; [intros H [E|E]; tauto | tauto].
Qed.

Lemma obj_has_false o k : obj_has o k = false <-> ~ In k (keys o).
Proof.
  unfold obj_has. rewrite <- obj_get_None. destruct (obj_get o k); split; congruence.
Qed.

Lemma keys_replace o k v : keys (obj_replace o k v) = keys o.
Proof.
  induction o as [|[k0 v0] o IH]; simpl; [reflexivity|].
  destruct (String.eqb k0 k); simpl; [reflexivity|]. now rewrite IH.
Qed.

Lemma obj_get_replace o k v k' :
  obj_has o k = true ->
  obj_get (obj_replace o k v) k' = if String.eqb k k' then Some v else obj_get o k'.
Proof.
  unfold obj_has. induction o as [|[k0 v0] o IH]; simpl; [discriminate|].
  destruct (String.eqb_spec k0 k) as [->|Hne]; simpl.
  - intros _. destruct (String.eqb_spec k k'); reflexivity.
  - intros H. destruct (String.eqb_spec k0 k') as [->|Hne'].
    + destruct (String.eqb_spec k k'); [congruence|reflexivity].
    + now apply IH.
Qed.

Lemma obj_get_add_index o i k v k' :
  array_index k = Some i ->
  obj_get (obj_add_index o i k v) k' = if String.eqb k k' then Some v else obj_get o k'.
Proof.
  intros Hk. induction o as [|[k0 v0] o IH]; simpl.
  - destruct (String.eqb k k'); reflexivity.
  - destruct (array_index k0) as [j|] eqn:Hj; [destruct (Z.ltb_spec j i)|]; simpl;
      try reflexivity.
    destruct (String.eqb_spec k0 k') as [->|Hne]; [|exact IH].
    destruct (String.eqb_spec k k') as [->|]; [|reflexivity].
    rewrite Hk in Hj. inversion Hj. lia.
Qed.

Lemma In_keys_add_index o i k v x :
  In x (keys (obj_add_index o i k v)) <-> x = k \/ In x (keys o).
Proof.
  induction o as [|[k0 v0] o IH]; simpl; [intuition|].
  destruct (array_index k0) as [j|]; [destruct (j <? i)%Z|]; simpl; rewrite ?IH; intuition.
Qed.

Lemma NoDup_keys_add_index o i k v :
  ~ In k (keys o) -> List.NoDup (keys o) -> List.NoDup (keys (obj_add_index o i k v)).
Proof.
  intros Hk Hnd. induction o as [|[k0 v0] o IH]; simpl.
  - repeat constructor. intros [].
  - simpl in Hk, Hnd. apply List.NoDup_cons_iff in Hnd. destruct Hnd as [Hk0 Hnd].
    assert (Hins : List.NoDup (k :: k0 :: keys o)).
    { constructor; [simpl; tauto|]. constructor; assumption. }
    destruct (array_index k0) as [j|]; [destruct (j <? i)%Z|]; simpl; try exact Hins.
    constructor.
    + rewrite In_keys_add_index. intros [->|H]; tauto.
    + apply IH; tauto.
Qed.

Lemma NoDup_snoc (l : list string) x :
  ~ In x l -> List.NoDup l -> List.NoDup (l ++ [x])%list.
Proof.
  induction l as [|y l IH]; simpl; intros Hx Hnd.
  - repeat constructor. intros [].
  - apply List.NoDup_cons_iff in Hnd. destruct Hnd as [Hy Hnd].
    constructor; [|apply IH; tauto].
    rewrite in_app_iff. simpl. intros [H|[H|[]]]; [tauto|]. subst. tauto.
Qed.

Lemma obj_get_app o o2 k :
  obj_get (o ++ o2)%list k = match obj_get o k with Some x => Some x | None => obj_get o2 k end.
Proof.
  induction o as [|[k0 v0] o IH]; simpl; [reflexivity|].
  destruct (String.eqb k0 k); [reflexivity|exact IH].
Qed.

(** Reading a property after an assignment. *)
Lemma obj_get_set o k v k' :
  obj_get (obj_set o k v) k' = if String.eqb k k' then Some v else obj_get o k'.
Proof.
  unfold obj_set. destruct (obj_has o k) eqn:Hh.
  - now apply obj_get_replace.
  - destruct (array_index k) as [i|] eqn:Hi.
    + now apply obj_get_add_index.
    + rewrite obj_get_app. simpl.
      destruct (String.eqb_spec k k') as [->|Hne].
      * apply obj_has_false, obj_get_None in Hh. now rewrite Hh.
      * destruct (obj_get o k'); reflexivity.
Qed.

Lemma NoDup_keys_set o k v : List.NoDup (keys o) -> List.NoDup (keys (obj_set o k v)).
Proof.
  intros Hnd. unfold obj_set. destruct (obj_has o k) eqn:Hh.
  - now rewrite keys_replace.
  - apply obj_has_false in Hh. destruct (array_index k) as [i|].
    + now apply NoDup_keys_add_index.
    + unfold keys. rewrite map_app. simpl. now apply NoDup_snoc.
Qed.

Lemma last_value_from (entries : list (string * V)) k init :
  fold_left (fun acc kv => if String.eqb (fst kv) k then Some (snd kv) else acc) entries init
  = match Spec.last_value entries k with Some x => Some x | None => init end.
Proof.
  unfold Spec.last_value. revert init.
  induction entries as [|[k0 v0] es IH]; intros init; simpl; [reflexivity|].
  rewrite IH. rewrite (IH (if String.eqb k0 k then Some v0 else None)).
  destruct (fold_left _ es None); [reflexivity|].
  destruct (String.eqb k0 k); reflexivity.
Qed.

Lemma last_value_cons k0 v0 (entries : list (string * V)) k :
  Spec.last_value ((k0, v0) :: entries) k
  = match Spec.last_value entries k with
    | Some x => Some x
    | None => if String.eqb k0 k then Some v0 else None
    end.
Proof. unfold Spec.last_value at 1. simpl. apply last_value_from. Qed.

Lemma last_value_app (a b : list (string * V)) k :
  Spec.last_value (a ++ b)%list k
  = match Spec.last_value b k with Some x => Some x | None => Spec.last_value a k end.
Proof.
  unfold Spec.last_value at 1. rewrite fold_left_app. apply last_value_from.
Qed.

(** Folding assignments into an object: the last entry of a key wins,
    and keys without an entry keep their value. *)
Lemma obj_get_set_all (entries : list (string * V)) : forall acc k,
  obj_get (set_all acc entries) k
  = match Spec.last_value entries k with Some x => Some x | None => obj_get acc k end.
Proof.
  induction entries as [|[k0 v0] es IH]; intros acc k; [reflexivity|].
  unfold set_all in *. simpl. rewrite IH, last_value_cons, obj_get_set. simpl.
  destruct (Spec.last_value es k); [reflexivity|].
  destruct (String.eqb k0 k); reflexivity.
Qed.

Lemma NoDup_keys_set_all (entries : list (string * V)) : forall acc,
  List.NoDup (keys acc) -> List.NoDup (keys (set_all acc entries)).
Proof.
  induction entries as [|[k0 v0] es IH]; intros acc H; [exact H|].
  apply IH. now apply NoDup_keys_set.
Qed.

Lemma last_value_NoDup o k : List.NoDup (keys o) -> Spec.last_value o k = obj_get o k.
Proof.
  induction o as [|[k0 v0] o IH]; intros Hnd; [reflexivity|].
  simpl in Hnd. apply List.NoDup_cons_iff in Hnd. destruct Hnd as [Hk0 Hnd].
  rewrite last_value_cons, (IH Hnd). simpl.
  destruct (String.eqb_spec k0 k) as [->|Hne].
  - apply obj_get_None in Hk0. now rewrite Hk0.
  - destruct (obj_get o k); reflexivity.
Qed.

Lemma obj_get_delete o x k :
  List.NoDup (keys o) ->
  obj_get (obj_delete o x) k = if String.eqb x k then None else obj_get o k.
Proof.
  induction o as [|[k0 v0] o IH]; intros Hnd; simpl.
  - destruct (String.eqb x k); reflexivity.
  - simpl in Hnd. apply List.NoDup_cons_iff in Hnd. destruct Hnd as [Hk0 Hnd].
    destruct (String.eqb_spec k0 x) as [->|Hne].
    + destruct (String.eqb_spec x k) as [->|Hne']; [|reflexivity].
      now apply obj_get_None.
    + simpl. destruct (String.eqb_spec k0 k) as [->|Hne'].
      * destruct (String.eqb_spec x k); [congruence|reflexivity].
      * now apply IH.
Qed.

End Objects.

Lemma spread_set_all acc v : spread acc v = set_all acc (own_entries v).
Proof. reflexivity. Qed.

End JsFacts.

(** ** The Key Normalizer and the attribute filter of the parser *)

Module ParserCallbacks.
Import JsString Js Xml2js RegexFacts JsFacts.

Lemma after_first_colon_app pre post :
  Spec.contains_colon pre = false ->
  Spec.after_first_colon (pre +:+ String colon post) = Some post.
Proof.
  induction pre as [|c pre IH]; intros H.
  - reflexivity.
  - change (Ascii.eqb colon c || Spec.contains_colon pre = false) in H.
    apply orb_false_iff in H. destruct H as [Hc H].
    change (String c pre +:+ String colon post) with (String c (pre +:+ String colon post)).
    change ((if Ascii.eqb c colon then Some (pre +:+ String colon post)
             else Spec.after_first_colon (pre +:+ String colon post)) = Some post).
    rewrite Ascii.eqb_sym, Hc. now apply IH.
Qed.

(** C6 (as the code has it).  For an element name [pre:post] whose last
    colon follows a non-empty [pre] on one line ([post] holds no colon),
    the Key Normalizer removes everything up to and including that LAST
    colon before camelCase conversion; this is the first prefix segment
    exactly when [pre] holds no colon itself. *)
Theorem elementNameFn_strips_through_last_colon (camelCase : string -> string) pre post :
  pre <> "" -> Regex.one_line pre = true -> Spec.contains_colon post = false ->
  elementNameFn camelCase (pre +:+ String colon post) = camelCase post
  /\ (Spec.contains_colon pre = false ->
      Spec.strip_first_segment (pre +:+ String colon post) = post).
Proof.
  intros Hne Hl Hpost. split.
  - unfold elementNameFn. now rewrite strip_namespace_prefix.
  - intros Hpre. unfold Spec.strip_first_segment. now rewrite after_first_colon_app.
Qed.

Lemma elementNameFn_strips_through_last_colon_witness :
  elementNameFn Util.camelCase ("a:b" +:+ String colon "c") = Util.camelCase "c"
  /\ (Spec.contains_colon "a:b" = false ->
      Spec.strip_first_segment ("a:b" +:+ String colon "c") = "c").
Proof.
  apply (elementNameFn_strips_through_last_colon Util.camelCase "a:b" "c");
    [discriminate | reflexivity | reflexivity].
Defined.

(** C6, the claim as stated, at [a:b:c]: the code leaves [c], the first
    prefix segment removed would leave [b:c]. *)
Lemma elementNameFn_multiple_colons :
  elementNameFn Util.camelCase "a:b:c" = "c"
  /\ Util.camelCase (Spec.strip_first_segment "a:b:c") = "b:c".
Proof. split; reflexivity. Qed.

(** C8 (as the code has it).  [attributesFn] removes the attribute named
    exactly [xmlns] and nothing else: every other attribute, a prefixed
    declaration such as [xmlns:cs] included, is returned with its
    value. *)
Theorem attributesFn_removes_xmlns_only (value : list (string * string)) (k : string) :
  List.NoDup (keys value) ->
  obj_get (attributesFn value) k
  = if String.eqb k "xmlns" then None else obj_get value k.
Proof.
  intros Hnd. unfold attributesFn.
  fold (set_all (V := string) [] value).
  rewrite obj_get_delete by (apply NoDup_keys_set_all; constructor).
  rewrite obj_get_set_all, String.eqb_sym. simpl.
  rewrite (last_value_NoDup _ _ Hnd).
  destruct (String.eqb k "xmlns"); [reflexivity|].
  destruct (obj_get value k); reflexivity.
Qed.

Lemma attributesFn_removes_xmlns_only_witness :
  obj_get (attributesFn Samples.attributes) "xmlns" = None
  /\ obj_get (attributesFn Samples.attributes) "name" = Some "FN".
Proof.
  assert (Hnd : List.NoDup (keys Samples.attributes)).
  { repeat constructor; simpl; intuition discriminate. }
  split.
  - exact (attributesFn_removes_xmlns_only Samples.attributes "xmlns" Hnd).
  - exact (attributesFn_removes_xmlns_only Samples.attributes "name" Hnd).
Defined.

(** C8, the claim as stated, at an element that declares the prefix
    [cs]: the declaration is not absent from what [attributesFn]
    returns. *)
Lemma attributesFn_keeps_prefixed_declaration :
  obj_get (attributesFn [("xmlns:cs", "http://calendarserver.org/ns/")]) "xmlns:cs"
  = Some "http://calendarserver.org/ns/".
Proof. reflexivity. Qed.

End ParserCallbacks.

(** ** The per-response normalization of [davRequest] *)

Module Multistatus.
Import JsString Js Async Request RegexFacts JsFacts.

Lemma mergeProps_from blocks : forall acc k,
  List.NoDup (keys acc) ->
  List.NoDup (keys (fold_left (fun prev curr => spread (spread [] (Obj prev)) (get_opt curr "prop"))
                       blocks acc))
  /\ obj_get (fold_left (fun prev curr => spread (spread [] (Obj prev)) (get_opt curr "prop"))
                        blocks acc) k
     = match Spec.last_value (flat_map propEntries blocks) k with
       | Some x => Some x
       | None => obj_get acc k
       end.
Proof.
  induction blocks as [|b blocks IH]; intros acc k Hnd; [split; [exact Hnd|reflexivity]|].
  simpl fold_left. simpl flat_map.
  assert (Hnd' : List.NoDup (keys (spread (spread [] (Obj acc)) (get_opt b "prop")))).
  { rewrite !spread_set_all. apply NoDup_keys_set_all, NoDup_keys_set_all. constructor. }
  destruct (IH _ k Hnd') as [H1 H2]. split; [exact H1|].
  rewrite H2, last_value_app. destruct (Spec.last_value (flat_map propEntries blocks) k);
    [reflexivity|].
  rewrite !spread_set_all, !obj_get_set_all. fold (propEntries b).
  destruct (Spec.last_value (propEntries b) k); [reflexivity|].
  simpl own_entries. rewrite (last_value_NoDup _ _ Hnd). simpl.
  destruct (obj_get acc k); reflexivity.
Qed.

Lemma mergeProps_lookup propstat k :
  obj_get (mergeProps propstat) k
  = Spec.last_value (flat_map propEntries (propstats propstat)) k.
Proof.
  unfold mergeProps.
  destruct (mergeProps_from (propstats propstat) [] k ltac:(constructor)) as [_ ->].
  destruct (Spec.last_value _ k); reflexivity.
Qed.

Lemma propstats_single block :
  isArray block = false -> propstats (Arr [block]) = propstats block.
Proof. destruct block; simpl; intros H; [reflexivity|discriminate|reflexivity]. Qed.



End Multistatus.

(** ** From the parsed tree to the sequence of results *)

Module MultistatusExtraction.
Import JsString Js Async Request Xml2js.

Lemma href_toResult davResponse result responseBody :
  href (toResult davResponse result responseBody) = hrefOf responseBody.
Proof. unfold toResult, hrefOf. destruct (truthy responseBody); reflexivity. Qed.

(** From a parsed tree with a [multistatus]: when its [response] is a
    sequence, the results are one record per element of the sequence, in
    order, each with the [href] of its element; a single [response] value
    gives the records of the one-element sequence that holds it; and a
    [multistatus] without any [response] gives one record, which carries
    the transport's status, statusText and ok. *)
Lemma resultsOf_shapes
  (davResponse : Response) (result multistatus response : JsVal) :
  get result "multistatus" = Ok multistatus ->
  get multistatus "response" = Ok response ->
  multistatusResults davResponse result = Ok (resultsOf davResponse result response)
  /\ (forall bodies,
        response = Arr bodies ->
        List.length (resultsOf davResponse result response) = List.length bodies
        /\ map href (resultsOf davResponse result response) = map hrefOf bodies)
  /\ (isArray response = false ->
      resultsOf davResponse result response = resultsOf davResponse result (Arr [response]))
  /\ (response = undefined ->
      resultsOf davResponse result response = [transportRecord davResponse]).
Proof.
  intros Hm Hr. split; [|split; [|split]].
  - unfold multistatusResults. rewrite Hm. simpl. rewrite Hr. reflexivity.
  - intros bodies ->. unfold resultsOf. simpl responseBodies. split.
    + apply length_map.
    + rewrite map_map. apply map_ext. intros body. apply href_toResult.
  - intros Hsingle. unfold resultsOf. destruct response; simpl in *; congruence.
  - intros ->. reflexivity.
Qed.

End MultistatusExtraction.

(** ** Objects under concatenation *)

Module ObjectFacts.
Import JsString Js Store JsFacts.
Local Open Scope nat_scope.
Local Open Scope list_scope.

Section Objects.
Context {V : Type}.
Implicit Types (o : list (string * V)) (k : string) (v : V).

Lemma obj_has_app o o2 k : obj_has (o ++ o2) k = obj_has o k || obj_has o2 k.
Proof.
  unfold obj_has. rewrite obj_get_app. destruct (obj_get o k), (obj_get o2 k); reflexivity.
Qed.

Lemma obj_get_app_r o o2 k : obj_has o k = false -> obj_get (o ++ o2) k = obj_get o2 k.
Proof.
  unfold obj_has. rewrite obj_get_app. destruct (obj_get o k); [discriminate|reflexivity].
Qed.

Lemma obj_get_app_l o o2 k v : obj_get o k = Some v -> obj_get (o ++ o2) k = Some v.
Proof. intros H. now rewrite obj_get_app, H. Qed.

Lemma obj_replace_app_r o o2 k v :
  obj_has o k = false -> obj_replace (o ++ o2) k v = o ++ obj_replace o2 k v.
Proof.
  unfold obj_has. induction o as [|[k0 v0] o IH]; simpl; [reflexivity|].
  destruct (String.eqb k0 k); [discriminate|]. intros H. now rewrite IH.
Qed.

Lemma obj_set_app_r o o2 k v :
  obj_has o k = false -> array_index k = None ->
  obj_set (o ++ o2) k v = o ++ obj_set o2 k v.
Proof.
  intros Ho Hi. unfold obj_set. rewrite obj_has_app, Ho, Hi. simpl.
  destruct (obj_has o2 k).
  - now apply obj_replace_app_r.
  - now rewrite app_assoc.
Qed.

Lemma obj_get_In o k v : obj_get o k = Some v -> In (k, v) o.
Proof.
  induction o as [|[k0 v0] o IH]; simpl; [discriminate|].
  destruct (String.eqb_spec k0 k) as [->|Hne].
  - intros [= ->]. now left.
  - intros H. right. now apply IH.
Qed.

Lemma In_obj_has o k v : In (k, v) o -> obj_has o k = true.
Proof.
  intros H. destruct (obj_has o k) eqn:E; [reflexivity|].
  apply obj_has_false in E. exfalso. apply E. unfold keys.
  apply in_map_iff. now exists (k, v).
Qed.

Lemma In_replace o k v kv :
  In kv (obj_replace o k v) -> kv = (k, v) \/ In kv o.
Proof.
  induction o as [|[k0 v0] o IH]; simpl; [tauto|].
  destruct (String.eqb_spec k0 k) as [->|Hne]; simpl; intuition.
Qed.

Lemma In_set o k v kv :
  array_index k = None -> In kv (obj_set o k v) -> kv = (k, v) \/ In kv o.
Proof.
  intros Hi. unfold obj_set. rewrite Hi. destruct (obj_has o k).
  - apply In_replace.
  - rewrite in_app_iff. simpl. intuition.
Qed.

Lemma obj_delete_app_l o o2 k :
  obj_has o k = true -> obj_delete (o ++ o2) k = obj_delete o k ++ o2.
Proof.
  unfold obj_has. induction o as [|[k0 v0] o IH]; simpl; [discriminate|].
  destruct (String.eqb k0 k); [reflexivity|]. intros H. now rewrite IH.
Qed.

Lemma In_delete o k kv :
  List.NoDup (keys o) -> In kv (obj_delete o k) -> In kv o /\ fst kv <> k.
Proof.
  induction o as [|[k0 v0] o IH]; simpl; [tauto|].
  intros Hnd. apply List.NoDup_cons_iff in Hnd. destruct Hnd as [Hk0 Hnd].
  destruct (String.eqb_spec k0 k) as [->|Hne]; simpl.
  - intros H. split; [now right|]. intros <-. apply Hk0.
    unfold keys. apply in_map_iff. now exists kv.
  - intros [<-|H]; [split; [now left|exact Hne]|].
    destruct (IH Hnd H). split; [now right|assumption].
Qed.

Lemma obj_get_delete_ne o x k : x <> k -> obj_get (obj_delete o x) k = obj_get o k.
Proof.
  intros Hne. induction o as [|[k0 v0] o IH]; simpl; [reflexivity|].
  destruct (String.eqb_spec k0 x) as [->|Hx]; simpl.
  - destruct (String.eqb_spec x k); [contradiction|reflexivity].
  - destruct (String.eqb k0 k); [reflexivity|exact IH].
Qed.

Lemma obj_has_replace o k v k' : obj_has (obj_replace o k v) k' = obj_has o k'.
Proof.
  unfold obj_has. induction o as [|[k0 v0] o IH]; simpl; [reflexivity|].
  destruct (String.eqb_spec k0 k) as [->|Hne]; simpl.
  - destruct (String.eqb k k'); reflexivity.
  - destruct (String.eqb k0 k'); [reflexivity|exact IH].
Qed.

Lemma obj_has_set o k v k' :
  obj_has (obj_set o k v) k' = String.eqb k k' || obj_has o k'.
Proof.
  unfold obj_has at 1. rewrite obj_get_set. unfold obj_has.
  destruct (String.eqb k k'); [reflexivity|]. reflexivity.
Qed.

Lemma obj_has_cons o k0 v k : obj_has ((k0, v) :: o) k = String.eqb k0 k || obj_has o k.
Proof. unfold obj_has. simpl. now destruct (String.eqb k0 k). Qed.

Lemma obj_has_nil k : obj_has (V := V) [] k = false.
Proof. reflexivity. Qed.

Lemma last_key_snoc o k v :
  default "undefined" (keys (o ++ [(k, v)]) !! (length (keys (o ++ [(k, v)])) - 1)) = k.
Proof.
  unfold keys. rewrite map_app, length_app, length_map. simpl.
  rewrite lookup_app_r by (rewrite length_map; lia).
  rewrite length_map. replace (length o + 1 - 1 - length o) with 0 by lia. reflexivity.
Qed.

End Objects.
End ObjectFacts.

(** ** The invariant under allocation and assignment *)

Module StoreFacts.
Import JsString Js Store Xml2js JsFacts ObjectFacts Documents ParseState.
Local Open Scope nat_scope.
Local Open Scope list_scope.

Lemma ordinary_facts k :
  ordinary k = true ->
  k <> "_parent" /\ k <> "_attributes" /\ k <> "_text" /\ k <> "length"
  /\ inherited k = false /\ array_index k = None.
Proof.
  unfold ordinary, reserved. intros H.
  repeat (apply andb_true_iff in H; destruct H as [H ?]).
  apply negb_true_iff in H. repeat (apply orb_false_iff in H; destruct H as [H ?]).
  repeat split.
  - intros ->. discriminate.
  - intros ->. discriminate.
  - intros ->. discriminate.
  - intros ->. discriminate.
  - now apply negb_true_iff.
  - destruct (array_index k); [discriminate|reflexivity].
Qed.

Lemma ok_key_facts k :
  ok_key k = true ->
  k <> "_parent" /\ k <> "_attributes" /\ k <> "length"
  /\ inherited k = false /\ array_index k = None.
Proof.
  unfold ok_key. intros H. apply orb_true_iff in H. destruct H as [H|H].
  - destruct (ordinary_facts k H) as (?&?&?&?&?&?). auto.
  - apply String.eqb_eq in H. subst k. repeat split; try discriminate; reflexivity.
Qed.

(** *** The store under allocation and assignment *)

Lemma grows_refl h : grows h h.
Proof. split; auto. Qed.

Lemma grows_trans h1 h2 h3 : grows h1 h2 -> grows h2 h3 -> grows h1 h3.
Proof. intros [H1 H2] [H3 H4]. split; [lia|auto]. Qed.

Lemma grows_alloc h cs : grows h (h ++ cs).
Proof.
  split; [rewrite length_app; lia|].
  intros l. unfold elemish. destruct (h !! l) as [c|] eqn:E; [|tauto].
  now rewrite (lookup_app_l_Some _ _ _ _ E).
Qed.

Lemma grows_insert h x c :
  cell_elemish c -> grows h (<[x := c]> h).
Proof.
  intros Hc. split; [now rewrite length_insert|].
  intros l. unfold elemish. destruct (Nat.eq_dec x l) as [->|Hne].
  - destruct (h !! l) as [c0|] eqn:E; [|tauto]. intros _.
    rewrite list_lookup_insert_eq by (eapply lookup_lt_Some; eauto).
    destruct c; exact Hc.
  - now rewrite list_lookup_insert_ne.
Qed.

Lemma slot_ok_grows b h h' prot kv :
  grows h h' -> slot_ok b h prot kv -> slot_ok b h' prot kv.
Proof.
  intros [_ Hg] (H1 & H2 & H3 & H4). repeat split; auto.
  destruct (snd kv); [exact I|]. destruct H4. split; auto.
Qed.

Lemma extra_ok_grows b h h' prot extra :
  grows h h' -> extra_ok b h prot extra -> extra_ok b h' prot extra.
Proof. intros Hg. apply Forall_impl. intros kv. now apply slot_ok_grows. Qed.

Lemma frames_ok_transfer h h' fs : forall top,
  grows h h' ->
  (forall f, In f fs -> h' !! at_ f = h !! at_ f) ->
  frames_ok h top fs -> frames_ok h' top fs.
Proof.
  induction fs as [|f rest IH]; intros top Hg Hsame; [exact id|].
  simpl. intros (H1 & H2 & H3 & H3' & H4 & (extra & H5 & H6 & H7) & H8).
  split; [exact H1|]. split; [destruct Hg; lia|]. split; [exact H3|].
  split; [exact H3'|]. split; [exact H4|]. split.
  - exists extra. rewrite Hsame by now left. split; [exact H5|]. split; [|exact H7].
    now apply (extra_ok_grows _ h).
  - apply IH; auto. intros f' Hf'. apply Hsame. now right.
Qed.

Lemma frames_ok_weaken h fs : frames_ok h false fs -> frames_ok h true fs.
Proof.
  destruct fs as [|f rest]; [exact id|]. simpl.
  intros (H1 & H2 & H3 & H3' & H4 & (extra & H5 & H6 & H7) & H8).
  split; [exact H1|]. split; [exact H2|]. split; [exact H3|].
  split; [exact H3'|]. split; [exact H4|]. split; [|exact H8].
  exists extra. split; [exact H5|]. split; [exact H6|]. discriminate.
Qed.

Lemma frames_below h top fs f :
  frames_ok h top fs -> In f fs -> at_ f < length h.
Proof.
  revert top. induction fs as [|f0 rest IH]; intros top; [intros _ []|].
  simpl. intros (H1 & H2 & _ & _ & _ & _ & H8) [->|Hin]; [lia|]. eapply IH; eauto.
Qed.

(** Frames lie below the location of the frame above them. *)
Lemma frames_lt h f rest f' :
  frames_ok h false rest ->
  match rest with f2 :: _ => birth f2 <= at_ f | [] => True end ->
  In f' rest -> at_ f' < at_ f.
Proof.
  revert f. induction rest as [|f2 rest IH]; intros f Hok Hb; [intros []|].
  simpl in Hok. destruct Hok as (H1 & H2 & _ & _ & (p & _ & H4) & _ & H8).
  intros [->|Hin]; [lia|].
  assert (at_ f' < at_ f2).
  { apply IH; auto. destruct rest as [|f3 rest']; [exact I|]. tauto. }
  lia.
Qed.

(** *** Acyclicity *)

Lemma cell_ok_mono dep dep' opens opens' n n' l c :
  cell_ok dep opens n l c ->
  l < n -> (forall x, x < n -> dep' x = dep x) ->
  (In l opens -> In l opens') -> n <= n' ->
  cell_ok dep' opens' n' l c.
Proof.
  intros H Hl Hd Ho Hn k l' Hin. destruct (H k l' Hin) as [H1 H2].
  split; [lia|]. rewrite (Hd l Hl), (Hd l' H1). tauto.
Qed.

Lemma cell_ok_prims dep opens n l c :
  (forall k l', ~ In (k, VRef l') (vals c)) -> cell_ok dep opens n l c.
Proof. intros H k l' Hin. destruct (H k l' Hin). Qed.

Lemma heap_ok_insert dep opens (h : heap) x c :
  heap_ok dep opens h -> cell_ok dep opens (length h) x c ->
  heap_ok dep opens (<[x := c]> h).
Proof.
  intros H Hc l c' Hl. rewrite length_insert.
  apply list_lookup_insert_Some in Hl. destruct Hl as [(-> & <- & _)|[_ Hl]]; [exact Hc|].
  now apply H.
Qed.

Lemma heap_ok_alloc dep dep' opens (h : heap) c :
  heap_ok dep opens h ->
  (forall x, x < length h -> dep' x = dep x) ->
  cell_ok dep' opens (S (length h)) (length h) c ->
  heap_ok dep' opens (h ++ [c]).
Proof.
  intros H Hd Hc l c' Hl. rewrite length_app. simpl. rewrite Nat.add_1_r.
  apply lookup_snoc_Some in Hl. destruct Hl as [[Hlt Hl]|[-> <-]]; [|exact Hc].
  eapply cell_ok_mono; [now apply H|exact Hlt|exact Hd|exact id|lia].
Qed.

Lemma heap_ok_opens dep opens opens' (h : heap) :
  heap_ok dep opens h -> (forall l, In l opens -> In l opens') -> heap_ok dep opens' h.
Proof.
  intros H Ho l c Hl. eapply cell_ok_mono; [now apply H| |reflexivity|apply Ho|lia].
  eapply lookup_lt_Some; eauto.
Qed.

(** The cell of a frame never has a property named length. *)
Lemma frame_cell_elemish b (h : heap) prot extra :
  obj_has prot "length" = false -> extra_ok b h prot extra ->
  cell_elemish (CObj (prot ++ extra)).
Proof.
  intros Hp He. simpl. rewrite obj_has_app, Hp. simpl.
  destruct (obj_has extra "length") eqn:E; [|reflexivity].
  unfold obj_has in E. destruct (obj_get extra "length") as [v|] eqn:G; [|discriminate].
  apply obj_get_In in G. unfold extra_ok in He. rewrite List.Forall_forall in He.
  destruct (He _ G) as (Hk & _). simpl in Hk.
  destruct (ok_key_facts _ Hk) as (_ & _ & Hl & _). congruence.
Qed.

Lemma frames_ok_update (h : heap) x protx extra' : forall fs top,
  frames_ok h top fs ->
  (forall f, In f fs -> at_ f = x ->
     prot f = protx
     /\ extra_ok (birth f) (<[x := CObj (protx ++ extra')]> h) protx extra'
     /\ extra' <> []) ->
  cell_elemish (CObj (protx ++ extra')) ->
  frames_ok (<[x := CObj (protx ++ extra')]> h) top fs.
Proof.
  induction fs as [|f rest IH]; intros top; [intros; exact I|].
  intros Hok Hx Hel. simpl in Hok.
  destruct Hok as (H1 & H2 & H3 & H3' & H4 & (extra & H5 & H6 & H7) & H8).
  assert (Hg : grows h (<[x := CObj (protx ++ extra')]> h)) by now apply grows_insert.
  simpl. split; [exact H1|]. split; [rewrite length_insert; exact H2|].
  split; [exact H3|]. split; [exact H3'|]. split; [exact H4|]. split.
  - destruct (Nat.eq_dec (at_ f) x) as [E|E].
    + destruct (Hx f (or_introl eq_refl) E) as (Hp & He & Hne).
      exists extra'. rewrite Hp, E.
      rewrite list_lookup_insert_eq by (rewrite <- E; lia).
      split; [reflexivity|]. split; [exact He|]. intros _. exact Hne.
    + exists extra. rewrite list_lookup_insert_ne by congruence.
      split; [exact H5|]. split; [|exact H7]. now apply (extra_ok_grows _ h).
  - apply IH; auto. intros f' Hf'. apply Hx. now right.
Qed.

Lemma frames_cell (h : heap) fs f : forall top,
  frames_ok h top fs -> In f fs ->
  exists extra, h !! at_ f = Some (CObj (prot f ++ extra)).
Proof.
  induction fs as [|f0 rest IH]; intros top; [intros _ []|].
  simpl. intros (_ & _ & _ & _ & _ & (extra & H5 & _) & H8) [->|Hin].
  - now exists extra.
  - eapply IH; eauto.
Qed.

Lemma Forall_obj_replace {V} (P : string * V -> Prop) (o : list (string * V)) k v :
  Forall P o -> P (k, v) -> Forall P (obj_replace o k v).
Proof.
  intros Ho Hkv. induction Ho as [|[k0 v0] o H0 Ho IH]; simpl; [constructor|].
  destruct (String.eqb_spec k0 k) as [->|Hne]; constructor; auto.
Qed.

Lemma Forall_obj_set {V} (P : string * V -> Prop) (o : list (string * V)) k v :
  array_index k = None -> Forall P o -> P (k, v) -> Forall P (obj_set o k v).
Proof.
  intros Hi Ho Hkv. unfold obj_set. rewrite Hi. destruct (obj_has o k).
  - now apply Forall_obj_replace.
  - apply Forall_app. split; [exact Ho|]. now constructor.
Qed.

Lemma replace_nonempty {V} (o : list (string * V)) k v : o <> [] -> obj_replace o k v <> [].
Proof. destruct o as [|[k0 v0] o]; [congruence|]. simpl. now destruct (String.eqb k0 k). Qed.

Lemma set_nonempty {V} (o : list (string * V)) k v : array_index k = None -> obj_set o k v <> [].
Proof.
  intros Hi. unfold obj_set. rewrite Hi. destruct (obj_has o k) eqn:E.
  - apply replace_nonempty. intros ->. discriminate.
  - now destruct o.
Qed.

Lemma frame_unique (h : heap) top f rest f0 :
  frames_ok h top (f :: rest) -> In f0 (f :: rest) -> at_ f0 = at_ f -> f0 = f.
Proof.
  simpl. intros (_ & _ & _ & _ & (p & _ & Hp) & _ & Hrest) [<-|Hin] E; [reflexivity|].
  assert (at_ f0 < at_ f); [|lia].
  eapply frames_lt; eauto. destruct rest as [|f2 rest']; [exact I|]. tauto.
Qed.

Lemma obj_prop_frame (h : heap) c prot extra k :
  h !! c = Some (CObj (prot ++ extra)) ->
  obj_has prot k = false -> inherited k = false ->
  obj_prop h c k = Ok (default vundefined (obj_get extra k)).
Proof.
  intros Hc Hp Hi. unfold obj_prop. rewrite Hc, (obj_get_app_r _ _ _ Hp).
  destruct (obj_get extra k); [reflexivity|]. now rewrite Hi.
Qed.

Lemma obj_assign_frame (h : heap) c prot extra k v :
  h !! c = Some (CObj (prot ++ extra)) ->
  obj_has prot k = false -> array_index k = None ->
  obj_assign h c k v = Ok (<[c := CObj (prot ++ obj_set extra k v)]> h).
Proof.
  intros Hc Hp Hi. unfold obj_assign. rewrite Hc. now rewrite obj_set_app_r.
Qed.

End StoreFacts.

(** ** A text event *)

Module TextSteps.
Import JsString Js Store Xml2js JsFacts ObjectFacts Documents ParseState StoreFacts.
Local Open Scope nat_scope.
Local Open Scope list_scope.

Section Callbacks.
Variable camelCase : string -> string.
Variable nativeType : string -> prim.

Lemma In_vals_insert (es : list val) i x k l' :
  In (k, VRef l') (map (pair "") (<[i := VPrim x]> es)) -> In (k, VRef l') (map (pair "") es).
Proof.
  rewrite !in_map_iff. intros (v & Hv & Hin). exists v. split; [exact Hv|].
  apply list_elem_of_In in Hin. apply list_elem_of_In.
  apply list_elem_of_lookup in Hin. destruct Hin as [j Hj].
  apply list_lookup_insert_Some in Hj. destruct Hj as [(_ & <- & _)|[_ Hj]].
  - inversion Hv.
  - eapply list_elem_of_lookup_2; eauto.
Qed.

(** With two elements open, [textFn] never throws: the parent of the
    current element has a last key, and what that key holds has a
    [length] to read. *)
Lemma textFn_runs value f f2 rest (h : heap) :
  frames_ok h true (f :: f2 :: rest) ->
  exists h',
    textFn nativeType value (VRef (at_ f)) h = Ok (h', vundefined)
    /\ textFn_effect f2 (nativeType value) h h'.
Proof.
  simpl. intros (_ & _ & _ & _ & (p & Hp & -> & _) & (extra & Hf & _ & _) & Hf2).
  destruct Hf2 as (_ & _ & Hlen & _ & _ & (extra2 & Hc2 & He2 & Hne) & _).
  specialize (Hne eq_refl).
  destruct (exists_last Hne) as (e0 & [kl wl] & Hlast).
  unfold textFn, textFn_body. unfold get_prop at 1. rewrite Hf.
  rewrite (obj_get_app_l _ _ _ _ Hp). simpl default. unfold Js.rbind at 1. unfold Ok at 1.
  unfold object_keys. rewrite Hc2. unfold Js.rbind at 1. unfold Ok at 1.
  assert (Hkey : default "undefined"
                   (keys (prot f2 ++ extra2) !! (length (keys (prot f2 ++ extra2)) - 1)) = kl).
  { rewrite Hlast, app_assoc. apply last_key_snoc. }
  assert (Hslot : slot_ok (birth f2) h (prot f2) (kl, wl)).
  { unfold extra_ok in He2. rewrite List.Forall_forall in He2. apply He2.
    rewrite Hlast. apply in_or_app. right. now left. }
  destruct Hslot as (Hok & Hnp & _ & _). simpl in Hok, Hnp.
  assert (Hhas : obj_has extra2 kl = true).
  { apply (In_obj_has _ _ wl). rewrite Hlast. apply in_or_app. right. now left. }
  destruct (obj_get extra2 kl) as [w|] eqn:Hw;
    [|unfold obj_has in Hhas; rewrite Hw in Hhas; discriminate].
  assert (Hin : In (kl, w) extra2) by now apply obj_get_In.
  assert (Hslot : slot_ok (birth f2) h (prot f2) (kl, w)).
  { unfold extra_ok in He2. rewrite List.Forall_forall in He2. now apply He2. }
  destruct Hslot as (_ & _ & _ & Hw4). simpl in Hw4.
  destruct (ok_key_facts _ Hok) as (_ & _ & _ & _ & Hidx).
  assert (Hset : set_prop h (VRef (at_ f2)) kl (VPrim (nativeType value))
                 = Ok (<[at_ f2 := CObj (prot f2 ++ obj_replace extra2 kl (VPrim (nativeType value)))]> h)).
  { unfold set_prop. rewrite Hc2. f_equal. f_equal. f_equal.
    rewrite obj_set_app_r by assumption. f_equal.
    unfold obj_set. now rewrite Hhas. }
  assert (Hkeys : match length (keys (prot f2 ++ extra2)) with
                  | 0 => "undefined"
                  | S i => default "undefined" (keys (prot f2 ++ extra2) !! i)
                  end = kl).
  { rewrite <- Hkey. destruct (length (keys (prot f2 ++ extra2))) as [|n] eqn:En.
    - exfalso. rewrite Hlast in En. unfold keys in En.
      rewrite !map_app, !length_app in En. simpl in En. lia.
    - simpl. now rewrite Nat.sub_0_r. }
  cbv zeta. rewrite Hkeys.
  unfold get_prop. rewrite Hc2. rewrite (obj_get_app_r _ _ _ Hnp), Hw. simpl default.
  unfold Js.rbind at 1. unfold Ok at 1.
  destruct w as [pw|l].
  - (* a primitive under the last key *)
    destruct pw as [| |b|n|s]; simpl length_prop; cbv beta iota.
    + eexists. split; [reflexivity|constructor].
    + eexists. split; [reflexivity|constructor].
    + rewrite Hset. eexists. split; [reflexivity|]. eapply effect_slot; eauto; discriminate.
    + rewrite Hset. eexists. split; [reflexivity|]. eapply effect_slot; eauto; discriminate.
    + destruct (String.length s) eqn:Es.
      * rewrite Hset. eexists. split; [reflexivity|]. eapply effect_slot; eauto; discriminate.
      * eexists. split; [reflexivity|constructor].
  - destruct Hw4 as [_ Hel]. unfold elemish in Hel. unfold length_prop.
    destruct (h !! l) as [[ps|es]|] eqn:El; [| |destruct Hel].
    + rewrite Hel. cbv beta iota. rewrite Hset. eexists. split; [reflexivity|].
      eapply effect_slot; eauto; discriminate.
    + cbv beta iota. destruct (length es) as [|i] eqn:Ees.
      * rewrite Hset. eexists. split; [reflexivity|]. eapply effect_slot; eauto; discriminate.
      * unfold set_index. rewrite El. eexists. split; [reflexivity|].
        eapply effect_index; eauto.
Qed.

(** Whatever the text callback does keeps the invariant; it writes the
    parent of the current element or a sequence in it, and adds no key. *)
Lemma textFn_effect_ok x f f2 rest (h h' : heap) dep opens :
  frames_ok h true (f :: f2 :: rest) ->
  heap_ok dep opens h ->
  textFn_effect f2 x h h' ->
  frames_ok h' true (f :: f2 :: rest)
  /\ heap_ok dep opens h'
  /\ length h' = length h
  /\ h' !! at_ f = h !! at_ f
  /\ (forall l, l < birth f2 -> l <> at_ f2 -> h' !! l = h !! l)
  /\ (forall k, has_key h' (at_ f2) k = has_key h (at_ f2) k).
Proof.
  intros Hfr Hh Heff.
  assert (Hfr' := Hfr). simpl in Hfr'.
  destruct Hfr' as (Hb1 & _ & _ & _ & (p & Hp & -> & Hb) & (extra & Hf & _ & _) & Hf2).
  destruct Hf2 as (Hb2 & Hlen2 & Hlen & _ & Hpar2 & (extra2 & Hc2 & He2 & Hne) & Hrest).
  destruct Heff as [|extra' k w Hc Hin Hw|extra' k l es i Hc Hin Hl].
  - split; [exact Hfr|]. split; [exact Hh|]. split; [reflexivity|]. split; [reflexivity|].
    split; reflexivity.
  - rewrite Hc2 in Hc. injection Hc as Hc. apply app_inv_head in Hc. subst extra'.
    assert (Hslot : slot_ok (birth f2) h (prot f2) (k, w)).
    { unfold extra_ok in He2. rewrite List.Forall_forall in He2. now apply He2. }
    destruct Hslot as (Hok & Hnp & Htext & _). simpl in Hok, Hnp, Htext.
    assert (Hel : cell_elemish (CObj (prot f2 ++ obj_replace extra2 k (VPrim x)))).
    { simpl. rewrite obj_has_app, obj_has_replace, <- obj_has_app.
      exact (frame_cell_elemish _ _ _ _ Hlen He2). }
    assert (Hg := grows_insert h (at_ f2) _ Hel).
    split; [|split; [|split; [|split; [|split]]]].
    + apply frames_ok_update; [exact Hfr| |exact Hel].
      intros f0 Hin0 E.
      assert (f0 = f2) as ->.
      { destruct Hin0 as [<-|[<-|Hin0]]; [lia|reflexivity|].
        assert (at_ f0 < at_ f2); [|lia].
        eapply (frames_lt h f2 rest f0); eauto.
        destruct rest as [|f3 rest']; [exact I|]. destruct Hpar2 as (?&?&?&?). assumption. }
      split; [reflexivity|]. split; [|apply replace_nonempty; intros ->; destruct Hin].
      apply Forall_obj_replace.
      * now apply (extra_ok_grows _ h).
      * split; [exact Hok|]. split; [exact Hnp|]. split; [|exact I].
        simpl. intros E'. exfalso. apply Hw. now apply Htext.
    + apply heap_ok_insert; [exact Hh|].
      intros k' l' Hin'. simpl in Hin'. apply in_app_or in Hin'.
      apply (Hh _ _ Hc2). simpl. apply in_or_app.
      destruct Hin' as [Hin'|Hin']; [now left|right].
      apply In_replace in Hin'. destruct Hin' as [[=]|Hin']. exact Hin'.
    + apply length_insert.
    + apply list_lookup_insert_ne. lia.
    + intros l _ Hne'. apply list_lookup_insert_ne. congruence.
    + intros k'. unfold has_key.
      rewrite list_lookup_insert_eq by (eapply lookup_lt_Some; eauto).
      now rewrite Hc2, !obj_has_app, obj_has_replace.
  - rewrite Hc2 in Hc. injection Hc as Hc. apply app_inv_head in Hc. subst extra'.
    assert (Hslot : slot_ok (birth f2) h (prot f2) (k, VRef l)).
    { unfold extra_ok in He2. rewrite List.Forall_forall in He2. now apply He2. }
    destruct Hslot as (_ & _ & _ & Hbl & _). simpl in Hbl.
    assert (Hg : grows h (<[l := CArr (<[i := VPrim x]> es)]> h)) by now apply grows_insert.
    assert (Hother : forall f0, In f0 (f :: f2 :: rest) ->
              <[l := CArr (<[i := VPrim x]> es)]> h !! at_ f0 = h !! at_ f0).
    { intros f0 Hin0. apply list_lookup_insert_ne. intros E.
      destruct (frames_cell _ _ _ _ Hfr Hin0) as [ex Hex]. rewrite <- E in Hex. congruence. }
    split; [|split; [|split; [|split; [|split]]]].
    + eapply frames_ok_transfer; eauto.
    + apply heap_ok_insert; [exact Hh|].
      intros k' l' Hin'. apply In_vals_insert in Hin'. exact (Hh _ _ Hl _ _ Hin').
    + apply length_insert.
    + apply Hother. now left.
    + intros l0 Hl0 _. apply list_lookup_insert_ne. lia.
    + intros k'. unfold has_key. rewrite Hother; [reflexivity|]. right. now left.
Qed.

Lemma onText_white text st :
  String.eqb (trim text) "" = true -> onText nativeType text st = Ok st.
Proof. intros H. unfold onText. now rewrite H. Qed.

(** Text that is not white space, inside an element that is not the
    root: the text callback runs on the parent, and the current element
    gets [_text], which holds [undefined] since the callback returns
    nothing. *)
Lemma onText_step text f f2 rest st :
  Inv (f :: f2 :: rest) st ->
  obj_has (prot f) "_text" = false ->
  String.eqb (trim text) "" = false ->
  exists st',
    onText nativeType text st = Ok st'
    /\ Inv (f :: f2 :: rest) st'
    /\ length (store st) <= length (store st')
    /\ (forall l, l < birth f2 -> l <> at_ f2 -> store st' !! l = store st !! l)
    /\ (forall k, has_key (store st') (at_ f2) k = has_key (store st) (at_ f2) k)
    /\ (forall k, has_key (store st') (at_ f) k
                  = String.eqb "_text" k || has_key (store st) (at_ f) k)
    /\ exists h' extra,
         textFn nativeType (trim text) (VRef (at_ f)) (store st) = Ok (h', vundefined)
         /\ store st !! at_ f = Some (CObj (prot f ++ extra))
         /\ store st' = <[at_ f := CObj (prot f ++ obj_set extra "_text" vundefined)]> h'.
Proof.
  intros (Hcur & Hfr & dep & Hh) Hnt Hw.
  unfold onText. rewrite Hw.
  destruct st as [h cur]. simpl in *. subst cur.
  set (value := trim text).
  destruct (textFn_runs value f f2 rest h Hfr) as (h' & Hrun & Heff).
  destruct (textFn_effect_ok _ f f2 rest h h' dep _ Hfr Hh Heff)
    as (Hfr' & Hh' & Hlen & Hsame & Hpres & Hkeys).
  assert (Hfr0 := Hfr). simpl in Hfr0.
  destruct Hfr0 as (Hb1 & Hb1' & Hnl & _ & (p & Hp & Hp2 & Hb) & (extra & Hc & He & _) & _).
  assert (Hex : default vundefined (obj_get extra "_text") = vundefined).
  { destruct (obj_get extra "_text") as [v|] eqn:G; [|reflexivity].
    apply obj_get_In in G. unfold extra_ok in He. rewrite List.Forall_forall in He.
    destruct (He _ G) as (_ & _ & Ht & _). simpl. now apply Ht. }
  assert (Hc' : h' !! at_ f = Some (CObj (prot f ++ extra))) by now rewrite Hsame.
  assert (Hrun' : addField_text nativeType value {| store := h; currentElement := VRef (at_ f) |}
                  = Ok {| store := <[at_ f := CObj (prot f ++ obj_set extra "_text" vundefined)]> h';
                          currentElement := VRef (at_ f) |}).
  { unfold addField_text. simpl currentElement. simpl store. cbv beta iota.
    rewrite (obj_prop_frame h (at_ f) (prot f) extra "_text" Hc Hnt eq_refl), Hex.
    unfold Js.rbind at 1. unfold Ok at 1.
    change (val_truthy vundefined && negb (val_isArray h vundefined)) with false.
    cbv beta iota.
    unfold Js.rbind at 1. unfold Ok at 1. rewrite Hrun.
    unfold Js.rbind at 1. unfold Ok at 1. cbv beta iota.
    rewrite (obj_prop_frame h' (at_ f) (prot f) extra "_text" Hc' Hnt eq_refl), Hex.
    unfold Js.rbind at 1. unfold Ok at 1. unfold vundefined at 1. cbv beta iota.
    rewrite (obj_assign_frame h' (at_ f) (prot f) extra "_text" _ Hc' Hnt eq_refl).
    reflexivity. }
  eexists. split; [exact Hrun'|]. simpl.
  assert (He' : extra_ok (birth f) h' (prot f) extra).
  { simpl in Hfr'. destruct Hfr' as (_ & _ & _ & _ & _ & (extra' & Hc'' & He'' & _) & _).
    rewrite Hc' in Hc''. injection Hc'' as Hc''. apply app_inv_head in Hc''. now subst. }
  assert (Hel : cell_elemish (CObj (prot f ++ obj_set extra "_text" vundefined))).
  { simpl. rewrite obj_has_app, obj_has_set.
    change (String.eqb "_text" "length") with false. cbn [orb].
    rewrite <- obj_has_app. exact (frame_cell_elemish _ _ _ _ Hnl He'). }
  split; [split; [reflexivity|split]|split; [|split; [|split; [|split]]]].
  - apply frames_ok_update; [exact Hfr'| |exact Hel].
    intros f0 Hin0 E. rewrite (frame_unique _ _ _ _ _ Hfr' Hin0 E).
    split; [reflexivity|]. split; [|now apply set_nonempty].
    apply Forall_obj_set; [reflexivity| |].
    + eapply extra_ok_grows; [|exact He']. now apply grows_insert.
    + split; [reflexivity|]. split; [exact Hnt|]. split; [reflexivity|exact I].
  - exists dep. apply heap_ok_insert; [exact Hh'|].
    intros k' l' Hin'. simpl in Hin'. apply in_app_or in Hin'.
    apply (Hh' _ _ Hc'). simpl. apply in_or_app.
    destruct Hin' as [Hin'|Hin']; [now left|right].
    apply In_set in Hin'; [|reflexivity]. destruct Hin' as [[=]|Hin']. exact Hin'.
  - rewrite length_insert. lia.
  - intros l Hl Hne. rewrite list_lookup_insert_ne by lia. now apply Hpres.
  - intros k. rewrite <- Hkeys. unfold has_key. now rewrite list_lookup_insert_ne by lia.
  - intros k. unfold has_key.
    rewrite list_lookup_insert_eq by (eapply lookup_lt_Some; eauto).
    now rewrite Hc, !obj_has_app, obj_has_set, orb_assoc, (orb_comm (obj_has (prot f) k)),
      orb_assoc.
  - exists h', extra. auto.
Qed.

End Callbacks.
End TextSteps.

(** ** An end tag, and the attachment of a new element to its parent *)

Module ElementSteps.
Import JsString Js Store Xml2js JsFacts ObjectFacts Documents ParseState StoreFacts TextSteps.
Local Open Scope nat_scope.
Local Open Scope list_scope.

Lemma rbind_Ok {A B} (a : A) (k : A -> result B) : rbind (Ok a) k = k a.
Proof. reflexivity. Qed.

Lemma heap_ok_build dep dep' opens opens' (h h' : heap) :
  heap_ok dep opens h ->
  (forall x, x < length h -> dep' x = dep x) ->
  length h <= length h' ->
  (forall l c, h' !! l = Some c ->
     (h !! l = Some c /\ (In l opens -> In l opens'))
     \/ cell_ok dep' opens' (length h') l c) ->
  heap_ok dep' opens' h'.
Proof.
  intros H Hd Hlen Hc l c Hl. destruct (Hc l c Hl) as [[Hold Ho]|Hnew]; [|exact Hnew].
  eapply cell_ok_mono; [exact (H l c Hold)| |exact Hd|exact Ho|exact Hlen].
  eapply lookup_lt_Some; eauto.
Qed.

Lemma frames_ok_build (h h' : heap) fs : forall top,
  frames_ok h top fs -> grows h h' ->
  (forall f0, In f0 fs ->
     h' !! at_ f0 = h !! at_ f0
     \/ exists extra', h' !! at_ f0 = Some (CObj (prot f0 ++ extra'))
          /\ extra_ok (birth f0) h' (prot f0) extra' /\ extra' <> []) ->
  frames_ok h' top fs.
Proof.
  induction fs as [|f rest IH]; intros top; [intros; exact I|].
  intros Hok Hg Hx. simpl in Hok.
  destruct Hok as (H1 & H2 & H3 & H3' & H4 & (extra & H5 & H6 & H7) & H8).
  simpl. split; [exact H1|]. split; [destruct Hg; lia|].
  split; [exact H3|]. split; [exact H3'|]. split; [exact H4|]. split.
  - destruct (Hx f (or_introl eq_refl)) as [E|(extra' & E & He & Hne)].
    + exists extra. rewrite E. split; [exact H5|]. split; [|exact H7].
      now apply (extra_ok_grows _ h).
    + exists extra'. split; [exact E|]. split; [exact He|]. intros _. exact Hne.
  - apply IH; auto. intros f' Hf'. apply Hx. now right.
Qed.

Lemma obj_has_delete_ne {V} (o : list (string * V)) x k :
  x <> k -> obj_has (obj_delete o x) k = obj_has o k.
Proof. intros H. unfold obj_has. now rewrite obj_get_delete_ne. Qed.

(** An end tag: the parent pointer of the current element is deleted
    and its parent becomes the current element. *)
Lemma onEndElement_step f rest st :
  Inv (f :: rest) st ->
  exists extra p,
    store st !! at_ f = Some (CObj (prot f ++ extra))
    /\ obj_get (prot f) "_parent" = Some (VRef p)
    /\ onEndElement st
       = Ok {| store := <[at_ f := CObj (obj_delete (prot f) "_parent" ++ extra)]> (store st);
               currentElement := VRef p |}
    /\ frames_ok (<[at_ f := CObj (obj_delete (prot f) "_parent" ++ extra)]> (store st)) true rest
    /\ (exists dep, heap_ok dep (map at_ rest)
                      (<[at_ f := CObj (obj_delete (prot f) "_parent" ++ extra)]> (store st)))
    /\ match rest with
       | f2 :: _ => p = at_ f2
       | [] => True
       end.
Proof.
  intros (Hcur & Hfr & dep & Hh). destruct st as [h cur]. simpl in *. subst cur.
  destruct Hfr as (Hb1 & Hb2 & Hnl & Hnd & (p & Hp & Hpar) & (extra & Hc & He & _) & Hrest).
  exists extra, p. split; [exact Hc|]. split; [exact Hp|].
  assert (Hhas : obj_has (prot f) "_parent" = true) by (unfold obj_has; now rewrite Hp).
  split; [|split; [|split]].
  - unfold onEndElement. simpl. rewrite Hc, (obj_get_app_l _ _ _ _ Hp).
    now rewrite obj_delete_app_l.
  - assert (Hel : cell_elemish (CObj (obj_delete (prot f) "_parent" ++ extra))).
    { simpl. rewrite obj_has_app, obj_has_delete_ne by discriminate.
      rewrite <- obj_has_app. exact (frame_cell_elemish _ _ _ _ Hnl He). }
    apply frames_ok_weaken. eapply frames_ok_transfer; [now apply grows_insert| |exact Hrest].
    intros f0 Hin0. apply list_lookup_insert_ne.
    assert (at_ f0 < at_ f); [|lia].
    eapply frames_lt; eauto. destruct rest as [|f2 rest']; [exact I|]. tauto.
  - exists dep. intros l c Hl. rewrite length_insert.
    apply list_lookup_insert_Some in Hl. destruct Hl as [(<- & <- & _)|[Hne Hl]].
    + intros k l' Hin. simpl in Hin. apply in_app_or in Hin.
      assert (Hk : In (k, VRef l') (prot f ++ extra) /\ k <> "_parent").
      { destruct Hin as [Hin|Hin].
        - apply In_delete in Hin; [|exact Hnd]. destruct Hin. split; [|assumption].
          apply in_or_app. now left.
        - split; [apply in_or_app; now right|].
          unfold extra_ok in He. rewrite List.Forall_forall in He.
          destruct (He _ Hin) as (Hk & _). simpl in Hk.
          destruct (ok_key_facts _ Hk) as (? & _). assumption. }
      destruct Hk as [Hin' Hk]. destruct (Hh _ _ Hc k l' Hin') as [H1 [H2|[H2 _]]].
      * split; [exact H1|now left].
      * contradiction.
    + eapply cell_ok_mono; [exact (Hh l c Hl)| |reflexivity| |lia].
      * eapply lookup_lt_Some; eauto.
      * simpl. intros [E|E]; [congruence|exact E].
  - destruct rest as [|f2 rest']; [exact I|]. tauto.
Qed.

Section Attach.
Variables (H2 : heap) (c e : loc) (prot extra eprops : list (string * val)) (nm : string).
Hypothesis Hc : H2 !! c = Some (CObj (prot ++ extra)).
Hypothesis He : H2 !! e = Some (CObj eprops).
Hypothesis Hnp : obj_has prot nm = false.
Hypothesis Hord : ordinary nm = true.
Hypothesis Hep : obj_has eprops "_parent" = false.

Let element_cell : cell := CObj (eprops ++ [("_parent", VRef c)]).

Lemma c_ne_e_attach : obj_has prot "_parent" = true -> c <> e.
Proof.
  intros Hp E. subst e. rewrite Hc in He. injection He as He'.
  rewrite <- He', obj_has_app, Hp in Hep. discriminate.
Qed.

Hypothesis Hpp : obj_has prot "_parent" = true.

Lemma attach_parent (h : heap) :
  h !! e = Some (CObj eprops) ->
  obj_assign h e "_parent" (VRef c) = Ok (<[e := element_cell]> h).
Proof.
  intros Hh. unfold obj_assign. rewrite Hh. unfold obj_set. now rewrite Hep.
Qed.

(** Nothing truthy is under the name: the new element is assigned. *)
Lemma attach_assign p :
  default vundefined (obj_get extra nm) = VPrim p -> prim_truthy p = false ->
  attachElement nm c e H2
  = Ok {| store := <[e := element_cell]> (<[c := CObj (prot ++ obj_set extra nm (VRef e))]> H2);
          currentElement := VRef e |}.
Proof.
  intros Hv Hf. destruct (ordinary_facts _ Hord) as (_ & _ & _ & _ & Hi & Hx).
  unfold attachElement.
  rewrite (obj_prop_frame _ _ _ _ _ Hc Hnp Hi), Hv, rbind_Ok.
  simpl val_truthy. rewrite Hf. cbn [andb]. rewrite rbind_Ok.
  rewrite (obj_prop_frame _ _ _ _ _ Hc Hnp Hi), Hv, rbind_Ok.
  rewrite (obj_assign_frame _ _ _ _ _ _ Hc Hnp Hx), rbind_Ok.
  rewrite attach_parent, rbind_Ok; [reflexivity|].
  rewrite list_lookup_insert_ne by (apply c_ne_e_attach; exact Hpp). exact He.
Qed.

(** A sequence is under the name: the new element is pushed. *)
Lemma attach_push l es :
  obj_get extra nm = Some (VRef l) -> H2 !! l = Some (CArr es) ->
  attachElement nm c e H2
  = Ok {| store := <[e := element_cell]> (<[l := CArr (es ++ [VRef e])]> H2);
          currentElement := VRef e |}.
Proof.
  intros Hv Hl. destruct (ordinary_facts _ Hord) as (_ & _ & _ & _ & Hi & Hx).
  unfold attachElement.
  rewrite (obj_prop_frame _ _ _ _ _ Hc Hnp Hi), Hv, rbind_Ok.
  simpl default. simpl val_truthy. unfold val_isArray. rewrite Hl. cbn [andb negb].
  rewrite rbind_Ok.
  rewrite (obj_prop_frame _ _ _ _ _ Hc Hnp Hi), Hv, rbind_Ok.
  simpl default. cbv beta iota. rewrite Hl, rbind_Ok.
  rewrite attach_parent, rbind_Ok; [reflexivity|].
  rewrite list_lookup_insert_ne by congruence. exact He.
Qed.

(** A single truthy value is under the name: it is wrapped in a new
    sequence, and the new element is pushed. *)
Lemma attach_promote v :
  default vundefined (obj_get extra nm) = v ->
  val_truthy v = true -> val_isArray H2 v = false ->
  attachElement nm c e H2
  = Ok {| store := <[e := element_cell]>
                     (<[length H2 := CArr [v; VRef e]]>
                        (<[c := CObj (prot ++ obj_set extra nm (VRef (length H2)))]>
                           (H2 ++ [CArr [v]])));
          currentElement := VRef e |}.
Proof.
  intros Hv Ht Ha. destruct (ordinary_facts _ Hord) as (_ & _ & _ & _ & Hi & Hx).
  assert (Hlc : c < length H2) by (eapply lookup_lt_Some; eauto).
  assert (Hle : e < length H2) by (eapply lookup_lt_Some; eauto).
  unfold attachElement.
  rewrite (obj_prop_frame _ _ _ _ _ Hc Hnp Hi), Hv, rbind_Ok.
  rewrite Ht, Ha. cbn [andb negb]. unfold alloc.
  assert (Hc' : (H2 ++ [CArr [v]]) !! c = Some (CObj (prot ++ extra)))
    by now apply lookup_app_l_Some.
  rewrite (obj_assign_frame _ _ _ _ _ _ Hc' Hnp Hx), rbind_Ok.
  set (H3 := <[c := CObj (prot ++ obj_set extra nm (VRef (length H2)))]> (H2 ++ [CArr [v]])).
  assert (Hc3 : H3 !! c = Some (CObj (prot ++ obj_set extra nm (VRef (length H2))))).
  { unfold H3. apply list_lookup_insert_eq. rewrite length_app. simpl. lia. }
  rewrite (obj_prop_frame _ _ _ _ _ Hc3 Hnp Hi), obj_get_set, String.eqb_refl, rbind_Ok.
  simpl default. cbv beta iota.
  assert (Harr : H3 !! length H2 = Some (CArr [v])).
  { unfold H3. rewrite list_lookup_insert_ne by lia. now apply list_lookup_middle. }
  rewrite Harr, rbind_Ok.
  rewrite attach_parent, rbind_Ok; [reflexivity|].
  rewrite list_lookup_insert_ne by lia. unfold H3.
  rewrite list_lookup_insert_ne by (apply c_ne_e_attach; exact Hpp).
  now apply lookup_app_l_Some.
Qed.

End Attach.
End ElementSteps.

(** ** The three cases of a start tag *)

Module StartCases.
Import JsString Js Store Xml2js JsFacts ObjectFacts Documents ParseState StoreFacts TextSteps ElementSteps.
Local Open Scope nat_scope.
Local Open Scope list_scope.

Section Callbacks.
Variable camelCase : string -> string.

(** A start tag allocates the attributes, if any, and the element, and
    attaches the element. *)
Lemma onStartElement_unfold name attrs (h : heap) c :
  exists acells eprops,
    onStartElement camelCase name attrs {| store := h; currentElement := VRef c |}
    = attachElement (elementNameFn camelCase name) c (length (h ++ acells))
        ((h ++ acells) ++ [CObj eprops])
    /\ Forall prims_only acells
    /\ ((acells = [] /\ eprops = [])
        \/ (exists ac, acells = [ac] /\ eprops = [("_attributes", VRef (length h))])).
Proof.
  unfold onStartElement. simpl currentElement. cbv beta iota zeta. simpl store.
  destruct (manipulateAttributes attrs) as [|a0 as0] eqn:E.
  - exists [], []. rewrite app_nil_r. split; [reflexivity|]. split; [constructor|]. now left.
  - eexists [_], [_]. unfold alloc. split; [reflexivity|]. split.
    + constructor; [|constructor]. intros k l' Hin. unfold vals in Hin.
      apply in_map_iff in Hin. destruct Hin as ([k0 v0] & Hv & _). discriminate.
    + right. eexists. split; reflexivity.
Qed.

End Callbacks.

Lemma frames_ok_nonempty (h : heap) f rest :
  frames_ok h true (f :: rest) ->
  (forall extra, h !! at_ f = Some (CObj (prot f ++ extra)) -> extra <> []) ->
  frames_ok h false (f :: rest).
Proof.
  simpl. intros (H1 & H2 & H3 & H3' & H4 & (extra & H5 & H6 & H7) & H8) Hne.
  split; [exact H1|]. split; [exact H2|]. split; [exact H3|].
  split; [exact H3'|]. split; [exact H4|]. split; [|exact H8].
  exists extra. split; [exact H5|]. split; [exact H6|]. intros _. now apply Hne.
Qed.

Section Start.
Variables (h : heap) (f : frame) (rest : list frame) (dep : loc -> Q).
Variables (acells : list cell) (eprops extra : list (string * val)) (nm : string).
Hypothesis Hfr : frames_ok h true (f :: rest).
Hypothesis Hh : heap_ok dep (map at_ (f :: rest)) h.
Hypothesis Hc : h !! at_ f = Some (CObj (prot f ++ extra)).
Hypothesis Hprims : Forall prims_only acells.
Hypothesis Hshape :
  (acells = [] /\ eprops = [])
  \/ (exists ac, acells = [ac] /\ eprops = [("_attributes", VRef (length h))]).
Hypothesis Hord : ordinary nm = true.
Hypothesis Hnp : obj_has (prot f) nm = false.

Let c := at_ f.
Let e := length (h ++ acells).
Let H2 := (h ++ acells) ++ [CObj eprops].
Let E := CObj (eprops ++ [("_parent", VRef c)]).

Lemma start_facts :
  c < birth f /\ birth f <= length h /\ length h <= e /\ e < length H2
  /\ H2 !! c = Some (CObj (prot f ++ extra)) /\ H2 !! e = Some (CObj eprops)
  /\ obj_has eprops "_parent" = false /\ obj_has (prot f) "_parent" = true
  /\ extra_ok (birth f) h (prot f) extra
  /\ obj_has (prot f) "length" = false
  /\ (forall l, l < length h -> H2 !! l = h !! l)
  /\ length H2 = S e.
Proof.
  assert (Hfr' := Hfr). simpl in Hfr'.
  destruct Hfr' as (Hb1 & Hb2 & Hnl & Hnd & (p & Hp & Hpar) & (extra0 & Hc0 & He0 & _) & Hrest).
  fold c in Hc, Hc0, Hb1. rewrite Hc in Hc0. injection Hc0 as Hc0. apply app_inv_head in Hc0.
  subst extra0.
  assert (Hlc : c < length h) by (eapply lookup_lt_Some; eauto).
  assert (Hle : length h <= e) by (unfold e; rewrite length_app; lia).
  assert (Hlen : length H2 = S e) by (unfold H2, e; rewrite !length_app; simpl; lia).
  assert (Hold : forall l, l < length h -> H2 !! l = h !! l).
  { intros l Hl. unfold H2. rewrite lookup_app_l by (rewrite length_app; lia).
    now rewrite lookup_app_l. }
  split; [exact Hb1|]. split; [exact Hb2|]. split; [exact Hle|]. split; [lia|].
  split; [rewrite Hold; auto|]. split; [unfold H2; now apply list_lookup_middle|].
  split; [destruct Hshape as [[_ ->]|(ac & _ & ->)]; reflexivity|].
  split; [unfold obj_has; now rewrite Hp|].
  split; [exact He0|]. split; [exact Hnl|]. split; [exact Hold|exact Hlen].
Qed.

Lemma E_elemish : cell_elemish E.
Proof.
  unfold E. simpl. destruct Hshape as [[_ ->]|(ac & _ & ->)]; reflexivity.
Qed.

Lemma E_fresh k : ok_key k = true -> obj_has (eprops ++ [("_parent", VRef c)]) k = false.
Proof.
  intros Hk. destruct (ok_key_facts _ Hk) as (H1 & H2' & _).
  assert (Hp : String.eqb "_parent" k = false) by (apply String.eqb_neq; congruence).
  assert (Ha : String.eqb "_attributes" k = false) by (apply String.eqb_neq; congruence).
  rewrite obj_has_app.
  destruct Hshape as [[_ ->]|(ac & _ & ->)];
    now rewrite ?obj_has_cons, ?obj_has_nil, ?Hp, ?Ha.
Qed.

Lemma E_nodup : List.NoDup (keys (eprops ++ [("_parent", VRef c)])).
Proof.
  destruct Hshape as [[_ ->]|(ac & _ & ->)]; simpl.
  - repeat constructor. intros [].
  - repeat constructor; simpl; intuition discriminate.
Qed.

(** The cells of the new element and of its attributes under a rank
    that puts the element at [d_e] and anything else new above it. *)
Lemma E_cell_ok n d_e arr d_arr opens :
  e < arr \/ arr = e -> S e <= n ->
  cell_ok (dep_with dep (length h) e d_e arr d_arr) (e :: opens) n e E.
Proof.
  intros Harr Hn k l' Hin. unfold E in Hin. simpl in Hin.
  destruct start_facts as (Hb1 & Hb2 & Hle & _).
  assert (Hlc : c < length h) by lia.
  apply in_app_or in Hin. destruct Hin as [Hin|[[= <- <-]|[]]].
  - destruct Hshape as [[_ Hep]|(ac & Hac & Hep)]; rewrite Hep in Hin; [destruct Hin|].
    destruct Hin as [[= <- <-]|[]].
    assert (He : e = S (length h)) by (unfold e; rewrite Hac, length_app; simpl; lia).
    split; [lia|]. left. unfold dep_with.
    destruct (Nat.ltb_spec (length h) (length h)); [lia|].
    destruct (Nat.ltb_spec e (length h)); [lia|].
    rewrite Nat.eqb_refl.
    destruct (Nat.eqb_spec (length h) e); [lia|].
    destruct (Nat.eqb_spec (length h) arr); [lia|]. lra.
  - split; [lia|]. right. split; [reflexivity|now left].
Qed.

Lemma dep_with_old d_e arr d_arr x :
  x < length h -> dep_with dep (length h) e d_e arr d_arr x = dep x.
Proof. intros Hx. unfold dep_with. destruct (Nat.ltb_spec x (length h)); [reflexivity|lia]. Qed.

Lemma dep_with_e d_e arr d_arr :
  dep_with dep (length h) e d_e arr d_arr e = d_e.
Proof.
  destruct start_facts as (_ & _ & Hle & _). unfold dep_with.
  destruct (Nat.ltb_spec e (length h)); [lia|]. now rewrite Nat.eqb_refl.
Qed.

Lemma dep_with_arr d_e arr d_arr :
  e < arr -> dep_with dep (length h) e d_e arr d_arr arr = d_arr.
Proof.
  destruct start_facts as (_ & _ & Hle & _). intros Harr. unfold dep_with.
  destruct (Nat.ltb_spec arr (length h)); [lia|].
  destruct (Nat.eqb_spec arr e); [lia|]. now rewrite Nat.eqb_refl.
Qed.

(** A cell of [H2] that is neither the current element nor the new
    one: an old cell, or the cell of the attributes. *)
Lemma other_cell opens' n d_e arr d_arr l cl :
  H2 !! l = Some cl -> l <> e ->
  (h !! l = Some cl) \/ cell_ok (dep_with dep (length h) e d_e arr d_arr) opens' n l cl.
Proof.
  intros Hl Hne. unfold H2 in Hl. apply lookup_app_Some in Hl.
  destruct Hl as [Hl|[Hge Hl]].
  - apply lookup_app_Some in Hl. destruct Hl as [Hl|[Hge Hl]]; [now left|].
    right. apply cell_ok_prims. rewrite List.Forall_forall in Hprims. apply Hprims.
    apply list_elem_of_In. eapply list_elem_of_lookup_2; eauto.
  - fold e in Hge, Hl. destruct (l - e) as [|i] eqn:Ei; [lia|]. destruct i; discriminate.
Qed.

Lemma start_inv (h' : heap) extra' dep' :
  grows h h' ->
  h' !! e = Some E ->
  h' !! c = Some (CObj (prot f ++ extra')) -> extra' <> [] ->
  extra_ok (birth f) h' (prot f) extra' ->
  (forall l, l < c -> h' !! l = h !! l) ->
  heap_ok dep' (e :: map at_ (f :: rest)) h' ->
  Inv ({| at_ := e; prot := eprops ++ [("_parent", VRef c)]; birth := length h' |} :: f :: rest)
      {| store := h'; currentElement := VRef e |}.
Proof.
  intros Hg He' Hc' Hne Hex' Hlow Hh'.
  destruct start_facts as (Hb1 & Hb2 & Hle & _ & _ & _ & Hep & _).
  split; [reflexivity|]. split; [|now exists dep'].
  cbn [frames_ok at_ prot birth store].
  split; [eapply lookup_lt_Some; eauto|]. split; [lia|].
  split; [exact E_elemish|]. split; [exact E_nodup|]. split; [|split].
  - exists c. split; [|split; [reflexivity|lia]].
    rewrite (obj_get_app_r _ _ _ Hep). unfold obj_get. now rewrite String.eqb_refl.
  - exists []. rewrite app_nil_r. split; [exact He'|]. split; [constructor|discriminate].
  - apply frames_ok_nonempty.
    + eapply frames_ok_build; [exact Hfr|exact Hg|].
      intros f0 [<-|Hin].
      * right. exists extra'. auto.
      * left. apply Hlow. assert (Hfr' := Hfr). simpl in Hfr'.
        destruct Hfr' as (_ & _ & _ & _ & (p & _ & Hp) & _ & Hrest).
        eapply frames_lt; eauto. destruct rest as [|f2 rest']; [exact I|]. tauto.
    + intros extra0 Hc0. fold c in Hc0. rewrite Hc' in Hc0. injection Hc0 as Hc0.
      apply app_inv_head in Hc0. now subst.
Qed.

Lemma ordinary_ok_key : ok_key nm = true.
Proof. unfold ok_key. now rewrite Hord. Qed.

(** The slot that holds the new element, or the sequence it is in. *)
Lemma new_slot_ok (h' : heap) l' :
  birth f <= l' -> elemish h' l' -> slot_ok (birth f) h' (prot f) (nm, VRef l').
Proof.
  intros Hb Hl. split; [exact ordinary_ok_key|]. split; [exact Hnp|]. split; [|now split].
  simpl. intros ->. discriminate.
Qed.

Lemma elemish_at (h' : heap) l cl : h' !! l = Some cl -> cell_elemish cl -> elemish h' l.
Proof. intros Hl Hcl. unfold elemish. rewrite Hl. destruct cl; exact Hcl. Qed.

(** An old reference of the current element under the new rank. *)
Lemma old_ref d_e arr d_arr opens' n k l' :
  In (k, VRef l') (prot f ++ extra) -> length h <= n ->
  (forall x, In x (map at_ (f :: rest)) -> In x opens') ->
  l' < n
  /\ ((dep_with dep (length h) e d_e arr d_arr c < dep_with dep (length h) e d_e arr d_arr l')%Q
      \/ (k = "_parent" /\ In c opens')).
Proof.
  intros Hin Hn Ho. destruct start_facts as (Hb1 & Hb2 & _).
  destruct (Hh _ _ Hc k l' Hin) as [H1 H2'].
  split; [lia|]. rewrite !dep_with_old by (fold c; lia).
  destruct H2' as [H2'|[H2' H3]]; [now left|right]. split; [exact H2'|]. apply Ho. exact H3.
Qed.

Lemma start_assign :
  let h' := <[e := E]> (<[c := CObj (prot f ++ obj_set extra nm (VRef e))]> H2) in
  Inv (new_frame c e eprops h' :: f :: rest) {| store := h'; currentElement := VRef e |}
  /\ (forall l, l < length h -> l <> c -> h' !! l = h !! l)
  /\ h' !! c = Some (CObj (prot f ++ obj_set extra nm (VRef e)))
  /\ h' !! e = Some E /\ length h <= length h'.
Proof.
  intros h'.
  destruct start_facts
    as (Hb1 & Hb2 & Hle & Hlt & Hc2 & He2 & Hep & Hpp & Hex & Hnl & Hold & Hlen).
  destruct (ordinary_facts _ Hord) as (_ & _ & _ & Hnlen & Hi & Hx).
  assert (Hlc : c < length h) by lia.
  assert (Hg : grows h h').
  { unfold h', H2. eapply grows_trans; [apply grows_alloc|].
    eapply grows_trans; [apply grows_alloc|].
    eapply grows_trans; [apply grows_insert|apply grows_insert; exact E_elemish].
    simpl. rewrite obj_has_app, obj_has_set, Hnl.
    rewrite (proj2 (String.eqb_neq nm "length") Hnlen). cbn [orb].
    pose proof (frame_cell_elemish _ _ _ _ Hnl Hex) as Hfe. simpl in Hfe.
    now rewrite obj_has_app, Hnl in Hfe. }
  assert (He' : h' !! e = Some E).
  { unfold h'. apply list_lookup_insert_eq. rewrite length_insert. lia. }
  assert (Hc' : h' !! c = Some (CObj (prot f ++ obj_set extra nm (VRef e)))).
  { unfold h'. rewrite list_lookup_insert_ne by lia. apply list_lookup_insert_eq. lia. }
  assert (Hlen' : length h' = S e) by (unfold h'; now rewrite !length_insert).
  split; [|split; [|split; [exact Hc'|split; [exact He'|lia]]]].
  - apply (start_inv h' (obj_set extra nm (VRef e))
             (dep_with dep (length h) e (dep c + 1)%Q e 0%Q)); auto.
    + now apply set_nonempty.
    + apply Forall_obj_set; [exact Hx| |].
      * now apply (extra_ok_grows _ h).
      * apply new_slot_ok; [lia|]. exact (elemish_at _ _ _ He' E_elemish).
    + intros l Hl. unfold h'. rewrite !list_lookup_insert_ne by lia. apply Hold. lia.
    + eapply heap_ok_build; [exact Hh|intros x Hxl; now apply dep_with_old|lia|].
      intros l cl Hl. rewrite Hlen'. unfold h' in Hl.
      apply list_lookup_insert_Some in Hl. destruct Hl as [(E1 & E2 & _)|[Hne Hl]].
      { right. subst l cl. apply E_cell_ok; [now right|lia]. }
      apply list_lookup_insert_Some in Hl. destruct Hl as [(E1 & E2 & _)|[Hne' Hl]].
      { right. subst l cl. intros k l' Hin. simpl in Hin. apply in_app_or in Hin.
        destruct Hin as [Hin|Hin].
        - apply old_ref; [apply in_or_app; now left|lia|intros x Hxo; now right].
        - apply In_set in Hin; [|exact Hx]. destruct Hin as [Hin|Hin].
          + injection Hin as E1 E2. subst k l'.
            split; [lia|]. left. rewrite dep_with_e, dep_with_old by (fold c; lia). lra.
          + apply old_ref; [apply in_or_app; now right|lia|intros x Hxo; now right]. }
      destruct (other_cell (e :: map at_ (f :: rest)) (S e) (dep c + 1)%Q e 0%Q l cl Hl)
        as [Ho|Ho]; [congruence| |now right].
      left. split; [exact Ho|intros Hin; now right].
  - intros l Hl Hne. unfold h'. rewrite !list_lookup_insert_ne by (fold c; lia). now apply Hold.
Qed.

Lemma start_push l0 es :
  obj_get extra nm = Some (VRef l0) -> h !! l0 = Some (CArr es) ->
  let h' := <[e := E]> (<[l0 := CArr (es ++ [VRef e])]> H2) in
  Inv (new_frame c e eprops h' :: f :: rest) {| store := h'; currentElement := VRef e |}
  /\ (forall l, l < length h -> l <> c -> l <> l0 -> h' !! l = h !! l)
  /\ h' !! c = Some (CObj (prot f ++ extra))
  /\ h' !! l0 = Some (CArr (es ++ [VRef e]))
  /\ h' !! e = Some E /\ length h <= length h'.
Proof.
  intros Hv Hl0 h'.
  destruct start_facts
    as (Hb1 & Hb2 & Hle & Hlt & Hc2 & He2 & Hep & Hpp & Hex & Hnl & Hold & Hlen).
  assert (Hlc : c < length h) by lia.
  assert (Hin0 : In (nm, VRef l0) extra) by now apply obj_get_In.
  assert (Hslot : slot_ok (birth f) h (prot f) (nm, VRef l0)).
  { unfold extra_ok in Hex. rewrite List.Forall_forall in Hex. now apply Hex. }
  destruct Hslot as (_ & _ & _ & Hbl & _). simpl in Hbl.
  assert (Hll : l0 < length h) by (eapply lookup_lt_Some; eauto).
  assert (Hg : grows h h').
  { unfold h', H2. eapply grows_trans; [|apply grows_insert; exact E_elemish].
    eapply grows_trans; [|apply grows_insert; exact I].
    eapply grows_trans; apply grows_alloc. }
  assert (He' : h' !! e = Some E).
  { unfold h'. apply list_lookup_insert_eq. rewrite length_insert. lia. }
  assert (Hc' : h' !! c = Some (CObj (prot f ++ extra))).
  { unfold h'. rewrite !list_lookup_insert_ne by lia. exact Hc2. }
  assert (Hl' : h' !! l0 = Some (CArr (es ++ [VRef e]))).
  { unfold h'. rewrite list_lookup_insert_ne by lia. apply list_lookup_insert_eq. lia. }
  assert (Hlen' : length h' = S e) by (unfold h'; now rewrite !length_insert).
  split; [|split; [|split; [exact Hc'|split; [exact Hl'|split; [exact He'|lia]]]]].
  - apply (start_inv h' extra (dep_with dep (length h) e (dep l0 + 1)%Q e 0%Q)); auto.
    + intros ->. destruct Hin0.
    + now apply (extra_ok_grows _ h).
    + intros l Hl. unfold h'. rewrite !list_lookup_insert_ne by lia. apply Hold. lia.
    + eapply heap_ok_build; [exact Hh|intros x Hxl; now apply dep_with_old|lia|].
      intros l cl Hl. rewrite Hlen'. unfold h' in Hl.
      apply list_lookup_insert_Some in Hl. destruct Hl as [(E1 & E2 & _)|[Hne Hl]].
      { right. subst l cl. apply E_cell_ok; [now right|lia]. }
      apply list_lookup_insert_Some in Hl. destruct Hl as [(E1 & E2 & _)|[Hne' Hl]].
      { right. subst l cl. intros k l' Hin. simpl in Hin.
        rewrite map_app in Hin. apply in_app_or in Hin. destruct Hin as [Hin|Hin].
        - destruct (Hh _ _ Hl0 k l' Hin) as [H1 H2'].
          split; [lia|]. rewrite !dep_with_old by lia.
          destruct H2' as [H2'|[H2' H3]]; [now left|right]. split; [exact H2'|now right].
        - destruct Hin as [Hin|[]]. injection Hin as E1 E2. subst k l'.
          split; [lia|]. left. rewrite dep_with_e, dep_with_old by lia. lra. }
      destruct (other_cell (e :: map at_ (f :: rest)) (S e) (dep l0 + 1)%Q e 0%Q l cl Hl)
        as [Ho|Ho]; [congruence| |now right].
      left. split; [exact Ho|intros Hin; now right].
  - intros l Hl Hne Hne'. unfold h'. rewrite !list_lookup_insert_ne by (fold c; lia).
    now apply Hold.
Qed.

Lemma start_promote v :
  obj_get extra nm = Some v -> val_truthy v = true -> val_isArray h v = false ->
  let arr := S e in
  let h' := <[e := E]>
              (<[arr := CArr [v; VRef e]]>
                 (<[c := CObj (prot f ++ obj_set extra nm (VRef arr))]> (H2 ++ [CArr [v]]))) in
  Inv (new_frame c e eprops h' :: f :: rest) {| store := h'; currentElement := VRef e |}
  /\ (forall l, l < length h -> l <> c -> h' !! l = h !! l)
  /\ h' !! c = Some (CObj (prot f ++ obj_replace extra nm (VRef arr)))
  /\ h' !! arr = Some (CArr [v; VRef e])
  /\ h' !! e = Some E /\ length h <= length h' /\ length h <= arr.
Proof.
  intros Hv Ht Ha arr h'.
  destruct start_facts
    as (Hb1 & Hb2 & Hle & Hlt & Hc2 & He2 & Hep & Hpp & Hex & Hnl & Hold & Hlen).
  destruct (ordinary_facts _ Hord) as (Hnpar & _ & _ & Hnlen & Hi & Hx).
  assert (Hlc : c < length h) by lia.
  assert (Hin0 : In (nm, v) extra) by now apply obj_get_In.
  assert (Hhas : obj_has extra nm = true) by (unfold obj_has; now rewrite Hv).
  assert (Hset : obj_set extra nm (VRef arr) = obj_replace extra nm (VRef arr))
    by (unfold obj_set; now rewrite Hhas).
  assert (Hslot : slot_ok (birth f) h (prot f) (nm, v)).
  { unfold extra_ok in Hex. rewrite List.Forall_forall in Hex. now apply Hex. }
  destruct Hslot as (_ & _ & _ & Hsv). simpl in Hsv.
  assert (Hlen3 : length (H2 ++ [CArr [v]]) = S arr)
    by (rewrite length_app; simpl; unfold arr; lia).
  assert (Helc : cell_elemish (CObj (prot f ++ obj_set extra nm (VRef arr)))).
  { simpl. rewrite obj_has_app, obj_has_set, Hnl.
    rewrite (proj2 (String.eqb_neq nm "length") Hnlen). cbn [orb].
    pose proof (frame_cell_elemish _ _ _ _ Hnl Hex) as Hfe. simpl in Hfe.
    now rewrite obj_has_app, Hnl in Hfe. }
  assert (Hg : grows h h').
  { unfold h', H2. eapply grows_trans; [|apply grows_insert; exact E_elemish].
    eapply grows_trans; [|apply grows_insert; exact I].
    eapply grows_trans; [|apply grows_insert; exact Helc].
    eapply grows_trans; [|apply grows_alloc].
    eapply grows_trans; apply grows_alloc. }
  assert (He' : h' !! e = Some E).
  { unfold h'. apply list_lookup_insert_eq. rewrite !length_insert. lia. }
  assert (Harr : h' !! arr = Some (CArr [v; VRef e])).
  { unfold h'. rewrite list_lookup_insert_ne by (unfold arr; lia).
    apply list_lookup_insert_eq. rewrite length_insert. lia. }
  assert (Hc' : h' !! c = Some (CObj (prot f ++ obj_set extra nm (VRef arr)))).
  { unfold h'. rewrite !list_lookup_insert_ne by (unfold arr; lia).
    apply list_lookup_insert_eq. lia. }
  assert (Hlen' : length h' = S arr) by (unfold h'; now rewrite !length_insert).
  split; [|split; [|split; [now rewrite <- Hset|split; [exact Harr|split; [exact He'|]]]]].
  - set (d_arr := match v with
                  | VRef l0 => ((dep c + dep l0) * (1#2))%Q
                  | VPrim _ => (dep c + 1)%Q
                  end).
    assert (Hd : (dep c < d_arr)%Q
                 /\ forall l0, v = VRef l0 -> l0 < length h /\ (dep c < dep l0)%Q).
    { unfold d_arr. destruct v as [p|l0].
      - split; [lra|]. intros l0 [=].
      - assert (Hr : l0 < length h /\ (dep c < dep l0)%Q).
        { destruct (Hh _ _ Hc nm l0) as [H1 [H2'|[H2' _]]];
            [apply in_or_app; now right|auto|congruence]. }
        split; [lra|]. intros l1 [= <-]. exact Hr. }
    destruct Hd as [Hd1 Hd2].
    apply (start_inv h' (obj_set extra nm (VRef arr))
             (dep_with dep (length h) e (d_arr + 1)%Q arr d_arr)); auto.
    + now apply set_nonempty.
    + apply Forall_obj_set; [exact Hx| |].
      * now apply (extra_ok_grows _ h).
      * apply new_slot_ok; [unfold arr; lia|]. exact (elemish_at _ _ _ Harr I).
    + intros l Hl. unfold h'. rewrite !list_lookup_insert_ne by (unfold arr; lia).
      rewrite lookup_app_l by lia. apply Hold. lia.
    + eapply heap_ok_build; [exact Hh|intros x Hxl; now apply dep_with_old|lia|].
      intros l cl Hl. rewrite Hlen'. unfold h' in Hl.
      apply list_lookup_insert_Some in Hl. destruct Hl as [(E1 & E2 & _)|[Hne Hl]].
      { right. subst l cl. apply E_cell_ok; [left; unfold arr; lia|lia]. }
      apply list_lookup_insert_Some in Hl. destruct Hl as [(E1 & E2 & _)|[Hne' Hl]].
      { right. subst l cl. intros k l' Hin. simpl in Hin.
        destruct Hin as [Hin|[Hin|[]]]; injection Hin as E1 E2; subst k.
        - destruct (Hd2 l' E2) as [H1 H2'].
          split; [lia|]. left. rewrite dep_with_arr, dep_with_old by (unfold arr; lia).
          unfold d_arr. rewrite E2. lra.
        - subst l'. split; [lia|]. left.
          rewrite dep_with_arr, dep_with_e by (unfold arr; lia). lra. }
      apply list_lookup_insert_Some in Hl. destruct Hl as [(E1 & E2 & _)|[Hne'' Hl]].
      { right. subst l cl. intros k l' Hin. simpl in Hin. apply in_app_or in Hin.
        destruct Hin as [Hin|Hin].
        - apply old_ref; [apply in_or_app; now left|lia|intros x Hxo; now right].
        - apply In_set in Hin; [|exact Hx]. destruct Hin as [Hin|Hin].
          + injection Hin as E1 E2. subst k l'.
            split; [lia|]. left.
            rewrite dep_with_arr, dep_with_old by (unfold arr; fold c; lia). exact Hd1.
          + apply old_ref; [apply in_or_app; now right|lia|intros x Hxo; now right]. }
      apply lookup_app_Some in Hl. destruct Hl as [Hl|[Hge Hl]].
      * destruct (other_cell (e :: map at_ (f :: rest)) (S arr) (d_arr + 1)%Q arr d_arr l cl Hl)
          as [Ho|Ho]; [congruence| |now right].
        left. split; [exact Ho|intros Hin; now right].
      * exfalso. apply lookup_lt_Some in Hl. simpl in Hl. unfold arr in Hne'. lia.
  - intros l Hl Hne. unfold h'. rewrite !list_lookup_insert_ne by (unfold arr; fold c; lia).
    rewrite lookup_app_l by lia. now apply Hold.
  - unfold arr. lia.
Qed.

End Start.
End StartCases.

(** ** A start tag *)

Module StartSteps.
Import JsString Js Store Xml2js JsFacts ObjectFacts Documents ParseState StoreFacts TextSteps ElementSteps StartCases.
Local Open Scope nat_scope.
Local Open Scope list_scope.

Section Callbacks.
Variable camelCase : string -> string.
Variable nativeType : string -> prim.

(** A start tag of an ordinary name that the current element does not
    protect: the new element is open above the current one, with
    nothing but its attributes and its parent pointer; of the cells
    there were, only the current element and the sequence under the name
    are written. *)
Lemma onStartElement_step name attrs f rest st :
  Inv (f :: rest) st ->
  ordinary (elementNameFn camelCase name) = true ->
  obj_has (prot f) (elementNameFn camelCase name) = false ->
  exists st' f' extra,
    onStartElement camelCase name attrs st = Ok st'
    /\ Inv (f' :: f :: rest) st'
    /\ store st !! at_ f = Some (CObj (prot f ++ extra))
    /\ (forall k, ok_key k = true -> obj_has (prot f') k = false)
    /\ length (store st) <= at_ f'
    /\ store st' !! at_ f' = Some (CObj (prot f'))
    /\ length (store st) <= length (store st')
    /\ (forall l, l < length (store st) -> l <> at_ f ->
          (forall es, obj_get extra (elementNameFn camelCase name) = Some (VRef l) ->
                      store st !! l <> Some (CArr es)) ->
          store st' !! l = store st !! l)
    /\ start_effect (store st) (store st') (at_ f) (at_ f') (prot f) extra
         (elementNameFn camelCase name)
    /\ birth f' = length (store st').
Proof.
  intros (Hcur & Hfr & dep & Hh) Hord Hnp. destruct st as [h cur].
  cbn [store currentElement] in Hcur, Hfr, Hh. subst cur. cbn [store].
  set (nm := elementNameFn camelCase name) in *.
  destruct (frames_cell _ _ f _ Hfr (or_introl eq_refl)) as [extra Hc].
  destruct (onStartElement_unfold camelCase name attrs h (at_ f))
    as (acells & eprops & Heq & Hprims & Hshape).
  fold nm in Heq.
  destruct (start_facts h f rest acells eprops extra Hfr Hc Hshape)
    as (Hb1 & Hb2 & Hle & Hlt & Hc2 & He2 & Hep & Hpp & Hex & Hnl & Hold & Hlen).
  pose proof (E_fresh h f acells eprops Hshape) as Hfresh.
  destruct (ordinary_facts _ Hord) as (_ & _ & _ & _ & _ & Hx).
  assert (Hassign : forall p,
            default vundefined (obj_get extra nm) = VPrim p -> prim_truthy p = false ->
            (obj_get extra nm = None \/ exists q, obj_get extra nm = Some (VPrim q)) ->
            exists st' f' extra0,
              onStartElement camelCase name attrs {| store := h; currentElement := VRef (at_ f) |}
              = Ok st'
              /\ Inv (f' :: f :: rest) st'
              /\ h !! at_ f = Some (CObj (prot f ++ extra0))
              /\ (forall k, ok_key k = true -> obj_has (prot f') k = false)
              /\ length h <= at_ f'
              /\ store st' !! at_ f' = Some (CObj (prot f'))
              /\ length h <= length (store st')
              /\ (forall l, l < length h -> l <> at_ f ->
                    (forall es, obj_get extra0 nm = Some (VRef l) -> h !! l <> Some (CArr es)) ->
                    store st' !! l = h !! l)
              /\ start_effect h (store st') (at_ f) (at_ f') (prot f) extra0 nm
              /\ birth f' = length (store st')).
  { intros p Hv Hf Hcase.
    destruct (start_assign h f rest dep acells eprops extra nm Hfr Hh Hc Hprims Hshape Hord Hnp)
      as (HI & Hframe & Hc' & He' & Hlen').
    rewrite Heq, (attach_assign _ _ _ _ _ _ _ Hc2 He2 Hnp Hord Hep Hpp p Hv Hf).
    do 2 eexists. exists extra.
    split; [reflexivity|]. split; [exact HI|]. cbn [store new_frame at_ prot]. split; [exact Hc|]. split; [exact Hfresh|]. split; [exact Hle|].
    split; [exact He'|]. split; [exact Hlen'|]. split; [intros l Hl Hne _; now apply Hframe|].
    split; [|reflexivity].
    unfold start_effect. destruct Hcase as [Hn|[q Hq]].
    - rewrite Hn. rewrite Hc'. unfold obj_set, obj_has. now rewrite Hn, Hx.
    - rewrite Hq. exists (VRef (length (h ++ acells))). rewrite Hc'.
      unfold obj_set, obj_has. now rewrite Hq. }
  assert (Hpromote : forall v,
            obj_get extra nm = Some v -> val_truthy v = true -> val_isArray h v = false ->
            val_isArray ((h ++ acells) ++ [CObj eprops]) v = false ->
            exists st' f' extra0,
              onStartElement camelCase name attrs {| store := h; currentElement := VRef (at_ f) |}
              = Ok st'
              /\ Inv (f' :: f :: rest) st'
              /\ h !! at_ f = Some (CObj (prot f ++ extra0))
              /\ (forall k, ok_key k = true -> obj_has (prot f') k = false)
              /\ length h <= at_ f'
              /\ store st' !! at_ f' = Some (CObj (prot f'))
              /\ length h <= length (store st')
              /\ (forall l, l < length h -> l <> at_ f ->
                    (forall es, obj_get extra0 nm = Some (VRef l) -> h !! l <> Some (CArr es)) ->
                    store st' !! l = h !! l)
              /\ start_effect h (store st') (at_ f) (at_ f') (prot f) extra0 nm
              /\ birth f' = length (store st')).
  { intros v Hv Ht Ha Ha2.
    destruct (start_promote h f rest dep acells eprops extra nm Hfr Hh Hc Hprims Hshape Hord Hnp
                v Hv Ht Ha)
      as (HI & Hframe & Hc' & Harr & He' & Hlen' & Hlarr).
    assert (Hdef : default vundefined (obj_get extra nm) = v) by now rewrite Hv.
    rewrite Heq, (attach_promote _ _ _ _ _ _ _ Hc2 He2 Hnp Hord Hep Hpp v Hdef Ht Ha2).
    rewrite Hlen.
    do 2 eexists. exists extra.
    split; [reflexivity|]. split; [exact HI|]. cbn [store new_frame at_ prot]. split; [exact Hc|]. split; [exact Hfresh|]. split; [exact Hle|].
    split; [exact He'|]. split; [exact Hlen'|]. split; [intros l Hl Hne _; now apply Hframe|].
    split; [|reflexivity].
    unfold start_effect. rewrite Hv.
    destruct v as [p|l0]; [exists (VRef (S (length (h ++ acells)))); exact Hc'|].
    unfold val_isArray in Ha.
    destruct (h !! l0) as [[ps|es]|] eqn:El; [| discriminate |];
      exists (S (length (h ++ acells))); (split; [lia|]); split; assumption. }
  destruct (obj_get extra nm) as [[p|l0]|] eqn:Hv.
  - destruct (prim_truthy p) eqn:Hp.
    + apply (Hpromote (VPrim p)); auto.
    + apply (Hassign p); eauto.
  - assert (Hin0 : In (nm, VRef l0) extra) by now apply obj_get_In.
    assert (Hslot : slot_ok (birth f) h (prot f) (nm, VRef l0)).
    { unfold extra_ok in Hex. rewrite List.Forall_forall in Hex. now apply Hex. }
    destruct Hslot as (_ & _ & _ & Hbl & Hel). simpl in Hbl. unfold elemish in Hel.
    destruct (h !! l0) as [[ps|es]|] eqn:El; [| |destruct Hel].
    + assert (Hll : l0 < length h) by (eapply lookup_lt_Some; eauto).
      apply (Hpromote (VRef l0)); auto.
      * unfold val_isArray. now rewrite El.
      * unfold val_isArray. now rewrite Hold, El.
    + assert (Hll : l0 < length h) by (eapply lookup_lt_Some; eauto).
      destruct (start_push h f rest dep acells eprops extra nm Hfr Hh Hc Hprims Hshape
                  l0 es Hv El)
        as (HI & Hframe & Hc' & Hl' & He' & Hlen').
      assert (El2 : ((h ++ acells) ++ [CObj eprops]) !! l0 = Some (CArr es))
        by now rewrite Hold.
      rewrite Heq, (attach_push _ _ _ _ _ _ _ Hc2 He2 Hnp Hord Hep l0 es Hv El2).
      do 2 eexists. exists extra.
      split; [reflexivity|]. split; [exact HI|]. cbn [store new_frame at_ prot]. split; [exact Hc|]. split; [exact Hfresh|]. split; [exact Hle|].
      split; [exact He'|]. split; [exact Hlen'|]. split.
      * intros l Hl Hne Hne'. apply Hframe; auto. intros ->. now apply (Hne' es).
      * split; [|reflexivity]. unfold start_effect. rewrite Hv, El. split; assumption.
  - apply (Hassign PUndefined); auto.
Qed.

End Callbacks.
End StartSteps.

(** ** The events of a node *)

Module NodeRuns.
Import JsString Js Store Xml2js JsFacts ObjectFacts Documents ParseState StoreFacts.
Import TextSteps ElementSteps StartCases StartSteps.
Local Open Scope nat_scope.
Local Open Scope list_scope.

(** Induction on documents, with the hypothesis for every child. *)
Lemma xml_nested_ind (P : xml -> Prop) :
  (forall t, P (Text t)) ->
  (forall n a cs, Forall P cs -> P (Element n a cs)) ->
  forall x, P x.
Proof.
  intros Ht He. fix IH 1. intros [n a cs|t]; [|apply Ht].
  apply He. induction cs as [|c cs IHcs]; constructor; [apply IH|exact IHcs].
Qed.

Section Callbacks.
Variable camelCase : string -> string.
Variable nativeType : string -> prim.

Local Abbreviation normalize := (elementNameFn camelCase).

Lemma wellNamed_Element n a cs :
  wellNamed normalize (Element n a cs)
  = ordinary (normalize n) && forallb (wellNamed normalize) cs.
Proof.
  reflexivity.
Qed.

Lemma run_app evs1 : forall evs2 st,
  run camelCase nativeType (evs1 ++ evs2) st
  = rbind (run camelCase nativeType evs1 st) (run camelCase nativeType evs2).
Proof.
  induction evs1 as [|ev evs1 IH]; intros evs2 st; [reflexivity|].
  simpl. destruct (handle camelCase nativeType ev st) as [e|st1]; [reflexivity|].
  simpl. apply IH.
Qed.

Local Abbreviation runs_well := (ParseState.runs_well camelCase nativeType).

Lemma start_effect_keys (h h' : heap) c e prot extra nm k :
  h !! c = Some (CObj (prot ++ extra)) ->
  start_effect h h' c e prot extra nm ->
  has_key h' c k = true -> has_key h c k = true \/ nm = k.
Proof.
  intros Hc Heff. unfold start_effect in Heff. unfold has_key. rewrite Hc.
  destruct (obj_get extra nm) as [[p|l]|].
  - destruct Heff as [w ->]. rewrite !obj_has_app, obj_has_replace. now left.
  - destruct (h !! l) as [[ps|es]|].
    + destruct Heff as (arr & _ & -> & _). rewrite !obj_has_app, obj_has_replace. now left.
    + destruct Heff as [-> _]. now left.
    + destruct Heff as (arr & _ & -> & _). rewrite !obj_has_app, obj_has_replace. now left.
  - rewrite Heff, !obj_has_app, obj_has_cons, obj_has_nil, orb_false_r.
    destruct (String.eqb_spec nm k) as [->|_]; [now right|]. rewrite orb_false_r. now left.
Qed.

Lemma run_children cs :
  Forall runs_well cs ->
  forall f' f rest st,
    Inv (f' :: f :: rest) st ->
    (forall k, ok_key k = true -> obj_has (prot f') k = false) ->
    forallb (wellNamed normalize) cs = true ->
    exists st',
      run camelCase nativeType (flat_map events cs) st = Ok st'
      /\ Inv (f' :: f :: rest) st'
      /\ length (store st) <= length (store st')
      /\ (forall l, l < birth f -> l <> at_ f -> store st' !! l = store st !! l)
      /\ (forall k, has_key (store st') (at_ f) k = has_key (store st) (at_ f) k).
Proof.
  induction 1 as [|x cs Hx Hcs IH]; intros f' f rest st HI Hfresh Hwn.
  - exists st. split; [reflexivity|]. split; [exact HI|]. split; [lia|]. split; reflexivity.
  - simpl in Hwn. apply andb_true_iff in Hwn. destruct Hwn as [Hwx Hwcs].
    destruct (Hx f' (f :: rest) st HI) as (st1 & Hrun1 & HI1 & Hlen1 & _ & Hpres1 & _ & Hk1).
    + intros n a cs' ->. apply Hfresh. unfold ok_key.
      rewrite wellNamed_Element in Hwx. apply andb_true_iff in Hwx. destruct Hwx as [-> _].
      reflexivity.
    + intros _. split; [discriminate|]. now apply Hfresh.
    + destruct (IH f' f rest st1 HI1 Hfresh Hwcs) as (st2 & Hrun2 & HI2 & Hlen2 & Hpres2 & Hk2).
      exists st2. split; [|split; [exact HI2|split; [lia|split]]].
      * simpl. rewrite run_app, Hrun1. exact Hrun2.
      * intros l Hl Hne. rewrite Hpres2 by assumption. now apply (Hpres1 f rest eq_refl).
      * intros k. rewrite Hk2. now apply (Hk1 f rest eq_refl).
Qed.

Lemma slot_below (h : heap) top f rest extra k l :
  frames_ok h top (f :: rest) ->
  h !! at_ f = Some (CObj (prot f ++ extra)) ->
  obj_get extra k = Some (VRef l) -> birth f <= l.
Proof.
  simpl. intros (_ & _ & _ & _ & _ & (extra0 & Hc0 & He0 & _) & _) Hc Hv.
  rewrite Hc in Hc0. injection Hc0 as Hc0. apply app_inv_head in Hc0. subst extra0.
  apply obj_get_In in Hv. unfold extra_ok in He0. rewrite List.Forall_forall in He0.
  destruct (He0 _ Hv) as (_ & _ & _ & Hb & _). exact Hb.
Qed.

Lemma run_text t : runs_well (Text t).
Proof.
  intros f rest st HI _ Htext. simpl events. simpl run.
  destruct (String.eqb (trim t) "") eqn:W.
  - rewrite (onText_white nativeType t st W). exists st.
    split; [reflexivity|]. split; [exact HI|]. split; [lia|]. split; [reflexivity|].
    split; [reflexivity|]. split; [intros k Hk; now left|reflexivity].
  - destruct (Htext W) as [Hne Hnt]. destruct rest as [|f2 rest']; [congruence|].
    destruct (onText_step nativeType t f f2 rest' st HI Hnt W)
      as (st' & Hrun & HI' & Hlen & Hpres & Hk2 & Hk & _).
    exists st'. rewrite Hrun. split; [reflexivity|]. split; [exact HI'|]. split; [exact Hlen|].
    split; [simpl; rewrite W; discriminate|].
    split; [intros f3 rest3 [= <- <-]; exact Hpres|]. split.
    + intros k. rewrite Hk. intros Hor. apply orb_true_iff in Hor.
      destruct Hor as [Hor|Hor]; [|now left]. right. right.
      apply String.eqb_eq in Hor. split; [now symmetry|]. exact W.
    + intros f3 rest3 [= <- <-]. exact Hk2.
Qed.

Lemma run_element n a cs :
  Forall runs_well cs ->
  wellNamed normalize (Element n a cs) = true ->
  runs_well (Element n a cs).
Proof.
  intros Hcs Hwn f rest st HI Hname _.
  rewrite wellNamed_Element in Hwn. apply andb_true_iff in Hwn. destruct Hwn as [Hord Hwcs].
  pose proof (Hname n a cs eq_refl) as Hnp.
  destruct (onStartElement_step camelCase n a f rest st HI Hord Hnp)
    as (st1 & f' & extra & Hrun1 & HI1 & Hc & Hfresh & Hat & Hcell & Hlen1 & Hframe1 & Heff & _).
  destruct (run_children cs Hcs f' f rest st1 HI1 Hfresh Hwcs)
    as (st2 & Hrun2 & HI2 & Hlen2 & Hpres2 & Hkeys2).
  destruct (onEndElement_step f' (f :: rest) st2 HI2)
    as (extra2 & p & Hc2 & Hp & Hrun3 & Hfr3 & (dep3 & Hh3) & Hpar).
  assert (Hb : birth f <= length (store st)).
  { destruct HI as (_ & Hfr & _). simpl in Hfr. tauto. }
  assert (Hframe : forall l, l < birth f -> l <> at_ f ->
            <[at_ f' := CObj (obj_delete (prot f') "_parent" ++ extra2)]> (store st2) !! l
            = store st !! l).
  { intros l Hl Hne. rewrite list_lookup_insert_ne by lia.
    rewrite Hpres2 by assumption. apply Hframe1; [lia|exact Hne|].
    intros es Hv. destruct HI as (_ & Hfr & _).
    pose proof (slot_below _ _ _ _ _ _ _ Hfr Hc Hv). lia. }
  assert (Hlf : at_ f < length (store st)) by (eapply lookup_lt_Some; eauto).
  eexists. split; [|split; [|split; [|split; [|split; [|split]]]]].
  - simpl events. simpl run. rewrite Hrun1.
    rewrite rbind_Ok, run_app, Hrun2, rbind_Ok. simpl run. rewrite Hrun3. reflexivity.
  - split; [simpl; now rewrite Hpar|]. split; [exact Hfr3|]. now exists dep3.
  - simpl. rewrite length_insert. lia.
  - intros _. exact Hframe.
  - intros f2 rest' -> l Hl Hne. apply Hframe.
    + destruct HI as (_ & Hfr & _). simpl in Hfr. destruct Hfr as (? & _ & _ & _ & (q & _ & _ & ?) & _).
      lia.
    + destruct HI as (_ & Hfr & _). simpl in Hfr. destruct Hfr as (? & _ & _ & _ & (q & _ & _ & ?) & _).
      lia.
  - intros k. cbn [store]. unfold has_key at 1.
    rewrite list_lookup_insert_ne by lia. fold (has_key (store st2) (at_ f) k).
    rewrite Hkeys2. intros Hk.
    destruct (start_effect_keys _ _ _ _ _ _ _ k Hc Heff Hk) as [Hold|Hnew]; [now left|].
    right. left. cbn [named]. now apply String.eqb_eq.
  - intros f2 rest' -> k. cbn [store]. unfold has_key. rewrite Hframe; [reflexivity| |].
    + destruct HI as (_ & Hfr & _). simpl in Hfr.
      destruct Hfr as (? & _ & _ & _ & (q & _ & _ & ?) & _ & ? & _). lia.
    + destruct HI as (_ & Hfr & _). simpl in Hfr.
      destruct Hfr as (? & _ & _ & _ & (q & _ & _ & ?) & _ & ? & _). lia.
Qed.

(** The events of every well-named node run well. *)
Lemma run_node x : wellNamed normalize x = true -> runs_well x.
Proof.
  induction x as [t|n a cs IH] using xml_nested_ind; intros Hwn.
  - apply run_text.
  - apply run_element; [|exact Hwn].
    rewrite wellNamed_Element in Hwn. apply andb_true_iff in Hwn. destruct Hwn as [_ Hwcs].
    clear -IH Hwcs. induction IH as [|x cs Hx _ IHcs]; [constructor|].
    simpl in Hwcs. apply andb_true_iff in Hwcs. destruct Hwcs. constructor; auto.
Qed.

(** A run of sibling nodes without text of their own, under an element
    that has none of their names yet among its protected properties. *)
Lemma run_siblings cs : forall f rest st,
  forallb (wellNamed normalize) cs = true ->
  forallb elementOrWhite cs = true ->
  forallb (fun c => match c with
                    | Element n _ _ => negb (obj_has (prot f) (normalize n))
                    | Text _ => true
                    end) cs = true ->
  Inv (f :: rest) st ->
  exists st',
    run camelCase nativeType (flat_map events cs) st = Ok st'
    /\ Inv (f :: rest) st'
    /\ length (store st) <= length (store st')
    /\ (forall l, l < birth f -> l <> at_ f -> store st' !! l = store st !! l)
    /\ (forall k, has_key (store st') (at_ f) k = true ->
          has_key (store st) (at_ f) k = true \/ existsb (named normalize k) cs = true).
Proof.
  induction cs as [|x cs IH]; intros f rest st Hwn Hq Hn HI.
  - exists st. split; [reflexivity|]. split; [exact HI|]. split; [lia|].
    split; [reflexivity|]. intros k Hk. now left.
  - simpl in Hwn, Hq, Hn.
    apply andb_true_iff in Hwn. destruct Hwn as [Hwx Hwcs].
    apply andb_true_iff in Hq. destruct Hq as [Hqx Hqcs].
    apply andb_true_iff in Hn. destruct Hn as [Hnx Hncs].
    destruct (run_node x Hwx f rest st HI) as (st1 & Hrun1 & HI1 & Hlen1 & Hpres1 & _ & Hk1 & _).
    + intros n a cs' ->. now apply negb_true_iff in Hnx.
    + rewrite Hqx. discriminate.
    + destruct (IH f rest st1 Hwcs Hqcs Hncs HI1) as (st2 & Hrun2 & HI2 & Hlen2 & Hpres2 & Hk2).
      exists st2. split; [|split; [exact HI2|split; [lia|split]]].
      * simpl. rewrite run_app, Hrun1. exact Hrun2.
      * intros l Hl Hne. rewrite Hpres2 by assumption. now apply Hpres1.
      * intros k Hk. cbn [existsb].
        destruct (Hk2 k Hk) as [Hk'|Hk']; [|right; rewrite Hk'; apply orb_true_r].
        destruct (Hk1 k Hk') as [Ho|[Ho|[_ Ho]]]; [now left| |congruence].
        right. now rewrite Ho.
Qed.

End Callbacks.
End NodeRuns.

(** ** A text leaf that is the first of its name *)

Module LeafRuns.
Import JsString Js Store Xml2js JsFacts ObjectFacts Documents ParseState StoreFacts.
Import TextSteps ElementSteps StartCases StartSteps NodeRuns.
Local Open Scope nat_scope.
Local Open Scope list_scope.

Section Callbacks.
Variable camelCase : string -> string.
Variable nativeType : string -> prim.

Local Abbreviation normalize := (elementNameFn camelCase).

Lemma obj_set_single {V} k (v v' : V) : obj_set [(k, v)] k v' = [(k, v')].
Proof. unfold obj_set, obj_has. simpl. now rewrite String.eqb_refl. Qed.

(** The text callback at the text of a leaf whose element is the value
    of the last key of its parent: the coerced text takes its place. *)
Lemma textFn_leaf value (h : heap) e r prote exte protr extr k :
  h !! e = Some (CObj (prote ++ exte)) ->
  obj_get prote "_parent" = Some (VRef r) ->
  h !! r = Some (CObj (protr ++ extr ++ [(k, VRef e)])) ->
  obj_has protr k = false -> obj_has extr k = false -> array_index k = None ->
  obj_has (prote ++ exte) "length" = false ->
  textFn nativeType value (VRef e) h
  = Ok (<[r := CObj (protr ++ extr ++ [(k, VPrim (nativeType value))])]> h, vundefined).
Proof.
  intros He Hp Hr Hnp Hne Hx Hnl.
  unfold textFn, textFn_body. unfold get_prop at 1. rewrite He.
  rewrite (obj_get_app_l _ _ _ _ Hp). simpl default. rewrite rbind_Ok.
  unfold object_keys. rewrite Hr, rbind_Ok. cbv zeta.
  assert (Hkeys : match length (keys (protr ++ extr ++ [(k, VRef e)])) with
                  | 0 => "undefined"
                  | S i => default "undefined" (keys (protr ++ extr ++ [(k, VRef e)]) !! i)
                  end = k).
  { rewrite app_assoc. pose proof (last_key_snoc (protr ++ extr) k (VRef e)) as Hl.
    destruct (length (keys ((protr ++ extr) ++ [(k, VRef e)]))) as [|n] eqn:En.
    - exfalso. unfold keys in En. rewrite map_app, length_app in En. simpl in En. lia.
    - simpl in Hl. now rewrite Nat.sub_0_r in Hl. }
  rewrite Hkeys. unfold get_prop. rewrite Hr.
  rewrite (obj_get_app_r _ _ _ Hnp), (obj_get_app_r _ _ _ Hne).
  unfold obj_get at 1. rewrite String.eqb_refl. simpl default. rewrite rbind_Ok.
  unfold length_prop. rewrite He, Hnl, rbind_Ok.
  unfold set_prop. rewrite Hr.
  rewrite (obj_set_app_r _ _ _ _ Hnp Hx), (obj_set_app_r _ _ _ _ Hne Hx), obj_set_single.
  reflexivity.
Qed.

(** A text leaf whose name the current element does not have yet: the
    current element gets the coerced text under that name, as its last
    property. *)
Lemma run_leaf hn ha t f rest st extra :
  Inv (f :: rest) st ->
  ordinary (normalize hn) = true ->
  obj_has (prot f) (normalize hn) = false ->
  store st !! at_ f = Some (CObj (prot f ++ extra)) ->
  obj_get extra (normalize hn) = None ->
  String.eqb (trim t) "" = false ->
  exists st',
    run camelCase nativeType (events (Element hn ha [Text t])) st = Ok st'
    /\ Inv (f :: rest) st'
    /\ store st' !! at_ f
       = Some (CObj (prot f ++ extra ++ [(normalize hn, VPrim (nativeType (trim t)))]))
    /\ length (store st) <= length (store st')
    /\ (forall l, l < birth f -> l <> at_ f -> store st' !! l = store st !! l).
Proof.
  intros HI Hord Hnp Hc Hnone W.
  destruct (onStartElement_step camelCase hn ha f rest st HI Hord Hnp)
    as (st1 & f' & extra1 & Hrun1 & HI1 & Hc1 & Hfresh & Hat & Hcell & Hlen1 & Hframe1 & Heff & _).
  rewrite Hc in Hc1. injection Hc1 as Hc1. apply app_inv_head in Hc1. subst extra1.
  unfold start_effect in Heff. fold normalize in Heff. rewrite Hnone in Heff.
  destruct (onText_step nativeType t f' f rest st1 HI1 (Hfresh "_text" eq_refl) W)
    as (st2 & Hrun2 & HI2 & Hlen2 & Hpres2 & _ & _ & h' & extra' & Htf & Hc' & Hst2).
  rewrite Hcell in Hc'. injection Hc' as Hc'.
  rewrite <- (app_nil_r (prot f')) in Hc' at 1. apply app_inv_head in Hc'. subst extra'.
  assert (Hpar : obj_get (prot f') "_parent" = Some (VRef (at_ f))
                 /\ obj_has (prot f') "length" = false /\ at_ f < at_ f'
                 /\ birth f <= length (store st)).
  { destruct HI1 as (_ & Hfr & _). simpl in Hfr.
    destruct Hfr as (_ & _ & Hnl & _ & (p & Hp & -> & Hb) & _ & (Hb1 & Hb2 & _)).
    split; [exact Hp|]. split; [exact Hnl|]. split; [lia|].
    destruct HI as (_ & Hfr & _). simpl in Hfr. tauto. }
  destruct Hpar as (Hp & Hnl & Hlt & Hb).
  assert (Hne : obj_has extra (normalize hn) = false) by (unfold obj_has; now rewrite Hnone).
  destruct (ordinary_facts _ Hord) as (_ & _ & _ & _ & _ & Hx).
  rewrite (textFn_leaf (trim t) (store st1) (at_ f') (at_ f) (prot f') [] (prot f) extra
             (normalize hn)) in Htf;
    [|now rewrite app_nil_r|exact Hp|exact Heff|exact Hnp|exact Hne|exact Hx
     |now rewrite app_nil_r].
  injection Htf as Htf.
  destruct (onEndElement_step f' (f :: rest) st2 HI2)
    as (extra2 & p & Hc2 & Hp2 & Hrun3 & Hfr3 & (dep3 & Hh3) & Hpar).
  assert (Hl1 : at_ f < length (store st1)) by (eapply lookup_lt_Some; eauto).
  eexists. split; [|split; [|split; [|split]]].
  - simpl events. simpl run. rewrite Hrun1, rbind_Ok, Hrun2, rbind_Ok, Hrun3. reflexivity.
  - split; [simpl; now rewrite Hpar|]. split; [exact Hfr3|]. now exists dep3.
  - simpl. rewrite list_lookup_insert_ne by lia. rewrite Hst2.
    rewrite list_lookup_insert_ne by lia. rewrite <- Htf.
    now apply list_lookup_insert_eq.
  - simpl. rewrite length_insert. lia.
  - intros l Hl Hne'. simpl. rewrite list_lookup_insert_ne by lia.
    rewrite Hpres2 by assumption. apply Hframe1; [lia|exact Hne'|].
    intros es Hv. fold normalize in Hv. congruence.
Qed.

(** The properties an element has got so far become protected ones,
    and so does everything the store holds by now. *)
Lemma reprotect f rest st extra :
  Inv (f :: rest) st ->
  store st !! at_ f = Some (CObj (prot f ++ extra)) ->
  List.NoDup (keys (prot f ++ extra)) ->
  Inv ({| at_ := at_ f; prot := prot f ++ extra; birth := length (store st) |} :: rest) st.
Proof.
  intros (Hcur & Hfr & Hh) Hc Hnd. split; [exact Hcur|]. split; [|exact Hh].
  simpl in Hfr. destruct Hfr as (H1 & H2 & H3 & _ & (p & Hp & Hpar) & (extra0 & Hc0 & He0 & _) & H8).
  rewrite Hc in Hc0. injection Hc0 as Hc0. apply app_inv_head in Hc0. subst extra0.
  cbn [frames_ok at_ prot birth].
  split; [lia|]. split; [lia|].
  split; [exact (frame_cell_elemish _ _ _ _ H3 He0)|]. split; [exact Hnd|].
  split; [exists p; split; [now apply obj_get_app_l|exact Hpar]|].
  split; [|exact H8].
  exists []. rewrite app_nil_r. split; [exact Hc|]. split; [constructor|discriminate].
Qed.

End Callbacks.
End LeafRuns.

(** ** A response element *)

Module ResponseRuns.
Import JsString Js Store Xml2js JsFacts ObjectFacts Documents ParseState StoreFacts.
Import TextSteps ElementSteps StartCases StartSteps NodeRuns LeafRuns.
Local Open Scope nat_scope.
Local Open Scope list_scope.

Lemma content_split kids : forall hx rest,
  content kids = hx :: rest ->
  exists ws tl,
    kids = ws ++ hx :: tl /\ forallb isWhite ws = true /\ content tl = rest.
Proof.
  induction kids as [|c kids IH]; intros hx rest; [discriminate|].
  unfold content. simpl. destruct (isWhite c) eqn:W; simpl.
  - intros H. destruct (IH hx rest H) as (ws & tl & -> & Hws & Htl).
    exists (c :: ws), tl. split; [reflexivity|]. split; [|exact Htl]. simpl. now rewrite W.
  - intros [= -> <-]. exists [], kids. split; [reflexivity|]. split; reflexivity.
Qed.

Lemma not_named_content (normalize : string -> string) k tl :
  existsb (named normalize k) (content tl) = false ->
  forallb (fun c => negb (named normalize k c)) tl = true.
Proof.
  induction tl as [|c tl IH]; [reflexivity|].
  unfold content. simpl. destruct (isWhite c) eqn:W; simpl.
  - intros H. rewrite (IH H), andb_true_r. destruct c; [discriminate|reflexivity].
  - intros H. apply orb_false_iff in H. destruct H as [-> H]. simpl. now apply IH.
Qed.

(** The shape of a response element. *)
Lemma responseHref_inv (normalize : string -> string) x t :
  responseHref normalize x = Some t ->
  exists n a ws hn ha t0 tl,
    x = Element n a (ws ++ Element hn ha [Text t0] :: tl)
    /\ normalize n = "response"
    /\ forallb isWhite ws = true
    /\ normalize hn = "href"
    /\ String.eqb (trim t0) "" = false /\ t = trim t0
    /\ forallb elementOrWhite tl = true
    /\ forallb (fun c => negb (named normalize "href" c)) tl = true.
Proof.
  destruct x as [n a kids|t']; [|discriminate]. simpl.
  destruct (String.eqb_spec (normalize n) "response") as [Hn|]; [|discriminate].
  destruct (forallb elementOrWhite kids) eqn:Hq; [|discriminate]. simpl.
  destruct (content kids) as [|hx rest] eqn:Hk; [discriminate|].
  destruct (named normalize "href" hx) eqn:Hh; [|discriminate].
  destruct (existsb (named normalize "href") rest) eqn:Hr; [discriminate|]. simpl.
  intros Hleaf.
  destruct (content_split kids hx rest Hk) as (ws & tl & -> & Hws & Htl).
  destruct hx as [hn ha [|[|t0] [|]]|]; try discriminate.
  simpl in Hleaf. destruct (String.eqb (trim t0) "") eqn:W; [discriminate|].
  injection Hleaf as <-.
  exists n, a, ws, hn, ha, t0, tl. split; [reflexivity|]. split; [exact Hn|].
  split; [exact Hws|]. split; [now apply String.eqb_eq|]. split; [exact W|].
  split; [reflexivity|].
  rewrite forallb_app in Hq. apply andb_true_iff in Hq. destruct Hq as [_ Hq].
  simpl in Hq. split; [exact Hq|]. apply not_named_content. now rewrite Htl.
Qed.

Section Callbacks.
Variable camelCase : string -> string.
Variable nativeType : string -> prim.

Local Abbreviation normalize := (elementNameFn camelCase).

Lemma run_whites ws st :
  forallb isWhite ws = true ->
  run camelCase nativeType (flat_map events ws) st = Ok st.
Proof.
  induction ws as [|c ws IH]; [reflexivity|]. simpl.
  destruct c as [|t]; [discriminate|]. simpl. intros H.
  apply andb_true_iff in H. destruct H as [W Hws].
  rewrite (onText_white nativeType t st W). now apply IH.
Qed.

Lemma start_effect_transfer (h h1 h' : heap) c e prot extra nm ps :
  start_effect h h1 c e prot extra nm ->
  h1 !! e = Some (CObj ps) -> c <> e ->
  (forall l, l < length h1 -> l <> e -> h' !! l = h1 !! l) ->
  start_effect h h' c e prot extra nm.
Proof.
  intros Heff He Hce Hsame. unfold start_effect in *.
  assert (Hmove : forall l cl, h1 !! l = Some cl -> l <> e -> h' !! l = Some cl).
  { intros l cl Hl Hne. rewrite Hsame; [exact Hl| |exact Hne]. eapply lookup_lt_Some; eauto. }
  destruct (obj_get extra nm) as [[p|l0]|];
    [destruct Heff as [w Hw]; exists w; apply Hmove; [exact Hw|exact Hce]| |now apply Hmove].
  destruct (h !! l0) as [[ps0|es]|].
  - destruct Heff as (arr & Ha & Hc & Harr). exists arr. split; [exact Ha|].
    split; [now apply Hmove|]. apply Hmove; [exact Harr|]. intros ->. congruence.
  - destruct Heff as [Hc Hl]. split; [now apply Hmove|].
    apply Hmove; [exact Hl|]. intros ->. congruence.
  - destruct Heff as (arr & Ha & Hc & Harr). exists arr. split; [exact Ha|].
    split; [now apply Hmove|]. apply Hmove; [exact Harr|]. intros ->. congruence.
Qed.

(** A response element under the multistatus element: it is attached
    under [response] and, once closed, has its coerced [href]; what its
    other children write stays inside it. *)
Lemma run_response x t fm rest st :
  responseHref normalize x = Some t ->
  wellNamed normalize x = true ->
  Inv (fm :: rest) st ->
  obj_has (prot fm) "response" = false ->
  exists st' r extra,
    run camelCase nativeType (events x) st = Ok st'
    /\ Inv (fm :: rest) st'
    /\ store st !! at_ fm = Some (CObj (prot fm ++ extra))
    /\ start_effect (store st) (store st') (at_ fm) r (prot fm) extra "response"
    /\ closedResponse (store st') r (nativeType t)
    /\ length (store st) <= r
    /\ length (store st) <= length (store st')
    /\ (forall l, l < length (store st) -> l <> at_ fm ->
          (forall es, obj_get extra "response" = Some (VRef l) ->
                      store st !! l <> Some (CArr es)) ->
          store st' !! l = store st !! l).
Proof.
  intros Hresp Hwn HI Hnp.
  destruct (responseHref_inv normalize x t Hresp)
    as (n & a & ws & hn & ha & t0 & tl & -> & Hn & Hws & Hhn & W & -> & Hq & Hnh).
  rewrite wellNamed_Element in Hwn. apply andb_true_iff in Hwn. destruct Hwn as [Hord Hwk].
  rewrite forallb_app in Hwk. apply andb_true_iff in Hwk. destruct Hwk as [_ Hwk].
  simpl in Hwk. apply andb_true_iff in Hwk. destruct Hwk as [Hwh Hwtl].
  (* the start tag *)
  destruct (onStartElement_step camelCase n a fm rest st HI Hord)
    as (st1 & fr & extra & Hrun1 & HI1 & Hc & Hfresh & Hat & Hcell & Hlen1 & Hframe1 & Heff & Hbirth).
  { fold normalize. now rewrite Hn. }
  fold normalize in Heff, Hframe1. rewrite Hn in Heff, Hframe1.
  (* the href leaf *)
  assert (Hordh : ordinary (normalize hn) = true) by (rewrite Hhn; reflexivity).
  assert (Hcell' : store st1 !! at_ fr = Some (CObj (prot fr ++ []))) by now rewrite app_nil_r.
  destruct (run_leaf camelCase nativeType hn ha t0 fr (fm :: rest) st1 [] HI1 Hordh)
    as (st2 & Hrun2 & HI2 & Hc2 & Hlen2 & Hpres2); auto.
  { apply Hfresh. fold normalize. rewrite Hhn. reflexivity. }
  fold normalize in Hc2. rewrite Hhn in Hc2. simpl app in Hc2.
  (* the other children *)
  assert (Hnd : List.NoDup (keys (prot fr ++ [("href", VPrim (nativeType (trim t0)))]))).
  { unfold keys. rewrite map_app. apply NoDup_snoc.
    - apply (obj_has_false (prot fr) "href"). now apply Hfresh.
    - destruct HI1 as (_ & Hfr & _). simpl in Hfr. tauto. }
  pose proof (reprotect fr (fm :: rest) st2 _ HI2 Hc2 Hnd) as HI2'.
  set (fr' := {| at_ := at_ fr;
                 prot := prot fr ++ [("href", VPrim (nativeType (trim t0)))];
                 birth := length (store st2) |}) in *.
  destruct (run_siblings camelCase nativeType tl fr' (fm :: rest) st2 Hwtl Hq)
    as (st3 & Hrun3 & HI3 & Hlen3 & Hpres3 & _); [|exact HI2'|].
  { clear -Hnh Hwtl Hfresh Hhn. induction tl as [|c tl IH]; [reflexivity|].
    simpl in Hnh, Hwtl. apply andb_true_iff in Hnh. destruct Hnh as [Hc Hnh].
    apply andb_true_iff in Hwtl. destruct Hwtl as [Hwc Hwtl].
    cbn [forallb]. rewrite (IH Hwtl Hnh), andb_true_r. destruct c as [n' a' cs'|]; [|reflexivity].
    rewrite wellNamed_Element in Hwc. apply andb_true_iff in Hwc. destruct Hwc as [Ho _].
    unfold fr'. cbn [prot]. rewrite obj_has_app, obj_has_cons, obj_has_nil, orb_false_r.
    rewrite Hfresh by (unfold ok_key; fold normalize; now rewrite Ho).
    cbn [named] in Hc. rewrite String.eqb_sym. cbn [orb]. exact Hc. }
  (* the end tag *)
  destruct (onEndElement_step fr' (fm :: rest) st3 HI3)
    as (extra3 & p & Hc3 & Hp3 & Hrun4 & Hfr4 & (dep4 & Hh4) & Hpar).
  cbn [at_ prot] in Hc3, Hp3, Hrun4, Hfr4, Hh4.
  assert (Hfacts : at_ fm < length (store st) /\ at_ fr < birth fr).
  { destruct HI as (_ & Hfr & _). destruct HI1 as (_ & Hfr1 & _). simpl in Hfr, Hfr1.
    split; [lia|tauto]. }
  destruct Hfacts as [Hlm Hlr].
  assert (Hlater : forall l, l < length (store st1) -> l <> at_ fr ->
            <[at_ fr := CObj (obj_delete (prot fr') "_parent" ++ extra3)]> (store st3) !! l
            = store st1 !! l).
  { intros l Hl Hne. rewrite list_lookup_insert_ne by congruence.
    rewrite Hpres3 by (unfold fr'; cbn [birth at_]; lia).
    apply Hpres2; [lia|exact Hne]. }
  exists {| store := <[at_ fr := CObj (obj_delete (prot fr') "_parent" ++ extra3)]> (store st3);
            currentElement := VRef p |}, (at_ fr), extra.
  split; [|split; [|split; [exact Hc|split; [|split; [|split; [exact Hat|split]]]]]].
  - simpl events. simpl run. rewrite Hrun1, rbind_Ok.
    rewrite flat_map_app. simpl flat_map.
    rewrite <- !app_assoc, run_app, (run_whites ws st1 Hws), rbind_Ok.
    match goal with
    | |- _ = ?R =>
        change (run camelCase nativeType
                  (events (Element hn ha [Text t0]) ++ (flat_map events tl ++ [CloseTag n])) st1
                = R)
    end.
    rewrite run_app, Hrun2, rbind_Ok, run_app, Hrun3, rbind_Ok.
    simpl run. now rewrite Hrun4.
  - split; [simpl; now rewrite Hpar|]. split; [exact Hfr4|]. now exists dep4.
  - cbn [store]. eapply start_effect_transfer; [exact Heff|exact Hcell|lia|exact Hlater].
  - exists (obj_delete (prot fr') "_parent" ++ extra3). cbn [store]. split.
    + apply list_lookup_insert_eq. eapply lookup_lt_Some; eauto.
    + apply obj_get_app_l. rewrite obj_get_delete_ne by discriminate.
      unfold fr'. cbn [prot]. rewrite obj_get_app_r by (now apply Hfresh).
      reflexivity.
  - cbn [store]. rewrite length_insert. lia.
  - intros l Hl Hne Harr. cbn [store]. rewrite Hlater by lia. now apply Hframe1.
Qed.

End Callbacks.
End ResponseRuns.

(** ** The tree read back from the store *)

Module ReifyFacts.
Import JsString Js Store Xml2js JsFacts ObjectFacts Documents ParseState StoreFacts.
Local Open Scope nat_scope.
Local Open Scope list_scope.

Lemma bounded_NoDup_length (n : nat) (l : list nat) :
  List.NoDup l -> (forall x, In x l -> x < n) -> length l <= n.
Proof.
  intros Hnd Hb. assert (E : length (seq 0 n) = n) by apply length_seq.
  rewrite <- E. apply List.NoDup_incl_length; [exact Hnd|].
  intros x Hx. apply in_seq. specialize (Hb x Hx). lia.
Qed.

Lemma reify_VRef fuel (h : heap) l :
  reify (S fuel) h (VRef l)
  = match h !! l with
    | Some (CObj ps) => Obj <$> mapM (fun kv => pair (fst kv) <$> reify fuel h (snd kv)) ps
    | Some (CArr es) => Arr <$> mapM (reify fuel h) es
    | None => None
    end.
Proof. reflexivity. Qed.

(** Without a cycle, as many steps as the store has cells reach every
    leaf. *)
Lemma reify_succeeds dep (h : heap) :
  heap_ok dep [] h ->
  forall fuel visited v,
    List.NoDup visited -> (forall x, In x visited -> x < length h) ->
    (forall l, v = VRef l -> l < length h /\ forall x, In x visited -> (dep x < dep l)%Q) ->
    length h < fuel + length visited ->
    is_Some (reify fuel h v).
Proof.
  intros Hh. induction fuel as [|fuel IH]; intros visited v Hnd Hb Hv Hlen.
  - destruct v as [p|l]; [now eexists|].
    pose proof (bounded_NoDup_length _ _ Hnd Hb). simpl in Hlen. lia.
  - destruct v as [p|l]; [now eexists|].
    destruct (Hv l eq_refl) as [Hl Hdep].
    assert (Hnd' : List.NoDup (l :: visited)).
    { constructor; [|exact Hnd]. intros Hin. specialize (Hdep l Hin). lra. }
    assert (Hb' : forall x, In x (l :: visited) -> x < length h).
    { intros x [<-|Hx]; auto. }
    assert (Hnext : forall c k v', h !! l = Some c -> In (k, v') (vals c) ->
              is_Some (reify fuel h v')).
    { intros c k v' Hc Hin. apply (IH (l :: visited)); auto.
      - intros l' ->. destruct (Hh l c Hc k l' Hin) as [H1 [H2|[_ []]]].
        split; [exact H1|]. intros x [<-|Hx]; [exact H2|].
        specialize (Hdep x Hx). lra.
      - simpl. simpl in Hlen. lia. }
    rewrite reify_VRef. destruct (h !! l) as [[ps|es]|] eqn:Hc.
    + apply fmap_is_Some, mapM_is_Some. rewrite List.Forall_forall. intros [k v'] Hin.
      simpl. apply fmap_is_Some. eapply Hnext; eauto.
    + apply fmap_is_Some, mapM_is_Some. rewrite List.Forall_forall. intros v' Hin.
      simpl. apply (Hnext _ "" v' eq_refl). simpl. apply in_map_iff. now exists v'.
    + apply lookup_lt_is_Some in Hl. rewrite Hc in Hl. destruct Hl. discriminate.
Qed.

Lemma reify_total dep (h : heap) l :
  heap_ok dep [] h -> l < length h -> is_Some (reify (S (length h)) h (VRef l)).
Proof.
  intros Hh Hl. apply (reify_succeeds dep h Hh (S (length h)) []).
  - constructor.
  - intros x [].
  - intros l' [= <-]. split; [exact Hl|]. intros x [].
  - simpl. lia.
Qed.

(** The properties of a reified object are the reified properties. *)
Lemma reify_props fuel (h : heap) ps o :
  mapM (fun kv => pair (fst kv) <$> reify fuel h (snd kv)) ps = Some o ->
  forall k,
    match obj_get ps k with
    | Some v => exists t, reify fuel h v = Some t /\ obj_get o k = Some t
    | None => obj_get o k = None
    end.
Proof.
  intros Hm. apply mapM_Some_1 in Hm. induction Hm as [|[k0 v0] y ps o Hy Hm IH]; intros k.
  - reflexivity.
  - simpl in Hy. destruct (reify fuel h v0) as [t0|] eqn:Ht; [|discriminate].
    injection Hy as <-. simpl. destruct (String.eqb k0 k).
    + now exists t0.
    + apply IH.
Qed.

Lemma reify_Obj fuel (h : heap) l ps t :
  h !! l = Some (CObj ps) -> reify fuel h (VRef l) = Some t ->
  exists fuel' o,
    fuel = S fuel' /\ t = Obj o
    /\ mapM (fun kv => pair (fst kv) <$> reify fuel' h (snd kv)) ps = Some o.
Proof.
  intros Hl Hr. destruct fuel as [|fuel']; [discriminate|].
  rewrite reify_VRef, Hl in Hr.
  destruct (mapM _ ps) as [o|] eqn:Hm; [|discriminate]. injection Hr as <-.
  now exists fuel', o.
Qed.

Lemma reify_Arr fuel (h : heap) l es t :
  h !! l = Some (CArr es) -> reify fuel h (VRef l) = Some t ->
  exists fuel' ts,
    fuel = S fuel' /\ t = Arr ts /\ mapM (reify fuel' h) es = Some ts.
Proof.
  intros Hl Hr. destruct fuel as [|fuel']; [discriminate|].
  rewrite reify_VRef, Hl in Hr.
  destruct (mapM _ es) as [ts|] eqn:Hm; [|discriminate]. injection Hr as <-.
  now exists fuel', ts.
Qed.

End ReifyFacts.

(** ** The response elements of a multistatus *)

Module MultistatusRuns.
Import JsString Js Store Xml2js JsFacts ObjectFacts Documents ParseState StoreFacts.
Import TextSteps ElementSteps StartCases StartSteps NodeRuns LeafRuns ResponseRuns ReifyFacts.
Local Open Scope nat_scope.
Local Open Scope list_scope.

Section Callbacks.
Variable camelCase : string -> string.
Variable nativeType : string -> prim.

Local Abbreviation normalize := (elementNameFn camelCase).

(** The children of a multistatus: the responses, then the rest. *)
Lemma responsesFirst_split children :
  responsesFirst normalize children = true ->
  exists pre post,
    children = pre ++ post
    /\ forallb (fun c => isWhite c || isResponse normalize c) pre = true
    /\ forallb (isOther normalize) post = true.
Proof.
  induction children as [|c cs IH]; intros H.
  - exists [], []. repeat split.
  - cbn [responsesFirst] in H.
    destruct (isWhite c || isResponse normalize c) eqn:Hc.
    + destruct (IH H) as (pre & post & -> & Hpre & Hpost).
      exists (c :: pre), post. split; [reflexivity|]. split; [|exact Hpost].
      cbn [forallb]. now rewrite Hc.
    + exists [], (c :: cs). repeat split. exact H.
Qed.

Lemma other_facts post :
  forallb (isOther normalize) post = true ->
  omap (responseHref normalize) post = []
  /\ forallb elementOrWhite post = true
  /\ existsb (named normalize "response") post = false.
Proof.
  induction post as [|c cs IH]; intros H; [repeat split|].
  cbn [forallb] in H. apply andb_true_iff in H. destruct H as [Hc Hcs].
  destruct (IH Hcs) as (H1 & H2 & H3).
  change (omap (responseHref normalize) (c :: cs))
    with (match responseHref normalize c with
          | Some y => y :: omap (responseHref normalize) cs
          | None => omap (responseHref normalize) cs
          end).
  cbn [forallb existsb]. rewrite H1, H2, H3.
  destruct c as [n a kids|t]; cbn [isOther] in Hc.
  - apply negb_true_iff in Hc. cbn [responseHref named elementOrWhite]. rewrite Hc.
    repeat split.
  - cbn [responseHref named elementOrWhite]. rewrite Hc. repeat split.
Qed.

(** What the multistatus element holds beside the properties it was
    opened with: nothing, or its responses. *)
Lemma collected_cell (h : heap) m protm vs :
  collected h m protm vs ->
  exists extra,
    h !! m = Some (CObj (protm ++ extra))
    /\ (extra = [] \/ exists v, extra = [("response", v)]).
Proof.
  intros [_ H]. destruct vs as [|v1 [|v2 vs]].
  - exists []. split; [exact H|now left].
  - destruct H as (r & H & _). eexists. split; [exact H|]. right. now eexists.
  - destruct H as (a & rs & H & _). eexists. split; [exact H|]. right. now eexists.
Qed.

Lemma closed_moves (h h' : heap) m r v :
  m < r /\ closedResponse h r v ->
  (forall l, l < length h -> l <> m ->
     (forall es, h !! l <> Some (CArr es)) -> h' !! l = h !! l) ->
  m < r /\ closedResponse h' r v.
Proof.
  intros [Hm (ps & Hr & Hv)] Hsame. split; [exact Hm|]. exists ps. split; [|exact Hv].
  rewrite Hsame; [exact Hr| |lia|].
  - eapply lookup_lt_Some; eauto.
  - intros es. rewrite Hr. discriminate.
Qed.

Lemma closed_all_move (h h' : heap) m rs vs :
  Forall2 (fun r v => m < r /\ closedResponse h r v) rs vs ->
  (forall l, l < length h -> l <> m ->
     (forall es, h !! l <> Some (CArr es)) -> h' !! l = h !! l) ->
  Forall2 (fun r v => m < r /\ closedResponse h' r v) rs vs.
Proof.
  intros Hall Hsame. induction Hall as [|r v rs vs H0 _ IH]; constructor; [|exact IH].
  now apply (closed_moves h h').
Qed.

(** One more closed response. *)
Lemma collected_response (h h' : heap) m protm extra r vs v :
  collected h m protm vs ->
  h !! m = Some (CObj (protm ++ extra)) ->
  start_effect h h' m r protm extra "response" ->
  closedResponse h' r v ->
  length h <= r -> m <> 0 ->
  (forall l, l < length h -> l <> m ->
     (forall es, obj_get extra "response" = Some (VRef l) -> h !! l <> Some (CArr es)) ->
     h' !! l = h !! l) ->
  collected h' m protm (vs ++ [v]).
Proof.
  intros [Hroot Hvs] Hc Heff Hclosed Hr Hm0 Hframe.
  assert (Hlm : m < length h) by (eapply lookup_lt_Some; eauto).
  assert (Hsame : forall l, l < length h -> l <> m ->
            (forall es, h !! l <> Some (CArr es)) -> h' !! l = h !! l).
  { intros l Hl Hne Harr. apply Hframe; auto. }
  split.
  { rewrite Hsame; [exact Hroot| |congruence|].
    - eapply lookup_lt_Some; eauto.
    - intros es. rewrite Hroot. discriminate. }
  unfold start_effect in Heff.
  destruct vs as [|v1 [|v2 vs']].
  - rewrite Hc in Hvs. injection Hvs as Hvs. apply app_inv_head in Hvs. subst extra.
    cbn [obj_get] in Heff. simpl app. exists r. split; [exact Heff|]. split; [lia|exact Hclosed].
  - destruct Hvs as (r1 & Hm & Hlt & Hcl).
    rewrite Hc in Hm. injection Hm as Hm. apply app_inv_head in Hm. subst extra.
    cbn [obj_get] in Heff. rewrite String.eqb_refl in Heff.
    destruct Hcl as (ps1 & Hr1 & Hv1). rewrite Hr1 in Heff.
    destruct Heff as (arr & Harr & Hm' & Ha').
    cbn [obj_replace] in Hm'. rewrite String.eqb_refl in Hm'.
    simpl app. exists arr, [r1; r]. split; [exact Hm'|]. split; [exact Ha'|].
    constructor; [|constructor; [split; [lia|exact Hclosed]|constructor]].
    apply (closed_moves h h'); [|exact Hsame]. split; [exact Hlt|]. now exists ps1.
  - destruct Hvs as (a & rs & Hm & Ha & Hall).
    rewrite Hc in Hm. injection Hm as Hm. apply app_inv_head in Hm. subst extra.
    cbn [obj_get] in Heff. rewrite String.eqb_refl, Ha in Heff.
    destruct Heff as [Hm' Ha'].
    change ((v1 :: v2 :: vs') ++ [v]) with (v1 :: v2 :: (vs' ++ [v])).
    cbv beta iota. exists a, (rs ++ [r]). split; [exact Hm'|]. split; [now rewrite map_app|].
    change (v1 :: v2 :: (vs' ++ [v])) with ((v1 :: v2 :: vs') ++ [v]).
    apply Forall2_app.
    + now apply (closed_all_move h h').
    + constructor; [split; [lia|exact Hclosed]|constructor].
Qed.

(** The responses of a multistatus, one after the other. *)
Lemma run_responses fm children : forall st vs,
  forallb (fun c => isWhite c || isResponse normalize c) children = true ->
  forallb (wellNamed normalize) children = true ->
  Inv [fm] st -> obj_has (prot fm) "response" = false -> at_ fm <> 0 ->
  collected (store st) (at_ fm) (prot fm) vs ->
  exists st',
    run camelCase nativeType (flat_map events children) st = Ok st'
    /\ Inv [fm] st'
    /\ collected (store st') (at_ fm) (prot fm)
         (vs ++ map nativeType (omap (responseHref normalize) children)).
Proof.
  induction children as [|c cs IH]; intros st vs Hshape Hwn HI Hnp Hm0 Hcol.
  - exists st. simpl. rewrite app_nil_r. auto.
  - simpl in Hshape, Hwn.
    apply andb_true_iff in Hshape. destruct Hshape as [Hc Hcs].
    apply andb_true_iff in Hwn. destruct Hwn as [Hwc Hwcs].
    cbn [flat_map].
    change (omap (responseHref normalize) (c :: cs))
      with (match responseHref normalize c with
            | Some y => y :: omap (responseHref normalize) cs
            | None => omap (responseHref normalize) cs
            end).
    unfold isResponse in Hc.
    destruct (responseHref normalize c) as [t|] eqn:Hr.
    + destruct (run_response camelCase nativeType c t fm [] st Hr Hwc HI Hnp)
        as (st1 & r & extra & Hrun & HI1 & Hcell & Heff & Hclosed & Hge & Hlen & Hframe).
      pose proof (collected_response _ _ _ _ _ _ _ _ Hcol Hcell Heff Hclosed Hge Hm0 Hframe)
        as Hcol1.
      destruct (IH st1 (vs ++ [nativeType t]) Hcs Hwcs HI1 Hnp Hm0 Hcol1)
        as (st' & Hrun' & HI' & Hcol').
      exists st'. split; [|split; [exact HI'|]].
      * now rewrite run_app, Hrun, rbind_Ok.
      * rewrite <- app_assoc in Hcol'. exact Hcol'.
    + rewrite orb_false_r in Hc.
      destruct (IH st vs Hcs Hwcs HI Hnp Hm0 Hcol) as (st' & Hrun' & HI' & Hcol').
      exists st'. split; [|split; [exact HI'|exact Hcol']].
      rewrite run_app. destruct c as [|t]; [discriminate|]. simpl events. simpl run.
      simpl in Hc. rewrite (onText_white nativeType t st Hc), !rbind_Ok. exact Hrun'.
Qed.

(** The start tag of the root, from the initial state. *)
Lemma open_root name attrs :
  normalize name = "multistatus" ->
  exists st1 fm,
    onStartElement camelCase name attrs initial = Ok st1
    /\ Inv [fm] st1
    /\ collected (store st1) (at_ fm) (prot fm) []
    /\ obj_has (prot fm) "response" = false
    /\ at_ fm <> 0
    /\ obj_get (prot fm) "_parent" = Some (VRef 0)
    /\ (forall k, ok_key k = true -> obj_has (prot fm) k = false).
Proof.
  intros Hn.
  assert (Hfresh : forall k (v w : val), ok_key k = true ->
            obj_has [("_parent", v)] k = false
            /\ obj_has [("_attributes", w); ("_parent", v)] k = false).
  { intros k v w Hk. destruct (ok_key_facts _ Hk) as (H1 & H2 & _).
    assert (Hp : String.eqb "_parent" k = false) by (apply String.eqb_neq; congruence).
    assert (Ha : String.eqb "_attributes" k = false) by (apply String.eqb_neq; congruence).
    now rewrite !obj_has_cons, obj_has_nil, Hp, Ha. }
  unfold onStartElement, initial. cbn [currentElement store]. cbv zeta.
  rewrite Hn. destruct (manipulateAttributes attrs) as [|a0 as0].
  - exists {| store := [CObj [("multistatus", VRef 1)]; CObj [("_parent", VRef 0)]];
              currentElement := VRef 1 |},
           {| at_ := 1; prot := [("_parent", VRef 0)]; birth := 2 |}.
    split; [reflexivity|].
    split; [|repeat split; try discriminate; intros k Hk;
             exact (proj1 (Hfresh k (VRef 0) vundefined Hk))].
    split; [reflexivity|]. split.
    + cbn [frames_ok at_ prot birth store]. repeat split; try lia; try reflexivity.
      * repeat constructor. intros [].
      * exists 0. split; [reflexivity|exact I].
      * exists []. repeat split; [constructor|discriminate].
    + exists (fun x => if x =? 0 then 0%Q else 1%Q). intros l c Hl k l' Hin.
      cbn [store] in Hl. destruct l as [|[|l]]; simpl in Hl; [| |discriminate];
        injection Hl as <-; simpl in Hin.
      * destruct Hin as [[= <- <-]|[]]. split; [simpl; lia|]. left. simpl. lra.
      * destruct Hin as [[= <- <-]|[]]. split; [simpl; lia|]. right. split; [reflexivity|now left].
  - set (ac := CObj (map (fun kv : string * string => (fst kv, VPrim (PStr (snd kv)))) (a0 :: as0))).
    exists {| store := [CObj [("multistatus", VRef 2)]; ac;
                        CObj [("_attributes", VRef 1); ("_parent", VRef 0)]];
              currentElement := VRef 2 |},
           {| at_ := 2; prot := [("_attributes", VRef 1); ("_parent", VRef 0)]; birth := 3 |}.
    split; [reflexivity|].
    split; [|repeat split; try discriminate; intros k Hk;
             exact (proj2 (Hfresh k (VRef 0) (VRef 1) Hk))].
    split; [reflexivity|]. split.
    + cbn [frames_ok at_ prot birth store]. repeat split; try lia; try reflexivity.
      * repeat constructor; simpl; intuition discriminate.
      * exists 0. split; [reflexivity|exact I].
      * exists []. repeat split; [constructor|discriminate].
    + exists (fun x => if x =? 0 then 0%Q else if x =? 2 then 1%Q else 2%Q). intros l c Hl k l' Hin.
      cbn [store] in Hl. destruct l as [|[|[|l]]]; simpl in Hl; [| | |discriminate];
        injection Hl as <-.
      * destruct Hin as [[= <- <-]|[]]. split; [simpl; lia|]. left. simpl. lra.
      * exfalso. unfold ac, vals in Hin. apply in_map_iff in Hin.
        destruct Hin as ([k0 v0] & Hv & _). discriminate.
      * destruct Hin as [[= <- <-]|[[= <- <-]|[]]].
        -- split; [simpl; lia|]. left. simpl. lra.
        -- split; [simpl; lia|]. right. split; [reflexivity|now left].
Qed.

End Callbacks.
End MultistatusRuns.

(** ** From a multistatus document to the sequence of results *)

Module MultistatusDocuments.
Import JsString Js Store Xml2js JsFacts ObjectFacts Documents ParseState StoreFacts.
Import TextSteps ElementSteps StartCases StartSteps NodeRuns LeafRuns ResponseRuns ReifyFacts MultistatusRuns.
Import Async Request.
Local Open Scope nat_scope.
Local Open Scope list_scope.

Lemma reify_prim fuel (h : heap) p : reify fuel h (VPrim p) = Some (Prim p).
Proof. destruct fuel; reflexivity. Qed.

(** The href of a closed response in the tree that is returned. *)
Lemma closed_href fuel (h : heap) r v t :
  closedResponse h r v -> reify fuel h (VRef r) = Some t ->
  hrefOf t = Some (Prim v).
Proof.
  intros (ps & Hr & Hv) Ht.
  destruct (reify_Obj fuel h r ps t Hr Ht) as (fuel' & o & -> & -> & Hm).
  pose proof (reify_props fuel' h ps o Hm "href") as Hp. rewrite Hv in Hp.
  destruct Hp as (t' & Ht' & Ho). rewrite reify_prim in Ht'. injection Ht' as <-.
  unfold hrefOf. simpl truthy. cbv iota. unfold get_opt, get. now rewrite Ho.
Qed.

Lemma closed_hrefs fuel (h : heap) m rs vs : forall ts,
  Forall2 (fun r v => m < r /\ closedResponse h r v) rs vs ->
  list.mapM (reify fuel h) (map VRef rs) = Some ts ->
  map hrefOf ts = map (fun v => Some (Prim v)) vs.
Proof.
  intros ts Hall Hm. apply mapM_Some_1 in Hm. revert ts Hm.
  induction Hall as [|r v rs vs [_ H0] _ IH]; intros ts Hm.
  - inversion Hm. reflexivity.
  - simpl in Hm. inversion Hm as [|x y l k Hx Hl]; subst. simpl.
    rewrite (closed_href fuel h r v y H0 Hx). f_equal. now apply IH.
Qed.

Section Callbacks.
Variable camelCase : string -> string.
Variable nativeType : string -> prim.

Local Abbreviation normalize := (Xml2js.elementNameFn camelCase).

(** The parse of a multistatus document succeeds, and [response] in
    what it returns is undefined without a response element, the object
    of the response element when there is one, and the sequence of the
    objects of the response elements, in document order, when there are
    more; each object has the coerced text of the [href] of its
    element. *)
Lemma parse_multistatus (davResponse : Response) (doc : xml) :
  multistatusDocument normalize doc = true ->
  exists result response,
    xml2js_document camelCase nativeType doc = Ok result
    /\ multistatusResults davResponse result = Ok (resultsOf davResponse result response)
    /\ match responseHrefs normalize doc with
       | [] => response = undefined
       | [t] => isArray response = false /\ hrefOf response = Some (Prim (nativeType t))
       | texts =>
           exists bodies,
             response = Arr bodies
             /\ map hrefOf bodies = map (fun t => Some (Prim (nativeType t))) texts
       end.
Proof.
  intros Hdoc. unfold multistatusDocument in Hdoc.
  apply andb_true_iff in Hdoc. destruct Hdoc as [Hwn Hdoc].
  destruct doc as [name attrs children|]; [|discriminate].
  apply andb_true_iff in Hdoc. destruct Hdoc as [Hn Hshape].
  apply String.eqb_eq in Hn.
  rewrite wellNamed_Element in Hwn. apply andb_true_iff in Hwn. destruct Hwn as [_ Hwk].
  destruct (responsesFirst_split camelCase children Hshape) as (pre & post & -> & Hpre & Hpost).
  rewrite forallb_app in Hwk. apply andb_true_iff in Hwk. destruct Hwk as [Hwpre Hwpost].
  destruct (other_facts camelCase post Hpost) as (Hnone & Hq & Hnr).
  (* the start tag of the root and the responses *)
  destruct (open_root camelCase nativeType name attrs Hn)
    as (st1 & fm & Hrun1 & HI1 & Hcol1 & Hnp & Hm0 & Hpar & Hfresh).
  destruct (run_responses camelCase nativeType fm pre st1 [] Hpre Hwpre HI1 Hnp Hm0 Hcol1)
    as (st2 & Hrun2 & HI2 & Hcol2).
  simpl app in Hcol2.
  destruct (collected_cell _ _ _ _ Hcol2) as (extra & Hc2 & Hextra).
  assert (Hnd : List.NoDup (keys (prot fm ++ extra))).
  { assert (Hnd0 : List.NoDup (keys (prot fm))).
    { destruct HI2 as (_ & Hfr & _). simpl in Hfr. tauto. }
    destruct Hextra as [->|[v ->]]; [now rewrite app_nil_r|].
    unfold keys. rewrite map_app. apply NoDup_snoc; [|exact Hnd0].
    now apply (obj_has_false (prot fm) "response"). }
  pose proof (reprotect fm [] st2 extra HI2 Hc2 Hnd) as HI2'.
  set (fm' := {| at_ := at_ fm; prot := prot fm ++ extra; birth := length (store st2) |}) in *.
  (* what follows the responses *)
  assert (Hnames : forallb (fun c => match c with
                                     | Element n _ _ => negb (obj_has (prot fm') (normalize n))
                                     | Text _ => true
                                     end) post = true).
  { clear -Hpost Hwpost Hfresh Hextra. induction post as [|c cs IH]; [reflexivity|].
    cbn [forallb] in Hpost, Hwpost |- *.
    apply andb_true_iff in Hpost. destruct Hpost as [Hc Hcs].
    apply andb_true_iff in Hwpost. destruct Hwpost as [Hwc Hwcs].
    rewrite (IH Hwcs Hcs), andb_true_r. destruct c as [n a kids|]; [|reflexivity].
    rewrite wellNamed_Element in Hwc. apply andb_true_iff in Hwc. destruct Hwc as [Ho _].
    unfold fm'. cbn [prot]. rewrite obj_has_app.
    rewrite Hfresh by (unfold ok_key; now rewrite Ho).
    cbn [isOther] in Hc. apply negb_true_iff in Hc.
    destruct Hextra as [->|[v ->]]; [reflexivity|].
    now rewrite obj_has_cons, obj_has_nil, String.eqb_sym, Hc. }
  destruct (run_siblings camelCase nativeType post fm' [] st2 Hwpost Hq Hnames HI2')
    as (st3 & Hrun3 & HI3 & Hlen3 & Hpres3 & Hk3).
  unfold fm' in Hpres3, Hk3. cbn [birth at_] in Hpres3, Hk3.
  (* the end tag of the root *)
  destruct (onEndElement_step fm' [] st3 HI3)
    as (extra3 & p & Hc3 & Hp & Hrun4 & _ & (dep & Hh4) & _).
  unfold fm' in Hc3, Hp, Hrun4, Hh4. cbn [at_ prot] in Hc3, Hp, Hrun4, Hh4.
  rewrite (obj_get_app_l _ _ _ _ Hpar) in Hp. injection Hp as <-.
  set (h4 := <[at_ fm := CObj (obj_delete (prot fm ++ extra) "_parent" ++ extra3)]> (store st3))
    in *.
  assert (Hlm : at_ fm < length (store st3)) by (eapply lookup_lt_Some; eauto).
  assert (Hold : forall l cl, store st2 !! l = Some cl -> l <> at_ fm -> h4 !! l = Some cl).
  { intros l cl Hl Hne. unfold h4. rewrite list_lookup_insert_ne by congruence.
    rewrite Hpres3; [exact Hl| |exact Hne]. eapply lookup_lt_Some; eauto. }
  assert (Hresp : obj_get (obj_delete (prot fm ++ extra) "_parent" ++ extra3) "response"
                  = obj_get extra "response").
  { rewrite obj_get_app, obj_get_delete_ne by discriminate.
    rewrite (obj_get_app_r _ _ _ Hnp).
    destruct (obj_get extra "response") as [v|] eqn:G; [reflexivity|].
    destruct (obj_get extra3 "response") as [v|] eqn:G3; [|reflexivity].
    exfalso. destruct (Hk3 "response") as [Hk|Hk].
    - unfold has_key. rewrite Hc3, !obj_has_app. unfold obj_has at 3. rewrite G3.
      apply orb_true_r.
    - unfold has_key in Hk. rewrite Hc2, obj_has_app, Hnp in Hk.
      unfold obj_has in Hk. rewrite G in Hk. discriminate.
    - congruence. }
  destruct Hcol2 as [Hroot Hvs].
  assert (Hroot4 : h4 !! 0 = Some (CObj [("multistatus", VRef (at_ fm))])).
  { apply Hold; [exact Hroot|congruence]. }
  assert (Hm4 : h4 !! at_ fm
                = Some (CObj (obj_delete (prot fm ++ extra) "_parent" ++ extra3))).
  { unfold h4. now apply list_lookup_insert_eq. }
  assert (Hl0 : 0 < length h4) by (eapply lookup_lt_Some; eauto).
  destruct (reify_total dep h4 0 Hh4 Hl0) as [tree Htree].
  destruct (reify_Obj _ _ _ _ _ Hroot4 Htree) as (f1 & o0 & Hf1 & -> & Hm0').
  pose proof (reify_props f1 h4 _ o0 Hm0' "multistatus") as Hp0.
  cbn [obj_get] in Hp0. rewrite String.eqb_refl in Hp0.
  destruct Hp0 as (tM & HtM & Ho0).
  destruct (reify_Obj _ _ _ _ _ Hm4 HtM) as (f2 & oM & Hf2 & -> & HmM).
  pose proof (reify_props f2 h4 _ oM HmM "response") as HpM.
  rewrite Hresp in HpM.
  exists (Obj o0), (default undefined (obj_get oM "response")).
  split.
  { unfold xml2js_document. simpl events. simpl run. rewrite Hrun1, rbind_Ok.
    rewrite flat_map_app, <- app_assoc, run_app, Hrun2, rbind_Ok.
    rewrite run_app, Hrun3, rbind_Ok.
    simpl run. rewrite Hrun4, !rbind_Ok.
    cbn [store]. fold h4. now rewrite Htree. }
  split.
  { unfold multistatusResults. unfold get at 1. rewrite Ho0. simpl default. rewrite rbind_Ok.
    unfold get at 1. rewrite rbind_Ok. reflexivity. }
  unfold responseHrefs. rewrite omap_app, Hnone, app_nil_r.
  destruct (omap (responseHref normalize) pre) as [|t1 [|t2 ts]]; simpl map in Hvs.
  - rewrite Hc2 in Hvs. injection Hvs as Hvs. apply app_inv_head in Hvs. subst extra.
    cbn [obj_get] in HpM. now rewrite HpM.
  - destruct Hvs as (r & Hm & Hlt & Hcl).
    rewrite Hc2 in Hm. injection Hm as Hm. apply app_inv_head in Hm. subst extra.
    cbn [obj_get] in HpM. rewrite String.eqb_refl in HpM.
    destruct HpM as (tr & Htr & HoM). rewrite HoM. simpl default.
    assert (Hcl4 : closedResponse h4 r (nativeType t1)).
    { destruct Hcl as (ps & Hr & Hv). exists ps. split; [|exact Hv]. apply Hold; [exact Hr|lia]. }
    pose proof (closed_href _ _ _ _ _ Hcl4 Htr) as Hh.
    destruct Hcl4 as (ps & Hr & _).
    destruct (reify_Obj _ _ _ _ _ Hr Htr) as (f3 & br & _ & -> & _).
    split; [reflexivity|exact Hh].
  - destruct Hvs as (a & rs & Hm & Ha & Hall).
    rewrite Hc2 in Hm. injection Hm as Hm. apply app_inv_head in Hm. subst extra.
    cbn [obj_get] in HpM. rewrite String.eqb_refl in HpM.
    destruct HpM as (tr & Htr & HoM). rewrite HoM. simpl default.
    assert (Ha4 : h4 !! a = Some (CArr (map VRef rs))).
    { apply Hold; [exact Ha|]. intros ->. congruence. }
    destruct (reify_Arr _ _ _ _ _ Ha4 Htr) as (f3 & ts' & _ & -> & Hts).
    assert (Hall4 : Forall2 (fun r v => at_ fm < r /\ closedResponse h4 r v) rs
                      (nativeType t1 :: nativeType t2 :: map nativeType ts)).
    { clear -Hall Hold. induction Hall as [|r v rs0 vs0 [H1 (ps & Hr & Hv)] _ IH];
        constructor; [|exact IH].
      split; [exact H1|]. exists ps. split; [|exact Hv]. apply Hold; [exact Hr|lia]. }
    exists ts'. split; [reflexivity|].
    rewrite (closed_hrefs _ _ _ _ _ _ Hall4 Hts). simpl map. now rewrite map_map.
Qed.

(** The response elements of a multistatus document are the elements
    that [responseHrefs] reads, in the same order. *)
Lemma responseElements_hrefs (doc : xml) :
  multistatusDocument normalize doc = true ->
  map (responseHref normalize) (Spec.responseElements normalize doc)
  = map Some (responseHrefs normalize doc).
Proof.
  intros Hdoc. unfold multistatusDocument in Hdoc.
  apply andb_true_iff in Hdoc. destruct Hdoc as [_ Hdoc].
  destruct doc as [name attrs children|]; [|discriminate].
  apply andb_true_iff in Hdoc. destruct Hdoc as [_ Hshape].
  unfold Spec.responseElements, responseHrefs.
  assert (Hother : forall post, forallb (isOther normalize) post = true ->
            List.filter (fun child => match child with
                                      | Element n _ _ => String.eqb (normalize n) "response"
                                      | Text _ => false
                                      end) post = []).
  { induction post as [|c cs IH]; [reflexivity|]. cbn [forallb List.filter]. intros H.
    apply andb_true_iff in H. destruct H as [Hc Hcs]. rewrite (IH Hcs).
    destruct c as [n a kids|t]; [|reflexivity]. cbn [isOther] in Hc.
    apply negb_true_iff in Hc. now rewrite Hc. }
  induction children as [|c cs IH]; [reflexivity|].
  cbn [responsesFirst] in Hshape.
  destruct (isWhite c || isResponse normalize c) eqn:Hc.
  - change (omap (responseHref normalize) (c :: cs))
      with (match responseHref normalize c with
            | Some y => y :: omap (responseHref normalize) cs
            | None => omap (responseHref normalize) cs
            end).
    cbn [List.filter]. destruct c as [n a kids|t]; [|now apply IH].
    cbn [isWhite orb] in Hc. unfold isResponse in Hc.
    destruct (responseHref normalize (Element n a kids)) as [t|] eqn:Hr; [|discriminate].
    assert (Hn : String.eqb (normalize n) "response" = true).
    { cbn [responseHref] in Hr. destruct (String.eqb (normalize n) "response"); [reflexivity|].
      discriminate. }
    rewrite Hn. cbn [map]. rewrite Hr. f_equal. now apply IH.
  - rewrite (Hother _ Hshape).
    destruct (other_facts camelCase _ Hshape) as (-> & _). reflexivity.
Qed.

(** C2 (as the code has it).  A multistatus document is a root element
    named [multistatus] (names read through the Key Normalizer) whose
    children are white space and [response] elements, followed by
    elements of other names (a response description, a sync token);
    every [response] has element content that starts with its one
    [href], a text leaf; and no element has the name of a property that
    xml-js or JavaScript uses itself.  For every such document the parse
    succeeds and the results are read from what it returns.  When the
    document has response elements, there is exactly one record per
    response element, in document order, each with the coerced text of
    the [href] of its element.  With exactly one response element,
    [response] is a single object and not a sequence, and the records
    are those of the one-element sequence that holds it.  A document
    without a response element gives one record, the transport-level
    one. *)
Theorem results_follow_responses (davResponse : Response) (doc : xml) :
  multistatusDocument normalize doc = true ->
  exists result response,
    xml2js_document camelCase nativeType doc = Ok result
    /\ multistatusResults davResponse result = Ok (resultsOf davResponse result response)
    /\ map (responseHref normalize) (Spec.responseElements normalize doc)
       = map Some (responseHrefs normalize doc)
    /\ (Spec.responseElements normalize doc <> [] ->
        length (resultsOf davResponse result response)
        = length (Spec.responseElements normalize doc)
        /\ map href (resultsOf davResponse result response)
           = map (fun t => Some (Prim (nativeType t))) (responseHrefs normalize doc))
    /\ (length (Spec.responseElements normalize doc) = 1 ->
        isArray response = false
        /\ resultsOf davResponse result response
           = resultsOf davResponse result (Arr [response]))
    /\ (Spec.responseElements normalize doc = [] ->
        resultsOf davResponse result response = [transportRecord davResponse]).
Proof.
  intros Hdoc.
  destruct (parse_multistatus davResponse doc Hdoc)
    as (result & response & Hparse & Hres & Hshape).
  pose proof (responseElements_hrefs doc Hdoc) as Hels.
  assert (Hlen : length (Spec.responseElements normalize doc)
                 = length (responseHrefs normalize doc)).
  { rewrite <- (length_map (responseHref normalize)), Hels. apply length_map. }
  exists result, response. split; [exact Hparse|]. split; [exact Hres|]. split; [exact Hels|].
  assert (Hhrefs : forall bodies,
            map href (map (toResult davResponse result) bodies) = map hrefOf bodies).
  { intros bodies. rewrite map_map. apply map_ext. intros body.
    apply MultistatusExtraction.href_toResult. }
  destruct (responseHrefs normalize doc) as [|t1 [|t2 ts]].
  - destruct (Spec.responseElements normalize doc); [|discriminate].
    split; [congruence|]. split; [discriminate|]. intros _. now rewrite Hshape.
  - destruct Hshape as [Harr Hh].
    assert (Hone : resultsOf davResponse result response
                   = resultsOf davResponse result (Arr [response])).
    { unfold resultsOf. destruct response; simpl in *; congruence. }
    assert (Hm : map href (resultsOf davResponse result response)
                 = [Some (Prim (nativeType t1))]).
    { rewrite Hone. unfold resultsOf. cbn [responseBodies]. rewrite Hhrefs. cbn [map].
      now rewrite Hh. }
    split; [|split; [auto|]].
    + intros _. split; [|exact Hm].
      rewrite Hlen, <- (length_map href), Hm. reflexivity.
    + intros He. rewrite He in Hlen. discriminate.
  - destruct Hshape as (bodies & -> & Hh).
    assert (Hm : map href (resultsOf davResponse result (Arr bodies))
                 = map (fun t => Some (Prim (nativeType t))) (t1 :: t2 :: ts)).
    { unfold resultsOf. cbn [responseBodies]. now rewrite Hhrefs. }
    split; [|split].
    + intros _. split; [|exact Hm].
      rewrite Hlen, <- (length_map href), Hm. now rewrite length_map.
    + intros H1. rewrite Hlen in H1. discriminate.
    + intros He. rewrite He in Hlen. discriminate.
Qed.

End Callbacks.

Lemma results_follow_responses_witness :
  multistatusDocument (Xml2js.elementNameFn Util.camelCase) Samples.twoResponses = true
  /\ exists result response,
       xml2js_document Util.camelCase Util.nativeType Samples.twoResponses = Ok result
       /\ multistatusResults Samples.multistatusAnswer result
          = Ok (resultsOf Samples.multistatusAnswer result response)
       /\ map (responseHref (Xml2js.elementNameFn Util.camelCase))
              (Spec.responseElements (Xml2js.elementNameFn Util.camelCase) Samples.twoResponses)
          = map Some (responseHrefs (Xml2js.elementNameFn Util.camelCase) Samples.twoResponses)
       /\ (Spec.responseElements (Xml2js.elementNameFn Util.camelCase) Samples.twoResponses <> [] ->
           length (resultsOf Samples.multistatusAnswer result response)
           = length (Spec.responseElements (Xml2js.elementNameFn Util.camelCase) Samples.twoResponses)
           /\ map href (resultsOf Samples.multistatusAnswer result response)
              = map (fun t => Some (Prim (Util.nativeType t)))
                    (responseHrefs (Xml2js.elementNameFn Util.camelCase) Samples.twoResponses))
       /\ (length (Spec.responseElements (Xml2js.elementNameFn Util.camelCase) Samples.twoResponses) = 1 ->
           isArray response = false
           /\ resultsOf Samples.multistatusAnswer result response
              = resultsOf Samples.multistatusAnswer result (Arr [response]))
       /\ (Spec.responseElements (Xml2js.elementNameFn Util.camelCase) Samples.twoResponses = [] ->
           resultsOf Samples.multistatusAnswer result response
           = [transportRecord Samples.multistatusAnswer]).
Proof.
  split; [reflexivity|].
  apply (results_follow_responses Util.camelCase Util.nativeType Samples.multistatusAnswer
           Samples.twoResponses).
  reflexivity.
Defined.


(** C2, the claim as stated, at a multistatus without a response
    element: parsing yields one record, not none. *)
Lemma empty_multistatus_yields_one_record :
  rbind (xml2js_document Util.camelCase Util.nativeType Samples.emptyMultistatus)
        (multistatusResults Samples.multistatusAnswer)
  = Ok [transportRecord Samples.multistatusAnswer]
  /\ Spec.responseElements (Xml2js.elementNameFn Util.camelCase) Samples.emptyMultistatus = [].
Proof. split; reflexivity. Qed.

End MultistatusDocuments.

(** ** The coercion of text leaves *)

Module LeafCoercion.
Import JsString Js Xml2js.

(** C7, at the failing inputs.  Adjacent repeated leaves are coerced in
    place.  When another element stands between two leaves of one name,
    the value of the later leaf is written over that other element and
    the leaf's own slot keeps an object without text; when the first of
    two leaves coerces to a falsy value, the second replaces it and one
    value is left. *)
Theorem textFn_misplaces_repeated_leaves :
  xml2js_document Util.camelCase Util.nativeType Samples.adjacentSiblings
  = Ok (Obj [("prop", Obj [("a", Arr [Prim (PNum "1"); Prim (PNum "3")]);
                          ("b", Prim (PNum "2"))])])
  /\ xml2js_document Util.camelCase Util.nativeType Samples.separatedSiblings
     = Ok (Obj [("prop", Obj [("a", Arr [Prim (PNum "1"); Obj [("_text", undefined)]]);
                             ("b", Prim (PNum "3"))])])
  /\ xml2js_document Util.camelCase Util.nativeType Samples.falsyFirstSibling
     = Ok (Obj [("prop", Obj [("a", Prim (PBool true))])]).
Proof. repeat split; reflexivity. Qed.

End LeafCoercion.

(** ** The serializer renames every element *)

Module SerializerFacts.
Import JsString Js Js2xml SerializerSpec.

Lemma JsVal_nested_ind (P : JsVal -> Prop) :
  (forall p, P (Prim p)) ->
  (forall l, Forall P l -> P (Arr l)) ->
  (forall o, Forall (fun kv => P (snd kv)) o -> P (Obj o)) ->
  forall v, P v.
Proof.
  intros HP HA HO. fix IH 1. intros [p|l|o].
  - apply HP.
  - apply HA. induction l as [|x l IHl]; constructor; [apply IH|exact IHl].
  - apply HO. induction o as [|[k x] o IHo]; constructor; [apply IH|exact IHo].
Qed.

Section Writer.
Variable g : string -> string.
Local Abbreviation valueStep := (Js2xml.valueStep g).
Local Abbreviation nodeStep := (Js2xml.nodeStep g).

Lemma writeElementsCompact_Obj o depth firstLine :
  writeElementsCompact g (Obj o) depth firstLine
  = rbind (calls_hasOwnProperty (Obj o)) (fun _ =>
    rbind (fold_left (fun acc kv => valueStep (fst kv) depth acc (snd kv)) o (Ok ("", firstLine)))
          (fun a => Ok (fst a))).
Proof.
  cbn [writeElementsCompact].
  destruct (calls_hasOwnProperty (Obj o)) as [e|[]]; [reflexivity|].
  cbn [rbind]. f_equal.
  generalize (Ok ("", firstLine) : result (string * bool)).
  induction o as [|[key value] o IH]; intros acc; [reflexivity|].
  cbn [fold_left fst snd]. rewrite <- IH. reflexivity.
Qed.

(** [writeElementCompact] with its recursive call in place. *)
Lemma writeNode_element key node depth firstLine :
  isElementKey key = true ->
  writeNode_with g (writeElementsCompact g) key node depth firstLine
  = rbind (writeElementCompact g node key depth (hasContentCompact node false))
          (fun x => Ok (Some (writeIndentation depth firstLine +:+ x))).
Proof.
  unfold isElementKey, writeNode_with. destruct (kind_of key); try discriminate. reflexivity.
Qed.

Lemma writeNode_reserved key node depth firstLine (h : string -> string) :
  isElementKey key = false ->
  writeNode_with g (writeElementsCompact g) key node depth firstLine
  = writeNode_with h (writeElementsCompact h) key node depth firstLine.
Proof.
  unfold isElementKey, writeNode_with. destruct (kind_of key); try discriminate; reflexivity.
Qed.
End Writer.

Lemma element_key_has_content key anyContent :
  isElementKey key = true -> key_has_content anyContent key = true.
Proof.
  unfold isElementKey, kind_of, key_has_content.
  destruct (String.eqb key "_declaration"), (String.eqb key "_attributes"),
    (String.eqb key "_parent"), (String.eqb key "_text"), (String.eqb key "_instruction"),
    (String.eqb key "_cdata"), (String.eqb key "_doctype"), (String.eqb key "_comment");
    simpl; congruence.
Qed.

Lemma element_key_not_attributes key :
  isElementKey key = true -> String.eqb key "_attributes" = false.
Proof.
  unfold isElementKey, kind_of.
  destruct (String.eqb key "_declaration"), (String.eqb key "_attributes");
    simpl; congruence.
Qed.

Section Renaming.
Variable f : string -> string.
Hypothesis f_nonempty : forall key, key <> "" -> f key <> "".
Hypothesis f_element : forall key, isElementKey key = true -> isElementKey (f key) = true.
Hypothesis f_not_hasOwnProperty :
  forall key, key <> "hasOwnProperty" -> f key <> "hasOwnProperty".

Local Abbreviation renamedKey := (SerializerSpec.renamedKey f).
Local Abbreviation renamedUnder := (SerializerSpec.renamedUnder f).
Local Abbreviation Commutes := (SerializerSpec.Commutes f).
Local Abbreviation CommutesUnder := (SerializerSpec.CommutesUnder f).

Lemma renameElements_Obj o :
  renameElements f (Obj o)
  = Obj (map (fun kv => (renamedKey (fst kv), renamedUnder (fst kv) (snd kv))) o).
Proof.
  cbn [renameElements]. f_equal.
  induction o as [|[key value] o IH]; [reflexivity|].
  cbn [map fst snd]. rewrite <- IH. reflexivity.
Qed.

Lemma wellFormed_Obj o :
  wellFormed (Obj o) = forallb (fun kv => wellFormedUnder (fst kv) (snd kv)) o.
Proof.
  cbn [wellFormed].
  induction o as [|[key value] o IH]; [reflexivity|].
  cbn [forallb fst snd]. rewrite <- IH. reflexivity.
Qed.

Lemma renamedKey_element key : isElementKey (renamedKey key) = isElementKey key.
Proof.
  unfold renamedKey. destruct (isElementKey key) eqn:E; [now apply f_element|exact E].
Qed.

Lemma keys_renamed o :
  keys (map (fun kv => (renamedKey (fst kv), renamedUnder (fst kv) (snd kv))) o)
  = map renamedKey (keys o).
Proof. unfold keys. rewrite !map_map. reflexivity. Qed.

Lemma hasContent_renamed o anyContent :
  hasContentCompact (renameElements f (Obj o)) anyContent
  = hasContentCompact (Obj o) anyContent.
Proof.
  rewrite renameElements_Obj. unfold hasContentCompact. cbn [own_entries].
  rewrite keys_renamed. induction (keys o) as [|key ks IH]; [reflexivity|].
  cbn [map existsb]. rewrite IH. f_equal.
  unfold renamedKey. destruct (isElementKey key) eqn:E; [|reflexivity].
  now rewrite !element_key_has_content by auto.
Qed.

Lemma attributes_renamed o :
  get_opt (renameElements f (Obj o)) "_attributes" = get_opt (Obj o) "_attributes".
Proof.
  rewrite renameElements_Obj. unfold get_opt, get. cbn [Ok]. f_equal.
  induction o as [|[key value] o IH]; [reflexivity|].
  cbn [map obj_get fst snd]. unfold renamedKey at 1, renamedUnder at 1.
  destruct (isElementKey key) eqn:E.
  - rewrite (element_key_not_attributes _ (f_element _ E)).
    rewrite (element_key_not_attributes _ E). exact IH.
  - destruct (String.eqb key "_attributes"); [reflexivity|exact IH].
Qed.

Lemma hasContent_renamed_node node anyContent :
  wellFormed node = true ->
  hasContentCompact (renameElements f node) anyContent = hasContentCompact node anyContent.
Proof.
  destruct node as [p|l|o]; intros H; [reflexivity|discriminate|apply hasContent_renamed].
Qed.

Lemma element_commutes node key depth indent :
  Commutes node -> wellFormed node = true -> key <> "" ->
  writeElementCompact f node key depth indent
  = writeElementCompact (fun name => name) (renameElements f node) (f key) depth indent.
Proof.
  intros Hc Hwf Hkey.
  assert (E1 : String.eqb key "" = false) by now apply String.eqb_neq.
  assert (E2 : String.eqb (f key) "" = false) by now apply String.eqb_neq, f_nonempty.
  unfold writeElementCompact, writeElementCompact_with.
  destruct node as [p|l|o]; [|discriminate|].
  - cbn [renameElements]. rewrite E1, E2. destruct p as [| | |n|[|c s]]; reflexivity.
  - rewrite attributes_renamed, hasContent_renamed, E1, E2.
    rewrite renameElements_Obj. rewrite <- renameElements_Obj.
    rewrite (Hc Hwf). reflexivity.
Qed.

Lemma nodeStep_commutes key depth acc node :
  isElementKey key = true -> key <> "" ->
  Commutes node -> wellFormed node = true ->
  nodeStep f key depth acc node
  = nodeStep (fun name => name) (f key) depth acc (renameElements f node).
Proof.
  intros Hk Hne Hc Hwf. unfold nodeStep. destruct acc as [e|a]; [reflexivity|].
  cbn [rbind]. rewrite !writeNode_element by auto.
  rewrite (element_commutes _ _ _ _ Hc Hwf Hne), hasContent_renamed_node by assumption.
  reflexivity.
Qed.

Lemma nodeStep_reserved key depth acc node :
  isElementKey key = false ->
  nodeStep f key depth acc node = nodeStep (fun name => name) key depth acc node.
Proof.
  intros Hk. unfold nodeStep. destruct acc as [e|a]; [reflexivity|].
  cbn [rbind]. now rewrite (writeNode_reserved f _ _ _ _ (fun name => name)).
Qed.

Lemma valueStep_commutes key depth acc value :
  CommutesUnder value -> wellFormedUnder key value = true ->
  valueStep f key depth acc value
  = valueStep (fun name => name) (renamedKey key) depth acc (renamedUnder key value).
Proof.
  unfold wellFormedUnder, renamedKey, renamedUnder.
  destruct (isElementKey key) eqn:Hk.
  - intros Hc Hwf. apply andb_true_iff in Hwf. destruct Hwf as [Hwf Hv].
    apply andb_true_iff in Hwf. destruct Hwf as [Hne _].
    apply negb_true_iff, String.eqb_neq in Hne.
    destruct value as [p|nodes|o].
    + apply nodeStep_commutes; auto.
    + unfold valueStep. revert acc. cbn [CommutesUnder] in Hc.
      induction nodes as [|n nodes IH]; intros acc; [reflexivity|].
      cbn [forallb] in Hv. apply andb_true_iff in Hv. destruct Hv as [Hn Hv].
      inversion Hc as [|? ? Hcn Hcs]; subst.
      cbn [map fold_left]. rewrite (nodeStep_commutes _ _ _ _ Hk Hne Hcn Hn).
      now apply IH.
    + rewrite renameElements_Obj. rewrite <- renameElements_Obj.
      unfold valueStep. rewrite renameElements_Obj. rewrite <- renameElements_Obj.
      apply nodeStep_commutes; auto.
  - intros _ _. unfold valueStep. destruct value as [p|nodes|o];
      try now apply nodeStep_reserved.
    revert acc. induction nodes as [|n nodes IH]; intros acc; [reflexivity|].
    cbn [fold_left]. rewrite nodeStep_reserved by assumption. apply IH.
Qed.

Lemma no_hasOwnProperty o :
  wellFormed (Obj o) = true ->
  obj_has o "hasOwnProperty" = false
  /\ obj_has (map (fun kv => (renamedKey (fst kv), renamedUnder (fst kv) (snd kv))) o)
             "hasOwnProperty" = false.
Proof.
  rewrite wellFormed_Obj. unfold obj_has.
  induction o as [|[key value] o IH]; intros Hwf; [split; reflexivity|].
  cbn [forallb fst snd] in Hwf. apply andb_true_iff in Hwf. destruct Hwf as [Hkv Hwf].
  destruct (IH Hwf) as [IH1 IH2]. cbn [map obj_get fst snd].
  unfold wellFormedUnder in Hkv. unfold renamedKey at 1.
  destruct (isElementKey key) eqn:Hk.
  - apply andb_true_iff in Hkv. destruct Hkv as [Hkv _].
    apply andb_true_iff in Hkv. destruct Hkv as [_ Hhop].
    apply negb_true_iff in Hhop. rewrite Hhop.
    apply String.eqb_neq, f_not_hasOwnProperty, String.eqb_neq in Hhop. rewrite Hhop.
    auto.
  - assert (E : String.eqb key "hasOwnProperty" = false).
    { destruct (String.eqb_spec key "hasOwnProperty") as [->|]; [|reflexivity].
      discriminate Hk. }
    rewrite E. auto.
Qed.

Lemma commutes_everywhere node : CommutesUnder node /\ Commutes node.
Proof.
  induction node as [p|l IH|o IH] using JsVal_nested_ind.
  - split; exact I.
  - split; [|exact I]. cbn [CommutesUnder]. apply Forall_forall.
    intros n Hn. apply (proj1 (Forall_forall _ _) IH) in Hn. tauto.
  - assert (Hobj : Commutes (Obj o)); [|split; exact Hobj].
    cbn [Commutes]. intros Hwf depth firstLine.
    destruct (no_hasOwnProperty o Hwf) as [H1 H2].
    rewrite renameElements_Obj, !writeElementsCompact_Obj.
    unfold calls_hasOwnProperty. rewrite H1, H2. cbn [rbind Ok]. f_equal.
    rewrite wellFormed_Obj in Hwf.
    generalize (Ok ("", firstLine) : result (string * bool)).
    induction o as [|[key value] o IHo]; intros acc; [reflexivity|].
    cbn [forallb fst snd] in Hwf. apply andb_true_iff in Hwf. destruct Hwf as [Hkv Hwf].
    inversion IH as [|? ? Hv Hrest]; subst.
    cbn [map fold_left fst snd].
    rewrite (valueStep_commutes key depth acc value (proj1 Hv) Hkv).
    apply IHo; auto.
    + destruct (no_hasOwnProperty ((key, value) :: o)) as [G1 G2].
      { rewrite wellFormed_Obj. cbn [forallb fst snd]. now rewrite Hkv, Hwf. }
      revert H1. unfold obj_has. cbn [obj_get].
      destruct (String.eqb key "hasOwnProperty"); [discriminate|auto].
    + revert H2. unfold obj_has. cbn [map obj_get fst snd].
      destruct (String.eqb (renamedKey key) "hasOwnProperty"); [discriminate|auto].
Qed.

(** Serializing with the renaming callback is serializing, with no
    callback at all, the tree whose element names are already
    renamed. *)
Lemma js2xml_renames_every_element o :
  wellFormed (Obj o) = true ->
  js2xml f (Obj o) = js2xml (fun name => name) (renameElements f (Obj o)).
Proof.
  intros Hwf. unfold js2xml. exact (proj2 (commutes_everywhere (Obj o)) Hwf 0%nat true).
Qed.

End Renaming.
End SerializerFacts.

Module SerializerNames.
Import JsString Js Js2xml Request RegexFacts SerializerSpec SerializerFacts.

Lemma contains_colon_element_key s :
  Spec.contains_colon s = true -> isElementKey s = true /\ s <> "" /\ s <> "hasOwnProperty".
Proof.
  intros H. unfold isElementKey, kind_of.
  repeat match goal with
         | |- context [String.eqb s ?lit] =>
             destruct (String.eqb_spec s lit) as [->|]; [discriminate H|]
         end.
  repeat split; intros ->; discriminate H.
Qed.

Lemma elementNameFn_cases namespace name :
  elementNameFn namespace name = name
  \/ exists ns, namespace = Some ns /\ elementNameFn namespace name = ns +:+ String colon name.
Proof.
  unfold elementNameFn. destruct namespace as [ns|]; [|now left].
  destruct (negb (String.eqb ns "") && negb (Regex.test Regex.qualified_name name));
    [right; eauto | now left].
Qed.

Lemma elementNameFn_renaming namespace :
  (forall key, key <> "" -> elementNameFn namespace key <> "")
  /\ (forall key, isElementKey key = true -> isElementKey (elementNameFn namespace key) = true)
  /\ (forall key, key <> "hasOwnProperty" -> elementNameFn namespace key <> "hasOwnProperty").
Proof.
  repeat split; intros key Hkey;
    destruct (elementNameFn_cases namespace key) as [->|(ns & _ & ->)]; auto;
    now apply (contains_colon_element_key _ (contains_colon_app ns key)).
Qed.

(** C5 (as the code has it).  With a non-empty default namespace, a name
    is emitted unchanged when it has a colon that stands after at least
    one character, with no line terminator before it, and before a
    character that is no line terminator; every other name is emitted as
    namespace, colon, name.  Without a namespace, or with the empty one,
    every name is emitted unchanged.  This holds of every element name at
    every depth of a Property Request Tree (no element name is empty or
    [hasOwnProperty], and a sequence holds elements): the document
    written is the one written, with no renaming at all, for the tree
    whose element names have all been so rewritten.  The tree
    [{ propfind: { prop: { displayname: {} } } }] under the namespace [d]
    becomes [d:propfind], [d:prop], [d:displayname], nested as given. *)
Theorem elementNameFn_qualifies_every_element (namespace : option string) :
  (forall ns name,
      namespace = Some ns -> ns <> "" ->
      let qualified :=
        exists prefix c rest,
          name = prefix +:+ String colon (String c rest)
          /\ prefix <> "" /\ Regex.one_line prefix = true /\ is_line_terminator c = false in
      (qualified -> elementNameFn namespace name = name)
      /\ (~ qualified -> elementNameFn namespace name = ns +:+ String colon name))
  /\ (forall name, namespace = None \/ namespace = Some "" -> elementNameFn namespace name = name)
  /\ (forall o,
        wellFormed (Obj o) = true ->
        js2xml (elementNameFn namespace) (Obj o)
        = js2xml (fun name => name) (renameElements (elementNameFn namespace) (Obj o)))
  /\ (renameElements (elementNameFn (Some "d")) (body Samples.propfindInit)
      = Obj [("d:propfind", Obj [("d:prop", Obj [("d:displayname", Obj [])])])]
      /\ serialize Samples.propfindInit = Ok Samples.propfindDocument).
Proof.
  split; [|split; [|split]].
  - intros ns name -> Hns qualified. unfold elementNameFn.
    apply String.eqb_neq in Hns. rewrite Hns. cbn [negb andb].
    split; intros Hq.
    + apply qualified_name_iff in Hq. now rewrite Hq.
    + destruct (Regex.test Regex.qualified_name name) eqn:E; [|reflexivity].
      exfalso. apply Hq. now apply qualified_name_iff.
  - intros name [->| ->]; reflexivity.
  - intros o Hwf.
    destruct (elementNameFn_renaming namespace) as (H1 & H2 & H3).
    now apply js2xml_renames_every_element.
  - split; reflexivity.
Qed.

(** C5, the claim as stated, at names that contain a colon as their last
    or first character: they are not emitted unchanged. *)
Lemma elementNameFn_prefixes_edge_colons :
  Spec.contains_colon "a:" = true /\ elementNameFn (Some "d") "a:" = "d:a:"
  /\ Spec.contains_colon ":a" = true /\ elementNameFn (Some "d") ":a" = "d::a".
Proof. repeat split; reflexivity. Qed.

End SerializerNames.

(** ** The orchestration of [davRequest] and of the object requests *)

Module Orchestrator.
Import JsString Js Async Request.

Section Collaborators.
Context {Account : Type}.
Variable credentials : Account -> option DAVCredentials.
Variable camelCase : string -> string.
Variable nativeType : string -> prim.
Variable cleanupFalsy : JsVal -> JsVal.
Variable sax : string -> result Xml2js.xml.
Variable transport : FetchRequest -> result Response.

(** Once the transport has answered, [davRequest] falls back to the raw
    answer or parses the body (lines 68-116). *)
Lemma davRequest_after_exchange
  (params : DavRequestParams Account) (client : DAVCredentials) (payload : JsVal)
  (davResponse : Response) (log : list event) :
  digestClient credentials (account params) = Ok client ->
  xmlBody (init params) (default true (convertIncoming params)) = Ok payload ->
  transport (exchange params client payload) = Ok davResponse ->
  davRequest credentials camelCase nativeType sax transport params log
  = if rawFallback davResponse (default true (parseOutgoing params))
    then (Ok [rawResult davResponse], (log ++ [Fetched (exchange params client payload)])%list)
    else (rbind (rbind (sax (res_text davResponse))
                       (Xml2js.xml2js_document camelCase nativeType))
                (multistatusResults davResponse),
          ((log ++ [Fetched (exchange params client payload)])
             ++ [ParsedXml (res_text davResponse)])%list).
Proof.
  intros Hclient Hbody Hfetch.
  unfold davRequest, bind, lift, fetch, emit, xml2js, bind, lift, emit, ret.
  rewrite Hbody, Hclient. unfold Ok. cbv beta iota zeta.
  fold (exchange params client payload). rewrite Hfetch. unfold Ok. cbv beta iota zeta.
  destruct (rawFallback davResponse (default true (parseOutgoing params))); [reflexivity|].
  destruct (sax (res_text davResponse)) as [e|doc]; [reflexivity|]. simpl.
  destruct (Xml2js.xml2js_document camelCase nativeType doc); reflexivity.
Qed.

Lemma digestClient_throws account :
  withoutCredentials credentials account -> exists msg, digestClient credentials account = Err (TypeError msg).
Proof.
  intros [->|(a & -> & H)]; simpl; [eauto|]. rewrite H. eauto.
Qed.

Lemma davRequest_without_client (params : DavRequestParams Account) e log :
  digestClient credentials (Request.account params) = Err e ->
  davRequest credentials camelCase nativeType sax transport params log
  = (Err (match xmlBody (init params) (default true (convertIncoming params)) with
          | inl serializerError => serializerError
          | inr _ => e
          end), log).
Proof.
  intros He. unfold davRequest, bind, lift.
  destruct (xmlBody _ _); [reflexivity|]. now rewrite He.
Qed.

(** C9.  Without an account, or without credentials on it, [davRequest]
    rejects and the log is as it was: no exchange has taken place,
    whatever [convertIncoming] and [parseOutgoing] are.  The rejection is
    the TypeError of the dereference, or the error of the serializer
    when that came first.  The same holds of [createObject],
    [updateObject] and [deleteObject]. *)
Theorem credentials_are_a_precondition (account : option Account) :
  withoutCredentials credentials account ->
  exists msg,
    (forall (params : DavRequestParams Account) log,
        Request.account params = account ->
        davRequest credentials camelCase nativeType sax transport params log
        = (Err (match xmlBody (init params) (default true (convertIncoming params)) with
                | inl serializerError => serializerError
                | inr _ => TypeError msg
                end), log))
    /\ (forall (params : ObjectParams) log,
          o_account params = account ->
          createObject credentials transport params log = (Err (TypeError msg), log)
          /\ updateObject credentials cleanupFalsy transport params log = (Err (TypeError msg), log)
          /\ deleteObject credentials cleanupFalsy transport params log = (Err (TypeError msg), log)).
Proof.
  intros H. destruct (digestClient_throws account H) as [msg Hmsg].
  exists msg. split.
  - intros params log <-. now apply davRequest_without_client.
  - intros params log <-. unfold createObject, updateObject, deleteObject, bind, lift.
    now rewrite Hmsg.
Qed.

End Collaborators.
End Orchestrator.

Module OrchestratorExamples.
Import JsString Js Async Request.

Lemma credentials_are_a_precondition_witness :
  exists msg,
    (forall (params : DavRequestParams AddressBook.DAVAccount) log,
        Request.account params = None ->
        davRequest AddressBook.credentials Util.camelCase Util.nativeType Samples.tokenizer
          Samples.plainTextServer params log
        = (Err (match xmlBody (init params) (default true (convertIncoming params)) with
                | inl serializerError => serializerError
                | inr _ => TypeError msg
                end), log))
    /\ (forall (params : ObjectParams) log,
          o_account params = None ->
          createObject AddressBook.credentials Samples.plainTextServer params log
          = (Err (TypeError msg), log)
          /\ updateObject AddressBook.credentials Samples.keepHeaders Samples.plainTextServer
               params log = (Err (TypeError msg), log)
          /\ deleteObject AddressBook.credentials Samples.keepHeaders Samples.plainTextServer
               params log = (Err (TypeError msg), log)).
Proof.
  apply (Orchestrator.credentials_are_a_precondition AddressBook.credentials Util.camelCase
           Util.nativeType Samples.keepHeaders Samples.tokenizer Samples.plainTextServer None).
  left. reflexivity.
Defined.

End OrchestratorExamples.

(** ** [syncCardDAVAccount] *)

Module AddressBookFacts.
Import JsString Js Async Request AddressBook.

(** Lines 134-137 over any way of fetching the address books: the
    object returned once they are fetched holds [accountType: 'carddav']
    and nothing else, and a rejection is passed on. *)
Lemma syncCardDAVAccount_over_fetch
  (urlEquals : string -> string -> bool)
  (fetchBooks : DAVAccount -> option Options -> M (list DAVAddressBook))
  (account : DAVAccount) (options : option Options) (log : list event) :
  syncCardDAVAccount_over urlEquals fetchBooks account options log
  = match fetchBooks account options log with
    | (inr fetched, log') =>
        (Ok {| accountType := "carddav"; credentials := None; rootUrl := None;
               homeUrl := None; addressBooks := None |}, log')
    | (inl e, log') => (Err e, log')
    end.
Proof.
  unfold syncCardDAVAccount_over, bind, ret.
  destruct (fetchBooks account options log) as [[e|fetched] log']; reflexivity.
Qed.

Section Collaborators.
Variable camelCase : string -> string.
Variable nativeType : string -> prim.
Variable cleanupFalsy : JsVal -> JsVal.
Variable sax : string -> result Xml2js.xml.
Variable transport : FetchRequest -> result Response.
Variable DAVNamespace : DAVNamespaceKey -> string.
Variable DAVNamespaceShort_DAV : string.
Variable getDAVAttribute : list string -> JsVal.
Variable URL_resolve : option string -> option JsVal -> result string.
Variable supportedReportSet : DAVAddressBook -> option Options -> M JsVal.
Variable urlEquals : string -> string -> bool.

(** [propfind] is handed [account.homeUrl] where it expects its
    parameter object: it finds no account in it, and [davRequest]
    rejects before any exchange. *)
Lemma fetchAddressBooks_rejects (account : DAVAccount) (options : option Options)
  (log : list event) :
  exists e,
    fetchAddressBooks camelCase nativeType cleanupFalsy sax transport DAVNamespace
      DAVNamespaceShort_DAV getDAVAttribute URL_resolve supportedReportSet
      account options log
    = (Err e, log).
Proof.
  unfold fetchAddressBooks, AddressBook.propfind, Request.propfind, bind, lift.
  destruct options as [o|]; [|eauto].
  destruct (homeUrl account) as [u|]; [|simpl; eauto].
  cbn [destructurePropfind]. unfold Ok. cbv beta iota.
  erewrite Orchestrator.davRequest_without_client by reflexivity. eauto.
Qed.

(** With the [fetchAddressBooks] of the source, [syncCardDAVAccount]
    never gets as far as line 135: it rejects for every account and every
    [options], and no exchange has taken place. *)
Lemma syncCardDAVAccount_rejects (account : DAVAccount) (options : option Options)
  (log : list event) :
  exists e,
    syncCardDAVAccount camelCase nativeType cleanupFalsy sax transport DAVNamespace
      DAVNamespaceShort_DAV getDAVAttribute URL_resolve supportedReportSet urlEquals
      account options log
    = (Err e, log).
Proof.
  unfold syncCardDAVAccount, syncCardDAVAccount_over, bind.
  destruct (fetchAddressBooks_rejects account options log) as [e ->]. eauto.
Qed.

End Collaborators.

(** C10, at an account whose credentials are set and a server that
    answers with a multistatus: with [options] the call rejects where
    [davRequest] reads the credentials of the account that [propfind]
    did not find in the URL it was handed, and without [options] where
    line 48 reads [options.headers]; it returns no object and the
    transport is not reached. *)
Theorem syncCardDAVAccount_returns_no_object :
  syncCardDAVAccount Util.camelCase Util.nativeType Samples.keepHeaders Samples.tokenizer
    Samples.multistatusServer Samples.namespaces "d" Samples.davAttribute
    Samples.joinUrl Samples.noReports String.eqb
    Samples.account (Some Samples.someOptions) []
  = (Err (TypeError "Cannot read properties of undefined (reading 'credentials')"), [])
  /\ syncCardDAVAccount Util.camelCase Util.nativeType Samples.keepHeaders Samples.tokenizer
       Samples.multistatusServer Samples.namespaces "d" Samples.davAttribute
       Samples.joinUrl Samples.noReports String.eqb
       Samples.account None []
     = (Err (TypeError "Cannot read properties of undefined (reading 'headers')"), []).
Proof. split; reflexivity. Qed.

End AddressBookFacts.

(** ** What reaches the transport *)

Module RequestFacts.
Import JsString Js Async Request JsFacts.
Local Open Scope list_scope.

Section Collaborators.
Context {Account : Type}.
Variable credentials : Account -> option DAVCredentials.
Variable camelCase : string -> string.
Variable nativeType : string -> prim.
Variable cleanupFalsy : JsVal -> JsVal.
Variable sax : string -> result Xml2js.xml.
Variable transport : FetchRequest -> result Response.
Variable DAVNamespace : DAVNamespaceKey -> string.
Variable DAVNamespaceShort_DAV : string.
Variable getDAVAttribute : list string -> JsVal.

(** What [davRequest] adds to the log: nothing, the exchange, or the
    exchange and the parse of its answer. *)
Lemma davRequest_log (params : DavRequestParams Account) (log : list event) :
  forall outcome log',
    davRequest credentials camelCase nativeType sax transport params log = (outcome, log') ->
    log' = log
    \/ exists client payload,
         digestClient credentials (account params) = Ok client
         /\ xmlBody (init params) (default true (convertIncoming params)) = Ok payload
         /\ (log' = log ++ [Fetched (exchange params client payload)]
             \/ exists davResponse,
                  transport (exchange params client payload) = Ok davResponse
                  /\ log' = (log ++ [Fetched (exchange params client payload)])
                            ++ [ParsedXml (res_text davResponse)]).
Proof.
  intros outcome log'. unfold davRequest, bind, lift, fetch, emit, xml2js, bind, lift, emit, ret.
  destruct (xmlBody _ _) as [e|payload] eqn:Hbody; [intros [= _ <-]; now left|].
  destruct (digestClient _ _) as [e|client] eqn:Hclient; [intros [= _ <-]; now left|].
  unfold Ok. cbv beta iota zeta. fold (exchange params client payload).
  intros H. right. exists client, payload. split; [reflexivity|]. split; [reflexivity|].
  destruct (transport (exchange params client payload)) as [e|davResponse];
    [injection H as _ <-; now left|].
  cbv beta iota zeta in H.
  destruct (rawFallback davResponse (default true (parseOutgoing params)));
    [injection H as _ <-; now left|].
  right. exists davResponse. split; [reflexivity|].
  destruct (sax (res_text davResponse)) as [e|doc]; [injection H as _ <-; reflexivity|].
  cbv beta iota zeta in H.
  destruct (Xml2js.xml2js_document camelCase nativeType doc); injection H as _ <-; reflexivity.
Qed.

(** X1.  [davRequest] binds [init.headers] and never uses it: with any
    other headers in [init] the call does the same and gives the same,
    and every request it hands to the transport carries the one header
    [Content-Type: application/xml; charset=utf-8]. *)
Theorem davRequest_never_sends_init_headers
  (params : DavRequestParams Account) (log : list event) :
  (forall headers',
      davRequest credentials camelCase nativeType sax transport
        {| url := url params;
           init := {| headers := headers'; body := body (init params);
                      namespace := namespace (init params);
                      method := method (init params);
                      attributes := attributes (init params) |};
           account := account params;
           convertIncoming := convertIncoming params;
           parseOutgoing := parseOutgoing params |} log
      = davRequest credentials camelCase nativeType sax transport params log)
  /\ (forall request,
        In (Fetched request)
           (snd (davRequest credentials camelCase nativeType sax transport params log)) ->
        In (Fetched request) log
        \/ fetch_headers request
           = Obj [("Content-Type", Prim (PStr "application/xml; charset=utf-8"))]).
Proof.
  split; [reflexivity|]. intros request Hin.
  destruct (davRequest credentials camelCase nativeType sax transport params log)
    as [outcome log'] eqn:Hrun.
  cbn [snd] in Hin.
  destruct (davRequest_log params log outcome log' Hrun)
    as [->|(client & payload & _ & _ & [->|(davResponse & _ & ->)])]; [now left| |].
  - apply in_app_or in Hin. destruct Hin as [Hin|[[= <-]|[]]]; [now left|now right].
  - apply in_app_or in Hin. destruct Hin as [Hin|[[=]|[]]].
    apply in_app_or in Hin. destruct Hin as [Hin|[[= <-]|[]]]; [now left|now right].
Qed.

(** X2.  The [depth] and the [headers] of [propfind] never reach the
    transport: [propfind] puts them into [init.headers], which
    [davRequest] does not send, so the call does the same and gives the
    same whatever they are. *)
Theorem propfind_never_sends_depth (p : PropfindParams) (log : list event) :
  forall depth' headers',
    propfind credentials camelCase nativeType cleanupFalsy sax transport DAVNamespace
      DAVNamespaceShort_DAV getDAVAttribute
      (Passed {| p_url := p_url p; p_props := p_props p; p_depth := depth';
                 p_headers := headers'; p_account := p_account p |}) log
    = propfind credentials camelCase nativeType cleanupFalsy sax transport DAVNamespace
        DAVNamespaceShort_DAV getDAVAttribute (Passed p) log.
Proof. reflexivity. Qed.

(** [{ 'If-Match': etag, ...headers }], key by key. *)
Lemma ifMatch_headers (etag headers : JsVal) :
  List.NoDup (keys (own_entries headers)) ->
  forall k,
    obj_get (spread [("If-Match", etag)] headers) k
    = match obj_get (own_entries headers) k with
      | Some v => Some v
      | None => if String.eqb "If-Match" k then Some etag else None
      end.
Proof.
  intros Hnd k. rewrite spread_set_all, obj_get_set_all, (last_value_NoDup _ _ Hnd).
  reflexivity.
Qed.

(** X3.  With an account that has credentials, [createObject],
    [updateObject] and [deleteObject] each make exactly one exchange, with
    the user name and password of the account, and fulfil or reject as
    the transport does.  [createObject] sends PUT with the data and the
    caller's headers as they are; [updateObject] sends PUT with the data
    and [deleteObject] sends DELETE without a body, both with
    [cleanupFalsy] of the headers [{ 'If-Match': etag, ...headers }].  In
    these an [If-Match] of the caller's own wins over the etag, every
    other header of the caller is kept, and [If-Match] is the etag when
    the caller gives none. *)
Theorem object_requests_with_credentials
  (params : ObjectParams) (client : DAVCredentials) (log : list event) :
  digestClient credentials (o_account params) = Ok client ->
  let request method headers body :=
    {| fetch_username := username client; fetch_password := password client;
       fetch_url := o_url params; fetch_method := Some method;
       fetch_headers := headers; fetch_body := body |} in
  let conditional := spread [("If-Match", o_etag params)] (o_headers params) in
  createObject credentials transport params log
  = (transport (request "PUT" (o_headers params) (o_data params)),
     log ++ [Fetched (request "PUT" (o_headers params) (o_data params))])
  /\ updateObject credentials cleanupFalsy transport params log
     = (transport (request "PUT" (cleanupFalsy (Obj conditional)) (o_data params)),
        log ++ [Fetched (request "PUT" (cleanupFalsy (Obj conditional)) (o_data params))])
  /\ deleteObject credentials cleanupFalsy transport params log
     = (transport (request "DELETE" (cleanupFalsy (Obj conditional)) undefined),
        log ++ [Fetched (request "DELETE" (cleanupFalsy (Obj conditional)) undefined)])
  /\ (List.NoDup (keys (own_entries (o_headers params))) ->
      forall k,
        obj_get conditional k
        = match obj_get (own_entries (o_headers params)) k with
          | Some v => Some v
          | None => if String.eqb "If-Match" k then Some (o_etag params) else None
          end).
Proof.
  intros Hclient request conditional.
  unfold createObject, updateObject, deleteObject, bind, lift, fetch, emit.
  rewrite Hclient. unfold Ok. cbv beta iota zeta.
  repeat split; try (destruct (transport _); reflexivity).
  intros Hnd k. now apply ifMatch_headers.
Qed.

End Collaborators.
End RequestFacts.

(** ** From the answer to the records *)

Module ParsedAnswers.
Import JsString Js Store Xml2js JsFacts ObjectFacts Documents ParseState StoreFacts.
Import TextSteps ElementSteps StartCases StartSteps NodeRuns LeafRuns ResponseRuns ReifyFacts.
Import MultistatusRuns MultistatusDocuments.
Import Async Request.
Local Open Scope nat_scope.
Local Open Scope list_scope.

Section Callbacks.
Variable camelCase : string -> string.
Variable nativeType : string -> prim.

Local Abbreviation normalize := (Xml2js.elementNameFn camelCase).

(** The start tag of a root of an ordinary name, from the initial
    state. *)
Lemma open_any_root name attrs :
  ordinary (normalize name) = true ->
  exists st1 fm,
    onStartElement camelCase name attrs initial = Ok st1
    /\ Inv [fm] st1
    /\ store st1 !! 0 = Some (CObj [(normalize name, VRef (at_ fm))])
    /\ at_ fm <> 0
    /\ obj_get (prot fm) "_parent" = Some (VRef 0)
    /\ (forall k, ok_key k = true -> obj_has (prot fm) k = false).
Proof.
  intros Hord. destruct (ordinary_facts _ Hord) as (_ & _ & _ & _ & Hinh & Hidx).
  assert (Hfresh : forall k (v w : val), ok_key k = true ->
            obj_has [("_parent", v)] k = false
            /\ obj_has [("_attributes", w); ("_parent", v)] k = false).
  { intros k v w Hk. destruct (ok_key_facts _ Hk) as (H1 & H2 & _).
    assert (Hp : String.eqb "_parent" k = false) by (apply String.eqb_neq; congruence).
    assert (Ha : String.eqb "_attributes" k = false) by (apply String.eqb_neq; congruence).
    now rewrite !obj_has_cons, obj_has_nil, Hp, Ha. }
  assert (Hset : obj_set (V := val) [] (normalize name) = fun v => [(normalize name, v)]).
  { unfold obj_set. cbn [obj_has obj_get]. now rewrite Hidx. }
  unfold onStartElement, initial. cbn [currentElement store]. cbv zeta.
  destruct (manipulateAttributes attrs) as [|a0 as0].
  - exists {| store := [CObj [(normalize name, VRef 1)]; CObj [("_parent", VRef 0)]];
              currentElement := VRef 1 |},
           {| at_ := 1; prot := [("_parent", VRef 0)]; birth := 2 |}.
    split.
    { unfold alloc, attachElement, obj_prop, obj_assign. cbn [app length lookup list_lookup].
      cbn [obj_get]. rewrite Hinh. cbn [rbind Ok val_truthy vundefined prim_truthy andb].
      cbn [lookup list_lookup obj_get]. cbn [rbind Ok]. rewrite Hset.
      reflexivity. }
    split; [|repeat split; try discriminate; intros k Hk;
             exact (proj1 (Hfresh k (VRef 0) vundefined Hk))].
    split; [reflexivity|]. split.
    + cbn [frames_ok at_ prot birth store]. repeat split; try lia; try reflexivity.
      * repeat constructor. intros [].
      * exists 0. split; [reflexivity|exact I].
      * exists []. repeat split; [constructor|discriminate].
    + exists (fun x => if x =? 0 then 0%Q else 1%Q). intros l c Hl k l' Hin.
      cbn [store] in Hl. destruct l as [|[|l]]; simpl in Hl; [| |discriminate];
        injection Hl as <-; simpl in Hin.
      * destruct Hin as [[= <- <-]|[]]. split; [simpl; lia|]. left. simpl. lra.
      * destruct Hin as [[= <- <-]|[]]. split; [simpl; lia|]. right. split; [reflexivity|now left].
  - set (ac := CObj (map (fun kv : string * string => (fst kv, VPrim (PStr (snd kv)))) (a0 :: as0))).
    exists {| store := [CObj [(normalize name, VRef 2)]; ac;
                        CObj [("_attributes", VRef 1); ("_parent", VRef 0)]];
              currentElement := VRef 2 |},
           {| at_ := 2; prot := [("_attributes", VRef 1); ("_parent", VRef 0)]; birth := 3 |}.
    split.
    { unfold alloc, attachElement, obj_prop, obj_assign. fold ac.
      cbn [app length lookup list_lookup].
      cbn [obj_get]. rewrite Hinh. cbn [rbind Ok val_truthy vundefined prim_truthy andb].
      cbn [lookup list_lookup obj_get]. cbn [rbind Ok]. rewrite Hset.
      reflexivity. }
    split; [|repeat split; try discriminate; intros k Hk;
             exact (proj2 (Hfresh k (VRef 0) (VRef 1) Hk))].
    split; [reflexivity|]. split.
    + cbn [frames_ok at_ prot birth store]. repeat split; try lia; try reflexivity.
      * repeat constructor; simpl; intuition discriminate.
      * exists 0. split; [reflexivity|exact I].
      * exists []. repeat split; [constructor|discriminate].
    + exists (fun x => if x =? 0 then 0%Q else if x =? 2 then 1%Q else 2%Q). intros l c Hl k l' Hin.
      cbn [store] in Hl. destruct l as [|[|[|l]]]; simpl in Hl; [| | |discriminate];
        injection Hl as <-.
      * destruct Hin as [[= <- <-]|[]]. split; [simpl; lia|]. left. simpl. lra.
      * exfalso. unfold ac, vals in Hin. apply in_map_iff in Hin.
        destruct Hin as ([k0 v0] & Hv & _). discriminate.
      * destruct Hin as [[= <- <-]|[[= <- <-]|[]]].
        -- split; [simpl; lia|]. left. simpl. lra.
        -- split; [simpl; lia|]. right. split; [reflexivity|now left].
Qed.

(** The parse of a document with element content at its root returns
    an object with one key, the normalized name of the root. *)
Lemma parse_elementDocument (doc : xml) :
  elementDocument normalize doc = true ->
  exists tree,
    xml2js_document camelCase nativeType doc = Ok (Obj [(rootName normalize doc, tree)]).
Proof.
  intros Hdoc. unfold elementDocument in Hdoc.
  apply andb_true_iff in Hdoc. destruct Hdoc as [Hwn Hq].
  destruct doc as [name attrs children|]; [|discriminate].
  rewrite wellNamed_Element in Hwn. apply andb_true_iff in Hwn. destruct Hwn as [Hord Hwk].
  destruct (open_any_root name attrs Hord)
    as (st1 & fm & Hrun1 & HI1 & Hroot & Hm0 & Hpar & Hfresh).
  assert (Hnames : forallb (fun c => match c with
                                     | Element n _ _ => negb (obj_has (prot fm) (normalize n))
                                     | Text _ => true
                                     end) children = true).
  { clear -Hwk Hfresh. induction children as [|c cs IH]; [reflexivity|].
    cbn [forallb] in Hwk |- *. apply andb_true_iff in Hwk. destruct Hwk as [Hwc Hwcs].
    rewrite (IH Hwcs), andb_true_r. destruct c as [n a kids|]; [|reflexivity].
    rewrite wellNamed_Element in Hwc. apply andb_true_iff in Hwc. destruct Hwc as [Ho _].
    rewrite Hfresh by (unfold ok_key; now rewrite Ho). reflexivity. }
  destruct (run_siblings camelCase nativeType children fm [] st1 Hwk Hq Hnames HI1)
    as (st2 & Hrun2 & HI2 & Hlen2 & Hpres2 & _).
  destruct (onEndElement_step fm [] st2 HI2)
    as (extra & p & Hc & Hp & Hrun3 & _ & (dep & Hh3) & _).
  rewrite Hpar in Hp. injection Hp as <-.
  set (h3 := <[at_ fm := CObj (obj_delete (prot fm) "_parent" ++ extra)]> (store st2)) in *.
  assert (Hb : 0 < birth fm).
  { destruct HI1 as (_ & Hfr & _). simpl in Hfr. lia. }
  assert (Hroot3 : h3 !! 0 = Some (CObj [(normalize name, VRef (at_ fm))])).
  { unfold h3. rewrite list_lookup_insert_ne by congruence.
    rewrite Hpres2; [exact Hroot|exact Hb|congruence]. }
  assert (Hl0 : 0 < length h3) by (eapply lookup_lt_Some; eauto).
  destruct (reify_total dep h3 0 Hh3 Hl0) as [tree Htree].
  destruct (reify_Obj _ _ _ _ _ Hroot3 Htree) as (f1 & o0 & Hf1 & -> & Hm0').
  cbn [list.mapM fst snd] in Hm0'.
  destruct (reify f1 h3 (VRef (at_ fm))) as [tM|]; [|discriminate].
  cbn in Hm0'. injection Hm0' as <-.
  exists tM. unfold xml2js_document. simpl events. simpl run. rewrite Hrun1, rbind_Ok.
  rewrite run_app, Hrun2, rbind_Ok. simpl run. rewrite Hrun3, !rbind_Ok.
  cbn [store]. fold h3. now rewrite Htree.
Qed.

End Callbacks.

Section Collaborators.
Context {Account : Type}.
Variable credentials : Account -> option DAVCredentials.
Variable camelCase : string -> string.
Variable nativeType : string -> prim.
Variable sax : string -> result Xml2js.xml.
Variable transport : FetchRequest -> result Response.

Local Abbreviation normalize := (Xml2js.elementNameFn camelCase).

(** Once the transport has answered with a success and a content type
    that indicates XML, [davRequest] parses the answer. *)
Lemma davRequest_parses (params : DavRequestParams Account) (client : DAVCredentials)
  (payload : JsVal) (davResponse : Response) (log : list event) :
  digestClient credentials (account params) = Ok client ->
  xmlBody (init params) (default true (convertIncoming params)) = Ok payload ->
  transport (exchange params client payload) = Ok davResponse ->
  res_ok davResponse = true ->
  indicatesXml davResponse = true ->
  default true (parseOutgoing params) = true ->
  davRequest credentials camelCase nativeType sax transport params log
  = (rbind (rbind (sax (res_text davResponse)) (xml2js_document camelCase nativeType))
           (multistatusResults davResponse),
     log ++ [Fetched (exchange params client payload); ParsedXml (res_text davResponse)]).
Proof.
  intros Hclient Hbody Hfetch Hok Hxml Hparse.
  unfold davRequest, bind, lift, fetch, emit, xml2js, bind, lift, emit, ret.
  rewrite Hbody, Hclient. unfold Ok. cbv beta iota zeta.
  fold (exchange params client payload). rewrite Hfetch. unfold Ok. cbv beta iota zeta.
  rewrite Hparse.
  assert (E : rawFallback davResponse true = false).
  { unfold rawFallback. fold (indicatesXml davResponse). now rewrite Hok, Hxml. }
  rewrite E, <- app_assoc. cbn [app].
  destruct (sax (res_text davResponse)) as [e|doc]; [reflexivity|]. simpl.
  destruct (xml2js_document camelCase nativeType doc); reflexivity.
Qed.

(** X4.  [davRequest] from the answer to the records.  With credentials
    and a request body, when the transport answers with a success, a
    content type that indicates XML, and a text that the tokenizer reads
    as a multistatus document, [davRequest] makes one exchange and one
    parse and fulfils: with one record per response element, in document
    order, each with the coerced text of the [href] of its element, and
    with the one transport-level record when the document has no
    response element. *)
Theorem davRequest_on_a_multistatus (params : DavRequestParams Account)
  (client : DAVCredentials) (payload : JsVal) (davResponse : Response) (doc : xml)
  (log : list event) :
  digestClient credentials (account params) = Ok client ->
  xmlBody (init params) (default true (convertIncoming params)) = Ok payload ->
  transport (exchange params client payload) = Ok davResponse ->
  res_ok davResponse = true ->
  indicatesXml davResponse = true ->
  default true (parseOutgoing params) = true ->
  sax (res_text davResponse) = Ok doc ->
  multistatusDocument normalize doc = true ->
  exists records,
    davRequest credentials camelCase nativeType sax transport params log
    = (Ok records,
       log ++ [Fetched (exchange params client payload); ParsedXml (res_text davResponse)])
    /\ match responseHrefs normalize doc with
       | [] => records = [transportRecord davResponse]
       | texts => map href records = map (fun t => Some (Prim (nativeType t))) texts
       end.
Proof.
  intros Hclient Hbody Hfetch Hok Hxml Hparse Hsax Hdoc.
  rewrite (davRequest_parses params client payload davResponse log
             Hclient Hbody Hfetch Hok Hxml Hparse), Hsax.
  destruct (parse_multistatus camelCase nativeType davResponse doc Hdoc)
    as (result & response & Hp & Hres & Hshape).
  rewrite rbind_Ok, Hp, rbind_Ok, Hres.
  exists (resultsOf davResponse result response). split; [reflexivity|].
  assert (Hhrefs : forall bodies,
            map href (map (toResult davResponse result) bodies) = map hrefOf bodies).
  { intros bodies. rewrite map_map. apply map_ext. intros b.
    apply MultistatusExtraction.href_toResult. }
  destruct (responseHrefs normalize doc) as [|t1 [|t2 ts]].
  - now rewrite Hshape.
  - destruct Hshape as [Harr Hh]. unfold resultsOf.
    assert (E : responseBodies response = [response]) by (destruct response; simpl in *; congruence).
    rewrite E, Hhrefs. cbn [map]. now rewrite Hh.
  - destruct Hshape as (bodies & -> & Hh). unfold resultsOf. cbn [responseBodies].
    now rewrite Hhrefs.
Qed.

(** X5.  An XML answer whose root is no multistatus.  With credentials
    and a request body, when the transport answers with a success, a
    content type that indicates XML, and a well-named document with
    element content at a root of another name, [davRequest] rejects
    after the exchange and the parse, with the TypeError of reading
    [response] of undefined (line 118). *)
Theorem davRequest_rejects_other_roots (params : DavRequestParams Account)
  (client : DAVCredentials) (payload : JsVal) (davResponse : Response) (doc : xml)
  (log : list event) :
  digestClient credentials (account params) = Ok client ->
  xmlBody (init params) (default true (convertIncoming params)) = Ok payload ->
  transport (exchange params client payload) = Ok davResponse ->
  res_ok davResponse = true ->
  indicatesXml davResponse = true ->
  default true (parseOutgoing params) = true ->
  sax (res_text davResponse) = Ok doc ->
  elementDocument normalize doc = true ->
  rootName normalize doc <> "multistatus" ->
  davRequest credentials camelCase nativeType sax transport params log
  = (Err (TypeError "Cannot read properties of undefined (reading 'response')"),
     log ++ [Fetched (exchange params client payload); ParsedXml (res_text davResponse)]).
Proof.
  intros Hclient Hbody Hfetch Hok Hxml Hparse Hsax Hdoc Hroot.
  rewrite (davRequest_parses params client payload davResponse log
             Hclient Hbody Hfetch Hok Hxml Hparse), Hsax.
  destruct (parse_elementDocument camelCase nativeType doc Hdoc) as [tree Htree].
  rewrite rbind_Ok, Htree, rbind_Ok.
  unfold multistatusResults, get at 1. cbn [obj_get].
  destruct (String.eqb_spec (rootName normalize doc) "multistatus") as [E|_]; [congruence|].
  reflexivity.
Qed.

End Collaborators.
End ParsedAnswers.

(** ** The vCard requests *)

Module VCardFacts.
Import JsString Js Async Request AddressBook.
Local Open Scope list_scope.

Section Collaborators.
Variable cleanupFalsy : JsVal -> JsVal.
Variable transport : FetchRequest -> result Response.
Variable DAVNamespace : DAVNamespaceKey -> string.
Variable getDAVAttribute : list string -> JsVal.
Variable URL_resolve : option string -> option JsVal -> result string.
Variable formatProps : list DAVProp -> JsVal.
Variable collectionQuery : string -> JsVal -> JsVal -> M (list DAVResponse).

(** A call of an object request with a string for [params] finds no
    account in it and rejects before any exchange. *)
Lemma object_calls_on_a_string (url : string) (log : list event) :
  let e := TypeError "Cannot read properties of undefined (reading 'credentials')" in
  createObject_call credentials transport (Primitive (PStr url)) log = (Err e, log)
  /\ updateObject_call credentials cleanupFalsy transport (Primitive (PStr url)) log
     = (Err e, log)
  /\ deleteObject_call credentials cleanupFalsy transport (Primitive (PStr url)) log
     = (Err e, log).
Proof. repeat split. Qed.

(** X6.  [createVCard] hands [createObject] three arguments where it
    takes one parameter object: the resolved URL, a string, arrives as
    [params], no account is found in it, and the call rejects before any
    exchange, whatever the address book, the card, the file name and the
    options are.  The rejection is the error of [URL.resolve] when that
    throws, the TypeError of reading [headers] of undefined when there
    are no options, and else the TypeError of reading [credentials] of
    undefined. *)
Theorem createVCard_always_rejects (addressBook : DAVAddressBook)
  (vCardString filename : string) (options : option Options) (log : list event) :
  createVCard transport URL_resolve addressBook vCardString filename options log
  = (Err (match URL_resolve (Some (ab_url addressBook)) (Some (Prim (PStr filename))) with
          | inl e => e
          | inr _ =>
              match options with
              | None => TypeError "Cannot read properties of undefined (reading 'headers')"
              | Some _ => TypeError "Cannot read properties of undefined (reading 'credentials')"
              end
          end), log).
Proof.
  unfold createVCard, bind, lift.
  destruct (URL_resolve _ _) as [e|url]; [reflexivity|].
  destruct options as [o|]; [|reflexivity].
  cbn [calendarHeaders optionsHeaders rbind Ok].
  apply (object_calls_on_a_string url log).
Qed.

(** X7.  [updateVCard] hands [updateObject] four arguments where it
    takes one parameter object: [vCard.url], a string, arrives as
    [params], and the call rejects before any exchange: with the
    TypeError of reading [headers] of undefined when there are no
    options, and else with the TypeError of reading [credentials] of
    undefined. *)
Theorem updateVCard_always_rejects (vCard : DAVVCard) (options : option Options)
  (log : list event) :
  updateVCard cleanupFalsy transport vCard options log
  = (Err (match options with
          | None => TypeError "Cannot read properties of undefined (reading 'headers')"
          | Some _ => TypeError "Cannot read properties of undefined (reading 'credentials')"
          end), log).
Proof.
  unfold updateVCard, bind, lift. destruct options as [o|]; [|reflexivity].
  cbn [calendarHeaders optionsHeaders rbind Ok].
  apply (object_calls_on_a_string (vc_url vCard) log).
Qed.

(** X8.  [deleteVCard] hands [deleteObject] three arguments where it
    takes one parameter object: [vCard.url], a string, arrives as
    [params], and the call rejects with the TypeError of reading
    [credentials] of undefined before any exchange, with or without
    options. *)
Theorem deleteVCard_always_rejects (vCard : DAVVCard) (options : option Options)
  (log : list event) :
  deleteVCard cleanupFalsy transport vCard options log
  = (Err (TypeError "Cannot read properties of undefined (reading 'credentials')"), log).
Proof. apply (object_calls_on_a_string (vc_url vCard) log). Qed.

End Collaborators.
End VCardFacts.

(** ** The address book queries *)

Module AddressBookQueries.
Import JsString Js Async Request AddressBook JsFacts.
Local Open Scope list_scope.

(** The length of a string or of an array is truthy unless it is zero. *)
Lemma of_nat_truthy (n : nat) : prim_truthy (PNum (of_nat n)) = negb (Nat.eqb n 0).
Proof.
  unfold prim_truthy, of_nat.
  assert (Hinj : forall s, NilEmpty.string_of_uint (Nat.to_uint n) = s ->
                           NilEmpty.uint_of_string s = Some (Nat.to_uint n)).
  { intros s <-. apply NilEmpty.usu. }
  destruct (String.eqb_spec (NilEmpty.string_of_uint (Nat.to_uint n)) "0") as [E|Hne].
  - apply Hinj in E. simpl in E. injection E as E.
    change (Decimal.D0 Decimal.Nil) with (Nat.to_uint 0) in E.
    apply DecimalNat.Unsigned.to_uint_inj in E. now subst.
  - destruct (String.eqb_spec (NilEmpty.string_of_uint (Nat.to_uint n)) "-0") as [E|_];
      [apply Hinj in E; discriminate|].
    destruct (String.eqb_spec (NilEmpty.string_of_uint (Nat.to_uint n)) "NaN") as [E|_];
      [apply Hinj in E; discriminate|].
    destruct n; [|reflexivity]. exfalso. now apply Hne.
Qed.

Lemma mapR_Ok {A B} (f : A -> result B) (l : list A) : forall ys,
  mapR f l = Ok ys -> Forall2 (fun x y => f x = Ok y) l ys.
Proof.
  induction l as [|x l IH]; intros ys; simpl.
  - intros [= <-]. constructor.
  - destruct (f x) as [e|y] eqn:Hx; [discriminate|]. simpl.
    destruct (mapR f l) as [e|ys'] eqn:Hl; [discriminate|]. simpl.
    intros [= <-]. constructor; [exact Hx|]. now apply IH.
Qed.

(** X10.  The filter of [fetchAddressBooks] (line 52,
    [r.props.displayname && r.props.displayname.length]) on a record
    with props: it keeps the record when [displayname] is a string that
    is not empty, a sequence that is not empty, or an object with a
    truthy [length], and drops it otherwise.  A display name that
    [nativeType] has turned into a number or a boolean has no [length]
    and is dropped. *)
Theorem hasDisplayName_keeps (r : DAVResponse) (p : list (string * JsVal)) :
  props r = Some (Obj p) ->
  hasDisplayName r
  = Ok (match obj_get p "displayname" with
        | Some (Prim (PStr s)) => negb (String.eqb s "")
        | Some (Arr l) => negb (Nat.eqb (List.length l) 0)
        | Some (Obj o) => truthy (default undefined (obj_get o "length"))
        | Some (Prim _) | None => false
        end).
Proof.
  intros Hp. unfold hasDisplayName. rewrite Hp. simpl default. unfold get at 1.
  unfold rbind at 1. unfold Ok at 1.
  destruct (obj_get p "displayname") as [[q|l|o]|]; simpl default; cbn [truthy].
  - destruct q as [| |b|n|s]; cbn [prim_truthy];
      [reflexivity|reflexivity|destruct b; reflexivity|destruct (negb _); reflexivity|].
    destruct (String.eqb_spec s "") as [->|Hs]; [reflexivity|]. cbn [negb get].
    change (String.eqb "length" "length") with true. cbv iota. cbn [rbind Ok truthy].
    rewrite of_nat_truthy. destruct s; [congruence|reflexivity].
  - cbn [get]. change (String.eqb "length" "length") with true. cbv iota.
    cbn [rbind Ok truthy]. now rewrite of_nat_truthy.
  - reflexivity.
  - reflexivity.
Qed.

Section Collaborators.
Variable camelCase : string -> string.
Variable nativeType : string -> prim.
Variable cleanupFalsy : JsVal -> JsVal.
Variable sax : string -> result Xml2js.xml.
Variable transport : FetchRequest -> result Response.
Variable DAVNamespace : DAVNamespaceKey -> string.
Variable DAVNamespaceShort_DAV : string.
Variable getDAVAttribute : list string -> JsVal.
Variable URL_resolve : option string -> option JsVal -> result string.
Variable supportedReportSet : DAVAddressBook -> option Options -> M JsVal.
Variable formatProps : list DAVProp -> JsVal.
Variable collectionQuery : string -> JsVal -> JsVal -> M (list DAVResponse).

(** X9.  When [fetchVCards] fulfils, options were given, the one query
    it made through [addressBookQuery] asked [collectionQuery] for
    [getetag] and [address-data] under the filter on [FN], with depth 1
    and the headers of the options, and the cards are the records of the
    answer, one card per record and in the same order: each card belongs
    to the address book, has the [href] of its record resolved against
    the root URL of the account, and the [getetag] and [addressData] of
    the props of its record, which every record has. *)
Theorem fetchVCards_one_card_per_record (addressBook : DAVAddressBook)
  (options : option Options) (log log' : list event) (vCards : list DAVVCard) :
  fetchVCards DAVNamespace getDAVAttribute URL_resolve formatProps collectionQuery
    addressBook options log = (Ok vCards, log') ->
  exists o,
    options = Some o
    /\ collectionQuery (ab_url addressBook)
         (Obj [("addressbook-query",
                Obj [("_attributes", getDAVAttribute [DAVNamespace CARDDAV; DAVNamespace DAV]);
                     ("prop",
                      formatProps
                        [ {| prop_name := "getetag"; prop_namespace := DAVNamespace DAV |};
                          {| prop_name := "address-data";
                             prop_namespace := DAVNamespace CARDDAV |} ]);
                     ("filter",
                      Obj [("prop-filter",
                            Obj [("_attributes", Obj [("name", Prim (PStr "FN"))])])])])])
         (Obj [("depth", Prim (PStr "1")); ("headers", opt_headers o)]) log
       = (Ok (map vc_data vCards), log')
    /\ Forall (fun v =>
                 vc_addressBook v = addressBook
                 /\ URL_resolve (rootUrl (account addressBook)) (href (vc_data v))
                    = Ok (vc_url v)
                 /\ exists p,
                      props (vc_data v) = Some p
                      /\ get p "getetag" = Ok (vc_etag v)
                      /\ get p "addressData" = Ok (vc_addressData v)) vCards.
Proof.
  unfold fetchVCards, addressBookQuery, bind, lift.
  destruct options as [o|]; [|discriminate]. cbn [optionsHeaders Ok]. cbv beta iota zeta.
  cbn [q_depth q_headers].
  match goal with
  | |- context [collectionQuery ?u ?b ?o log] =>
      destruct (collectionQuery u b o log) as [[e|res] log1] eqn:Hq
  end; [discriminate|].
  intros H. destruct (mapR (toVCard URL_resolve addressBook) res) as [e|cards] eqn:Hm;
    [discriminate|].
  injection H as <- <-. exists o. split; [reflexivity|].
  apply mapR_Ok in Hm.
  assert (Hall : map vc_data cards = res
                 /\ Forall (fun v =>
                      vc_addressBook v = addressBook
                      /\ URL_resolve (rootUrl (account addressBook)) (href (vc_data v))
                         = Ok (vc_url v)
                      /\ exists p,
                           props (vc_data v) = Some p
                           /\ get p "getetag" = Ok (vc_etag v)
                           /\ get p "addressData" = Ok (vc_addressData v)) cards).
  { clear Hq. induction Hm as [|r v res cards Hv _ [IH1 IH2]]; [split; constructor|].
    unfold toVCard in Hv.
    destruct (URL_resolve _ _) as [e|u] eqn:Hu; [discriminate|]. cbn [rbind] in Hv.
    destruct (props r) as [p|] eqn:Hp; [|simpl in Hv; discriminate]. simpl default in Hv.
    destruct (get p "getetag") as [e|etag] eqn:He; [discriminate|]. cbn [rbind] in Hv.
    destruct (get p "addressData") as [e|ad] eqn:Ha; [discriminate|]. cbn [rbind] in Hv.
    injection Hv as <-. cbn [map vc_data]. split; [now rewrite IH1|].
    constructor; [|exact IH2]. cbn [vc_addressBook vc_data vc_url vc_etag vc_addressData].
    split; [reflexivity|]. split; [exact Hu|]. exists p. now rewrite Hp. }
  destruct Hall as [-> Hall]. split; [exact Hq|exact Hall].
Qed.

(** X11.  [fetchAddressBooks] hands [propfind] three arguments where it
    takes one parameter object: [account.homeUrl] arrives as [params], no
    account is found in it, and the call rejects before any exchange,
    whatever the account and the options are; without options it
    rejects with the TypeError of reading [headers] of undefined. *)
Theorem fetchAddressBooks_never_reaches_the_transport
  (account : DAVAccount) (options : option Options) (log : list event) :
  exists e,
    fetchAddressBooks camelCase nativeType cleanupFalsy sax transport DAVNamespace
      DAVNamespaceShort_DAV getDAVAttribute URL_resolve supportedReportSet
      account options log
    = (Err e, log)
    /\ (options = None ->
        e = TypeError "Cannot read properties of undefined (reading 'headers')").
Proof.
  unfold fetchAddressBooks, AddressBook.propfind, Request.propfind, bind, lift.
  destruct options as [o|]; [|eexists; split; reflexivity].
  destruct (homeUrl account) as [u|]; [|simpl; eexists; split; [reflexivity|discriminate]].
  cbn [destructurePropfind]. unfold Ok. cbv beta iota.
  erewrite Orchestrator.davRequest_without_client by reflexivity.
  eexists; split; [reflexivity|discriminate].
Qed.

End Collaborators.
End AddressBookQueries.

(** ** Trees under a change of the store *)

Module SubtreeFacts.
Import JsString Js Store Xml2js JsFacts ObjectFacts Documents ParseState StoreFacts.
Import Compact Subtrees.
Local Open Scope nat_scope.
Local Open Scope list_scope.

Lemma repr_Obj F (h : heap) v o :
  repr F h v (Obj o)
  <-> exists l ps,
        v = VRef l /\ F l /\ h !! l = Some (CObj ps)
        /\ Forall2 (fun kv kt => fst kv = fst kt /\ repr F h (snd kv) (snd kt)) ps o.
Proof.
  cbn [repr].
  assert (E : forall o ps,
            (fix all (o : list (string * JsVal)) (ps : list (string * val)) {struct o} : Prop :=
               match o, ps with
               | [], [] => True
               | kt :: o', kv :: ps' =>
                   fst kv = fst kt /\ repr F h (snd kv) (snd kt) /\ all o' ps'
               | _, _ => False
               end) o ps
            <-> Forall2 (fun kv kt => fst kv = fst kt /\ repr F h (snd kv) (snd kt)) ps o).
  { clear. induction o as [|kt o IH]; intros [|kv ps].
    - split; [constructor|trivial].
    - split; [intros []|intros H; inversion H].
    - split; [intros []|intros H; inversion H].
    - rewrite IH. split.
      + intros (H1 & H2 & H3). constructor; auto.
      + intros H. inversion H; subst. tauto. }
  split; intros (l & ps & H1 & H2 & H3 & H4); exists l, ps; repeat split; auto; now apply E.
Qed.

Lemma repr_Arr F (h : heap) v ts :
  repr F h v (Arr ts)
  <-> exists l es,
        v = VRef l /\ F l /\ h !! l = Some (CArr es) /\ Forall2 (repr F h) es ts.
Proof.
  cbn [repr].
  assert (E : forall ts es,
            (fix all (ts : list JsVal) (es : list val) {struct ts} : Prop :=
               match ts, es with
               | [], [] => True
               | t' :: ts', e :: es' => repr F h e t' /\ all ts' es'
               | _, _ => False
               end) ts es
            <-> Forall2 (repr F h) es ts).
  { clear. induction ts as [|t ts IH]; intros [|e es].
    - split; [constructor|trivial].
    - split; [intros []|intros H; inversion H].
    - split; [intros []|intros H; inversion H].
    - rewrite IH. split.
      + intros (H1 & H2). constructor; auto.
      + intros H. inversion H; subst. tauto. }
  split; intros (l & es & H1 & H2 & H3 & H4); exists l, es; repeat split; auto; now apply E.
Qed.

Lemma repr_Prim F (h : heap) v p : repr F h v (Prim p) <-> v = VPrim p.
Proof. reflexivity. Qed.

(** A tree of the store under another set of cells and in another
    store that has the same cells. *)
Lemma repr_transfer F G (h h' : heap) t : forall v,
  (forall l, F l -> l < length h -> G l /\ h' !! l = h !! l) ->
  repr F h v t -> repr G h' v t.
Proof.
  induction t as [p|ts IH|o IH] using SerializerFacts.JsVal_nested_ind; intros v Hmove.
  - trivial.
  - rewrite !repr_Arr. intros (l & es & -> & HF & Hl & Hall).
    assert (Hlt : l < length h) by (eapply lookup_lt_Some; eauto).
    destruct (Hmove l HF Hlt) as [HG Hsame].
    exists l, es. split; [reflexivity|]. split; [exact HG|]. split; [congruence|].
    clear -IH Hall Hmove. revert IH. induction Hall as [|e t es ts He _ IHall]; intros IH.
    + constructor.
    + inversion IH; subst. constructor; auto.
  - rewrite !repr_Obj. intros (l & ps & -> & HF & Hl & Hall).
    assert (Hlt : l < length h) by (eapply lookup_lt_Some; eauto).
    destruct (Hmove l HF Hlt) as [HG Hsame].
    exists l, ps. split; [reflexivity|]. split; [exact HG|]. split; [congruence|].
    clear -IH Hall Hmove. revert IH. induction Hall as [|kv kt ps o [Hk He] _ IHall]; intros IH.
    + constructor.
    + inversion IH; subst. constructor; auto.
Qed.

(** What [reify] reads is the tree. *)
Lemma repr_reify F (h : heap) t : forall v fuel t',
  repr F h v t -> reify fuel h v = Some t' -> t' = t.
Proof.
  induction t as [p|ts IH|o IH] using SerializerFacts.JsVal_nested_ind; intros v fuel t'.
  - intros ->. destruct fuel; simpl; congruence.
  - rewrite repr_Arr. intros (l & es & -> & _ & Hl & Hall) Hr.
    destruct fuel as [|fuel]; [discriminate|]. cbn [reify] in Hr. rewrite Hl in Hr.
    destruct (mapM (reify fuel h) es) as [ts'|] eqn:Hm; [|discriminate].
    injection Hr as <-. f_equal. apply mapM_Some_1 in Hm.
    clear -IH Hall Hm. revert ts' Hm IH.
    induction Hall as [|e t es ts He _ IHall]; intros ts' Hm IH.
    + inversion Hm. reflexivity.
    + inversion Hm as [|? t1 ? ts1 H1 H2]; subst. inversion IH as [|? ? H3 H4]; subst.
      f_equal; [eapply H3; eauto|now apply IHall].
  - rewrite repr_Obj. intros (l & ps & -> & _ & Hl & Hall) Hr.
    destruct fuel as [|fuel]; [discriminate|]. cbn [reify] in Hr. rewrite Hl in Hr.
    destruct (mapM (fun kv => pair (fst kv) <$> reify fuel h (snd kv)) ps) as [o'|] eqn:Hm;
      [|discriminate].
    injection Hr as <-. f_equal. apply mapM_Some_1 in Hm.
    clear -IH Hall Hm. revert o' Hm IH.
    induction Hall as [|kv kt ps o [Hk He] _ IHall]; intros o' Hm IH.
    + inversion Hm. reflexivity.
    + inversion Hm as [|? t1 ? ts1 H1 H2]; subst. inversion IH as [|? ? H3 H4]; subst.
      destruct (reify fuel h (snd kv)) as [t2|] eqn:Hr2; [|discriminate].
      simpl in H1. injection H1 as <-.
      f_equal; [|now apply IHall].
      destruct kt as [k t]. simpl in *. subst. f_equal. eapply H3; eauto.
Qed.

(** *** Slots *)

Lemma obj_get_slots_kv S k :
  obj_get (map slot_kv S) k = slot_val <$> find_slot S k.
Proof.
  induction S as [|s S IH]; [reflexivity|]. cbn [map obj_get slot_kv find_slot fst snd].
  destruct (String.eqb (slot_key s) k); [reflexivity|exact IH].
Qed.

Lemma obj_get_slots_kt S k :
  obj_get (map slot_kt S) k = slot_tree <$> find_slot S k.
Proof.
  induction S as [|s S IH]; [reflexivity|]. cbn [map obj_get slot_kt find_slot fst snd].
  destruct (String.eqb (slot_key s) k); [reflexivity|exact IH].
Qed.

Lemma find_slot_key S k s : find_slot S k = Some s -> slot_key s = k /\ In s S.
Proof.
  induction S as [|s0 S IH]; [discriminate|]. cbn [find_slot].
  destruct (String.eqb_spec (slot_key s0) k) as [E|_].
  - intros [= <-]. split; [exact E|now left].
  - intros H. destruct (IH H). split; [assumption|now right].
Qed.

Lemma replace_slot_kv S s' :
  map slot_kv (replace_slot S s') = obj_replace (map slot_kv S) (slot_key s') (slot_val s').
Proof.
  induction S as [|s S IH]; [reflexivity|].
  cbn [replace_slot map obj_replace slot_kv fst snd].
  destruct (String.eqb_spec (slot_key s) (slot_key s')) as [E|_].
  - cbn [map]. unfold slot_kv. now rewrite E.
  - cbn [map]. now rewrite IH.
Qed.

Lemma replace_slot_kt S s' :
  map slot_kt (replace_slot S s') = obj_replace (map slot_kt S) (slot_key s') (slot_tree s').
Proof.
  induction S as [|s S IH]; [reflexivity|].
  cbn [replace_slot map obj_replace slot_kt fst snd].
  destruct (String.eqb_spec (slot_key s) (slot_key s')) as [E|_].
  - cbn [map]. unfold slot_kt. now rewrite E.
  - cbn [map]. now rewrite IH.
Qed.

Lemma arrays_app S S' : arrays (S ++ S') = arrays S ++ arrays S'.
Proof. unfold arrays. apply flat_map_app. Qed.

End SubtreeFacts.

(** ** What a start tag allocates *)

Module StartShape.
Import JsString Js Store Xml2js JsFacts ObjectFacts Documents ParseState StoreFacts.
Import TextSteps ElementSteps StartCases StartSteps NodeRuns LeafRuns.
Import Compact Subtrees SubtreeFacts.
Local Open Scope nat_scope.
Local Open Scope list_scope.

Lemma rbind_inv {A B} (r : result A) (k : A -> result B) b :
  rbind r k = Ok b -> exists a, r = Ok a /\ k a = Ok b.
Proof. destruct r as [e|a]; [discriminate|]. intros H. now exists a. Qed.

Lemma obj_assign_inv (h h' : heap) l k v :
  obj_assign h l k v = Ok h' ->
  exists ps, h !! l = Some (CObj ps) /\ h' = <[l := CObj (obj_set ps k v)]> h.
Proof.
  unfold obj_assign. destruct (h !! l) as [[ps|es]|]; try discriminate.
  intros [= <-]. now exists ps.
Qed.

(** Attaching a new element writes the current element, a sequence, and
    the new element, which gets its parent pointer. *)
Lemma attachElement_cells nm c e (h : heap) st' eprops :
  attachElement nm c e h = Ok st' ->
  c <> e -> h !! e = Some (CObj eprops) -> obj_has eprops "_parent" = false ->
  currentElement st' = VRef e
  /\ store st' !! e = Some (CObj (eprops ++ [("_parent", VRef c)]))
  /\ (forall l ps, l <> c -> l <> e -> h !! l = Some (CObj ps) ->
        store st' !! l = Some (CObj ps)).
Proof.
  intros Hrun Hce He Hnp. unfold attachElement in Hrun.
  set (Q := fun hx : heap =>
              hx !! e = Some (CObj eprops)
              /\ forall l ps, l <> c -> l <> e -> h !! l = Some (CObj ps) ->
                              hx !! l = Some (CObj ps)).
  assert (Q0 : Q h) by (split; auto).
  assert (Qassign : forall hx hy k v, Q hx -> obj_assign hx c k v = Ok hy -> Q hy).
  { intros hx hy k v [Q1 Q2] Ha. apply obj_assign_inv in Ha. destruct Ha as (ps & _ & ->).
    split; [now rewrite list_lookup_insert_ne|].
    intros l ps' H1 H2 H3. rewrite list_lookup_insert_ne by congruence. auto. }
  assert (Qalloc : forall hx cl, Q hx -> Q (hx ++ [cl])).
  { intros hx cl [Q1 Q2]. split; [now apply lookup_app_l_Some|].
    intros l ps' H1 H2 H3. apply lookup_app_l_Some. auto. }
  assert (Qarr : forall hx l0 es es', Q hx -> hx !! l0 = Some (CArr es) ->
                                      Q (<[l0 := CArr es']> hx)).
  { intros hx l0 es es' [Q1 Q2] Hl0. split.
    - rewrite list_lookup_insert_ne; [exact Q1|]. intros ->. congruence.
    - intros l ps' H1 H2 H3. rewrite list_lookup_insert_ne; [auto|].
      intros ->. rewrite (Q2 _ _ H1 H2 H3) in Hl0. discriminate. }
  apply rbind_inv in Hrun. destruct Hrun as (existing & _ & Hrun).
  apply rbind_inv in Hrun. destruct Hrun as (h2 & H2 & Hrun).
  assert (Q2 : Q h2).
  { destruct (val_truthy existing && negb (val_isArray h existing)).
    - unfold alloc in H2. eapply Qassign; [|exact H2]. now apply Qalloc.
    - injection H2 as <-. exact Q0. }
  apply rbind_inv in Hrun. destruct Hrun as (slot & _ & Hrun).
  apply rbind_inv in Hrun. destruct Hrun as (h3 & H3 & Hrun).
  assert (Q3 : Q h3).
  { destruct slot as [p|l0]; [now apply (Qassign h2 h3 nm (VRef e))|].
    destruct (h2 !! l0) as [[ps|es]|] eqn:El0;
      [now apply (Qassign h2 h3 nm (VRef e))| |now apply (Qassign h2 h3 nm (VRef e))].
    injection H3 as <-. now apply (Qarr h2 l0 es). }
  apply rbind_inv in Hrun. destruct Hrun as (h4 & H4 & Hrun).
  injection Hrun as <-. cbn [store currentElement].
  apply obj_assign_inv in H4. destruct H4 as (ps & Hps & ->).
  destruct Q3 as [Q31 Q32]. rewrite Q31 in Hps. injection Hps as <-.
  split; [reflexivity|]. split.
  - rewrite list_lookup_insert_eq by (eapply lookup_lt_Some; eauto).
    unfold obj_set. rewrite Hnp. reflexivity.
  - intros l ps' H1 H2' H3'. rewrite list_lookup_insert_ne by congruence. auto.
Qed.

Section Callbacks.
Variable camelCase : string -> string.

(** The element a start tag makes: where it is, and what it holds. *)
Lemma onStartElement_element name attrs (h : heap) c st1 :
  onStartElement camelCase name attrs {| store := h; currentElement := VRef c |} = Ok st1 ->
  c < length h ->
  exists e eprops,
    currentElement st1 = VRef e
    /\ store st1 !! e = Some (CObj (eprops ++ [("_parent", VRef c)]))
    /\ length h <= e
    /\ ((manipulateAttributes attrs = [] /\ eprops = [])
        \/ (manipulateAttributes attrs <> []
            /\ eprops = [("_attributes", VRef (length h))]
            /\ length h < e
            /\ store st1 !! length h
               = Some (CObj (map (fun kv => (fst kv, VPrim (PStr (snd kv))))
                                 (manipulateAttributes attrs))))).
Proof.
  unfold onStartElement. cbn [currentElement store]. cbv zeta. intros Hrun Hc.
  destruct (manipulateAttributes attrs) as [|a0 as0] eqn:Ha.
  - unfold alloc in Hrun.
    destruct (attachElement_cells _ c (length h) (h ++ [CObj []]) st1 [] Hrun)
      as (H1 & H2 & _); [lia| |reflexivity|].
    { rewrite lookup_app_r by lia. now rewrite Nat.sub_diag. }
    exists (length h), []. split; [exact H1|]. split; [exact H2|]. split; [lia|]. now left.
  - unfold alloc in Hrun. rewrite length_app in Hrun. cbn [length] in Hrun.
    set (ac := CObj (map (fun kv : string * string => (fst kv, VPrim (PStr (snd kv))))
                        (a0 :: as0))) in *.
    destruct (attachElement_cells _ c (length h + 1) ((h ++ [ac]) ++ [CObj [("_attributes", VRef (length h))]])
                st1 [("_attributes", VRef (length h))] Hrun)
      as (H1 & H2 & H3); [lia| |reflexivity|].
    { rewrite lookup_app_r by (rewrite length_app; simpl; lia).
      rewrite length_app. cbn [length]. now rewrite Nat.sub_diag. }
    exists (length h + 1), [("_attributes", VRef (length h))].
    split; [exact H1|]. split; [exact H2|]. split; [lia|]. right.
    split; [discriminate|]. split; [reflexivity|]. split; [lia|].
    apply H3; [lia|lia|]. rewrite lookup_app_l by (rewrite length_app; simpl; lia).
    rewrite lookup_app_r by lia. now rewrite Nat.sub_diag.
Qed.

End Callbacks.
End StartShape.

(** ** A text leaf, cell by cell *)

Module RegularSteps.
Import JsString Js Store Xml2js JsFacts ObjectFacts Documents ParseState StoreFacts.
Import TextSteps ElementSteps StartCases StartSteps NodeRuns LeafRuns.
Import Compact Subtrees SubtreeFacts StartShape.
Local Open Scope nat_scope.
Local Open Scope list_scope.

Section Callbacks.
Variable camelCase : string -> string.
Variable nativeType : string -> prim.

Local Abbreviation normalize := (elementNameFn camelCase).

(** A text leaf whose name the current element does not have yet, with
    what it leaves as it was: what the store held before, the current
    element apart. *)
Lemma run_leaf_precise hn ha t f rest st extra :
  Inv (f :: rest) st ->
  ordinary (normalize hn) = true ->
  obj_has (prot f) (normalize hn) = false ->
  store st !! at_ f = Some (CObj (prot f ++ extra)) ->
  obj_get extra (normalize hn) = None ->
  String.eqb (trim t) "" = false ->
  exists st',
    run camelCase nativeType (events (Element hn ha [Text t])) st = Ok st'
    /\ Inv (f :: rest) st'
    /\ store st' !! at_ f
       = Some (CObj (prot f ++ extra ++ [(normalize hn, VPrim (nativeType (trim t)))]))
    /\ length (store st) <= length (store st')
    /\ (forall l, l < length (store st) -> l <> at_ f -> store st' !! l = store st !! l).
Proof.
  intros HI Hord Hnp Hc Hnone W.
  destruct (onStartElement_step camelCase hn ha f rest st HI Hord Hnp)
    as (st1 & f' & extra1 & Hrun1 & HI1 & Hc1 & Hfresh & Hat & Hcell & Hlen1 & Hframe1 & Heff & _).
  rewrite Hc in Hc1. injection Hc1 as Hc1. apply app_inv_head in Hc1. subst extra1.
  unfold start_effect in Heff. fold normalize in Heff. rewrite Hnone in Heff.
  destruct (onText_step nativeType t f' f rest st1 HI1 (Hfresh "_text" eq_refl) W)
    as (st2 & Hrun2 & HI2 & Hlen2 & Hpres2 & _ & _ & h' & extra' & Htf & Hc' & Hst2).
  rewrite Hcell in Hc'. injection Hc' as Hc'.
  rewrite <- (app_nil_r (prot f')) in Hc' at 1. apply app_inv_head in Hc'. subst extra'.
  assert (Hpar : obj_get (prot f') "_parent" = Some (VRef (at_ f))
                 /\ obj_has (prot f') "length" = false /\ at_ f < at_ f'
                 /\ birth f <= length (store st)).
  { destruct HI1 as (_ & Hfr & _). simpl in Hfr.
    destruct Hfr as (_ & _ & Hnl & _ & (p & Hp & -> & Hb) & _ & (Hb1 & Hb2 & _)).
    split; [exact Hp|]. split; [exact Hnl|]. split; [lia|].
    destruct HI as (_ & Hfr & _). simpl in Hfr. tauto. }
  destruct Hpar as (Hp & Hnl & Hlt & Hb).
  assert (Hne : obj_has extra (normalize hn) = false) by (unfold obj_has; now rewrite Hnone).
  destruct (ordinary_facts _ Hord) as (_ & _ & _ & _ & _ & Hx).
  rewrite (textFn_leaf nativeType (trim t) (store st1) (at_ f') (at_ f) (prot f') [] (prot f) extra
             (normalize hn)) in Htf;
    [|now rewrite app_nil_r|exact Hp|exact Heff|exact Hnp|exact Hne|exact Hx
     |now rewrite app_nil_r].
  injection Htf as Htf.
  destruct (onEndElement_step f' (f :: rest) st2 HI2)
    as (extra2 & p & Hc2 & Hp2 & Hrun3 & Hfr3 & (dep3 & Hh3) & Hpar).
  assert (Hl1 : at_ f < length (store st1)) by (eapply lookup_lt_Some; eauto).
  eexists. split; [|split; [|split; [|split]]].
  - simpl events. simpl run. rewrite Hrun1, rbind_Ok, Hrun2, rbind_Ok, Hrun3. reflexivity.
  - split; [simpl; now rewrite Hpar|]. split; [exact Hfr3|]. now exists dep3.
  - simpl. rewrite list_lookup_insert_ne by lia. rewrite Hst2.
    rewrite list_lookup_insert_ne by lia. rewrite <- Htf.
    now apply list_lookup_insert_eq.
  - simpl. rewrite length_insert. lia.
  - intros l Hl Hne'. simpl. rewrite list_lookup_insert_ne by lia. rewrite Hst2.
    rewrite list_lookup_insert_ne by lia. rewrite <- Htf.
    rewrite list_lookup_insert_ne by congruence. apply Hframe1; [lia|exact Hne'|].
    intros es Hv. fold normalize in Hv. congruence.
Qed.

End Callbacks.
End RegularSteps.

(** ** The slots of an open element *)

Module SlotFacts.
Import JsString Js Store Xml2js JsFacts ObjectFacts Documents ParseState StoreFacts.
Import Compact Subtrees SubtreeFacts.
Local Open Scope nat_scope.
Local Open Scope list_scope.

Lemma find_slot_split S k s s' :
  find_slot S k = Some s -> slot_key s' = k ->
  exists S1 S2,
    S = S1 ++ s :: S2 /\ find_slot S1 k = None /\ replace_slot S s' = S1 ++ s' :: S2.
Proof.
  intros H Hk. induction S as [|s0 S IH]; [discriminate|].
  cbn [find_slot replace_slot] in *. rewrite Hk.
  destruct (String.eqb (slot_key s0) k) eqn:E.
  - injection H as ->. exists [], S. repeat split.
  - destruct (IH H) as (S1 & S2 & -> & Hn & Hr).
    exists (s0 :: S1), S2. split; [reflexivity|]. split.
    + cbn [find_slot]. now rewrite E.
    + cbn [app]. now rewrite Hr.
Qed.

Lemma find_slot_arrays S k k' a rs ts :
  find_slot S k = Some (SSeq k' a rs ts) -> In a (arrays S).
Proof.
  intros H. apply find_slot_key in H. destruct H as [_ Hin].
  unfold arrays. apply in_flat_map. eexists. split; [exact Hin|]. now left.
Qed.

Lemma In_arrays S a :
  In a (arrays S) -> exists k rs ts, In (SSeq k a rs ts) S.
Proof.
  unfold arrays. rewrite in_flat_map. intros ([k v t|k a' rs ts] & Hin & Ha); [destruct Ha|].
  destruct Ha as [<-|[]]. eauto.
Qed.

Lemma obj_replace_same {V} (o : list (string * V)) k v :
  obj_get o k = Some v -> obj_replace o k v = o.
Proof.
  induction o as [|[k0 v0] o IH]; [reflexivity|]. cbn [obj_get obj_replace].
  destruct (String.eqb k0 k); [now intros [= ->]|]. intros H. now rewrite IH.
Qed.

(** What a name holds after one more child. *)
Lemma obj_get_addChild acc k v k' :
  obj_get (addChild acc k v) k'
  = if String.eqb k k'
    then Some (match obj_get acc k with
               | None => v
               | Some (Arr l) => Arr (l ++ [v])
               | Some w => Arr [w; v]
               end)
    else obj_get acc k'.
Proof.
  unfold addChild. destruct (obj_get acc k) as [w|] eqn:G.
  - assert (Hh : obj_has acc k = true) by (unfold obj_has; now rewrite G).
    destruct w as [p|l|o]; now rewrite obj_get_replace.
  - rewrite obj_get_app. cbn [obj_get].
    destruct (String.eqb_spec k k') as [<-|Hne]; [now rewrite G|].
    now destruct (obj_get acc k').
Qed.

Lemma slot_holds_transfer F G (h h' : heap) s :
  (forall l, F l -> l < length h -> G l /\ h' !! l = h !! l) ->
  (forall k a rs ts, s = SSeq k a rs ts -> h' !! a = h !! a) ->
  slot_holds F h s -> slot_holds G h' s.
Proof.
  intros Hmove Harr. destruct s as [k v t|k a rs ts]; cbn [slot_holds].
  - intros [H1 H2]. split; [exact H1|]. now apply (repr_transfer F G h h').
  - intros [H1 H2]. split; [rewrite (Harr _ _ _ _ eq_refl); exact H1|].
    clear H1 Harr. induction H2 as [|r t rs' ts' Hr _ IH]; constructor; [|exact IH].
    now apply (repr_transfer F G h h').
Qed.

Lemma coll_array_cell b (h : heap) m P S a :
  Coll b h m P S -> In a (arrays S) -> exists rs, h !! a = Some (CArr (map VRef rs)).
Proof.
  intros (_ & _ & _ & Hall) Hin. apply In_arrays in Hin. destruct Hin as (k & rs & ts & Hin).
  rewrite List.Forall_forall in Hall. destruct (Hall _ Hin) as [H _]. eauto.
Qed.

(** The cell of the attributes is the object of the attributes. *)
Lemma attributes_repr F (h : heap) (kept : list (string * string)) al :
  F al ->
  h !! al = Some (CObj (map (fun kv => (fst kv, VPrim (PStr (snd kv)))) kept)) ->
  repr F h (VRef al) (Obj (map (fun kv => (fst kv, Prim (PStr (snd kv)))) kept)).
Proof.
  intros HF Hl. apply repr_Obj. eexists _, _. split; [reflexivity|]. split; [exact HF|].
  split; [exact Hl|]. clear. induction kept as [|[k v] kept IH]; constructor; [|exact IH].
  split; reflexivity.
Qed.

Section Callbacks.
Variable camelCase : string -> string.

(** A closed element as a tree: its attributes, and what its slots
    hold. *)
Lemma closed_element_repr G b e eprops (h : heap) c attrs S :
  Coll b h e (eprops ++ [("_parent", VRef c)]) S ->
  ((manipulateAttributes attrs = [] /\ eprops = [])
   \/ (exists al, manipulateAttributes attrs <> []
                  /\ eprops = [("_attributes", VRef al)]
                  /\ G al /\ al <> e
                  /\ h !! al = Some (CObj (map (fun kv => (fst kv, VPrim (PStr (snd kv))))
                                              (manipulateAttributes attrs))))) ->
  G e ->
  (forall l, b <= l -> l < length h -> G l) ->
  repr G (<[e := CObj (eprops ++ map slot_kv S)]> h) (VRef e)
       (Obj (attributeEntries attrs ++ map slot_kt S)).
Proof.
  intros (Hcell & Hnd & Hge & Hall) Hattrs HGe HG.
  set (h3 := <[e := CObj (eprops ++ map slot_kv S)]> h).
  assert (Hle : e < length h) by (eapply lookup_lt_Some; eauto).
  assert (Hmove : forall l, child_cells b e (arrays S) l -> l < length h ->
                            G l /\ h3 !! l = h !! l).
  { intros l (H1 & H2 & H3) Hl. split; [now apply HG|].
    unfold h3. now apply list_lookup_insert_ne. }
  apply repr_Obj. exists e, (eprops ++ map slot_kv S).
  split; [reflexivity|]. split; [exact HGe|].
  split; [unfold h3; now apply list_lookup_insert_eq|].
  apply Forall2_app.
  - unfold attributeEntries.
    destruct Hattrs as [[-> ->]|(al & Hne & -> & HGal & Hale & Hal)]; [constructor|].
    destruct (manipulateAttributes attrs) as [|a0 as0] eqn:Ha; [congruence|].
    constructor; [|constructor]. split; [reflexivity|]. cbn [snd].
    apply attributes_repr; [exact HGal|]. unfold h3. now rewrite list_lookup_insert_ne.
  - rewrite List.Forall_forall in Hall.
    assert (Hin : forall s, In s S -> In s S) by auto.
    revert Hin. generalize S at 1 3 4. intros S0.
    induction S0 as [|s S0 IH]; intros Hin; [constructor|].
    cbn [map]. constructor; [|apply IH; intros s' Hs'; apply Hin; now right].
    split; [reflexivity|]. cbn [slot_kv slot_kt snd].
    pose proof (Hall s (Hin s (or_introl eq_refl))) as Hs.
    destruct s as [k v t|k a rs ts]; cbn [slot_holds slot_val slot_tree] in *.
    + destruct Hs as [_ Hs]. now apply (repr_transfer _ G h h3) in Hs.
    + destruct Hs as [Ha Hrs].
      assert (HinA : In a (arrays S)).
      { unfold arrays. apply in_flat_map. eexists. split; [apply Hin; now left|]. now left. }
      assert (Hba : b <= a) by (rewrite List.Forall_forall in Hge; now apply Hge).
      assert (Hla : a < length h) by (eapply lookup_lt_Some; eauto).
      assert (Hae : a <> e) by (intros ->; congruence).
      apply repr_Arr. exists a, (map VRef rs). split; [reflexivity|].
      split; [now apply HG|]. split; [unfold h3; now rewrite list_lookup_insert_ne|].
      clear -Hrs Hmove. induction Hrs as [|r t rs ts Hr _ IH]; constructor; [|exact IH].
      now apply (repr_transfer _ G h h3) in Hr.
Qed.

End Callbacks.
End SlotFacts.

(** ** The children of a regular element *)

Module RegularRuns.
Import JsString Js Store Xml2js JsFacts ObjectFacts Documents ParseState StoreFacts.
Import TextSteps ElementSteps StartCases StartSteps NodeRuns.
Import Compact Subtrees SubtreeFacts StartShape RegularSteps SlotFacts.
Local Open Scope nat_scope.
Local Open Scope list_scope.

Lemma existsb_eqb_false k ks : existsb (String.eqb k) ks = false -> ~ In k ks.
Proof.
  intros H Hin. apply not_true_iff_false in H. apply H. apply existsb_exists.
  exists k. split; [exact Hin|apply String.eqb_refl].
Qed.

Section Callbacks.
Variable camelCase : string -> string.
Variable nativeType : string -> prim.

Local Abbreviation normalize := (elementNameFn camelCase).
Local Abbreviation runs_regular := (Subtrees.runs_regular camelCase nativeType).
Local Abbreviation compact := (Compact.compact camelCase nativeType).
Local Abbreviation regular := (Compact.regular camelCase).
Local Abbreviation siblingsOk := (Compact.siblingsOk camelCase).

Local Abbreviation addNode := (Compact.addNode camelCase nativeType).

Lemma compact_Element n a cs :
  compact (Element n a cs)
  = match leafText (Element n a cs) with
    | Some t => Prim (nativeType t)
    | None => Obj (attributeEntries a ++ fold_left addNode cs [])
    end.
Proof. reflexivity. Qed.

Lemma compact_inner n a cs :
  isLeaf (Element n a cs) = false ->
  compact (Element n a cs) = Obj (attributeEntries a ++ fold_left addNode cs []).
Proof.
  intros H. rewrite compact_Element. unfold isLeaf in H.
  now destruct (leafText (Element n a cs)).
Qed.

Lemma regular_Element n a cs :
  regular (Element n a cs)
  = ordinary (normalize n)
    && (isLeaf (Element n a cs)
        || (forallb elementOrWhite cs && siblingsOk [] [] cs && forallb regular cs)).
Proof.
  assert (E : forall l,
            (fix all (cs : list xml) : bool :=
               match cs with
               | [] => true
               | c :: cs' => regular c && all cs'
               end) l = forallb regular l).
  { induction l as [|c l IH]; [reflexivity|]. cbn [forallb]. now rewrite IH. }
  cbn [Compact.regular]. now rewrite E.
Qed.

Lemma siblingsOk_Element leaves others n a cs' cs :
  siblingsOk leaves others (Element n a cs' :: cs)
  = if isLeaf (Element n a cs')
    then negb (existsb (String.eqb (normalize n)) leaves)
         && negb (existsb (String.eqb (normalize n)) others)
         && siblingsOk (normalize n :: leaves) others cs
    else negb (existsb (String.eqb (normalize n)) leaves)
         && siblingsOk leaves (normalize n :: others) cs.
Proof. reflexivity. Qed.

(** The children of an element of element content, one after the other:
    the slots of the element follow [addNode]. *)
Lemma run_regular_children cs :
  Forall runs_regular cs ->
  forall leaves others f rest st S,
    Inv (f :: rest) st ->
    Coll (birth f) (store st) (at_ f) (prot f) S ->
    (forall k, ok_key k = true -> obj_has (prot f) k = false) ->
    forallb elementOrWhite cs = true ->
    forallb regular cs = true ->
    siblingsOk leaves others cs = true ->
    (forall k, obj_has (map slot_kt S) k = true -> In k leaves \/ In k others) ->
    (forall k p, obj_get (map slot_kt S) k = Some (Prim p) -> In k leaves) ->
    exists st' S',
      run camelCase nativeType (flat_map events cs) st = Ok st'
      /\ Inv (f :: rest) st'
      /\ Coll (birth f) (store st') (at_ f) (prot f) S'
      /\ map slot_kt S' = fold_left addNode cs (map slot_kt S)
      /\ length (store st) <= length (store st')
      /\ (forall l, l < length (store st) -> l <> at_ f -> ~ In l (arrays S) ->
            store st' !! l = store st !! l)
      /\ (forall a, In a (arrays S') -> In a (arrays S) \/ length (store st) <= a).
Proof.
  induction 1 as [|x cs Hx Hcs IH]; intros leaves others f rest st S HI HC Hfresh Hew Hreg Hsib I1 I2.
  - exists st, S. split; [reflexivity|]. split; [exact HI|]. split; [exact HC|].
    split; [reflexivity|]. split; [lia|]. split; [reflexivity|]. intros a Ha. now left.
  - cbn [forallb] in Hew, Hreg. apply andb_true_iff in Hew. destruct Hew as [Hewx Hew].
    apply andb_true_iff in Hreg. destruct Hreg as [Hregx Hreg].
    destruct x as [n a cs'|t].
    + rewrite siblingsOk_Element in Hsib. rewrite regular_Element in Hregx.
      apply andb_true_iff in Hregx. destruct Hregx as [Hord _].
      assert (Hnp : obj_has (prot f) (normalize n) = false).
      { apply Hfresh. unfold ok_key. now rewrite Hord. }
      set (x := Element n a cs') in *. set (k := normalize n) in *.
      assert (Hcond : (if isLeaf x then find_slot S k = None
                       else forall s, find_slot S k = Some s -> forall p, slot_tree s <> Prim p)
                      /\ siblingsOk (if isLeaf x then k :: leaves else leaves)
                                    (if isLeaf x then others else k :: others) cs = true
                      /\ ~ In k leaves).
      { destruct (isLeaf x) eqn:L.
        - apply andb_true_iff in Hsib. destruct Hsib as [Hsib Hsib3].
          apply andb_true_iff in Hsib. destruct Hsib as [Hsib1 Hsib2].
          apply negb_true_iff, existsb_eqb_false in Hsib1.
          apply negb_true_iff, existsb_eqb_false in Hsib2.
          split; [|split; assumption].
          destruct (find_slot S k) as [s|] eqn:Hf; [|reflexivity]. exfalso.
          destruct (I1 k); [|contradiction|contradiction].
          unfold obj_has. now rewrite obj_get_slots_kt, Hf.
        - apply andb_true_iff in Hsib. destruct Hsib as [Hsib1 Hsib3].
          apply negb_true_iff, existsb_eqb_false in Hsib1.
          split; [|split; assumption].
          intros s Hf p Hp. apply Hsib1. apply (I2 k p). now rewrite obj_get_slots_kt, Hf, <- Hp. }
      destruct Hcond as (Hcond & Hsib' & Hkl).
      destruct (Hx n a cs' eq_refl f rest st S HI HC Hnp Hcond)
        as (st1 & S1 & Hrun1 & HI1 & HC1 & Hacc1 & Hlen1 & Hframe1 & Harr1).
      fold x k in Hacc1.
      destruct (IH _ _ f rest st1 S1 HI1 HC1 Hfresh Hew Hreg Hsib')
        as (st2 & S2 & Hrun2 & HI2 & HC2 & Hacc2 & Hlen2 & Hframe2 & Harr2).
      * intros k'. rewrite Hacc1. unfold obj_has. rewrite obj_get_addChild.
        destruct (String.eqb_spec k k') as [<-|Hne].
        -- intros _. destruct (isLeaf x); [left; now left|right; now left].
        -- intros Hk'. destruct (I1 k' Hk') as [?|?]; destruct (isLeaf x);
             [left; now right|now left|now right|right; now right].
      * intros k' p. rewrite Hacc1, obj_get_addChild.
        destruct (String.eqb_spec k k') as [<-|Hne].
        -- destruct (isLeaf x) eqn:L; [intros _; now left|].
           unfold x. rewrite (compact_inner n a cs' L).
           destruct (obj_get (map slot_kt S) k) as [[?|?|?]|]; discriminate.
        -- intros Hk'. pose proof (I2 k' p Hk'). destruct (isLeaf x); [now right|assumption].
      * exists st2, S2. split; [|split; [exact HI2|split; [exact HC2|split; [|split; [lia|split]]]]].
        -- cbn [flat_map]. rewrite run_app. fold x. rewrite Hrun1. exact Hrun2.
        -- rewrite Hacc2, Hacc1. reflexivity.
        -- intros l Hl Hne Hnin. rewrite Hframe2.
           ++ apply Hframe1; [exact Hl|exact Hne|].
              intros rs ts Hf. apply Hnin. eapply find_slot_arrays; eauto.
           ++ lia.
           ++ exact Hne.
           ++ intros Hin. destruct (Harr1 l Hin); [contradiction|lia].
        -- intros a0 Hin. destruct (Harr2 a0 Hin) as [Hin1|?]; [|right; lia].
           destruct (Harr1 a0 Hin1); [now left|right; lia].
    + cbn [siblingsOk Compact.siblingsOk] in Hsib. cbn [elementOrWhite isWhite] in Hewx.
      destruct (IH leaves others f rest st S HI HC Hfresh Hew Hreg Hsib I1 I2)
        as (st2 & S2 & Hrun2 & Hrest).
      exists st2, S2. split; [|exact Hrest].
      cbn [flat_map]. rewrite run_app. cbn [events run handle].
      rewrite (onText_white nativeType t st Hewx). exact Hrun2.
Qed.

End Callbacks.
End RegularRuns.

(** ** A regular element *)

Module RegularElements.
Import JsString Js Store Xml2js JsFacts ObjectFacts Documents ParseState StoreFacts.
Import TextSteps ElementSteps StartCases StartSteps NodeRuns.
Import Compact Subtrees SubtreeFacts StartShape RegularSteps SlotFacts RegularRuns.
Local Open Scope nat_scope.
Local Open Scope list_scope.

Lemma arrays_mid S1 s S2 : arrays (S1 ++ s :: S2) = arrays S1 ++ arrays [s] ++ arrays S2.
Proof. unfold arrays. rewrite flat_map_app. cbn [flat_map]. now rewrite app_nil_r. Qed.

Lemma NoDup_mid (x : loc) l1 l2 :
  ~ In x (l1 ++ l2) -> List.NoDup (l1 ++ l2) -> List.NoDup (l1 ++ x :: l2).
Proof.
  intros Hx Hnd. apply (NoDup_Add (Add_app x l1 l2)). now split.
Qed.

(** A slot that holds a sequence is found under its key, or the key
    holds no reference to a sequence. *)
Lemma slot_of_sequence F (h : heap) S k l es :
  Forall (slot_holds F h) S ->
  obj_get (map slot_kv S) k = Some (VRef l) -> h !! l = Some (CArr es) ->
  exists rs ts, find_slot S k = Some (SSeq k l rs ts).
Proof.
  intros Hall Hg Hl. rewrite obj_get_slots_kv in Hg.
  destruct (find_slot S k) as [s|] eqn:Hf; [|discriminate].
  destruct (find_slot_key _ _ _ Hf) as [Hk Hin].
  rewrite List.Forall_forall in Hall. pose proof (Hall _ Hin) as Hs.
  destruct s as [k' v t|k' a rs ts]; cbn in Hg, Hk, Hs; injection Hg as ->; subst k'.
  - destruct Hs as [Hna Hr]. destruct t as [p|ts|o].
    + discriminate Hr.
    + discriminate Hna.
    + apply repr_Obj in Hr. destruct Hr as (l' & ps & [= <-] & _ & Hl' & _). congruence.
  - eauto.
Qed.

Section Callbacks.
Variable camelCase : string -> string.
Variable nativeType : string -> prim.

Local Abbreviation normalize := (elementNameFn camelCase).
Local Abbreviation runs_regular := (Subtrees.runs_regular camelCase nativeType).
Local Abbreviation compact := (Compact.compact camelCase nativeType).
Local Abbreviation regular := (Compact.regular camelCase).
Local Abbreviation siblingsOk := (Compact.siblingsOk camelCase).
Local Abbreviation addNode := (Compact.addNode camelCase nativeType).

(** A text leaf under a name that is new to the current element. *)
Lemma run_regular_leaf n a cs :
  regular (Element n a cs) = true -> isLeaf (Element n a cs) = true ->
  runs_regular (Element n a cs).
Proof.
  intros Hreg Hleaf n' a' cs' [= <- <- <-] f rest st S HI HC Hnp Hcond.
  rewrite Hleaf in Hcond. rewrite regular_Element in Hreg.
  apply andb_true_iff in Hreg. destruct Hreg as [Hord _].
  assert (Hshape : exists t, cs = [Text t] /\ String.eqb (trim t) "" = false).
  { unfold isLeaf, leafText in Hleaf. destruct cs as [|[?|t] [|? ?]]; try discriminate.
    exists t. split; [reflexivity|]. now destruct (String.eqb (trim t) ""). }
  destruct Hshape as (t & -> & W).
  pose proof HC as (HCcell & HCnd & HCge & HCall).
  assert (Hf : at_ f < birth f /\ birth f <= length (store st)).
  { destruct HI as (_ & Hfr & _). simpl in Hfr. tauto. }
  destruct (run_leaf_precise camelCase nativeType n a t f rest st (map slot_kv S) HI Hord Hnp HCcell)
    as (st' & Hrun & HI' & Hc' & Hlen & Hframe); [|exact W|].
  { now rewrite obj_get_slots_kv, Hcond. }
  assert (Hv : compact (Element n a [Text t]) = Prim (nativeType (trim t))).
  { rewrite compact_Element. cbn [leafText]. now rewrite W. }
  exists st', (S ++ [SVal (normalize n) (VPrim (nativeType (trim t))) (Prim (nativeType (trim t)))]).
  assert (Ha : arrays (S ++ [SVal (normalize n) (VPrim (nativeType (trim t)))
                                  (Prim (nativeType (trim t)))]) = arrays S).
  { rewrite arrays_app. cbn. apply app_nil_r. }
  split; [exact Hrun|]. split; [exact HI'|]. split; [|split; [|split; [exact Hlen|split]]].
  - split; [rewrite map_app; exact Hc'|]. rewrite Ha. split; [exact HCnd|]. split; [exact HCge|].
    apply Forall_app. split.
    + rewrite List.Forall_forall in HCall |- *. intros s Hin.
      apply (slot_holds_transfer (child_cells (birth f) (at_ f) (arrays S)) _
               (store st) (store st') s); [| |now apply HCall].
      * intros l (H1 & H2 & H3) Hl. split; [repeat split; assumption|]. now apply Hframe.
      * intros k0 a0 rs ts ->. pose proof (HCall _ Hin) as [Hl _].
        apply Hframe; [eapply lookup_lt_Some; eauto|].
        assert (birth f <= a0); [|lia].
        rewrite List.Forall_forall in HCge. apply HCge.
        unfold arrays. apply in_flat_map. eexists. split; [exact Hin|]. now left.
    + constructor; [|constructor]. split; reflexivity.
  - rewrite map_app, Hv. unfold addChild. now rewrite obj_get_slots_kt, Hcond.
  - intros l Hl Hne _. now apply Hframe.
  - intros a0. rewrite Ha. now left.
Qed.

Lemma In_SSeq_arrays S k a rs ts : In (SSeq k a rs ts) S -> In a (arrays S).
Proof.
  intros Hin. unfold arrays. apply in_flat_map. eexists. split; [exact Hin|]. now left.
Qed.

Lemma repr_transfer_all F G (h h' : heap) rs ts :
  (forall l, F l -> l < length h -> G l /\ h' !! l = h !! l) ->
  Forall2 (fun r t => repr F h (VRef r) t) rs ts ->
  Forall2 (fun r t => repr G h' (VRef r) t) rs ts.
Proof.
  intros Hmove H. induction H as [|r t rs ts Hr _ IH]; constructor; [|exact IH].
  now apply (repr_transfer F G h h').
Qed.

(** An element of element content: its children run under it, and once
    it is closed the current element holds it as [addChild] says. *)
Lemma run_regular_inner n a cs :
  Forall runs_regular cs ->
  regular (Element n a cs) = true -> isLeaf (Element n a cs) = false ->
  runs_regular (Element n a cs).
Proof.
  intros Hcs Hreg Hleaf n' a' cs' [= <- <- <-] f rest st S HI HC Hnp Hcond.
  rewrite Hleaf in Hcond. rewrite regular_Element, Hleaf in Hreg. cbn [orb] in Hreg.
  apply andb_true_iff in Hreg. destruct Hreg as [Hord Hreg].
  apply andb_true_iff in Hreg. destruct Hreg as [Hreg Hallreg].
  apply andb_true_iff in Hreg. destruct Hreg as [Hew Hsib].
  rewrite (compact_inner _ _ n a cs Hleaf).
  set (k := normalize n) in *.
  destruct (onStartElement_step camelCase n a f rest st HI Hord Hnp)
    as (st1 & f' & extra & Hrun1 & HI1 & Hc & Hfresh & Hat & Hcell & Hlen1 & Hframe1 & Heff & Hbirth).
  fold k in Hframe1, Heff.
  pose proof HC as (HCcell & HCnd & HCge & HCall).
  rewrite HCcell in Hc. injection Hc as Hc. apply app_inv_head in Hc. subst extra.
  assert (Hf : at_ f < birth f /\ birth f <= length (store st)).
  { destruct HI as (_ & Hfr & _). simpl in Hfr. tauto. }
  assert (Hcur : currentElement st = VRef (at_ f)) by (destruct HI as (Hc0 & _); exact Hc0).
  destruct st as [h cur]. cbn [store currentElement] in *. subst cur.
  destruct (onStartElement_element camelCase n a h (at_ f) st1 Hrun1)
    as (e & eprops & Hcur1 & Hecell & Hle & Hshape); [lia|].
  assert (He : e = at_ f'). { destruct HI1 as (Hc1 & _). simpl in Hc1. congruence. }
  subst e.
  assert (Hprot : prot f' = eprops ++ [("_parent", VRef (at_ f))]) by congruence.
  assert (HC1 : Coll (birth f') (store st1) (at_ f') (prot f') []).
  { split; [cbn [map]; rewrite app_nil_r; exact Hcell|]. split; [constructor|]. split; constructor. }
  destruct (run_regular_children camelCase nativeType cs Hcs [] [] f' (f :: rest) st1 []
              HI1 HC1 Hfresh Hew Hallreg Hsib)
    as (st2 & S2 & Hrun2 & HI2 & HC2 & Hacc2 & Hlen2 & Hframe2 & _).
  { intros k0. cbn. discriminate. }
  { intros k0 p. cbn. discriminate. }
  cbn [map] in Hacc2.
  destruct (onEndElement_step f' (f :: rest) st2 HI2)
    as (extra2 & p & Hc2 & Hp & Hrun3 & Hfr3 & (dep3 & Hh3) & Hpar).
  pose proof HC2 as (HC2cell & _).
  rewrite HC2cell in Hc2. injection Hc2 as Hc2. apply app_inv_head in Hc2. subst extra2.
  assert (Hdel : obj_delete (prot f') "_parent" = eprops).
  { rewrite Hprot. destruct Hshape as [[_ ->]|(_ & -> & _)]; reflexivity. }
  rewrite Hdel in Hrun3, Hfr3, Hh3.
  set (h3 := <[at_ f' := CObj (eprops ++ map slot_kv S2)]> (store st2)) in *.
  rewrite <- Hacc2.
  set (v := Obj (attributeEntries a ++ map slot_kt S2)).
  assert (Hold13 : forall l, l < length (store st1) -> l <> at_ f' -> h3 !! l = store st1 !! l).
  { intros l Hl Hne. unfold h3. rewrite list_lookup_insert_ne by congruence.
    apply Hframe2; [exact Hl|exact Hne|]. intros []. }
  assert (Hframe : forall l, l < length h -> l <> at_ f ->
            (forall rs ts, find_slot S k <> Some (SSeq k l rs ts)) -> h3 !! l = h !! l).
  { intros l Hl Hne Hns. rewrite Hold13 by lia. apply Hframe1; [exact Hl|exact Hne|].
    intros es Hg Hl'. destruct (slot_of_sequence _ _ _ _ _ _ HCall Hg Hl') as (rs & ts & Hfs).
    exact (Hns _ _ Hfs). }
  assert (Hmove : forall A', (forall a0, In a0 A' -> In a0 (arrays S) \/ length h <= a0) ->
            forall l, child_cells (birth f) (at_ f) (arrays S) l -> l < length h ->
                      child_cells (birth f) (at_ f) A' l /\ h3 !! l = h !! l).
  { intros A' HA l (H1 & H2 & H3) Hl. split.
    - split; [exact H1|]. split; [exact H2|]. intros Hin.
      destruct (HA _ Hin); [contradiction|lia].
    - apply Hframe; [exact Hl|exact H2|]. intros rs ts Hfs. apply H3.
      eapply find_slot_arrays; eauto. }
  assert (Hkeep : forall A' s, (forall a0, In a0 A' -> In a0 (arrays S) \/ length h <= a0) ->
            In s S ->
            (forall k0 a0 rs ts, s = SSeq k0 a0 rs ts ->
               forall rs' ts', find_slot S k <> Some (SSeq k a0 rs' ts')) ->
            slot_holds (child_cells (birth f) (at_ f) A') h3 s).
  { intros A' s HA Hin Hns. rewrite List.Forall_forall in HCall.
    apply (slot_holds_transfer (child_cells (birth f) (at_ f) (arrays S)) _ h h3 s);
      [now apply Hmove| |now apply HCall].
    intros k0 a0 rs ts ->. pose proof (HCall _ Hin) as [Hl _].
    apply Hframe; [eapply lookup_lt_Some; eauto| |eapply Hns; eauto].
    assert (birth f <= a0); [|lia].
    rewrite List.Forall_forall in HCge. apply HCge. eapply In_SSeq_arrays; eauto. }
  assert (Hnew : forall A',
            (forall a0, In a0 A' ->
                        In a0 (arrays S) \/ exists es, store st1 !! a0 = Some (CArr es)) ->
            repr (child_cells (birth f) (at_ f) A') h3 (VRef (at_ f')) v).
  { intros A' HA.
    assert (HG : forall l, length h <= l -> (forall es, store st1 !! l <> Some (CArr es)) ->
                           child_cells (birth f) (at_ f) A' l).
    { intros l Hl Hna. split; [lia|]. split; [lia|]. intros Hin.
      destruct (HA _ Hin) as [Hin'|[es Hes]]; [|exact (Hna _ Hes)].
      destruct (coll_array_cell _ _ _ _ _ _ HC Hin') as [rs Hrs].
      apply lookup_lt_Some in Hrs. lia. }
    unfold h3, v.
    apply (closed_element_repr _ (birth f') (at_ f') eprops (store st2) (at_ f) a S2).
    - rewrite <- Hprot. exact HC2.
    - destruct Hshape as [[H1 H2]|(H1 & H2 & H3 & H4)]; [left; now split|right].
      exists (length h). split; [exact H1|]. split; [exact H2|]. split; [|split; [lia|]].
      + apply HG; [lia|]. intros es. rewrite H4. discriminate.
      + rewrite Hframe2; [exact H4|eapply lookup_lt_Some; eauto|lia|intros []].
    - apply HG; [lia|]. intros es. rewrite Hcell. discriminate.
    - intros l Hl _. apply HG; [lia|]. intros es Hes. apply lookup_lt_Some in Hes. lia. }
  unfold start_effect in Heff. rewrite obj_get_slots_kv in Heff.
  assert (HI3 : Inv (f :: rest) {| store := h3; currentElement := VRef p |}).
  { split; [simpl; now rewrite Hpar|]. split; [exact Hfr3|]. now exists dep3. }
  assert (Hrun : run camelCase nativeType (events (Element n a cs))
                     {| store := h; currentElement := VRef (at_ f) |}
                 = Ok {| store := h3; currentElement := VRef p |}).
  { simpl events. simpl run. rewrite Hrun1.
    rewrite rbind_Ok, run_app, Hrun2, rbind_Ok. simpl run. rewrite Hrun3. reflexivity. }
  assert (Hlen3 : length h <= length h3) by (unfold h3; rewrite length_insert; lia).
  assert (Hm3 : h3 !! at_ f = store st1 !! at_ f) by (apply Hold13; lia).
  assert (Hcase : exists o, find_slot S k = o) by eauto.
  destruct Hcase as [[s0|] Hfind]; rewrite Hfind in Heff; cbn [fmap option_fmap option_map] in Heff.
  - destruct (find_slot_key _ _ _ Hfind) as [Hk0 Hin0].
    pose proof HCall as HCall'. rewrite List.Forall_forall in HCall'.
    destruct s0 as [k' v0 t0|k' a0 rs ts]; cbn [slot_key] in Hk0; subst k'.
    + (* the second element of the name *)
      destruct (HCall' _ Hin0) as [Hna Hr0].
      destruct t0 as [p0|ts0|o0];
        [exfalso; exact (Hcond _ Hfind p0 eq_refl)|discriminate Hna|].
      pose proof Hr0 as Hr0'. apply repr_Obj in Hr0'.
      destruct Hr0' as (r0 & ps0 & -> & HF0 & Hl0 & _).
      cbn [slot_val] in Heff. rewrite Hl0 in Heff. destruct Heff as (arr & Harr & Hm1 & Harr1).
      set (s' := SSeq k arr [r0; at_ f'] [Obj o0; v]).
      destruct (find_slot_split S k _ s' Hfind eq_refl) as (S1 & S2' & HS & Hn1 & Hrep).
      assert (HAS : arrays S = arrays S1 ++ arrays S2').
      { rewrite HS, arrays_mid. reflexivity. }
      assert (HA : arrays (replace_slot S s') = arrays S1 ++ arr :: arrays S2').
      { rewrite Hrep, arrays_mid. reflexivity. }
      assert (Hsub : forall a0, In a0 (arrays (replace_slot S s')) -> In a0 (arrays S) \/ a0 = arr).
      { intros a0. rewrite HA, HAS, !in_app_iff. cbn [In]. intros [?|[<-|?]]; auto. }
      assert (Harrlt : arr < length (store st1)) by (eapply lookup_lt_Some; eauto).
      assert (Hnin : ~ In arr (arrays S)).
      { intros Hin. destruct (coll_array_cell _ _ _ _ _ _ HC Hin) as [rs' Hrs'].
        apply lookup_lt_Some in Hrs'. lia. }
      assert (HA' : forall a0, In a0 (arrays (replace_slot S s')) ->
                               In a0 (arrays S) \/ length h <= a0).
      { intros a0 Ha0. destruct (Hsub _ Ha0) as [?| ->]; [now left|now right]. }
      exists {| store := h3; currentElement := VRef p |}, (replace_slot S s').
      split; [exact Hrun|]. split; [exact HI3|]. cbn [store].
      split; [|split; [|split; [exact Hlen3|split]]].
      * split; [|split; [|split]].
        -- rewrite Hm3, Hm1, replace_slot_kv. reflexivity.
        -- rewrite HA. apply NoDup_mid; rewrite <- HAS; assumption.
        -- rewrite HA. rewrite HAS in HCge. apply Forall_app in HCge. destruct HCge as [G1 G2].
           apply Forall_app. split; [exact G1|]. constructor; [lia|exact G2].
        -- remember (arrays (replace_slot S s')) as A' eqn:EA. rewrite Hrep. subst A'.
           apply Forall_app. split; [|constructor].
           ++ apply List.Forall_forall. intros s Hin.
              apply Hkeep; [exact HA'|rewrite HS; apply in_or_app; now left|].
              intros. rewrite Hfind. discriminate.
           ++ cbn [slot_holds s']. split.
              ** rewrite Hold13; [exact Harr1|exact Harrlt|].
                 intros E. rewrite E, Hcell in Harr1. discriminate.
              ** constructor; [|constructor; [|constructor]].
                 --- apply (repr_transfer (child_cells (birth f) (at_ f) (arrays S)) _ h h3);
                       [now apply Hmove|exact Hr0].
                 --- apply Hnew. intros a0 Ha0.
                     destruct (Hsub _ Ha0) as [?| ->]; [now left|right; eauto].
           ++ apply List.Forall_forall. intros s Hin.
              apply Hkeep; [exact HA'|rewrite HS; apply in_or_app; right; now right|].
              intros. rewrite Hfind. discriminate.
      * rewrite replace_slot_kt. unfold addChild. rewrite obj_get_slots_kt, Hfind. reflexivity.
      * exact Hframe.
      * intros a0 Ha0. destruct (Hsub _ Ha0) as [?| ->]; [now left|right; exact Harr].
    + (* one more element of the name *)
      destruct (HCall' _ Hin0) as [Hl0 Hrs0].
      cbn [slot_val] in Heff. rewrite Hl0 in Heff. destruct Heff as [Hm1 Ha1].
      set (s' := SSeq k a0 (rs ++ [at_ f']) (ts ++ [v])).
      destruct (find_slot_split S k _ s' Hfind eq_refl) as (S1 & S2' & HS & Hn1 & Hrep).
      assert (HA : arrays (replace_slot S s') = arrays S).
      { rewrite Hrep. rewrite HS at 1. now rewrite !arrays_mid. }
      assert (Hnd0 : ~ In a0 (arrays S1 ++ arrays S2')).
      { pose proof HCnd as Hnd. rewrite HS, arrays_mid in Hnd. cbn in Hnd.
        now apply NoDup_remove_2 in Hnd. }
      assert (HA' : forall a1, In a1 (arrays S) -> In a1 (arrays S) \/ length h <= a1)
        by (intros; now left).
      assert (Hother : forall s, In s (S1 ++ S2') ->
                forall k0 a1 rs1 ts1, s = SSeq k0 a1 rs1 ts1 ->
                forall rs' ts', find_slot S k <> Some (SSeq k a1 rs' ts')).
      { intros s Hin k0 a1 rs1 ts1 -> rs' ts'. rewrite Hfind. intros [= -> _ _].
        apply Hnd0. apply in_app_or in Hin. apply in_or_app.
        destruct Hin as [Hin|Hin]; [left|right]; eapply In_SSeq_arrays; eauto. }
      exists {| store := h3; currentElement := VRef p |}, (replace_slot S s').
      split; [exact Hrun|]. split; [exact HI3|]. cbn [store].
      split; [|split; [|split; [exact Hlen3|split]]].
      * split; [|split; [|split]].
        -- rewrite Hm3, Hm1, replace_slot_kv, obj_replace_same; [reflexivity|].
           unfold s'. cbn [slot_key slot_val]. now rewrite obj_get_slots_kv, Hfind.
        -- rewrite HA. exact HCnd.
        -- rewrite HA. exact HCge.
        -- rewrite HA, Hrep. apply Forall_app. split; [|constructor].
           ++ apply List.Forall_forall. intros s Hin.
              apply Hkeep; [exact HA'|rewrite HS; apply in_or_app; now left|].
              apply Hother. apply in_or_app. now left.
           ++ cbn [slot_holds s']. split.
              ** rewrite Hold13, Ha1, map_app; [reflexivity| |].
                 --- eapply lookup_lt_Some; eauto.
                 --- apply lookup_lt_Some in Hl0. lia.
              ** apply Forall2_app.
                 --- apply (repr_transfer_all (child_cells (birth f) (at_ f) (arrays S)) _ h h3);
                       [now apply Hmove|exact Hrs0].
                 --- constructor; [|constructor]. apply Hnew. intros a1 Ha1'. now left.
           ++ apply List.Forall_forall. intros s Hin.
              apply Hkeep; [exact HA'|rewrite HS; apply in_or_app; right; now right|].
              apply Hother. apply in_or_app. now right.
      * rewrite replace_slot_kt. unfold addChild. rewrite obj_get_slots_kt, Hfind. reflexivity.
      * exact Hframe.
      * intros a1. rewrite HA. now left.
  - (* the first element of the name *)
    exists {| store := h3; currentElement := VRef p |}, (S ++ [SVal k (VRef (at_ f')) v]).
    assert (Ha : arrays (S ++ [SVal k (VRef (at_ f')) v]) = arrays S).
    { rewrite arrays_app. cbn. apply app_nil_r. }
    split; [exact Hrun|]. split; [exact HI3|]. cbn [store].
    split; [|split; [|split; [exact Hlen3|split]]].
    + split; [rewrite Hm3, Heff, map_app; reflexivity|]. rewrite Ha.
      split; [exact HCnd|]. split; [exact HCge|].
      apply Forall_app. split.
      * apply List.Forall_forall. intros s Hin. apply Hkeep; [now left|exact Hin|].
        intros. rewrite Hfind. discriminate.
      * constructor; [|constructor]. split; [reflexivity|]. apply Hnew. now left.
    + rewrite map_app. unfold addChild. now rewrite obj_get_slots_kt, Hfind.
    + exact Hframe.
    + intros a0. rewrite Ha. now left.
Qed.

(** The events of a regular node run as [runs_regular] says. *)
Lemma run_regular x : regular x = true -> runs_regular x.
Proof.
  induction x as [t|n a cs IH] using xml_nested_ind; intros Hreg.
  - intros n a cs [=].
  - destruct (isLeaf (Element n a cs)) eqn:L; [now apply run_regular_leaf|].
    apply run_regular_inner; [|exact Hreg|exact L].
    rewrite regular_Element, L in Hreg. cbn [orb] in Hreg.
    apply andb_true_iff in Hreg. destruct Hreg as [_ Hreg].
    apply andb_true_iff in Hreg. destruct Hreg as [_ Hreg].
    clear -IH Hreg. induction IH as [|x cs Hx _ IHcs]; [constructor|].
    cbn [forallb] in Hreg. apply andb_true_iff in Hreg. destruct Hreg. constructor; auto.
Qed.

End Callbacks.
End RegularElements.

(** ** The tree of a regular document *)

Module RegularDocuments.
Import JsString Js Store Xml2js JsFacts ObjectFacts Documents ParseState StoreFacts.
Import TextSteps ElementSteps StartCases StartSteps NodeRuns ReifyFacts.
Import Compact Subtrees SubtreeFacts StartShape RegularSteps SlotFacts RegularRuns RegularElements.
Import ParsedAnswers.
Local Open Scope nat_scope.
Local Open Scope list_scope.

(** An element that has just been opened holds nothing but what it was
    given. *)
Lemma opened_cell f rest st eprops v :
  Inv (f :: rest) st ->
  store st !! at_ f = Some (CObj (eprops ++ [("_parent", v)])) ->
  prot f = eprops ++ [("_parent", v)].
Proof.
  intros (_ & Hfr & _) Hc. simpl in Hfr.
  destruct Hfr as (_ & _ & _ & _ & _ & (extra & Hc' & He & _) & _).
  rewrite Hc in Hc'. injection Hc' as Hc'.
  induction extra as [|x extra' _] using rev_ind.
  - rewrite app_nil_r in Hc'. now symmetry.
  - exfalso. rewrite app_assoc in Hc'. apply app_inj_tail in Hc'. destruct Hc' as [_ <-].
    unfold extra_ok in He. apply Forall_app in He. destruct He as [_ He].
    apply Forall_inv in He. destruct He as (Hk & _). discriminate Hk.
Qed.

Section Callbacks.
Variable camelCase : string -> string.
Variable nativeType : string -> prim.

Local Abbreviation normalize := (elementNameFn camelCase).

(** The parse of a regular document returns its compact form. *)
Lemma parse_regular (doc : xml) :
  regularDocument camelCase doc = true ->
  xml2js_document camelCase nativeType doc = Ok (compactDocument camelCase nativeType doc).
Proof.
  intros Hdoc. destruct doc as [name attrs children|]; [|discriminate].
  unfold regularDocument in Hdoc. apply andb_true_iff in Hdoc. destruct Hdoc as [Hreg Hleaf].
  apply negb_true_iff in Hleaf.
  pose proof Hreg as Hreg'. rewrite regular_Element, Hleaf in Hreg'. cbn [orb] in Hreg'.
  apply andb_true_iff in Hreg'. destruct Hreg' as [Hord Hreg'].
  apply andb_true_iff in Hreg'. destruct Hreg' as [Hreg' Hallreg].
  apply andb_true_iff in Hreg'. destruct Hreg' as [Hew Hsib].
  destruct (open_any_root camelCase nativeType name attrs Hord)
    as (st1 & fm & Hrun1 & HI1 & Hroot & Hm0 & Hpar & Hfresh).
  destruct (onStartElement_element camelCase name attrs [CObj []] 0 st1 Hrun1)
    as (e & eprops & Hcur1 & Hecell & Hle & Hshape); [simpl; lia|].
  assert (He : e = at_ fm). { destruct HI1 as (Hc1 & _). simpl in Hc1. congruence. }
  subst e. cbn [length] in Hle, Hshape.
  pose proof (opened_cell _ _ _ _ _ HI1 Hecell) as Hprot.
  assert (HC1 : Coll (birth fm) (store st1) (at_ fm) (prot fm) []).
  { split; [cbn [map]; rewrite app_nil_r, Hprot; exact Hecell|].
    split; [constructor|]. split; constructor. }
  assert (Hcs : Forall (runs_regular camelCase nativeType) children).
  { clear -Hallreg. induction children as [|c cs IH]; [constructor|].
    cbn [forallb] in Hallreg. apply andb_true_iff in Hallreg. destruct Hallreg.
    constructor; [now apply run_regular|auto]. }
  destruct (run_regular_children camelCase nativeType children Hcs [] [] fm [] st1 []
              HI1 HC1 Hfresh Hew Hallreg Hsib)
    as (st2 & S2 & Hrun2 & HI2 & HC2 & Hacc2 & Hlen2 & Hframe2 & _).
  { intros k0. cbn. discriminate. }
  { intros k0 p. cbn. discriminate. }
  cbn [map] in Hacc2.
  destruct (onEndElement_step fm [] st2 HI2)
    as (extra2 & p & Hc2 & Hp & Hrun3 & _ & (dep & Hh3) & _).
  rewrite Hpar in Hp. injection Hp as <-.
  pose proof HC2 as (HC2cell & _).
  rewrite HC2cell in Hc2. injection Hc2 as Hc2. apply app_inv_head in Hc2. subst extra2.
  assert (Hdel : obj_delete (prot fm) "_parent" = eprops).
  { rewrite Hprot. destruct Hshape as [[_ ->]|(_ & -> & _)]; reflexivity. }
  rewrite Hdel in Hrun3, Hh3.
  set (h3 := <[at_ fm := CObj (eprops ++ map slot_kv S2)]> (store st2)) in *.
  assert (Hl1 : 0 < length (store st1)) by (eapply lookup_lt_Some; eauto).
  assert (Hroot3 : h3 !! 0 = Some (CObj [(normalize name, VRef (at_ fm))])).
  { unfold h3. rewrite list_lookup_insert_ne by congruence.
    rewrite Hframe2; [exact Hroot|exact Hl1|congruence|intros []]. }
  assert (Hrepr : repr (fun _ => True) h3 (VRef (at_ fm))
                       (compact camelCase nativeType (Element name attrs children))).
  { rewrite (compact_inner _ _ name attrs children Hleaf), <- Hacc2. unfold h3.
    apply (closed_element_repr _ (birth fm) (at_ fm) eprops (store st2) 0 attrs S2).
    - rewrite <- Hprot. exact HC2.
    - destruct Hshape as [[H1 H2]|(H1 & H2 & H3 & H4)]; [left; now split|right].
      exists 1. split; [exact H1|]. split; [exact H2|]. split; [exact I|]. split; [lia|].
      rewrite Hframe2; [exact H4|eapply lookup_lt_Some; eauto|lia|intros []].
    - exact I.
    - intros; exact I. }
  assert (Hl0 : 0 < length h3) by (eapply lookup_lt_Some; eauto).
  destruct (reify_total dep h3 0 Hh3 Hl0) as [tree Htree].
  destruct (reify_Obj _ _ _ _ _ Hroot3 Htree) as (f1 & o0 & Hf1 & -> & Hm0').
  cbn [list.mapM fst snd] in Hm0'.
  destruct (reify f1 h3 (VRef (at_ fm))) as [tM|] eqn:HtM; [|discriminate].
  cbn in Hm0'. injection Hm0' as <-.
  rewrite (repr_reify _ _ _ _ _ _ Hrepr HtM) in Htree.
  unfold xml2js_document. simpl events. simpl run. rewrite Hrun1, rbind_Ok.
  rewrite run_app, Hrun2, rbind_Ok. simpl run. rewrite Hrun3, !rbind_Ok.
  cbn [store]. fold h3. now rewrite Htree.
Qed.

(** X12.  The tree of a regular document.  For a document whose
    elements have ordinary names and are text leaves or of element
    content, the root of element content, where no text leaf shares its
    name with a sibling,
    [convert.xml2js] with the callbacks of [davRequest] returns the
    compact form of the document: one key for the root; under an element
    its attributes, when it has any left, as [_attributes], and then the
    names of its children in the order of their first occurrence; a text
    leaf as its coerced text; an element that is the only one of its
    name as its own object; and two or more of one name as the sequence
    of their objects in document order. *)
Theorem regular_document_compact (doc : xml) :
  regularDocument camelCase doc = true ->
  xml2js_document camelCase nativeType doc = Ok (compactDocument camelCase nativeType doc).
Proof. exact (parse_regular doc). Qed.

End Callbacks.

End RegularDocuments.

(** ** The records of a regular multistatus *)

Module RegularAnswers.
Import JsString Js Store Xml2js JsFacts ObjectFacts Documents ParseState StoreFacts.
Import TextSteps ElementSteps StartCases StartSteps NodeRuns.
Import Compact SlotFacts RegularRuns RegularDocuments.
Import ParsedAnswers.
Import Async Request.
Local Open Scope nat_scope.
Local Open Scope list_scope.

Lemma merged_sequence vs : forall l, merged (Some (Arr l)) vs = Some (Arr (l ++ vs)).
Proof.
  induction vs as [|v vs IH]; intros l; [now rewrite app_nil_r|].
  cbn [merged fold_left]. fold (merged (Some (Arr (l ++ [v]))) vs).
  now rewrite IH, <- app_assoc.
Qed.

Lemma merged_values vs :
  Forall (fun v => isArray v = false) vs ->
  merged None vs = match vs with
                   | [] => None
                   | [v] => Some v
                   | _ => Some (Arr vs)
                   end.
Proof.
  intros H. destruct vs as [|v1 [|v2 vs]]; [reflexivity|reflexivity|].
  apply Forall_inv in H. cbn [merged fold_left].
  destruct v1 as [p|l|o]; [|discriminate|];
    match goal with |- fold_left _ _ (Some (Arr ?l)) = _ => exact (merged_sequence vs l) end.
Qed.

Section Callbacks.
Variable camelCase : string -> string.
Variable nativeType : string -> prim.

Local Abbreviation normalize := (Xml2js.elementNameFn camelCase).
Local Abbreviation compact := (Compact.compact camelCase nativeType).
Local Abbreviation addNode := (Compact.addNode camelCase nativeType).

Lemma compact_not_array x : isArray (compact x) = false.
Proof.
  destruct x as [n a cs|t]; [|reflexivity].
  rewrite compact_Element. now destruct (leafText (Element n a cs)).
Qed.

(** Under a name, the compact form holds the values of the children of
    that name, in document order. *)
Lemma collected_under k cs : forall acc,
  obj_get (fold_left addNode cs acc) k
  = merged (obj_get acc k) (map compact (List.filter (named normalize k) cs)).
Proof.
  induction cs as [|c cs IH]; intros acc; [reflexivity|].
  cbn [fold_left List.filter]. rewrite IH. destruct c as [n a cs'|t]; [|reflexivity].
  cbn [Compact.addNode named]. rewrite obj_get_addChild.
  destruct (String.eqb (normalize n) k) eqn:E; [|reflexivity].
  apply String.eqb_eq in E. subst k. reflexivity.
Qed.

(** The records of a tree that is the compact form of a regular
    document with the root [multistatus]. *)
Lemma results_of_compact (davResponse : Response) (doc : xml) :
  regularDocument camelCase doc = true ->
  rootName normalize doc = "multistatus" ->
  multistatusResults davResponse (compactDocument camelCase nativeType doc)
  = Ok (match Spec.responseElements normalize doc with
        | [] => [transportRecord davResponse]
        | elements =>
            map (fun r => toResult davResponse (compactDocument camelCase nativeType doc)
                                   (compact r)) elements
        end).
Proof.
  intros Hdoc Hroot. destruct doc as [name attrs children|]; [|discriminate].
  unfold regularDocument in Hdoc. apply andb_true_iff in Hdoc. destruct Hdoc as [_ Hleaf].
  apply negb_true_iff in Hleaf. cbn [rootName] in Hroot.
  unfold multistatusResults, compactDocument. cbn [rootName get obj_get].
  rewrite Hroot. cbn [String.eqb Ascii.eqb Bool.eqb default rbind Ok].
  rewrite (compact_inner _ _ name attrs children Hleaf). unfold id. cbn [get rbind Ok].
  f_equal. rewrite obj_get_app.
  assert (Ha : obj_get (attributeEntries attrs) "response" = None).
  { unfold attributeEntries. now destruct (manipulateAttributes attrs). }
  rewrite Ha, collected_under. cbn [obj_get].
  set (result := Obj [("multistatus", Obj (attributeEntries attrs ++ fold_left addNode children []))]).
  unfold Spec.responseElements.
  change (fun child : xml =>
            match child with
            | Element name0 _ _ => String.eqb (normalize name0) "response"
            | Text _ => false
            end) with (named normalize "response").
  set (rs := List.filter (named normalize "response") children).
  rewrite merged_values by (apply Forall_map, List.Forall_forall; intros; apply compact_not_array).
  destruct rs as [|r1 [|r2 rs]]; [reflexivity| |].
  - cbn [map]. simpl default. unfold resultsOf.
    pose proof (compact_not_array r1) as H1.
    now destruct (compact r1).
  - cbn [map]. simpl default. unfold resultsOf. cbn [responseBodies map].
    now rewrite map_map.
Qed.

End Callbacks.

Section Collaborators.
Context {Account : Type}.
Variable credentials : Account -> option DAVCredentials.
Variable camelCase : string -> string.
Variable nativeType : string -> prim.
Variable sax : string -> result Xml2js.xml.
Variable transport : FetchRequest -> result Response.

Local Abbreviation normalize := (Xml2js.elementNameFn camelCase).

(** X13.  [davRequest] on a regular multistatus document.  With
    credentials and a request body, when the transport answers with a
    success, a content type that indicates XML, and a text that the
    tokenizer reads as a regular document whose root is named
    [multistatus], [davRequest] makes one exchange and one parse and
    fulfils with one record per element named [response] among the
    children of the root, in document order: the record that lines
    122-152 make of the compact form of that element, with the whole tree as
    [raw].  Without such an element it fulfils with the one
    transport-level record. *)
Theorem davRequest_on_a_regular_multistatus (params : DavRequestParams Account)
  (client : DAVCredentials) (payload : JsVal) (davResponse : Response) (doc : xml)
  (log : list event) :
  digestClient credentials (account params) = Ok client ->
  xmlBody (init params) (default true (convertIncoming params)) = Ok payload ->
  transport (exchange params client payload) = Ok davResponse ->
  res_ok davResponse = true ->
  indicatesXml davResponse = true ->
  default true (parseOutgoing params) = true ->
  sax (res_text davResponse) = Ok doc ->
  regularDocument camelCase doc = true ->
  rootName normalize doc = "multistatus" ->
  davRequest credentials camelCase nativeType sax transport params log
  = (Ok (match Spec.responseElements normalize doc with
         | [] => [transportRecord davResponse]
         | elements =>
             map (fun r => toResult davResponse (compactDocument camelCase nativeType doc)
                                    (Compact.compact camelCase nativeType r)) elements
         end),
     log ++ [Fetched (exchange params client payload); ParsedXml (res_text davResponse)]).
Proof.
  intros Hclient Hbody Hfetch Hok Hxml Hparse Hsax Hdoc Hroot.
  rewrite (davRequest_parses credentials camelCase nativeType sax transport
             params client payload davResponse log Hclient Hbody Hfetch Hok Hxml Hparse), Hsax.
  rewrite rbind_Ok, (parse_regular camelCase nativeType doc Hdoc), rbind_Ok.
  now rewrite (results_of_compact camelCase nativeType davResponse doc Hdoc Hroot).
Qed.

End Collaborators.
End RegularAnswers.

(** ** The record of a response element *)

Module ResponseRecords.
Import JsString Js Xml2js JsFacts ObjectFacts Documents.
Import Compact RegularRuns RegularAnswers.
Import Async Request RegexFacts Multistatus.
Local Open Scope list_scope.

Section Callbacks.
Variable camelCase : string -> string.
Variable nativeType : string -> prim.

Local Abbreviation normalize := (Xml2js.elementNameFn camelCase).
Local Abbreviation compact := (Compact.compact camelCase nativeType).

(** What the compact form of an element of element content holds under
    a name: nothing, the one child of that name, or the sequence of the
    children of that name. *)
Lemma children_under n a cs k :
  isLeaf (Element n a cs) = false -> k <> "_attributes" ->
  get_opt (compact (Element n a cs)) k
  = match map compact (List.filter (named normalize k) cs) with
    | [] => undefined
    | [v] => v
    | v1 :: v2 :: vs => Arr (v1 :: v2 :: vs)
    end.
Proof.
  intros Hleaf Hk. rewrite (compact_inner _ _ n a cs Hleaf).
  unfold get_opt. cbn [get]. unfold Ok. rewrite obj_get_app.
  assert (Ha : obj_get (attributeEntries a) k = None).
  { unfold attributeEntries. destruct (manipulateAttributes a); [reflexivity|].
    cbn [obj_get]. apply String.eqb_neq in Hk. rewrite String.eqb_sym in Hk. now rewrite Hk. }
  rewrite Ha, collected_under. cbn [obj_get].
  rewrite merged_values by (apply Forall_map, List.Forall_forall; intros; apply compact_not_array).
  now destruct (map compact (List.filter (named normalize k) cs)) as [|v1 [|v2 vs]].
Qed.

Lemma propstats_of_children vs :
  Forall (fun v => isArray v = false) vs ->
  flat_map propEntries (propstats match vs with
                                  | [] => undefined
                                  | [v] => v
                                  | v1 :: v2 :: l => Arr (v1 :: v2 :: l)
                                  end)
  = flat_map propEntries vs.
Proof.
  intros H. destruct vs as [|v1 [|v2 vs]]; [reflexivity| |reflexivity].
  apply Forall_inv in H. now destruct v1.
Qed.

(** C3.  The [props] of a response are one flat mapping: the [prop]
    sub-mappings of its [propstat] blocks, taken in order, in which the
    last block that has a key decides its value.  The blocks are the
    members of [propstat] when that is a sequence and [propstat] itself
    when it is not, so that a single [propstat] object gives the same
    [props] as that object wrapped in a one-element sequence.  For a
    response element of a document, the blocks are the compact forms of
    its [propstat] children in document order. *)
Theorem props_fold_propstat_blocks
  (davResponse : Response) (result responseBody : JsVal) :
  truthy responseBody = true ->
  exists merged,
    props (toResult davResponse result responseBody) = Some (Obj merged)
    /\ List.NoDup (keys merged)
    /\ (forall blocks,
          get_opt responseBody "propstat" = Arr blocks ->
          forall k, obj_get merged k = Spec.last_value (flat_map propEntries blocks) k)
    /\ (isArray (get_opt responseBody "propstat") = false ->
        forall k,
          obj_get merged k = Spec.last_value (propEntries (get_opt responseBody "propstat")) k)
    /\ (forall wrapped,
          truthy wrapped = true ->
          isArray (get_opt responseBody "propstat") = false ->
          get_opt wrapped "propstat" = Arr [get_opt responseBody "propstat"] ->
          props (toResult davResponse result wrapped)
          = props (toResult davResponse result responseBody))
    /\ (forall n a cs,
          isLeaf (Element n a cs) = false ->
          responseBody = compact (Element n a cs) ->
          forall k,
            obj_get merged k
            = Spec.last_value
                (flat_map propEntries
                   (map compact (List.filter (named normalize "propstat") cs))) k).
Proof.
  intros Hrb. exists (mergeProps (get_opt responseBody "propstat")).
  unfold toResult. rewrite Hrb. cbn [negb props].
  split; [reflexivity|]. split; [|split; [|split; [|split]]].
  - unfold mergeProps.
    exact (proj1 (mergeProps_from (propstats (get_opt responseBody "propstat")) [] ""
                    ltac:(constructor))).
  - intros blocks Hb k. now rewrite mergeProps_lookup, Hb.
  - intros Hsingle k. rewrite mergeProps_lookup.
    destruct (get_opt responseBody "propstat"); [|discriminate|];
      cbn [propstats flat_map]; now rewrite app_nil_r.
  - intros wrapped Hw Hsingle Hprop. rewrite Hw. cbn [negb props].
    unfold mergeProps. now rewrite Hprop, propstats_single.
  - intros n a cs Hleaf -> k. rewrite mergeProps_lookup.
    rewrite (children_under n a cs "propstat" Hleaf) by discriminate.
    rewrite propstats_of_children; [reflexivity|].
    apply Forall_map, List.Forall_forall. intros; apply compact_not_array.
Qed.



End Callbacks.
End ResponseRecords.

(** ** The decision after the exchange *)

Module DecisionPoint.
Import JsString Js Xml2js Documents.
Import TextSteps ElementSteps.
Import MultistatusRuns MultistatusDocuments.
Import Async Request Orchestrator.
Local Open Scope list_scope.

Section Collaborators.
Context {Account : Type}.
Variable credentials : Account -> option DAVCredentials.
Variable camelCase : string -> string.
Variable nativeType : string -> prim.
Variable sax : string -> result Xml2js.xml.
Variable transport : FetchRequest -> result Response.

Local Abbreviation normalize := (Xml2js.elementNameFn camelCase).

(** C1 (as the code has it).  Once the transport has answered: on a
    non-success status, a content type that does not indicate XML, or
    [parseOutgoing] false, [davRequest] fulfils with the one Raw Fallback
    Result built from the answer (final URL, ok flag, status, statusText,
    body text verbatim) and the log shows the exchange and no parse.
    Otherwise it parses the body, once; it rejects with the error of the
    tokenizer when the body is no XML, and on a multistatus document it
    fulfils with one record per response element, in document order,
    each with the coerced text of the [href] of its element, or with the
    one transport-level record when the document has no response
    element. *)
Theorem davRequest_decision
  (params : DavRequestParams Account) (client : DAVCredentials) (payload : JsVal)
  (davResponse : Response) (log : list event) :
  digestClient credentials (account params) = Ok client ->
  xmlBody (init params) (default true (convertIncoming params)) = Ok payload ->
  transport (exchange params client payload) = Ok davResponse ->
  let parseOutgoing := default true (parseOutgoing params) in
  let sent := log ++ [Fetched (exchange params client payload)] in
  let answer := davRequest credentials camelCase nativeType sax transport params log in
  ((res_ok davResponse = false \/ indicatesXml davResponse = false \/ parseOutgoing = false) ->
   answer
   = (Ok [ {| raw := Some (Prim (PStr (res_text davResponse)));
              href := Some (Prim (PStr (res_url davResponse)));
              status := res_status davResponse;
              statusText := res_statusText davResponse;
              ok := res_ok davResponse;
              error := None; responsedescription := None; props := None |} ],
      sent))
  /\ ((res_ok davResponse = true /\ indicatesXml davResponse = true /\ parseOutgoing = true) ->
      snd answer = sent ++ [ParsedXml (res_text davResponse)]
      /\ (forall e, sax (res_text davResponse) = Err e -> fst answer = Err e)
      /\ (forall doc,
            sax (res_text davResponse) = Ok doc ->
            multistatusDocument normalize doc = true ->
            exists records,
              fst answer = Ok records
              /\ match responseHrefs normalize doc with
                 | [] => records = [transportRecord davResponse]
                 | texts => map href records = map (fun t => Some (Prim (nativeType t))) texts
                 end)).
Proof.
  intros Hclient Hbody Hfetch parseOutgoing sent answer. subst answer.
  rewrite (davRequest_after_exchange credentials camelCase nativeType sax transport
             params client payload davResponse log Hclient Hbody Hfetch).
  fold parseOutgoing sent. split.
  - intros Hraw.
    assert (E : rawFallback davResponse parseOutgoing = true).
    { unfold rawFallback. fold (indicatesXml davResponse).
      destruct Hraw as [H|[H|H]]; rewrite H; simpl; rewrite ?orb_true_r; reflexivity. }
    now rewrite E.
  - intros (H1 & H2 & H3).
    assert (E : rawFallback davResponse parseOutgoing = false).
    { unfold rawFallback. fold (indicatesXml davResponse). now rewrite H1, H2, H3. }
    rewrite E. cbn [fst snd]. split; [reflexivity|]. split.
    + intros e ->. reflexivity.
    + intros doc -> Hdoc.
      destruct (parse_multistatus camelCase nativeType davResponse doc Hdoc)
        as (result & response & Hp & Hres & Hshape).
      rewrite rbind_Ok, Hp, rbind_Ok, Hres.
      exists (resultsOf davResponse result response). split; [reflexivity|].
      assert (Hhrefs : forall bodies,
                map href (map (toResult davResponse result) bodies) = map hrefOf bodies).
      { intros bodies. rewrite map_map. apply map_ext. intros b.
        apply MultistatusExtraction.href_toResult. }
      destruct (responseHrefs normalize doc) as [|t1 [|t2 ts]].
      * now rewrite Hshape.
      * destruct Hshape as [Harr Hh]. unfold resultsOf.
        assert (E' : responseBodies response = [response])
          by (destruct response; simpl in *; congruence).
        rewrite E', Hhrefs. cbn [map]. now rewrite Hh.
      * destruct Hshape as (bodies & -> & Hh). unfold resultsOf. cbn [responseBodies].
        now rewrite Hhrefs.
Qed.

End Collaborators.

(** C1, the claim as stated, at a success whose XML body has the root
    [error]: the body is parsed, and the call rejects where line 118
    reads [result.multistatus.response]; no sequence is returned. *)
Lemma success_with_another_root_rejects :
  res_ok (Samples.xmlAnswer Samples.errorText) = true
  /\ indicatesXml (Samples.xmlAnswer Samples.errorText) = true
  /\ davRequest AddressBook.credentials Util.camelCase Util.nativeType
       Samples.documentTokenizer Samples.errorServer Samples.params []
     = (Err (TypeError "Cannot read properties of undefined (reading 'response')"),
        [Fetched (exchange Samples.params Samples.client Samples.payload);
         ParsedXml Samples.errorText]).
Proof. repeat split; vm_compute; reflexivity. Qed.

End DecisionPoint.

(** ** Closed examples of the above *)

Module RequestExamples.
Import JsString Js Async Request AddressBook.
Local Open Scope list_scope.

Lemma object_requests_with_credentials_witness :
  let request method headers body :=
    {| fetch_username := Some "user"; fetch_password := Some "secret";
       fetch_url := Some "https://dav.example/addressbooks/user/contacts/1.vcf";
       fetch_method := Some method;
       fetch_headers := headers; fetch_body := body |} in
  let conditional :=
    Obj [("If-Match", Prim (PStr "e1")); ("content-type", Prim (PStr "text/vcard"))] in
  createObject credentials Samples.plainTextServer Samples.objectParams []
  = (Ok Samples.plainText,
     [Fetched (request "PUT" (Obj [("content-type", Prim (PStr "text/vcard"))])
                 (Prim (PStr "BEGIN:VCARD")))])
  /\ updateObject credentials Samples.keepHeaders Samples.plainTextServer Samples.objectParams []
     = (Ok Samples.plainText, [Fetched (request "PUT" conditional (Prim (PStr "BEGIN:VCARD")))])
  /\ deleteObject credentials Samples.keepHeaders Samples.plainTextServer Samples.objectParams []
     = (Ok Samples.plainText, [Fetched (request "DELETE" conditional undefined)]).
Proof.
  destruct (RequestFacts.object_requests_with_credentials credentials Samples.keepHeaders
              Samples.plainTextServer Samples.objectParams Samples.client [] eq_refl)
    as (H1 & H2 & H3 & _).
  split; [exact H1|]. split; [exact H2|exact H3].
Defined.

Lemma hasDisplayName_keeps_witness : hasDisplayName Samples.yearRecord = Ok false.
Proof.
  exact (AddressBookQueries.hasDisplayName_keeps Samples.yearRecord
           [("displayname", Prim (PNum "2024"))] eq_refl).
Defined.

Lemma fetchVCards_one_card_per_record_witness :
  exists o,
    Some Samples.someOptions = Some o
    /\ Samples.cardQuery (ab_url Samples.contacts)
         (Obj [("addressbook-query",
                Obj [("_attributes",
                      Samples.davAttribute [Samples.namespaces CARDDAV; Samples.namespaces DAV]);
                     ("prop",
                      Samples.propNames
                        [ {| prop_name := "getetag"; prop_namespace := Samples.namespaces DAV |};
                          {| prop_name := "address-data";
                             prop_namespace := Samples.namespaces CARDDAV |} ]);
                     ("filter",
                      Obj [("prop-filter",
                            Obj [("_attributes", Obj [("name", Prim (PStr "FN"))])])])])])
         (Obj [("depth", Prim (PStr "1")); ("headers", opt_headers o)]) []
       = (Ok (map vc_data Samples.cards), [])
    /\ Forall (fun v =>
                 vc_addressBook v = Samples.contacts
                 /\ Samples.joinUrl (rootUrl (account Samples.contacts)) (href (vc_data v))
                    = Ok (vc_url v)
                 /\ exists p,
                      props (vc_data v) = Some p
                      /\ get p "getetag" = Ok (vc_etag v)
                      /\ get p "addressData" = Ok (vc_addressData v)) Samples.cards.
Proof.
  apply (AddressBookQueries.fetchVCards_one_card_per_record Samples.namespaces
           Samples.davAttribute Samples.joinUrl Samples.propNames Samples.cardQuery
           Samples.contacts (Some Samples.someOptions) [] [] Samples.cards).
  reflexivity.
Defined.

Lemma davRequest_on_a_multistatus_witness :
  exists records,
    davRequest credentials Util.camelCase Util.nativeType Samples.documentTokenizer
      Samples.twoResponsesServer Samples.params []
    = (Ok records,
       [Fetched (exchange Samples.params Samples.client Samples.payload);
        ParsedXml Samples.twoResponsesText])
    /\ map href records = [Some (Prim (PStr "/a/")); Some (Prim (PStr "/b/"))].
Proof.
  exact (ParsedAnswers.davRequest_on_a_multistatus credentials Util.camelCase Util.nativeType
           Samples.documentTokenizer Samples.twoResponsesServer Samples.params Samples.client
           Samples.payload (Samples.xmlAnswer Samples.twoResponsesText) Samples.twoResponses []
           eq_refl eq_refl eq_refl eq_refl eq_refl eq_refl eq_refl eq_refl).
Defined.

Lemma davRequest_rejects_other_roots_witness :
  davRequest credentials Util.camelCase Util.nativeType Samples.documentTokenizer
    Samples.errorServer Samples.params []
  = (Err (TypeError "Cannot read properties of undefined (reading 'response')"),
     [Fetched (exchange Samples.params Samples.client Samples.payload);
      ParsedXml Samples.errorText]).
Proof.
  apply (ParsedAnswers.davRequest_rejects_other_roots credentials Util.camelCase
           Util.nativeType Samples.documentTokenizer Samples.errorServer Samples.params
           Samples.client Samples.payload (Samples.xmlAnswer Samples.errorText)
           Samples.errorDocument []); try reflexivity.
  discriminate.
Defined.

Lemma regular_document_compact_witness :
  Compact.regularDocument Util.camelCase Samples.twoResponses = true
  /\ Xml2js.xml2js_document Util.camelCase Util.nativeType Samples.twoResponses
     = Ok (Compact.compactDocument Util.camelCase Util.nativeType Samples.twoResponses).
Proof.
  split; [reflexivity|].
  apply (RegularDocuments.regular_document_compact Util.camelCase Util.nativeType
           Samples.twoResponses).
  reflexivity.
Defined.

Lemma davRequest_on_a_regular_multistatus_witness :
  davRequest credentials Util.camelCase Util.nativeType Samples.documentTokenizer
    Samples.twoResponsesServer Samples.params []
  = (Ok (map (fun r => toResult (Samples.xmlAnswer Samples.twoResponsesText)
                         (Compact.compactDocument Util.camelCase Util.nativeType
                            Samples.twoResponses)
                         (Compact.compact Util.camelCase Util.nativeType r))
             (Spec.responseElements (Xml2js.elementNameFn Util.camelCase)
                Samples.twoResponses)),
     [Fetched (exchange Samples.params Samples.client Samples.payload);
      ParsedXml Samples.twoResponsesText]).
Proof.
  exact (RegularAnswers.davRequest_on_a_regular_multistatus credentials Util.camelCase
           Util.nativeType Samples.documentTokenizer Samples.twoResponsesServer Samples.params
           Samples.client Samples.payload (Samples.xmlAnswer Samples.twoResponsesText)
           Samples.twoResponses []
           eq_refl eq_refl eq_refl eq_refl eq_refl eq_refl eq_refl eq_refl eq_refl).
Defined.

Lemma davRequest_decision_witness :
  davRequest AddressBook.credentials Util.camelCase Util.nativeType Samples.documentTokenizer
    Samples.plainTextServer Samples.params []
  = (Ok [ {| raw := Some (Prim (PStr "not a multistatus"));
             href := Some (Prim (PStr "https://dav.example/addressbooks/user/"));
             status := 200; statusText := "OK"; ok := true;
             error := None; responsedescription := None; props := None |} ],
     [Fetched (exchange Samples.params Samples.client Samples.payload)])
  /\ snd (davRequest AddressBook.credentials Util.camelCase Util.nativeType
            Samples.documentTokenizer Samples.twoResponsesServer Samples.params [])
     = [Fetched (exchange Samples.params Samples.client Samples.payload);
        ParsedXml Samples.twoResponsesText]
  /\ exists records,
       fst (davRequest AddressBook.credentials Util.camelCase Util.nativeType
              Samples.documentTokenizer Samples.twoResponsesServer Samples.params [])
       = Ok records
       /\ map href records = [Some (Prim (PStr "/a/")); Some (Prim (PStr "/b/"))].
Proof.
  split; [|split].
  - apply (proj1 (DecisionPoint.davRequest_decision AddressBook.credentials Util.camelCase
                    Util.nativeType Samples.documentTokenizer Samples.plainTextServer
                    Samples.params Samples.client Samples.payload Samples.plainText []
                    eq_refl eq_refl eq_refl)).
    right. left. reflexivity.
  - apply (proj2 (DecisionPoint.davRequest_decision AddressBook.credentials Util.camelCase
                    Util.nativeType Samples.documentTokenizer Samples.twoResponsesServer
                    Samples.params Samples.client Samples.payload
                    (Samples.xmlAnswer Samples.twoResponsesText) []
                    eq_refl eq_refl eq_refl)).
    repeat split; reflexivity.
  - apply (proj2 (DecisionPoint.davRequest_decision AddressBook.credentials Util.camelCase
                    Util.nativeType Samples.documentTokenizer Samples.twoResponsesServer
                    Samples.params Samples.client Samples.payload
                    (Samples.xmlAnswer Samples.twoResponsesText) []
                    eq_refl eq_refl eq_refl) (conj eq_refl (conj eq_refl eq_refl)))
            with (doc := Samples.twoResponses); reflexivity.
Defined.

Lemma props_fold_propstat_blocks_witness :
  exists merged,
    props (toResult Samples.multistatusAnswer undefined
             (Compact.compact Util.camelCase Util.nativeType Samples.deniedResponse))
    = Some (Obj merged)
    /\ obj_get merged "displayname" = Some (Prim (PStr "A"))
    /\ obj_get merged "getctag" = Some (Prim (PNum "2"))
    /\ obj_get merged "getetag" = None.
Proof.
  destruct (ResponseRecords.props_fold_propstat_blocks Util.camelCase Util.nativeType
              Samples.multistatusAnswer undefined
              (Compact.compact Util.camelCase Util.nativeType Samples.deniedResponse) eq_refl)
    as (merged & Hprops & _ & _ & _ & _ & Hdoc).
  exists merged. split; [exact Hprops|].
  pose proof (Hdoc "d:response" [] Samples.deniedContent eq_refl eq_refl) as Hk.
  split; [|split]; rewrite Hk; reflexivity.
Defined.



End RequestExamples.
